(** * GLTFLoader.js: a shallow embedding of the minimal binary glTF loader

    The development follows [src/GLTFLoader.js] function by function:
    the container parser ([parse]), the buffer / view / accessor resolver
    ([_buildBuffers], [_buildAccessors]), the image and texture resolver
    ([_buildImages], [_buildTextures]), the mesh builder ([_buildMesh]) and
    the node and scene builder ([_buildNode], [_buildScene]).

    JavaScript values are modelled as the loader uses them: numbers that
    carry indices, offsets and counts are integers ([Z]); numbers that are
    multiplied, divided or compared as reals are IEEE-754 binary64 values
    ([spec_float] with [prec = 53], [emax = 1024]); an absent property is
    [None].  Exceptions and the lines written to the console, by the
    loader ([console.warn]) and by three.js ([console.error]), are threaded
    through the monad [JS.M].  The objects of three.js, which the loader
    only constructs and fills, are records; [Object3D.add] is modelled on
    an arena of nodes, and [BufferGeometry.computeBoundingSphere] by the
    radius it computes from the positions.  [JSON.parse] is a parameter of
    the parser. *)

From Stdlib Require Import ZArith List String Ascii Bool Lia SpecFloat DecimalString.
From Stdlib.Strings Require Import Byte.
Import ListNotations.
Local Open Scope Z_scope.

(* ================================================================== *)
(** * The JavaScript runtime the loader relies on *)
(* ================================================================== *)

Module JS.

(** ** Numbers

    A number is a binary64 value in the canonical form the operations
    below return ([valid_binary 53 1024]). *)

Definition number := spec_float.

Definition of_Z (z : Z) : number := binary_normalize 53 1024 z 0 false.
Definition NaN : number := S754_nan.
Definition mul : number -> number -> number := SFmul 53 1024.
Definition div : number -> number -> number := SFdiv 53 1024.
Definition ltb : number -> number -> bool := SFltb.
Definition add : number -> number -> number := SFadd 53 1024.
Definition sub : number -> number -> number := SFsub 53 1024.
Definition Infinity : number := S754_infinity false.

Definition isNaN (x : number) : bool :=
  match x with
  | S754_nan => true
  | _ => false
  end.

(** [Math.sqrt(x)] *)
Definition Math_sqrt : number -> number := SFsqrt 53 1024.

(** [Math.max(a, b)]: NaN when an argument is NaN; [+0] is larger than
    [-0]. *)
Definition Math_max (a b : number) : number :=
  match a, b with
  | S754_nan, _ | _, S754_nan => NaN
  | S754_zero true, S754_zero _ => b
  | _, _ => if ltb a b then b else a
  end.

(** Storing a number into a [Float32Array] rounds it to binary32; read
    back, it is the binary64 number of the same value. *)
Definition fround (x : number) : number :=
  match x with
  | S754_finite s m e =>
      match binary_round 24 128 s m e with
      | S754_finite s' m' e' => binary_round 53 1024 s' m' e'
      | y => y
      end
  | _ => x
  end.

(** The integer part of a number, rounding toward zero; [0] for zeros,
    infinities and NaN (as in ToInt32). *)
Definition trunc (x : number) : Z :=
  match x with
  | S754_finite s m e =>
      let a := match e with
               | Zneg p => Z.shiftr (Zpos m) (Zpos p)
               | _ => Z.shiftl (Zpos m) e
               end in
      if s then - a else a
  | _ => 0
  end.

(** Two's-complement wrap-around to a signed 32-bit integer. *)
Definition wrap32 (z : Z) : Z :=
  let k := z mod 2 ^ 32 in
  if 2 ^ 31 <=? k then k - 2 ^ 32 else k.

Definition ToInt32 (x : number) : Z := wrap32 (trunc x).

(** [x << n] and [a | b]; the operands of [|] are already int32 here. *)
Definition shl (x : number) (n : Z) : Z :=
  wrap32 (Z.shiftl (ToInt32 x) (n mod 32)).
Definition bor (a b : Z) : Z := wrap32 (Z.lor a b).

Definition truthy_number (x : number) : bool :=
  match x with
  | S754_zero _ | S754_nan => false
  | _ => true
  end.

(** ** JSON scalars, where the loader coerces them

    Only the entries of colour-factor arrays are kept as raw values:
    the loader applies [||], [*], [<] and [!= null] to them. *)

Inductive value :=
| VNull
| VBool (b : bool)
| VNum (x : number).

(** [None] stands for [undefined]. *)
Definition truthy (v : option value) : bool :=
  match v with
  | None | Some VNull => false
  | Some (VBool b) => b
  | Some (VNum x) => truthy_number x
  end.

Definition ToNumber (v : option value) : number :=
  match v with
  | None => NaN
  | Some VNull => S754_zero false
  | Some (VBool true) => of_Z 1
  | Some (VBool false) => S754_zero false
  | Some (VNum x) => x
  end.

(** [v != null] *)
Definition not_nullish (v : option value) : bool :=
  match v with
  | None | Some VNull => false
  | _ => true
  end.

(** ** Exceptions and the console *)

Inductive exn :=
| Error (message : string)
| TypeError
| RangeError
| SyntaxError.

Inductive result (A : Type) :=
| Ok (a : A)
| Throw (e : exn).
Arguments Ok {A} a.
Arguments Throw {A} e.

(** A computation yields the lines it wrote to the console and either a
    value or the exception that ended it. *)
Definition M (A : Type) : Type := list string * result A.

Definition ret {A} (a : A) : M A := ([], Ok a).
Definition throw {A} (e : exn) : M A := ([], Throw e).
Definition console_warn (msg : string) : M unit := ([msg], Ok tt).
Definition console_error (msg : string) : M unit := ([msg], Ok tt).

Definition bind {A B} (m : M A) (f : A -> M B) : M B :=
  match m with
  | (w, Ok a) => let (w', r) := f a in (w ++ w', r)
  | (w, Throw e) => (w, Throw e)
  end.

Definition console {A} (m : M A) : list string := fst m.
Definition outcome {A} (m : M A) : result A := snd m.

Definition throws {A} (m : M A) : bool :=
  match outcome m with Throw _ => true | Ok _ => false end.

(** [arr.map(f)] with a callback that may throw; the callback also
    receives the index. *)
Fixpoint mapi_from {A B} (i : Z) (f : A -> Z -> M B) (l : list A) : M (list B) :=
  match l with
  | [] => ret []
  | a :: l' =>
      bind (f a i) (fun b =>
      bind (mapi_from (i + 1) f l') (fun bs => ret (b :: bs)))
  end.
Definition mapi {A B} (f : A -> Z -> M B) (l : list A) : M (list B) :=
  mapi_from 0 f l.
Definition map {A B} (f : A -> M B) (l : list A) : M (list B) :=
  mapi (fun a _ => f a) l.

(** [arr.forEach(f)] threading the state the callback mutates. *)
Fixpoint forEachi_from {A S} (i : Z) (f : A -> Z -> S -> M S) (l : list A) (s : S) : M S :=
  match l with
  | [] => ret s
  | a :: l' => bind (f a i s) (forEachi_from (i + 1) f l')
  end.
Definition forEachi {A S} (f : A -> Z -> S -> M S) (l : list A) (s : S) : M S :=
  forEachi_from 0 f l s.
Definition forEach {A S} (f : A -> S -> M S) (l : list A) (s : S) : M S :=
  forEachi (fun a _ => f a) l s.

(** ** Arrays *)

(** [arr[i]]: [undefined] outside the array. *)
Definition index {A} (arr : list A) (i : Z) : option A :=
  if i <? 0 then None else nth_error arr (Z.to_nat i).

(** [o || d] on an optional array. *)
Definition or_empty {A} (o : option (list A)) : list A :=
  match o with Some l => l | None => [] end.

(** [n || 0] on an optional integer. *)
Definition or_zero (o : option Z) : Z :=
  match o with Some n => n | None => 0 end.

(** ** ArrayBuffer and DataView *)

Definition ArrayBuffer := list byte.

Definition byteLength (b : ArrayBuffer) : Z := Z.of_nat (List.length b).

(** [ArrayBuffer.prototype.slice(begin, end)]: a negative bound counts
    from the end, both bounds are clamped to the buffer. *)
Definition clamp_index (len k : Z) : Z :=
  if k <? 0 then Z.max (len + k) 0 else Z.min k len.

Definition slice (b : ArrayBuffer) (begin end_ : Z) : ArrayBuffer :=
  let len := byteLength b in
  let first := clamp_index len begin in
  let final := clamp_index len end_ in
  let newLen := Z.max (final - first) 0 in
  firstn (Z.to_nat newLen) (skipn (Z.to_nat first) b).

Definition u8 (b : byte) : Z := Z.of_N (Byte.to_N b).

(** [dv.getUint32(offset, true)]: little endian; a read that does not
    fit in the buffer throws a RangeError. *)
Definition getUint32 (dv : ArrayBuffer) (offset : Z) : M Z :=
  if (offset <? 0) || (byteLength dv <? offset + 4) then throw RangeError
  else
    match skipn (Z.to_nat offset) dv with
    | b0 :: b1 :: b2 :: b3 :: _ =>
        ret (u8 b0 + 2 ^ 8 * u8 b1 + 2 ^ 16 * u8 b2 + 2 ^ 24 * u8 b3)
    | _ => throw RangeError
    end.

(** ** Typed arrays *)

Inductive Ctor :=
| Int8Array | Uint8Array | Int16Array | Uint16Array | Uint32Array | Float32Array.

Definition BYTES_PER_ELEMENT (c : Ctor) : Z :=
  match c with
  | Int8Array | Uint8Array => 1
  | Int16Array | Uint16Array => 2
  | Uint32Array | Float32Array => 4
  end.

(** A typed array is either a window on an ArrayBuffer, or a
    [Float32Array] that was allocated and filled element by element. *)
Inductive TypedArray :=
| View (c : Ctor) (buffer : ArrayBuffer) (byteOffset length : Z)
| Floats (elements : list number).

Definition ta_length (a : TypedArray) : Z :=
  match a with
  | View _ _ _ n => n
  | Floats l => Z.of_nat (List.length l)
  end.

Definition MAX_SAFE_INTEGER : Z := 2 ^ 53 - 1.

(** ToIndex on an integer. *)
Definition ToIndex (n : Z) : M Z :=
  if (n <? 0) || (MAX_SAFE_INTEGER <? n) then throw RangeError else ret n.

(** [new Ctor(view, byteOffset, length)].  [view = None] is [undefined]:
    the first argument is then not an object and is taken as a length,
    ToIndex(undefined) = 0.  [length = None] is NaN, and ToIndex(NaN) = 0. *)
Definition new_TypedArray (c : Ctor) (view : option ArrayBuffer)
    (byteOffset : Z) (length : option Z) : M TypedArray :=
  match view with
  | None => ret (View c [] 0 0)
  | Some buffer =>
      bind (ToIndex byteOffset) (fun offset =>
      if negb (offset mod BYTES_PER_ELEMENT c =? 0) then throw RangeError
      else
        bind (ToIndex (or_zero length)) (fun newLength =>
        if byteLength buffer <? offset + newLength * BYTES_PER_ELEMENT c
        then throw RangeError
        else ret (View c buffer offset newLength)))
  end.

(** [a[i]] for the two unsigned integer arrays the loader reads; typed
    arrays use the byte order of the platform, little endian here. *)
Definition get_uint (a : TypedArray) (i : Z) : Z :=
  match a with
  | View Uint8Array buffer off _ =>
      match skipn (Z.to_nat (off + i)) buffer with
      | b0 :: _ => u8 b0
      | _ => 0
      end
  | View Uint16Array buffer off _ =>
      match skipn (Z.to_nat (off + 2 * i)) buffer with
      | b0 :: b1 :: _ => u8 b0 + 2 ^ 8 * u8 b1
      | _ => 0
      end
  | _ => 0
  end.

(** The integer a run of bytes holds, least significant byte first. *)
Fixpoint le_value (bs : list byte) : Z :=
  match bs with
  | [] => 0
  | b :: bs' => u8 b + 2 ^ 8 * le_value bs'
  end.

(** A [bits]-bit pattern read as a two's-complement integer. *)
Definition signed (bits w : Z) : Z :=
  if 2 ^ (bits - 1) <=? w then w - 2 ^ bits else w.

(** The number a binary32 bit pattern stands for: sign bit, 8 exponent
    bits, 23 fraction bits; an exponent field of 255 is an infinity or
    a NaN, an exponent field of 0 a zero or a subnormal number. *)
Definition float32_of_bits (w : Z) : number :=
  let s := Z.testbit w 31 in
  let e := Z.land (Z.shiftr w 23) 255 in
  let f := Z.land w (2 ^ 23 - 1) in
  if e =? 255 then (if f =? 0 then S754_infinity s else NaN)
  else
    let m := if e =? 0 then f else f + 2 ^ 23 in
    let ex := if e =? 0 then -149 else e - 150 in
    binary_normalize 53 1024 (if s then - m else m) ex s.

(** [a[i]] as a number; [None] is [undefined], which an index outside
    the array gives. *)
Definition get (a : TypedArray) (i : Z) : option number :=
  match a with
  | Floats l => index l i
  | View c buffer off n =>
      if (i <? 0) || (n <=? i) then None
      else
        let size := BYTES_PER_ELEMENT c in
        let w := le_value (firstn (Z.to_nat size)
                             (skipn (Z.to_nat (off + i * size)) buffer)) in
        Some (match c with
              | Int8Array => of_Z (signed 8 w)
              | Int16Array => of_Z (signed 16 w)
              | Uint8Array | Uint16Array | Uint32Array => of_Z w
              | Float32Array => float32_of_bits w
              end)
  end.

(** ** Strings *)

Definition truthy_string (o : option string) : bool :=
  match o with
  | None | Some EmptyString => false
  | Some _ => true
  end.

(** [s || d] *)
Definition or_string (o : option string) (d : string) : string :=
  if truthy_string o then match o with Some s => s | None => d end else d.

(** [url.lastIndexOf('/')] *)
Fixpoint lastIndexOf_from (i : Z) (c : ascii) (s : string) (found : Z) : Z :=
  match s with
  | EmptyString => found
  | String a s' =>
      lastIndexOf_from (i + 1) c s' (if Ascii.eqb a c then i else found)
  end.
Definition lastIndexOf (s : string) (c : ascii) : Z :=
  lastIndexOf_from 0 c s (-1).

(** [s.substring(0, n)] *)
Definition substring0 (s : string) (n : Z) : string :=
  String.substring 0 (Z.to_nat n) s.

End JS.

Declare Scope js_scope.
Delimit Scope js_scope with js.
Notation "x <- m ;; k" := (JS.bind m (fun x => k))
  (at level 61, m at next level, right associativity) : js_scope.
Notation "m ;;; k" := (JS.bind m (fun _ => k))
  (at level 61, right associativity) : js_scope.
Local Open Scope js_scope.

(* ================================================================== *)
(** * The metadata document

    The value [JSON.parse] returns, restricted to the properties the
    loader reads.  Every property is optional, as in JSON; a property that
    is present holds a value of the type the glTF schema gives it (an
    integer for an index, an offset, a length, a count or a code; an array
    for a list), except the entries of the colour factors, which are kept
    as the JSON scalars they are ([JS.value]). *)
(* ================================================================== *)

Record BufferDef := {
  buf_uri : option string;
  buf_byteLength : option Z }.

Record BufferViewDef := {
  bv_buffer : option Z;
  bv_byteOffset : option Z;
  bv_byteLength : option Z }.

Record AccessorDef := {
  acc_bufferView : option Z;
  acc_byteOffset : option Z;
  acc_componentType : option Z;
  acc_type : option string;
  acc_count : option Z;
  acc_normalized : option bool }.

Record AttributesDef := {
  POSITION : option Z;
  NORMAL : option Z;
  COLOR_0 : option Z }.

Record PrimitiveDef := {
  prim_mode : option Z;
  prim_attributes : option AttributesDef;
  prim_indices : option Z;
  prim_material : option Z }.

Record MeshDef := {
  mesh_name : option string;
  mesh_primitives : option (list PrimitiveDef) }.

Record TextureInfoDef := {
  ti_index : option Z }.

Record PbrDef := {
  baseColorFactor : option (list JS.value);
  baseColorTexture : option TextureInfoDef;
  metallicFactor : option JS.number;
  roughnessFactor : option JS.number }.

Record MaterialDef := {
  pbrMetallicRoughness : option PbrDef;
  emissiveFactor : option (list JS.value);
  doubleSided : option bool;
  alphaMode : option string }.

Record ImageDef := {
  img_bufferView : option Z;
  img_uri : option string;
  img_mimeType : option string }.

Record SamplerDef := {
  wrapS : option Z;
  wrapT : option Z;
  magFilter : option Z;
  minFilter : option Z }.

Record TextureDef := {
  tex_source : option Z;
  tex_sampler : option Z }.

Record NodeDef := {
  node_name : option string;
  node_mesh : option Z;
  node_translation : option (list JS.number);
  node_scale : option (list JS.number);
  node_rotation : option (list JS.number);
  node_children : option (list Z) }.

Record SceneDef := {
  scene_nodes : option (list Z) }.

Record Document := {
  buffers : option (list BufferDef);
  bufferViews : option (list BufferViewDef);
  accessors : option (list AccessorDef);
  meshes : option (list MeshDef);
  materials : option (list MaterialDef);
  images : option (list ImageDef);
  samplers : option (list SamplerDef);
  textures : option (list TextureDef);
  nodes : option (list NodeDef);
  scenes : option (list SceneDef);
  scene : option Z }.

(** The document [{}]; every truthy JSON value that is not an object reads
    the same way, all its properties being [undefined]. *)
Definition empty_document : Document :=
  {| buffers := None; bufferViews := None; accessors := None; meshes := None;
     materials := None; images := None; samplers := None; textures := None;
     nodes := None; scenes := None; scene := None |}.

(** What [JSON.parse(new TextDecoder().decode(bytes))] does on a chunk. *)
Inductive parsed :=
| Malformed                 (* throws a SyntaxError *)
| Falsy                     (* null, false, 0 or the empty string *)
| Doc (json : Document).

(* ================================================================== *)
(** * The scene-graph objects handed to three.js

    The loader only constructs these objects and sets their properties;
    they are records here.  Nodes live in an arena indexed like
    [json.nodes], because [Object3D.add] mutates both ends of a link. *)
(* ================================================================== *)

Module THREE.

Inductive Wrapping := ClampToEdgeWrapping | MirroredRepeatWrapping | RepeatWrapping.
Inductive TextureFilter :=
| NearestFilter | LinearFilter
| NearestMipmapNearestFilter | LinearMipmapNearestFilter
| NearestMipmapLinearFilter | LinearMipmapLinearFilter.
Inductive Side := DoubleSide.
Inductive Encoding := sRGBEncoding.

(** The address given to [TextureLoader.load]: an object URL made from
    a blob of the binary chunk, or a URI string. *)
Inductive ImageUrl :=
| ObjectURL (blob : JS.ArrayBuffer) (type : string)
| Url (s : string).

(** A property left at [None] keeps the default three.js gives it. *)
Record Texture := {
  t_url : ImageUrl;
  t_wrapS : option Wrapping;
  t_wrapT : option Wrapping;
  t_magFilter : option TextureFilter;
  t_minFilter : option TextureFilter;
  t_flipY : option bool;
  t_encoding : option Encoding }.

Record BufferAttribute := {
  array : JS.TypedArray;
  itemSize : Z;
  normalized : bool }.

Record BufferGeometry := {
  g_position : option BufferAttribute;
  g_normal : option BufferAttribute;
  g_color : option BufferAttribute;
  g_index : option BufferAttribute }.

Definition new_BufferGeometry : BufferGeometry :=
  {| g_position := None; g_normal := None; g_color := None; g_index := None |}.

(** *** The bounding sphere

    [geometry.computeBoundingSphere()] reads the position attribute
    vertex by vertex: it takes the centre of the bounding box, then the
    largest squared distance from the centre to a vertex, and the
    square root of it as the radius.  What the loader can observe of it
    is the error it writes to the console when the radius is NaN. *)

Record Vector3 := {
  v_x : JS.number;
  v_y : JS.number;
  v_z : JS.number }.

Record Box3 := {
  b_min : Vector3;
  b_max : Vector3 }.

(** The indices [i] of [for (i = 0; i < attribute.count; i++)], where
    [attribute.count] is [array.length / itemSize]: those with
    [i * itemSize < array.length].  The [itemSize] of an accessor comes
    from the table of types and is positive; with an [itemSize] of 0 and
    a non-empty array the count is infinite and the loop does not end,
    which is not modelled. *)
Definition vertex_indices (a : BufferAttribute) : list Z :=
  if itemSize a <=? 0 then []
  else List.map Z.of_nat
         (seq 0 (Z.to_nat ((JS.ta_length (array a) + itemSize a - 1) / itemSize a))).

(** [attribute.getX(i)], [getY(i)], [getZ(i)] for [k = 0, 1, 2]:
    [array[i * itemSize + k]]; where three.js compares or subtracts the
    result, [undefined] counts as NaN. *)
Definition getComponent (a : BufferAttribute) (i k : Z) : JS.number :=
  match JS.get (array a) (i * itemSize a + k) with
  | Some x => x
  | None => JS.NaN
  end.

(** [vector.fromBufferAttribute(attribute, i)] *)
Definition fromBufferAttribute (a : BufferAttribute) (i : Z) : Vector3 :=
  {| v_x := getComponent a i 0; v_y := getComponent a i 1; v_z := getComponent a i 2 |}.

(** One round of the loop of [Box3.setFromBufferAttribute]:
    [if (x < minX) minX = x; ... if (x > maxX) maxX = x; ...]. *)
Definition expand (a : BufferAttribute) (b : Box3) (i : Z) : Box3 :=
  let v := fromBufferAttribute a i in
  let lower (m c : JS.number) := if JS.ltb c m then c else m in
  let upper (m c : JS.number) := if JS.ltb m c then c else m in
  {| b_min := {| v_x := lower (v_x (b_min b)) (v_x v);
                 v_y := lower (v_y (b_min b)) (v_y v);
                 v_z := lower (v_z (b_min b)) (v_z v) |};
     b_max := {| v_x := upper (v_x (b_max b)) (v_x v);
                 v_y := upper (v_y (b_max b)) (v_y v);
                 v_z := upper (v_z (b_max b)) (v_z v) |} |}.

Definition empty_box : Box3 :=
  {| b_min := {| v_x := JS.Infinity; v_y := JS.Infinity; v_z := JS.Infinity |};
     b_max := {| v_x := SFopp JS.Infinity; v_y := SFopp JS.Infinity;
                 v_z := SFopp JS.Infinity |} |}.

(** [box.setFromBufferAttribute(attribute)] *)
Definition setFromBufferAttribute (a : BufferAttribute) : Box3 :=
  fold_left (expand a) (vertex_indices a) empty_box.

(** [box.isEmpty()] *)
Definition isEmpty (b : Box3) : bool :=
  JS.ltb (v_x (b_max b)) (v_x (b_min b))
  || JS.ltb (v_y (b_max b)) (v_y (b_min b))
  || JS.ltb (v_z (b_max b)) (v_z (b_min b)).

Definition half : JS.number := JS.div (JS.of_Z 1) (JS.of_Z 2).

(** [box.getCenter(target)]: the origin for an empty box, otherwise
    [(min + max) * 0.5]. *)
Definition getCenter (b : Box3) : Vector3 :=
  if isEmpty b then
    {| v_x := JS.of_Z 0; v_y := JS.of_Z 0; v_z := JS.of_Z 0 |}
  else
    {| v_x := JS.mul (JS.add (v_x (b_min b)) (v_x (b_max b))) half;
       v_y := JS.mul (JS.add (v_y (b_min b)) (v_y (b_max b))) half;
       v_z := JS.mul (JS.add (v_z (b_min b)) (v_z (b_max b))) half |}.

(** [c.distanceToSquared(v)]: [dx * dx + dy * dy + dz * dz]. *)
Definition distanceToSquared (c v : Vector3) : JS.number :=
  let dx := JS.sub (v_x c) (v_x v) in
  let dy := JS.sub (v_y c) (v_y v) in
  let dz := JS.sub (v_z c) (v_z v) in
  JS.add (JS.add (JS.mul dx dx) (JS.mul dy dy)) (JS.mul dz dz).

(** The radius [computeBoundingSphere] stores. *)
Definition boundingSphere_radius (position : BufferAttribute) : JS.number :=
  let center := getCenter (setFromBufferAttribute position) in
  let maxRadiusSq :=
    fold_left (fun m i =>
                 JS.Math_max m (distanceToSquared center (fromBufferAttribute position i)))
              (vertex_indices position) (JS.of_Z 0) in
  JS.Math_sqrt maxRadiusSq.

Definition radius_is_NaN_message : string :=
  "THREE.BufferGeometry.computeBoundingSphere(): Computed radius is NaN. The "
  ++ String "034" ("position" ++ String "034" " attribute is likely to have NaN values.").

(** [geometry.computeBoundingSphere()], as far as the console shows it. *)
Definition computeBoundingSphere (geometry : BufferGeometry) : JS.M unit :=
  match g_position geometry with
  | Some position =>
      if JS.isNaN (boundingSphere_radius position)
      then JS.console_error radius_is_NaN_message
      else JS.ret tt
  | None => JS.ret tt
  end.

(** The options object passed to [new MeshStandardMaterial]. *)
Record MaterialOptions := {
  color : Z;
  metalness : JS.number;
  roughness : JS.number;
  transparent : option bool;
  opacity : option JS.value;
  map : option Texture;
  emissive : option Z;
  side : option Side;
  vertexColors : option bool }.

Record Mesh := {
  m_name : string;
  m_geometry : BufferGeometry;
  m_material : MaterialOptions }.

(** The group built for one mesh definition. *)
Record MeshGroup := {
  mg_name : string;
  mg_children : list Mesh }.

Inductive ref := RefNode (i : nat) | RefScene.

Inductive child :=
| ChildMesh (g : MeshGroup)      (* a clone of a mesh group *)
| ChildNode (i : nat).           (* the node built for [json.nodes[i]] *)

Record Object3D := {
  o_name : string;
  o_position : list (option JS.number);
  o_scale : list (option JS.number);
  o_quaternion : list (option JS.number);
  o_children : list child;
  o_parent : option ref }.

Definition new_Group (name : string) : Object3D :=
  {| o_name := name;
     o_position := [Some (JS.of_Z 0); Some (JS.of_Z 0); Some (JS.of_Z 0)];
     o_scale := [Some (JS.of_Z 1); Some (JS.of_Z 1); Some (JS.of_Z 1)];
     o_quaternion := [Some (JS.of_Z 0); Some (JS.of_Z 0); Some (JS.of_Z 0); Some (JS.of_Z 1)];
     o_children := []; o_parent := None |}.

(** The node arena and the scene root. *)
Record Graph := {
  objects : list Object3D;
  root : Object3D }.

Definition with_children (o : Object3D) (cs : list child) : Object3D :=
  {| o_name := o_name o; o_position := o_position o; o_scale := o_scale o;
     o_quaternion := o_quaternion o; o_children := cs; o_parent := o_parent o |}.

Definition with_parent (o : Object3D) (p : option ref) : Object3D :=
  {| o_name := o_name o; o_position := o_position o; o_scale := o_scale o;
     o_quaternion := o_quaternion o; o_children := o_children o; o_parent := p |}.

Definition is_node (i : nat) (c : child) : bool :=
  match c with ChildNode j => Nat.eqb i j | ChildMesh _ => false end.

Definition ref_eqb (a b : ref) : bool :=
  match a, b with
  | RefNode i, RefNode j => Nat.eqb i j
  | RefScene, RefScene => true
  | _, _ => false
  end.

Fixpoint update {A} (l : list A) (i : nat) (f : A -> A) : list A :=
  match l, i with
  | [], _ => []
  | a :: l', O => f a :: l'
  | a :: l', S i' => a :: update l' i' f
  end.

(** Apply [f] to the object a reference designates. *)
Definition at_ref (g : Graph) (r : ref) (f : Object3D -> Object3D) : Graph :=
  match r with
  | RefNode i => {| objects := update (objects g) i f; root := root g |}
  | RefScene => {| objects := objects g; root := f (root g) |}
  end.

(** [parent.remove(nodes[c])] *)
Definition remove (g : Graph) (parent : ref) (c : nat) : Graph :=
  let g' := at_ref g parent (fun o =>
              with_children o (filter (fun x => negb (is_node c x)) (o_children o))) in
  at_ref g' (RefNode c) (fun o => with_parent o None).

(** [parent.add(nodes[c])], for a node [c] of the arena: adding an
    object to itself is refused with a console error; an object that
    already has a parent is first removed from it. *)
Definition add (g : Graph) (parent : ref) (c : nat) : JS.M Graph :=
  if ref_eqb parent (RefNode c) then
    JS.console_error "THREE.Object3D.add: object can't be added as a child of itself." ;;;
    JS.ret g
  else
    let g1 := match nth_error (objects g) c with
              | Some o => match o_parent o with
                          | Some p => remove g p c
                          | None => g
                          end
              | None => g
              end in
    let g2 := at_ref g1 (RefNode c) (fun o => with_parent o (Some parent)) in
    JS.ret (at_ref g2 parent (fun o => with_children o (o_children o ++ [ChildNode c]))).

End THREE.

(* ================================================================== *)
(** * The loader *)
(* ================================================================== *)

(** The accessor objects [_buildAccessors] returns. *)
Record AccessorData := {
  a_array : JS.TypedArray;
  a_itemSize : Z;
  a_normalized : bool;
  a_componentType : Z;
  a_count : option Z;
  a_type : string }.

(** The image objects [_buildImages] returns. *)
Record ImageRecord := {
  i_url : THREE.ImageUrl;
  i_mimeType : option string }.

(** The [ctx] object; [ctx.images] and [ctx.textures] are assigned while
    the scene is built and are [undefined] before. *)
Record Context := {
  ctx_json : Document;
  ctx_bin : option JS.ArrayBuffer;
  ctx_url : option string;
  ctx_images : option (list (option ImageRecord));
  ctx_textures : option (list (option THREE.Texture)) }.

(** What [parse] returns: the scene with the arena of its nodes, and the
    document. *)
Record GLTF := {
  gltf_scene : THREE.Graph;
  gltf_json : Document }.

(** Reading a property of [o]: a TypeError when [o] is [undefined] or
    [null]. *)
Definition deref {A} (o : option A) : JS.M A :=
  match o with
  | Some a => JS.ret a
  | None => JS.throw JS.TypeError
  end.

Definition string_of_index (i : Z) : string :=
  DecimalString.NilZero.string_of_int (Z.to_int i).

(** ** Buffers, views and accessors *)

(** [_buildBuffers] (lines 73-80). *)
Definition _buildBuffers (ctx : Context) : JS.M (list JS.ArrayBuffer) :=
  JS.mapi (fun (b : BufferDef) i =>
      match ctx_bin ctx with
      | Some bin => if i =? 0 then JS.ret bin
                    else JS.throw (JS.Error "Only single BIN buffer supported in this minimal loader")
      | None => JS.throw (JS.Error "Only single BIN buffer supported in this minimal loader")
      end)
    (JS.or_empty (buffers (ctx_json ctx))).

(** The callback of [json.bufferViews.map] (lines 84-87). *)
Definition build_view (buffers : list JS.ArrayBuffer) (v : BufferViewDef) : JS.M JS.ArrayBuffer :=
  buffer <- deref (match bv_buffer v with
                   | Some i => JS.index buffers i
                   | None => None
                   end) ;;
  JS.ret (JS.slice buffer (JS.or_zero (bv_byteOffset v))
            (JS.or_zero (bv_byteOffset v) + JS.or_zero (bv_byteLength v))).

(** The object literals [compTypeMap] and [typeSizeMap] (lines 90, 92),
    and a lookup [map[key]] that is [undefined] for a key the literal does
    not list.  The names of the properties that every object inherits
    ([constructor], [toString], ...) are not listed either, although a
    lookup finds them: an accessor type is taken not to be one of them. *)
Definition compTypeMap_entries : list (Z * JS.Ctor) :=
  [(5120, JS.Int8Array); (5121, JS.Uint8Array); (5122, JS.Int16Array);
   (5123, JS.Uint16Array); (5125, JS.Uint32Array); (5126, JS.Float32Array)].

Definition typeSizeMap_entries : list (string * Z) :=
  [("SCALAR", 1); ("VEC2", 2); ("VEC3", 3); ("VEC4", 4);
   ("MAT4", 16); ("MAT3", 9); ("MAT2", 4)]%string.

Definition compTypeMap (componentType : option Z) : option JS.Ctor :=
  match componentType with
  | Some code => option_map snd (find (fun e => fst e =? code) compTypeMap_entries)
  | None => None
  end.

Definition typeSizeMap (type : option string) : option Z :=
  match type with
  | Some t => option_map snd (find (fun e => String.eqb (fst e) t) typeSizeMap_entries)
  | None => None
  end.

(** The callback of [json.accessors.map] (lines 88-99). *)
Definition build_accessor (views : list JS.ArrayBuffer) (acc : AccessorDef) : JS.M AccessorData :=
  let view := match acc_bufferView acc with
              | Some i => JS.index views i
              | None => None
              end in
  match compTypeMap (acc_componentType acc) with
  | None => JS.throw (JS.Error "Unsupported componentType")
  | Some Ctor =>
      match typeSizeMap (acc_type acc) with
      | None => JS.throw (JS.Error ("Unsupported type " ++ match acc_type acc with
                                                            | Some t => t
                                                            | None => "undefined"
                                                            end))
      | Some numComp =>
          let offset := JS.or_zero (acc_byteOffset acc) in
          let length := option_map (fun count => count * numComp) (acc_count acc) in
          arr <- JS.new_TypedArray Ctor view offset length ;;
          JS.ret {| a_array := arr; a_itemSize := numComp;
                    a_normalized := match acc_normalized acc with
                                    | Some b => b
                                    | None => false
                                    end;
                    a_componentType := JS.or_zero (acc_componentType acc);
                    a_count := acc_count acc;
                    a_type := match acc_type acc with Some t => t | None => "" end |}
      end
  end.

(** [_buildAccessors] (lines 82-100). *)
Definition _buildAccessors (ctx : Context) (buffers : list JS.ArrayBuffer) : JS.M (list AccessorData) :=
  views <- JS.map (build_view buffers) (JS.or_empty (bufferViews (ctx_json ctx))) ;;
  JS.map (build_accessor views) (JS.or_empty (accessors (ctx_json ctx))).

(** ** Images and textures *)

(** [/^data:/.test(uri)] *)
Definition starts_with_data (uri : string) : bool :=
  String.prefix "data:" uri.

(** The callback of [json.images.map] (lines 189-204). *)
Definition build_image (ctx : Context) (basePath : string) (img : ImageDef) : JS.M (option ImageRecord) :=
  match img_bufferView img with
  | Some k =>
      views <- deref (bufferViews (ctx_json ctx)) ;;
      bv <- deref (JS.index views k) ;;
      let start := JS.or_zero (bv_byteOffset bv) in
      let end_ := start + JS.or_zero (bv_byteLength bv) in
      bin <- deref (ctx_bin ctx) ;;
      let slice := JS.slice bin start end_ in
      let objectURL := THREE.ObjectURL slice (JS.or_string (img_mimeType img) "image/png") in
      JS.ret (Some {| i_url := objectURL; i_mimeType := img_mimeType img |})
  | None =>
      if JS.truthy_string (img_uri img) then
        let uri := JS.or_string (img_uri img) "" in
        if starts_with_data uri
        then JS.ret (Some {| i_url := THREE.Url uri;
                             i_mimeType := Some (JS.or_string (img_mimeType img) "") |})
        else JS.ret (Some {| i_url := THREE.Url (basePath ++ uri);
                             i_mimeType := img_mimeType img |})
      else JS.ret None
  end.

(** [_buildImages] (lines 185-205). *)
Definition _buildImages (ctx : Context) : JS.M (list (option ImageRecord)) :=
  match images (ctx_json ctx) with
  | None => JS.ret []
  | Some imgs =>
      let basePath :=
        if JS.truthy_string (ctx_url ctx)
        then let url := JS.or_string (ctx_url ctx) "" in
             JS.substring0 url (JS.lastIndexOf url "/"%char + 1)
        else ""%string in
      JS.map (build_image ctx basePath) imgs
  end.

(** The object literals [wrapMap] and [filterMap] (lines 220, 224). *)
Definition wrapMap (code : option Z) : option THREE.Wrapping :=
  match code with
  | Some 33071 => Some THREE.ClampToEdgeWrapping
  | Some 33648 => Some THREE.MirroredRepeatWrapping
  | Some 10497 => Some THREE.RepeatWrapping
  | _ => None
  end.

Definition filterMap (code : option Z) : option THREE.TextureFilter :=
  match code with
  | Some 9728 => Some THREE.NearestFilter
  | Some 9729 => Some THREE.LinearFilter
  | Some 9984 => Some THREE.NearestMipmapNearestFilter
  | Some 9985 => Some THREE.LinearMipmapNearestFilter
  | Some 9986 => Some THREE.NearestMipmapLinearFilter
  | Some 9987 => Some THREE.LinearMipmapLinearFilter
  | _ => None
  end.

(** [loader.load(url)] *)
Definition TextureLoader_load (url : THREE.ImageUrl) : THREE.Texture :=
  {| THREE.t_url := url; THREE.t_wrapS := None; THREE.t_wrapT := None;
     THREE.t_magFilter := None; THREE.t_minFilter := None;
     THREE.t_flipY := None; THREE.t_encoding := None |}.

(** The assignments of lines 221-226: a code the table lacks leaves the
    property as it is. *)
Definition apply_sampler (t : THREE.Texture) (s : SamplerDef) : THREE.Texture :=
  {| THREE.t_url := THREE.t_url t;
     THREE.t_wrapS := match wrapMap (wrapS s) with Some w => Some w | None => THREE.t_wrapS t end;
     THREE.t_wrapT := match wrapMap (wrapT s) with Some w => Some w | None => THREE.t_wrapT t end;
     THREE.t_magFilter := match filterMap (magFilter s) with Some f => Some f | None => THREE.t_magFilter t end;
     THREE.t_minFilter := match filterMap (minFilter s) with Some f => Some f | None => THREE.t_minFilter t end;
     THREE.t_flipY := THREE.t_flipY t; THREE.t_encoding := THREE.t_encoding t |}.

Definition set_flipY (t : THREE.Texture) (b : bool) : THREE.Texture :=
  {| THREE.t_url := THREE.t_url t; THREE.t_wrapS := THREE.t_wrapS t;
     THREE.t_wrapT := THREE.t_wrapT t; THREE.t_magFilter := THREE.t_magFilter t;
     THREE.t_minFilter := THREE.t_minFilter t;
     THREE.t_flipY := Some b; THREE.t_encoding := THREE.t_encoding t |}.

Definition set_encoding (t : THREE.Texture) (e : THREE.Encoding) : THREE.Texture :=
  {| THREE.t_url := THREE.t_url t; THREE.t_wrapS := THREE.t_wrapS t;
     THREE.t_wrapT := THREE.t_wrapT t; THREE.t_magFilter := THREE.t_magFilter t;
     THREE.t_minFilter := THREE.t_minFilter t;
     THREE.t_flipY := THREE.t_flipY t; THREE.t_encoding := Some e |}.

(** The callback of [json.textures.map] (lines 211-231). *)
Definition build_texture (ctx : Context) (tex : TextureDef) : JS.M (option THREE.Texture) :=
  match tex_source tex with
  | None => JS.ret None
  | Some source =>
      images <- deref (ctx_images ctx) ;;
      match JS.index images source with
      | None | Some None => JS.ret None
      | Some (Some img) =>
          let t := TextureLoader_load (i_url img) in
          let t := match tex_sampler tex, samplers (ctx_json ctx) with
                   | Some k, Some ss =>
                       match JS.index ss k with
                       | Some s => apply_sampler t s
                       | None => t
                       end
                   | _, _ => t
                   end in
          JS.ret (Some (set_flipY t false))
      end
  end.

(** [_buildTextures] (lines 207-232). *)
Definition _buildTextures (ctx : Context) : JS.M (list (option THREE.Texture)) :=
  match textures (ctx_json ctx) with
  | None => JS.ret []
  | Some texs => JS.map (build_texture ctx) texs
  end.

(** ** Meshes *)

(** [new Float32Array(colorArray.length)] filled with [colorArray[i] / d]
    (lines 123-125 and 127-129). *)
Definition rescale (colorArray : JS.TypedArray) (d : Z) : JS.TypedArray :=
  JS.Floats
    (List.map (fun i => JS.fround (JS.div (JS.of_Z (JS.get_uint colorArray (Z.of_nat i)))
                                          (JS.of_Z d)))
              (seq 0 (Z.to_nat (JS.ta_length colorArray)))).

(** The array attached as the colour attribute (lines 120-131). *)
Definition color_array (cAcc : AccessorData) : JS.TypedArray :=
  let colorArray := a_array cAcc in
  if negb (a_normalized cAcc) then
    if a_componentType cAcc =? 5121 then rescale colorArray 255
    else if a_componentType cAcc =? 5123 then rescale colorArray 65535
    else colorArray
  else colorArray.

Definition attribute_of (acc : AccessorData) : THREE.BufferAttribute :=
  {| THREE.array := a_array acc; THREE.itemSize := a_itemSize acc;
     THREE.normalized := a_normalized acc |}.

(** [(f[i] || 0) * 255] (lines 145, 158) *)
Definition channel255 (f : list JS.value) (i : Z) : JS.number :=
  let v := JS.index f i in
  JS.mul (if JS.truthy v then JS.ToNumber v else JS.of_Z 0) (JS.of_Z 255).

(** [(r << 16) | (g << 8) | b] (lines 146, 159) *)
Definition pack_color (f : list JS.value) : Z :=
  let r := channel255 f 0 in
  let g := channel255 f 1 in
  let b := channel255 f 2 in
  JS.bor (JS.bor (JS.shl r 16) (JS.shl g 8)) (JS.ToInt32 b).

(** The initial [matOptions] (line 139). *)
Definition default_matOptions : THREE.MaterialOptions :=
  {| THREE.color := 0x2194f3;
     THREE.metalness := JS.div (JS.of_Z 1) (JS.of_Z 10);
     THREE.roughness := JS.div (JS.of_Z 85) (JS.of_Z 100);
     THREE.transparent := None; THREE.opacity := None; THREE.map := None;
     THREE.emissive := None; THREE.side := None; THREE.vertexColors := None |}.

Definition set_color (m : THREE.MaterialOptions) (c : Z) : THREE.MaterialOptions :=
  {| THREE.color := c; THREE.metalness := THREE.metalness m;
     THREE.roughness := THREE.roughness m; THREE.transparent := THREE.transparent m;
     THREE.opacity := THREE.opacity m; THREE.map := THREE.map m;
     THREE.emissive := THREE.emissive m; THREE.side := THREE.side m;
     THREE.vertexColors := THREE.vertexColors m |}.

Definition set_metalness (m : THREE.MaterialOptions) (x : JS.number) : THREE.MaterialOptions :=
  {| THREE.color := THREE.color m; THREE.metalness := x;
     THREE.roughness := THREE.roughness m; THREE.transparent := THREE.transparent m;
     THREE.opacity := THREE.opacity m; THREE.map := THREE.map m;
     THREE.emissive := THREE.emissive m; THREE.side := THREE.side m;
     THREE.vertexColors := THREE.vertexColors m |}.

Definition set_roughness (m : THREE.MaterialOptions) (x : JS.number) : THREE.MaterialOptions :=
  {| THREE.color := THREE.color m; THREE.metalness := THREE.metalness m;
     THREE.roughness := x; THREE.transparent := THREE.transparent m;
     THREE.opacity := THREE.opacity m; THREE.map := THREE.map m;
     THREE.emissive := THREE.emissive m; THREE.side := THREE.side m;
     THREE.vertexColors := THREE.vertexColors m |}.

Definition set_transparent (m : THREE.MaterialOptions) (b : bool) : THREE.MaterialOptions :=
  {| THREE.color := THREE.color m; THREE.metalness := THREE.metalness m;
     THREE.roughness := THREE.roughness m; THREE.transparent := Some b;
     THREE.opacity := THREE.opacity m; THREE.map := THREE.map m;
     THREE.emissive := THREE.emissive m; THREE.side := THREE.side m;
     THREE.vertexColors := THREE.vertexColors m |}.

Definition set_opacity (m : THREE.MaterialOptions) (v : option JS.value) : THREE.MaterialOptions :=
  {| THREE.color := THREE.color m; THREE.metalness := THREE.metalness m;
     THREE.roughness := THREE.roughness m; THREE.transparent := THREE.transparent m;
     THREE.opacity := v; THREE.map := THREE.map m;
     THREE.emissive := THREE.emissive m; THREE.side := THREE.side m;
     THREE.vertexColors := THREE.vertexColors m |}.

Definition set_map (m : THREE.MaterialOptions) (t : option THREE.Texture) : THREE.MaterialOptions :=
  {| THREE.color := THREE.color m; THREE.metalness := THREE.metalness m;
     THREE.roughness := THREE.roughness m; THREE.transparent := THREE.transparent m;
     THREE.opacity := THREE.opacity m; THREE.map := t;
     THREE.emissive := THREE.emissive m; THREE.side := THREE.side m;
     THREE.vertexColors := THREE.vertexColors m |}.

Definition set_emissive (m : THREE.MaterialOptions) (c : Z) : THREE.MaterialOptions :=
  {| THREE.color := THREE.color m; THREE.metalness := THREE.metalness m;
     THREE.roughness := THREE.roughness m; THREE.transparent := THREE.transparent m;
     THREE.opacity := THREE.opacity m; THREE.map := THREE.map m;
     THREE.emissive := Some c; THREE.side := THREE.side m;
     THREE.vertexColors := THREE.vertexColors m |}.

Definition set_side (m : THREE.MaterialOptions) (s : THREE.Side) : THREE.MaterialOptions :=
  {| THREE.color := THREE.color m; THREE.metalness := THREE.metalness m;
     THREE.roughness := THREE.roughness m; THREE.transparent := THREE.transparent m;
     THREE.opacity := THREE.opacity m; THREE.map := THREE.map m;
     THREE.emissive := THREE.emissive m; THREE.side := Some s;
     THREE.vertexColors := THREE.vertexColors m |}.

Definition set_vertexColors (m : THREE.MaterialOptions) (b : bool) : THREE.MaterialOptions :=
  {| THREE.color := THREE.color m; THREE.metalness := THREE.metalness m;
     THREE.roughness := THREE.roughness m; THREE.transparent := THREE.transparent m;
     THREE.opacity := THREE.opacity m; THREE.map := THREE.map m;
     THREE.emissive := THREE.emissive m; THREE.side := THREE.side m;
     THREE.vertexColors := Some b |}.

(** The block [if(mdef.pbrMetallicRoughness){ ... }] (lines 142-156). *)
Definition apply_pbr (ctx : Context) (p : PbrDef) (matOptions : THREE.MaterialOptions)
    : THREE.MaterialOptions :=
  let matOptions :=
    match baseColorFactor p with
    | Some f =>
        let matOptions := set_color matOptions (pack_color f) in
        let a := JS.index f 3 in
        if JS.not_nullish a && JS.ltb (JS.ToNumber a) (JS.of_Z 1)
        then set_opacity (set_transparent matOptions true) a
        else matOptions
    | None => matOptions
    end in
  let matOptions :=
    match baseColorTexture p with
    | Some info =>
        match ti_index info, ctx_textures ctx with
        | Some k, Some texs =>
            match JS.index texs k with
            | Some (Some tex) => set_color (set_map matOptions (Some tex)) 0xffffff
            | _ => matOptions
            end
        | _, _ => matOptions
        end
    | None => matOptions
    end in
  let matOptions :=
    match metallicFactor p with
    | Some x => set_metalness matOptions x
    | None => matOptions
    end in
  match roughnessFactor p with
  | Some x => set_roughness matOptions x
  | None => matOptions
  end.

(** [alphaMode === 'BLEND'] *)
Definition is_BLEND (alphaMode : option string) : bool :=
  match alphaMode with
  | Some a => String.eqb a "BLEND"
  | None => false
  end.

(** The block [if(prim.material!=null && matDefs[prim.material]){ ... }]
    (lines 140-163). *)
Definition apply_material (ctx : Context) (mdef : MaterialDef) (matOptions : THREE.MaterialOptions)
    : THREE.MaterialOptions :=
  let matOptions :=
    match pbrMetallicRoughness mdef with
    | Some p => apply_pbr ctx p matOptions
    | None => matOptions
    end in
  let matOptions :=
    match emissiveFactor mdef with
    | Some f => set_emissive matOptions (pack_color f)
    | None => matOptions
    end in
  let matOptions :=
    match doubleSided mdef with
    | Some true => set_side matOptions THREE.DoubleSide
    | _ => matOptions
    end in
  if is_BLEND (alphaMode mdef) then
    let matOptions := set_transparent matOptions true in
    if negb (JS.not_nullish (THREE.opacity matOptions))
    then set_opacity matOptions (Some (JS.VNum (JS.div (JS.of_Z 9) (JS.of_Z 10))))
    else matOptions
  else matOptions.

(** The options passed to [new THREE.MeshStandardMaterial] (lines
    139-165), with the texture encoding set afterwards on [material.map]
    (line 166). *)
Definition resolve_material (ctx : Context) (prim : PrimitiveDef) (usesVertexColor : bool)
    : THREE.MaterialOptions :=
  let matDefs := JS.or_empty (materials (ctx_json ctx)) in
  let matOptions := default_matOptions in
  let matOptions :=
    match prim_material prim with
    | Some k =>
        match JS.index matDefs k with
        | Some mdef => apply_material ctx mdef matOptions
        | None => matOptions
        end
    | None => matOptions
    end in
  let matOptions := if usesVertexColor then set_vertexColors matOptions true else matOptions in
  match THREE.map matOptions with
  | Some t => set_map matOptions (Some (set_encoding t THREE.sRGBEncoding))
  | None => matOptions
  end.

(** [prim.mode && prim.mode !== 4] (line 107) *)
Definition mode_rejected (mode : option Z) : bool :=
  match mode with
  | Some m => negb (m =? 0) && negb (m =? 4)
  | None => false
  end.

Definition add_mesh (group : THREE.MeshGroup) (mesh : THREE.Mesh) : THREE.MeshGroup :=
  {| THREE.mg_name := THREE.mg_name group;
     THREE.mg_children := THREE.mg_children group ++ [mesh] |}.

(** The callback of [meshDef.primitives.forEach] (lines 106-170);
    [group] is the state it mutates. *)
Definition build_primitive (ctx : Context) (meshDef : MeshDef) (accessors : list AccessorData)
    (prim : PrimitiveDef) (idx : Z) (group : THREE.MeshGroup) : JS.M THREE.MeshGroup :=
  if mode_rejected (prim_mode prim) then
    JS.console_warn "Primitive mode not TRIANGLES, skipped" ;;; JS.ret group
  else
    match prim_attributes prim with
    | None => JS.console_warn "Primitive missing POSITION" ;;; JS.ret group
    | Some attributes =>
        match POSITION attributes with
        | None => JS.console_warn "Primitive missing POSITION" ;;; JS.ret group
        | Some pos =>
            posAcc <- deref (JS.index accessors pos) ;;
            normal <- match NORMAL attributes with
                      | Some k => nAcc <- deref (JS.index accessors k) ;;
                                  JS.ret (Some (attribute_of nAcc))
                      | None => JS.ret None
                      end ;;
            color <- match COLOR_0 attributes with
                     | Some k =>
                         cAcc <- deref (JS.index accessors k) ;;
                         JS.ret (Some {| THREE.array := color_array cAcc;
                                         THREE.itemSize := a_itemSize cAcc;
                                         THREE.normalized := false |})
                     | None => JS.ret None
                     end ;;
            let usesVertexColor := match COLOR_0 attributes with
                                   | Some _ => true
                                   | None => false
                                   end in
            index <- match prim_indices prim with
                     | Some k =>
                         iAcc <- deref (JS.index accessors k) ;;
                         JS.ret (Some {| THREE.array := a_array iAcc;
                                         THREE.itemSize := 1;
                                         THREE.normalized := false |})
                     | None => JS.ret None
                     end ;;
            let geometry := {| THREE.g_position := Some (attribute_of posAcc);
                               THREE.g_normal := normal;
                               THREE.g_color := color;
                               THREE.g_index := index |} in
            THREE.computeBoundingSphere geometry ;;;
            let material := resolve_material ctx prim usesVertexColor in
            let mesh := {| THREE.m_name := (JS.or_string (mesh_name meshDef) "mesh"
                                            ++ "_" ++ string_of_index idx)%string;
                           THREE.m_geometry := geometry;
                           THREE.m_material := material |} in
            JS.ret (add_mesh group mesh)
        end
    end.

(** [_buildMesh] (lines 102-172). *)
Definition _buildMesh (ctx : Context) (meshDef : MeshDef) (accessors : list AccessorData)
    : JS.M THREE.MeshGroup :=
  let group := {| THREE.mg_name := JS.or_string (mesh_name meshDef) "mesh";
                  THREE.mg_children := [] |} in
  JS.forEachi (build_primitive ctx meshDef accessors)
    (JS.or_empty (mesh_primitives meshDef)) group.

(** ** Nodes and the scene *)

(** [v.fromArray(a)] for a three-component vector. *)
Definition fromArray (a : list JS.number) : list (option JS.number) :=
  [JS.index a 0; JS.index a 1; JS.index a 2].

(** [_buildNode] (lines 174-183). *)
Definition _buildNode (ctx : Context) (nodeDef : NodeDef) (meshes : list THREE.MeshGroup)
    : JS.M THREE.Object3D :=
  let obj := THREE.new_Group (JS.or_string (node_name nodeDef) "node") in
  children <- match node_mesh nodeDef with
              | Some k => g <- deref (JS.index meshes k) ;;
                          JS.ret [THREE.ChildMesh g]
              | None => JS.ret []
              end ;;
  JS.ret {| THREE.o_name := THREE.o_name obj;
            THREE.o_position := match node_translation nodeDef with
                                | Some t => fromArray t
                                | None => THREE.o_position obj
                                end;
            THREE.o_scale := match node_scale nodeDef with
                             | Some s => fromArray s
                             | None => THREE.o_scale obj
                             end;
            THREE.o_quaternion := match node_rotation nodeDef with
                                  | Some r => [JS.index r 0; JS.index r 1;
                                               JS.index r 2; JS.index r 3]
                                  | None => THREE.o_quaternion obj
                                  end;
            THREE.o_children := children;
            THREE.o_parent := None |}.

(** [if(nodes[id]) parent.add(nodes[id])] (lines 65, 69) *)
Definition add_if_node (parent : THREE.ref) (id : Z) (g : THREE.Graph) : JS.M THREE.Graph :=
  match JS.index (THREE.objects g) id with
  | Some _ => THREE.add g parent (Z.to_nat id)
  | None => JS.ret g
  end.

(** The callback of the [forEach] that links children (line 65). *)
Definition link_children (n : NodeDef) (i : Z) (g : THREE.Graph) : JS.M THREE.Graph :=
  match node_children n with
  | Some children => JS.forEach (add_if_node (THREE.RefNode (Z.to_nat i))) children g
  | None => JS.ret g
  end.

(** [_buildScene] (lines 55-71).  The scene root is allocated with the
    arena; nothing refers to it before the scene's nodes are attached. *)
Definition _buildScene (ctx : Context) : JS.M THREE.Graph :=
  let json := ctx_json ctx in
  let nodeDefs := JS.or_empty (nodes json) in
  buffers <- _buildBuffers ctx ;;
  accessors <- _buildAccessors ctx buffers ;;
  images <- _buildImages ctx ;;
  let ctx := {| ctx_json := ctx_json ctx; ctx_bin := ctx_bin ctx; ctx_url := ctx_url ctx;
                ctx_images := Some images; ctx_textures := ctx_textures ctx |} in
  textures <- _buildTextures ctx ;;
  let ctx := {| ctx_json := ctx_json ctx; ctx_bin := ctx_bin ctx; ctx_url := ctx_url ctx;
                ctx_images := ctx_images ctx; ctx_textures := Some textures |} in
  meshes <- JS.map (fun m => _buildMesh ctx m accessors) (JS.or_empty (meshes json)) ;;
  nodes <- JS.map (fun n => _buildNode ctx n meshes) nodeDefs ;;
  let g := {| THREE.objects := nodes; THREE.root := THREE.new_Group "GLBScene" |} in
  g <- JS.forEachi link_children nodeDefs g ;;
  let sceneDef := match scenes json with
                  | Some ss => JS.index ss (JS.or_zero (scene json))
                  | None => None
                  end in
  match sceneDef with
  | Some def =>
      match scene_nodes def with
      | Some ids => JS.forEach (add_if_node THREE.RefScene) ids g
      | None => JS.ret g
      end
  | None => JS.ret g
  end.

(** ** The container *)

Definition MAGIC : Z := 0x46546C67.
Definition CHUNK_JSON : Z := 0x4E4F534A.
Definition CHUNK_BIN : Z := 0x004E4942.

Section Parse.

(** [JSON.parse] composed with the UTF-8 decoder, on the bytes of a
    chunk. *)
Variable JSON_parse : JS.ArrayBuffer -> parsed.

(** The [while(offset < length)] loop of [parse] (lines 38-48), with the variables
    [offset], [json] and [bin] it updates.  Every round that does not
    throw moves [offset] forward by at least 8 bytes inside the buffer,
    so [fuel] larger than the buffer is never used up. *)
Fixpoint read_chunks (fuel : nat) (arrayBuffer : JS.ArrayBuffer) (length offset : Z)
    (json : option Document) (bin : option JS.ArrayBuffer)
    : JS.M (option Document * option JS.ArrayBuffer) :=
  match fuel with
  | O => JS.ret (json, bin)
  | S fuel' =>
      if offset <? length then
        chunkLen <- JS.getUint32 arrayBuffer offset ;;
        let offset := offset + 4 in
        chunkType <- JS.getUint32 arrayBuffer offset ;;
        let offset := offset + 4 in
        let chunkData := JS.slice arrayBuffer offset (offset + chunkLen) in
        let offset := offset + chunkLen in
        if chunkType =? CHUNK_JSON then
          match JSON_parse chunkData with
          | Malformed => JS.throw JS.SyntaxError
          | Falsy => read_chunks fuel' arrayBuffer length offset None bin
          | Doc d => read_chunks fuel' arrayBuffer length offset (Some d) bin
          end
        else if chunkType =? CHUNK_BIN then
          read_chunks fuel' arrayBuffer length offset json (Some chunkData)
        else
          read_chunks fuel' arrayBuffer length offset json bin
      else JS.ret (json, bin)
  end.

Definition chunk_fuel (arrayBuffer : JS.ArrayBuffer) : nat :=
  S (List.length arrayBuffer).

(** The part of [parse] that follows the header checks (lines 36-52),
    for a loop bound [length]. *)
Definition parse_chunks (arrayBuffer : JS.ArrayBuffer) (url : option string) (length : Z)
    : JS.M GLTF :=
  jb <- read_chunks (chunk_fuel arrayBuffer) arrayBuffer length 12 None None ;;
  match fst jb with
  | None => JS.throw (JS.Error "Missing JSON chunk")
  | Some json =>
      let ctx := {| ctx_json := json; ctx_bin := snd jb; ctx_url := url;
                    ctx_images := None; ctx_textures := None |} in
      scene <- _buildScene ctx ;;
      JS.ret {| gltf_scene := scene; gltf_json := json |}
  end.

(** [parse] (lines 29-53). *)
Definition parse (arrayBuffer : JS.ArrayBuffer) (url : option string) : JS.M GLTF :=
  magic <- JS.getUint32 arrayBuffer 0 ;;
  if negb (magic =? MAGIC) then JS.throw (JS.Error "Not a GLB file") else
  version <- JS.getUint32 arrayBuffer 4 ;;
  if negb (version =? 2) then JS.throw (JS.Error "Only glTF 2.0 supported") else
  length <- JS.getUint32 arrayBuffer 8 ;;
  (if negb (length =? JS.byteLength arrayBuffer)
   then JS.console_warn "GLB length mismatch" else JS.ret tt) ;;;
  parse_chunks arrayBuffer url length.

End Parse.

(* ================================================================== *)
(** * The binary container layout

    A 12-byte header (magic, version, total length, each a little-endian
    uint32) followed by chunks: a 4-byte length, a 4-byte type tag and
    that many bytes of payload.  These encoders build the containers the
    statements below are about. *)
(* ================================================================== *)

Definition byte_of_Z (z : Z) : byte :=
  match Byte.of_N (Z.to_N (z mod 256)) with
  | Some b => b
  | None => x00
  end.

Definition u32le (z : Z) : list byte :=
  [byte_of_Z z; byte_of_Z (z / 2 ^ 8); byte_of_Z (z / 2 ^ 16); byte_of_Z (z / 2 ^ 24)].

Definition chunk : Type := Z * JS.ArrayBuffer.

(** A chunk whose header states the length [n]. *)
Definition encode_chunk_with (n : Z) (c : chunk) : list byte :=
  u32le n ++ u32le (fst c) ++ snd c.

Definition encode_chunk (c : chunk) : list byte :=
  encode_chunk_with (JS.byteLength (snd c)) c.

Definition encode_chunks (cs : list chunk) : list byte :=
  flat_map encode_chunk cs.

Definition header (length : Z) : list byte :=
  u32le MAGIC ++ u32le 2 ++ u32le length.

(** The container of the chunks [cs], with the right total length. *)
Definition glb (cs : list chunk) : JS.ArrayBuffer :=
  header (12 + JS.byteLength (encode_chunks cs)) ++ encode_chunks cs.

(** Chunks and containers whose lengths fit the uint32 fields. *)
Definition chunk_fits (c : chunk) : Prop :=
  0 <= fst c < 2 ^ 32 /\ JS.byteLength (snd c) < 2 ^ 32.

Definition fits (cs : list chunk) : Prop :=
  Forall chunk_fits cs /\ 12 + JS.byteLength (encode_chunks cs) < 2 ^ 32.

Section Chunks.

Variable JSON_parse : JS.ArrayBuffer -> parsed.

(** What the loop of [parse] does to [json] and [bin] on one chunk. *)
Definition on_chunk (c : chunk) (jb : option Document * option JS.ArrayBuffer)
    : JS.M (option Document * option JS.ArrayBuffer) :=
  if fst c =? CHUNK_JSON then
    match JSON_parse (snd c) with
    | Malformed => JS.throw JS.SyntaxError
    | Falsy => JS.ret (None, snd jb)
    | Doc d => JS.ret (Some d, snd jb)
    end
  else if fst c =? CHUNK_BIN then JS.ret (fst jb, Some (snd c))
  else JS.ret jb.

(** The chunks of a list taken in order. *)
Fixpoint on_chunks (cs : list chunk) (jb : option Document * option JS.ArrayBuffer)
    : JS.M (option Document * option JS.ArrayBuffer) :=
  match cs with
  | [] => JS.ret jb
  | c :: cs' => jb' <- on_chunk c jb ;; on_chunks cs' jb'
  end.

(** The payload of the last chunk of a type. *)
Definition last_of_type (type : Z) (cs : list chunk) : option JS.ArrayBuffer :=
  match filter (fun c => fst c =? type) cs with
  | [] => None
  | c :: l => Some (snd (last l c))
  end.

(** The value [json] holds after a chunk tagged JSON was decoded, as
    [if(!json)] reads it. *)
Definition doc_of (p : parsed) : option Document :=
  match p with
  | Doc d => Some d
  | _ => None
  end.

(** No chunk tagged JSON holds text that [JSON.parse] rejects. *)
Definition json_chunks_parse (cs : list chunk) : Prop :=
  Forall (fun c => fst c = CHUNK_JSON -> JSON_parse (snd c) <> Malformed) cs.

(** The rest of [parse] once the loop has left [json] and [bin]. *)
Definition finish (url : option string) (jb : option Document * option JS.ArrayBuffer)
    : JS.M GLTF :=
  match fst jb with
  | None => JS.throw (JS.Error "Missing JSON chunk")
  | Some json =>
      let ctx := {| ctx_json := json; ctx_bin := snd jb; ctx_url := url;
                    ctx_images := None; ctx_textures := None |} in
      scene <- _buildScene ctx ;;
      JS.ret {| gltf_scene := scene; gltf_json := json |}
  end.

(** [parse] as the specification words it for a length mismatch: the
    chunks are read up to the actual end of the buffer. *)
Definition parse_actual_length (arrayBuffer : JS.ArrayBuffer) (url : option string) : JS.M GLTF :=
  magic <- JS.getUint32 arrayBuffer 0 ;;
  if negb (magic =? MAGIC) then JS.throw (JS.Error "Not a GLB file") else
  version <- JS.getUint32 arrayBuffer 4 ;;
  if negb (version =? 2) then JS.throw (JS.Error "Only glTF 2.0 supported") else
  length <- JS.getUint32 arrayBuffer 8 ;;
  (if negb (length =? JS.byteLength arrayBuffer)
   then JS.console_warn "GLB length mismatch" else JS.ret tt) ;;;
  parse_chunks JSON_parse arrayBuffer url (JS.byteLength arrayBuffer).

End Chunks.

(** ** Sample chunk texts

    [JSON.parse] on the three chunk texts the examples use; every
    other text is treated as malformed, which the examples only rely on for
    the text [x]. *)

Definition quote : string := String (Ascii.ascii_of_nat 34) EmptyString.

Definition text_empty_object : string := "{}".
Definition text_one_buffer : string := ("{" ++ quote ++ "buffers" ++ quote ++ ":[{}]}")%string.
Definition text_null : string := "null".

Definition one_buffer_document : Document :=
  {| buffers := Some [{| buf_uri := None; buf_byteLength := None |}];
     bufferViews := None; accessors := None; meshes := None;
     materials := None; images := None; samplers := None; textures := None;
     nodes := None; scenes := None; scene := None |}.

Definition JSON_parse_sample (chunkData : JS.ArrayBuffer) : parsed :=
  let text := string_of_list_byte chunkData in
  if String.eqb text text_empty_object then Doc empty_document
  else if String.eqb text text_one_buffer then Doc one_buffer_document
  else if String.eqb text text_null then Falsy
  else Malformed.

Definition bytes (s : string) : JS.ArrayBuffer := list_byte_of_string s.

(* ================================================================== *)
(** * Documents without dangling node references *)
(* ================================================================== *)

(** [id] designates a node of an arena of [n] nodes. *)
Definition in_range (n : nat) (id : Z) : bool :=
  (0 <=? id) && (id <? Z.of_nat n).

Definition prune_ids (n : nat) (ids : option (list Z)) : option (list Z) :=
  option_map (filter (in_range n)) ids.

Definition prune_node (n : nat) (nd : NodeDef) : NodeDef :=
  {| node_name := node_name nd; node_mesh := node_mesh nd;
     node_translation := node_translation nd; node_scale := node_scale nd;
     node_rotation := node_rotation nd;
     node_children := prune_ids n (node_children nd) |}.

Definition prune_scene (n : nat) (sd : SceneDef) : SceneDef :=
  {| scene_nodes := prune_ids n (scene_nodes sd) |}.

(** The document with every child index and every scene node index that
    is out of range of [json.nodes] removed. *)
Definition prune (json : Document) : Document :=
  let n := List.length (JS.or_empty (nodes json)) in
  {| buffers := buffers json; bufferViews := bufferViews json;
     accessors := accessors json; meshes := meshes json;
     materials := materials json; images := images json;
     samplers := samplers json; textures := textures json;
     nodes := option_map (List.map (prune_node n)) (nodes json);
     scenes := option_map (List.map (prune_scene n)) (scenes json);
     scene := scene json |}.

Definition with_json (ctx : Context) (json : Document) : Context :=
  {| ctx_json := json; ctx_bin := ctx_bin ctx; ctx_url := ctx_url ctx;
     ctx_images := ctx_images ctx; ctx_textures := ctx_textures ctx |}.

(** Some reference of the node graph is out of range. *)
Definition dangling (json : Document) : Prop :=
  let n := List.length (JS.or_empty (nodes json)) in
  (exists nd ids id, In nd (JS.or_empty (nodes json)) /\ node_children nd = Some ids /\
                     In id ids /\ in_range n id = false) \/
  (exists sd ids id, In sd (JS.or_empty (scenes json)) /\ scene_nodes sd = Some ids /\
                     In id ids /\ in_range n id = false).

(* ================================================================== *)
(** * Sample values *)
(* ================================================================== *)

Definition zero : JS.number := JS.of_Z 0.
Definition one : JS.number := JS.of_Z 1.
Definition one_half : JS.number := JS.div (JS.of_Z 1) (JS.of_Z 2).

(** [baseColorFactor = [1, 0, 0, 0.5]] *)
Definition red_half : list JS.value :=
  [JS.VNum one; JS.VNum zero; JS.VNum zero; JS.VNum one_half].

(** The value of a number is at most the integer [b]: the number is a
    zero, or a positive [m * 2^e] with [e <= 0] and [m <= b * 2^(-e)]. *)
Definition at_most (b : Z) (x : JS.number) : Prop :=
  match x with
  | S754_zero _ => True
  | S754_finite false m e => e <= 0 /\ Zpos m <= b * 2 ^ (- e)
  | _ => False
  end.

(** A number lies in the unit range: it is a zero, or a positive
    [m * 2^e] of value at most 1 (which leaves no [e] above 0). *)
Definition in_unit_range (x : JS.number) : bool :=
  match x with
  | S754_zero _ => true
  | S754_finite false m e => (e <=? 0) && (Zpos m <=? 2 ^ (- e))
  | _ => false
  end.

(** The unsigned 16-bit little-endian words of a run of bytes. *)
Fixpoint u16_words (l : list byte) : list Z :=
  match l with
  | b0 :: b1 :: l' => (JS.u8 b0 + 2 ^ 8 * JS.u8 b1) :: u16_words l'
  | _ => []
  end.

(** The bytes a view spans. *)
Definition window (buffer : JS.ArrayBuffer) (byteOffset byteLength : Z) : list byte :=
  firstn (Z.to_nat byteLength) (skipn (Z.to_nat byteOffset) buffer).

(* ================================================================== *)
(** * Sample inputs *)
(* ================================================================== *)

Definition ctx_of (json : Document) (bin : option JS.ArrayBuffer) : Context :=
  {| ctx_json := json; ctx_bin := bin; ctx_url := None;
     ctx_images := None; ctx_textures := None |}.

Definition node_with_children (ids : list Z) : NodeDef :=
  {| node_name := None; node_mesh := None; node_translation := None;
     node_scale := None; node_rotation := None; node_children := Some ids |}.

(** One node whose child list names node 7; a scene that names the
    nodes 0 and 9. *)
Definition doc_dangling : Document :=
  {| buffers := None; bufferViews := None; accessors := None; meshes := None;
     materials := None; images := None; samplers := None; textures := None;
     nodes := Some [node_with_children [7]];
     scenes := Some [{| scene_nodes := Some [0; 9] |}];
     scene := None |}.

(** A container of one JSON chunk that declares a buffer, followed by a
    BIN chunk the header's total length does not cover. *)
Definition glb_one_buffer : JS.ArrayBuffer := glb [(CHUNK_JSON, bytes text_one_buffer)].
Definition trailing_bin : list byte := encode_chunk (CHUNK_BIN, bytes "abcd").

(** A container whose header states 8 bytes more than the buffer holds. *)
Definition glb_short : JS.ArrayBuffer :=
  header 30 ++ encode_chunks [(CHUNK_JSON, bytes text_empty_object)].

(** A 22-byte container whose only chunk states a length of 100. *)
Definition glb_oversized : JS.ArrayBuffer :=
  header 22 ++ encode_chunk_with 100 (CHUNK_JSON, bytes text_empty_object).

(** Two JSON chunks, the first of which is not JSON. *)
Definition glb_two_json : JS.ArrayBuffer :=
  glb [(CHUNK_JSON, bytes "x"); (CHUNK_JSON, bytes text_empty_object)].

(** A view of 8 bytes at offset 2 of a 4-byte buffer. *)
Definition view_beyond_buffer : BufferViewDef :=
  {| bv_buffer := Some 0; bv_byteOffset := Some 2; bv_byteLength := Some 8 |}.

(** One float32 scalar at byte offset 2 of an 8-byte view. *)
Definition accessor_misaligned : AccessorDef :=
  {| acc_bufferView := Some 0; acc_byteOffset := Some 2; acc_componentType := Some 5126;
     acc_type := Some "SCALAR"%string; acc_count := Some 1; acc_normalized := None |}.

(** One float32 scalar at byte offset 4 of an 8-byte view. *)
Definition accessor_aligned : AccessorDef :=
  {| acc_bufferView := Some 0; acc_byteOffset := Some 4; acc_componentType := Some 5126;
     acc_type := Some "SCALAR"%string; acc_count := Some 1; acc_normalized := None |}.

(** Three float32 scalars at byte offset 0 of an 8-byte view. *)
Definition accessor_too_long : AccessorDef :=
  {| acc_bufferView := Some 0; acc_byteOffset := Some 0; acc_componentType := Some 5126;
     acc_type := Some "SCALAR"%string; acc_count := Some 3; acc_normalized := None |}.

(** The accessor of one VEC3 of float32 over 12 bytes. *)
Definition position_accessor : AccessorData :=
  {| a_array := JS.View JS.Float32Array (bytes "000000000000") 0 3; a_itemSize := 3;
     a_normalized := false; a_componentType := 5126; a_count := Some 1;
     a_type := "VEC3" |}.

(** The accessor of one VEC4 of uint8 over the bytes 255, 128, 0, 255. *)
Definition color_accessor : AccessorData :=
  {| a_array := JS.View JS.Uint8Array [xff; x80; x00; xff] 0 4; a_itemSize := 4;
     a_normalized := false; a_componentType := 5121; a_count := Some 1;
     a_type := "VEC4" |}.

Definition primitive_with (mode : option Z) (color : option Z) (material : option Z)
    : PrimitiveDef :=
  {| prim_mode := mode;
     prim_attributes := Some {| POSITION := Some 0; NORMAL := None; COLOR_0 := color |};
     prim_indices := None; prim_material := material |}.

Definition mesh_of (prims : list PrimitiveDef) : MeshDef :=
  {| mesh_name := None; mesh_primitives := Some prims |}.

Definition empty_group : THREE.MeshGroup :=
  {| THREE.mg_name := "mesh"; THREE.mg_children := [] |}.

Definition material_with (factor : list JS.value) (texture : option Z)
    (emissive : option (list JS.value)) (alpha : option string) : MaterialDef :=
  {| pbrMetallicRoughness :=
       Some {| baseColorFactor := Some factor;
               baseColorTexture := option_map (fun k => {| ti_index := Some k |}) texture;
               metallicFactor := None; roughnessFactor := None |};
     emissiveFactor := emissive; doubleSided := None; alphaMode := alpha |}.

Definition doc_with_material (mdef : MaterialDef) : Document :=
  {| buffers := None; bufferViews := None; accessors := None; meshes := None;
     materials := Some [mdef]; images := None; samplers := None; textures := None;
     nodes := None; scenes := None; scene := None |}.

Definition sample_texture : THREE.Texture :=
  set_flipY (TextureLoader_load (THREE.Url "data:,")) false.

(** A context whose texture 0 is resolved. *)
Definition ctx_textured (mdef : MaterialDef) : Context :=
  {| ctx_json := doc_with_material mdef; ctx_bin := None; ctx_url := None;
     ctx_images := None; ctx_textures := Some [Some sample_texture] |}.

(* ================================================================== *)
(** * Notions used by the further properties *)
(* ================================================================== *)

(** The chunk types [parse] looks at (lines 43, 45). *)
Definition is_known (c : chunk) : bool :=
  (fst c =? CHUNK_JSON) || (fst c =? CHUNK_BIN).

(** A container made of a valid header and one BIN chunk. *)
Definition glb_bin_only : JS.ArrayBuffer := glb [(CHUNK_BIN, bytes "abcd")].

(** A document whose only bufferView names buffer 0, and no accessor. *)
Definition doc_one_view : Document :=
  {| buffers := None; bufferViews := Some [view_beyond_buffer]; accessors := None;
     meshes := None; materials := None; images := None; samplers := None;
     textures := None; nodes := None; scenes := None; scene := None |}.

(** Three uint8 scalars at byte offset 1 of view 0, and two uint16
    scalars at byte offset 2 of view 0. *)
Definition accessor_bytes : AccessorDef :=
  {| acc_bufferView := Some 0; acc_byteOffset := Some 1; acc_componentType := Some 5121;
     acc_type := Some "SCALAR"%string; acc_count := Some 3; acc_normalized := None |}.

Definition accessor_words : AccessorDef :=
  {| acc_bufferView := Some 0; acc_byteOffset := Some 2; acc_componentType := Some 5123;
     acc_type := Some "SCALAR"%string; acc_count := Some 2; acc_normalized := None |}.

(** The view of 6 bytes at offset 2 of buffer 0. *)
Definition view_inside_buffer : BufferViewDef :=
  {| bv_buffer := Some 0; bv_byteOffset := Some 2; bv_byteLength := Some 6 |}.

(** An accessor of component type 5124 (INT, which glTF does not have for
    accessors and the table lacks), one of type VEC5, and one that names
    no bufferView. *)
Definition accessor_int : AccessorDef :=
  {| acc_bufferView := Some 0; acc_byteOffset := None; acc_componentType := Some 5124;
     acc_type := Some "VEC5"%string; acc_count := Some 1; acc_normalized := None |}.

Definition accessor_vec5 : AccessorDef :=
  {| acc_bufferView := Some 0; acc_byteOffset := None; acc_componentType := Some 5126;
     acc_type := Some "VEC5"%string; acc_count := Some 1; acc_normalized := None |}.

Definition accessor_no_view : AccessorDef :=
  {| acc_bufferView := None; acc_byteOffset := Some 3; acc_componentType := Some 5126;
     acc_type := Some "VEC3"%string; acc_count := Some 100; acc_normalized := None |}.

(** The names of the properties an object literal inherits from
    [Object.prototype]: a lookup [map[key]] with one of these keys finds
    the inherited property, not [undefined]. *)
Definition inherited_names : list string :=
  ["constructor"; "toString"; "toLocaleString"; "valueOf"; "hasOwnProperty";
   "isPrototypeOf"; "propertyIsEnumerable"; "__proto__"; "__defineGetter__";
   "__defineSetter__"; "__lookupGetter__"; "__lookupSetter__"]%string.

(** A string holds no slash. *)
Definition no_slash (s : string) : Prop := ~ In "/"%char (list_ascii_of_string s).

(** The sampler a texture definition designates, if it designates one
    (line 216-218). *)
Definition sampler_of (json : Document) (tex : TextureDef) : option SamplerDef :=
  match tex_sampler tex, samplers json with
  | Some k, Some ss => JS.index ss k
  | _, _ => None
  end.

(** An image kept in a file beside the model, one given as a data URI,
    one embedded in the binary chunk, and a document that holds them. *)
Definition image_external : ImageDef :=
  {| img_bufferView := None; img_uri := Some "wood.png"%string; img_mimeType := None |}.

Definition image_data : ImageDef :=
  {| img_bufferView := None; img_uri := Some "data:image/png;base64,AAAA"%string;
     img_mimeType := None |}.

Definition image_embedded : ImageDef :=
  {| img_bufferView := Some 0; img_uri := Some "ignored.png"%string; img_mimeType := None |}.

Definition doc_images : Document :=
  {| buffers := None; bufferViews := Some [view_inside_buffer; view_beyond_buffer];
     accessors := None; meshes := None; materials := None;
     images := Some [image_external; image_data; image_embedded];
     samplers := Some [{| wrapS := Some 33071; wrapT := Some 1; magFilter := None;
                          minFilter := Some 9987 |}];
     textures := Some [{| tex_source := Some 0; tex_sampler := Some 0 |};
                       {| tex_source := Some 5; tex_sampler := None |};
                       {| tex_source := None; tex_sampler := Some 0 |}];
     nodes := None; scenes := None; scene := None |}.

Definition ctx_at (json : Document) (bin : option JS.ArrayBuffer) (url : string) : Context :=
  {| ctx_json := json; ctx_bin := bin; ctx_url := Some url;
     ctx_images := None; ctx_textures := None |}.

(** A context in which the images of [doc_images] are resolved: the
    first is a file, the second is [null]. *)
Definition ctx_with_images : Context :=
  {| ctx_json := doc_images; ctx_bin := None; ctx_url := None;
     ctx_images := Some [Some {| i_url := THREE.Url "wood.png"; i_mimeType := None |}; None];
     ctx_textures := None |}.

(** ** What a primitive's material is made from

    The parts of the document and of the context that the material block
    of [_buildMesh] reads for a primitive, each as the block finds it. *)

(** [matDefs[prim.material]], when [prim.material] is not [null] (line 140). *)
Definition material_of (ctx : Context) (prim : PrimitiveDef) : option MaterialDef :=
  match prim_material prim with
  | Some k => JS.index (JS.or_empty (materials (ctx_json ctx))) k
  | None => None
  end.

Definition pbr_of (ctx : Context) (prim : PrimitiveDef) : option PbrDef :=
  match material_of ctx prim with
  | Some mdef => pbrMetallicRoughness mdef
  | None => None
  end.

(** The texture the base-colour texture reference resolves to (lines
    150-152): [None] when a link of the chain is missing or [null]. *)
Definition pbr_texture (ctx : Context) (p : PbrDef) : option THREE.Texture :=
  match baseColorTexture p with
  | Some info =>
      match ti_index info, ctx_textures ctx with
      | Some k, Some texs =>
          match JS.index texs k with
          | Some (Some tex) => Some tex
          | _ => None
          end
      | _, _ => None
      end
  | None => None
  end.

(** The fourth entry of the base colour factor when it counts as an
    alpha: it is not [null] and, as a number, is below 1 (line 147). *)
Definition pbr_alpha (p : PbrDef) : option JS.value :=
  match baseColorFactor p with
  | Some f =>
      if JS.not_nullish (JS.index f 3) && JS.ltb (JS.ToNumber (JS.index f 3)) (JS.of_Z 1)
      then JS.index f 3 else None
  | None => None
  end.

Definition texture_of (ctx : Context) (prim : PrimitiveDef) : option THREE.Texture :=
  match pbr_of ctx prim with
  | Some p => pbr_texture ctx p
  | None => None
  end.

Definition alpha_of (ctx : Context) (prim : PrimitiveDef) : option JS.value :=
  match pbr_of ctx prim with
  | Some p => pbr_alpha p
  | None => None
  end.

Definition blend_of (ctx : Context) (prim : PrimitiveDef) : bool :=
  match material_of ctx prim with
  | Some mdef => is_BLEND (alphaMode mdef)
  | None => false
  end.

(** A material with every property the loader reads, and a context whose
    texture 0 is resolved. *)
Definition material_full : MaterialDef :=
  {| pbrMetallicRoughness :=
       Some {| baseColorFactor := Some [JS.VNum one; JS.VNum one_half; JS.VNum zero; JS.VNum one];
               baseColorTexture := Some {| ti_index := Some 0 |};
               metallicFactor := Some one; roughnessFactor := Some one_half |};
     emissiveFactor := Some [JS.VNum one; JS.VNum one; JS.VNum zero];
     doubleSided := Some true; alphaMode := Some "BLEND"%string |}.

(** ** Primitives of a mesh *)

(** The warning a primitive is skipped with, when it is skipped (lines
    107 and 109). *)
Definition skipped_with (prim : PrimitiveDef) : option string :=
  if mode_rejected (prim_mode prim) then Some "Primitive mode not TRIANGLES, skipped"%string
  else match prim_attributes prim with
       | Some {| POSITION := Some _ |} => None
       | _ => Some "Primitive missing POSITION"%string
       end.

(** The accessor indices a primitive names (lines 111, 114, 118, 136). *)
Definition accessor_references (prim : PrimitiveDef) : list Z :=
  match prim_attributes prim with
  | Some a =>
      flat_map (fun o : option Z => match o with Some k => [k] | None => [] end)
        [POSITION a; NORMAL a; COLOR_0 a; prim_indices prim]
  | None => []
  end.

(** The elements of an array with their indices, counted from [i]. *)
Fixpoint number_from {A} (i : Z) (l : list A) : list (Z * A) :=
  match l with
  | [] => []
  | a :: l' => (i, a) :: number_from (i + 1) l'
  end.

(** The names of the meshes built for the primitives of a list that are
    not skipped: the group's name, an underscore and the index of the
    primitive in the list (line 168). *)
Definition built_names (name : string) (i : Z) (prims : list PrimitiveDef) : list string :=
  List.map (fun ip => (name ++ "_" ++ string_of_index (fst ip))%string)
    (filter (fun ip => match skipped_with (snd ip) with None => true | Some _ => false end)
       (number_from i prims)).

(** The warnings written for the primitives of a list, in order. *)
Definition skip_warnings (prims : list PrimitiveDef) : list string :=
  flat_map (fun p => match skipped_with p with Some w => [w] | None => [] end) prims.

(** ** What the bounding sphere writes to the console *)

(** A number that is neither NaN nor an infinity. *)
Definition is_finite (x : JS.number) : bool :=
  match x with
  | S754_zero _ | S754_finite _ _ _ => true
  | _ => false
  end.

(** A zero, a positive number or the positive infinity. *)
Definition not_negative (x : JS.number) : bool :=
  match x with
  | S754_zero _ | S754_finite false _ _ | S754_infinity false => true
  | _ => false
  end.

(** A number that is not NaN and carries the sign [s]. *)
Definition has_sign (s : bool) (x : JS.number) : Prop :=
  match x with
  | S754_nan => False
  | S754_zero s' | S754_infinity s' | S754_finite s' _ _ => s' = s
  end.

(** The three coordinates three.js reads for vertex [i] are finite
    numbers (none is NaN, an infinity, or [undefined] past the end of the
    array). *)
Definition finite_vector (v : THREE.Vector3) : bool :=
  is_finite (THREE.v_x v) && is_finite (THREE.v_y v) && is_finite (THREE.v_z v).

Definition finite_vertex (a : THREE.BufferAttribute) (i : Z) : bool :=
  finite_vector (THREE.fromBufferAttribute a i).

Definition finite_positions (a : THREE.BufferAttribute) : bool :=
  forallb (finite_vertex a) (THREE.vertex_indices a).

(** One of the three coordinates read for vertex [i] is NaN or
    [undefined]. *)
Definition nan_vector (v : THREE.Vector3) : bool :=
  JS.isNaN (THREE.v_x v) || JS.isNaN (THREE.v_y v) || JS.isNaN (THREE.v_z v).

Definition nan_vertex (a : THREE.BufferAttribute) (i : Z) : bool :=
  nan_vector (THREE.fromBufferAttribute a i).

Definition nan_positions (a : THREE.BufferAttribute) : bool :=
  existsb (nan_vertex a) (THREE.vertex_indices a).

(** A box as the loop over the vertices leaves it: still empty, or with
    finite bounds. *)
Definition finite_box (b : THREE.Box3) : bool :=
  finite_vector (THREE.b_min b) && finite_vector (THREE.b_max b).

Definition no_nan_vector (v : THREE.Vector3) : bool :=
  negb (nan_vector v).

(** The lines [computeBoundingSphere] writes for a position attribute. *)
Definition sphere_errors (position : THREE.BufferAttribute) : list string :=
  if JS.isNaN (THREE.boundingSphere_radius position)
  then [THREE.radius_is_NaN_message] else [].

(** [prim.attributes.POSITION], where the primitive has attributes. *)
Definition position_of (prim : PrimitiveDef) : option Z :=
  match prim_attributes prim with
  | Some a => POSITION a
  | None => None
  end.

(** The lines one primitive of a mesh leaves on the console: its warning
    when it is skipped, otherwise what three.js reports for the bounding
    sphere of its positions. *)
Definition primitive_lines (accessors : list AccessorData) (prim : PrimitiveDef)
    : list string :=
  match skipped_with prim with
  | Some w => [w]
  | None =>
      match position_of prim with
      | Some pos =>
          match JS.index accessors pos with
          | Some posAcc => sphere_errors (attribute_of posAcc)
          | None => []
          end
      | None => []
      end
  end.

Definition mesh_lines (accessors : list AccessorData) (prims : list PrimitiveDef)
    : list string :=
  flat_map (primitive_lines accessors) prims.

(** The accessor of one VEC3 of float32 whose second coordinate is the
    NaN of bit pattern 0x7fc00000. *)
Definition position_accessor_nan : AccessorData :=
  {| a_array := JS.View JS.Float32Array
                  [x00; x00; x80; x3f; x00; x00; xc0; x7f; x00; x00; x00; x00] 0 3;
     a_itemSize := 3; a_normalized := false; a_componentType := 5126;
     a_count := Some 1; a_type := "VEC3" |}.

(** A mesh of four primitives: lines (skipped), triangles, one without
    attributes (skipped), and one with vertex colours. *)
Definition mesh_mixed : MeshDef :=
  {| mesh_name := Some "chair"%string;
     mesh_primitives :=
       Some [primitive_with (Some 1) None None;
             primitive_with (Some 4) None None;
             {| prim_mode := None; prim_attributes := None; prim_indices := None;
                prim_material := None |};
             primitive_with None (Some 1) None] |}.

(** ** The linked scene graph *)

(** The object a reference designates. *)
Definition obj_at (g : THREE.Graph) (r : THREE.ref) : option THREE.Object3D :=
  match r with
  | THREE.RefNode i => nth_error (THREE.objects g) i
  | THREE.RefScene => Some (THREE.root g)
  end.

Definition children_of (g : THREE.Graph) (r : THREE.ref) : list THREE.child :=
  match obj_at g r with
  | Some o => THREE.o_children o
  | None => []
  end.

(** [o.parent === r] *)
Definition parent_is (r : THREE.ref) (o : THREE.Object3D) : bool :=
  match THREE.o_parent o with
  | Some p => THREE.ref_eqb p r
  | None => false
  end.

(** The two ends of every link agree: node [i] is listed among the
    children of an object exactly when that object is its [parent], and
    then once; and the lists of children name nodes of the arena only. *)
Definition well_linked (g : THREE.Graph) : Prop :=
  (forall i o r, nth_error (THREE.objects g) i = Some o ->
     List.length (filter (THREE.is_node i) (children_of g r))
     = if parent_is r o then 1%nat else 0%nat) /\
  (forall r i, In (THREE.ChildNode i) (children_of g r) ->
     (i < List.length (THREE.objects g))%nat).

(** [json.scenes[json.scene || 0].nodes], when the scene and its list
    exist (lines 68-69). *)
Definition scene_ids (json : Document) : option (list Z) :=
  match scenes json with
  | Some ss =>
      match JS.index ss (JS.or_zero (scene json)) with
      | Some def => scene_nodes def
      | None => None
      end
  | None => None
  end.

(** A list of children after node [c] is attached to their object: the
    node leaves the place it had, if it had one, and goes to the end. *)
Definition attach (l : list THREE.child) (c : nat) : list THREE.child :=
  filter (fun x => negb (THREE.is_node c x)) l ++ [THREE.ChildNode c].

(** The clones of mesh groups among the children of an object. *)
Definition mesh_children (o : THREE.Object3D) : list THREE.child :=
  filter (fun x => match x with THREE.ChildMesh _ => true | THREE.ChildNode _ => false end)
    (THREE.o_children o).

(** What [_buildNode] sets on an object and linking leaves alone. *)
Definition same_body (o o' : THREE.Object3D) : Prop :=
  THREE.o_name o' = THREE.o_name o /\ THREE.o_position o' = THREE.o_position o /\
  THREE.o_scale o' = THREE.o_scale o /\ THREE.o_quaternion o' = THREE.o_quaternion o /\
  mesh_children o' = mesh_children o.

(** Three nodes: node 0 lists the children 1, 2 and 1 again, node 2
    lists 1 and itself; the scene names the nodes 0, 2, 5 and 0. *)
Definition doc_shared_child : Document :=
  {| buffers := None; bufferViews := None; accessors := None; meshes := None;
     materials := None; images := None; samplers := None; textures := None;
     nodes := Some [node_with_children [1; 2; 1];
                    {| node_name := Some "leaf"%string; node_mesh := None;
                       node_translation := Some [one; one_half]; node_scale := None;
                       node_rotation := None; node_children := None |};
                    node_with_children [1; 2]];
     scenes := Some [{| scene_nodes := Some [0; 2; 5; 0] |}];
     scene := None |}.

(** Linking changes lists of children and parents and nothing else: the
    arena keeps its size, every object keeps what [_buildNode] gave it,
    and a graph that was well linked still is. *)
Definition relinked (g g' : THREE.Graph) : Prop :=
  List.length (THREE.objects g') = List.length (THREE.objects g) /\
  Forall2 same_body (THREE.objects g) (THREE.objects g') /\
  same_body (THREE.root g) (THREE.root g') /\
  (well_linked g -> well_linked g').

(** The context once [ctx.images] (line 60) and [ctx.textures] (line 61)
    are assigned. *)
Definition with_images (ctx : Context) (images : list (option ImageRecord)) : Context :=
  {| ctx_json := ctx_json ctx; ctx_bin := ctx_bin ctx; ctx_url := ctx_url ctx;
     ctx_images := Some images; ctx_textures := ctx_textures ctx |}.

Definition with_textures (ctx : Context) (textures : list (option THREE.Texture)) : Context :=
  {| ctx_json := ctx_json ctx; ctx_bin := ctx_bin ctx; ctx_url := ctx_url ctx;
     ctx_images := ctx_images ctx; ctx_textures := Some textures |}.

(** [groups] are the groups that [_buildMesh] returns for the entries of
    [json.meshes], in order, in the context [c] that [_buildScene] has
    made by then: buffers, accessors, images and textures resolved. *)
Definition scene_meshes (ctx c : Context) (groups : list THREE.MeshGroup) : Prop :=
  exists buffers accessors images textures,
    JS.outcome (_buildBuffers ctx) = JS.Ok buffers /\
    JS.outcome (_buildAccessors ctx buffers) = JS.Ok accessors /\
    JS.outcome (_buildImages ctx) = JS.Ok images /\
    JS.outcome (_buildTextures (with_images ctx images)) = JS.Ok textures /\
    c = with_textures (with_images ctx images) textures /\
    Forall2 (fun m grp => JS.outcome (_buildMesh c m accessors) = JS.Ok grp)
      (JS.or_empty (meshes (ctx_json ctx))) groups.

(** A document with one mesh of one primitive, whose positions are the
    accessor of three float32 over the twelve bytes of the BIN chunk, and
    two nodes that both show the mesh. *)
Definition doc_two_views_of_a_mesh : Document :=
  {| buffers := Some [{| buf_uri := None; buf_byteLength := Some 12 |}];
     bufferViews := Some [{| bv_buffer := Some 0; bv_byteOffset := Some 0;
                             bv_byteLength := Some 12 |}];
     accessors := Some [{| acc_bufferView := Some 0; acc_byteOffset := Some 0;
                           acc_componentType := Some 5126; acc_type := Some "VEC3"%string;
                           acc_count := Some 1; acc_normalized := None |}];
     meshes := Some [{| mesh_name := Some "chair"%string;
                        mesh_primitives := Some [primitive_with None None None] |}];
     materials := None; images := None; samplers := None; textures := None;
     nodes := Some [{| node_name := Some "left"%string; node_mesh := Some 0;
                       node_translation := None; node_scale := None;
                       node_rotation := None; node_children := None |};
                    {| node_name := Some "right"%string; node_mesh := Some 0;
                       node_translation := Some [one; one_half]; node_scale := None;
                       node_rotation := None; node_children := None |}];
     scenes := Some [{| scene_nodes := Some [0; 1] |}];
     scene := None |}.

(** The children of the scene once the nodes [ids] of an arena of [n]
    nodes are attached to it in order. *)
Definition attach_all (n : nat) (ids : list Z) (l : list THREE.child) : list THREE.child :=
  fold_left (fun l id => if in_range n id then attach l (Z.to_nat id) else l) ids l.

(* ================================================================== *)
(** * Loading from a URL

    [load] (lines 23-27) chains three reactions on the promise that
    [fetch(url)] returns.  What the environment does is a parameter: how
    that promise settles, what the response says, how the promise of
    [r.arrayBuffer()] settles, and whether a callback, when it is called,
    returns or throws.  The trace lists what [load] writes to the console
    and the calls it makes to the callbacks, in order; the result is the
    state in which the last promise of the chain settles. *)
(* ================================================================== *)

(** The response [fetch] resolves to. *)
Record Response := {
  r_ok : bool;
  r_status : Z;
  r_arrayBuffer : JS.result JS.ArrayBuffer }.

Inductive event :=
| Console (line : string)        (* a line [parse] wrote *)
| ConsoleError (e : JS.exn)      (* [console.error(e)] *)
| OnLoad (gltf : GLTF)           (* [onLoad(gltf)] *)
| OnError (e : JS.exn).          (* [onError(e)] *)

(** A callback argument: [None] when it is not given; otherwise what a
    call does, return ([None]) or throw. *)
Definition callback (A : Type) : Type := option (A -> option JS.exn).

(** [if(onError) onError(e); else console.error(e);] *)
Definition report (onError : callback JS.exn) (e : JS.exn) : list event * JS.result unit :=
  match onError with
  | Some handler =>
      ([OnError e], match handler e with Some e' => JS.Throw e' | None => JS.Ok tt end)
  | None => ([ConsoleError e], JS.Ok tt)
  end.

Section Load.

Variable JSON_parse : JS.ArrayBuffer -> parsed.

(** The first reaction (line 24). *)
Definition load_body (fetched : JS.result Response) : JS.result JS.ArrayBuffer :=
  match fetched with
  | JS.Ok r =>
      if negb (r_ok r) then JS.Throw (JS.Error ("HTTP " ++ string_of_index (r_status r)))
      else r_arrayBuffer r
  | JS.Throw e => JS.Throw e
  end.

(** The second reaction (line 25), on the bytes of the body. *)
Definition load_parse (url : string) (onLoad : callback GLTF) (onError : callback JS.exn)
    (ab : JS.ArrayBuffer) : list event * JS.result unit :=
  let parsed := parse JSON_parse ab (Some url) in
  let lines := List.map Console (JS.console parsed) in
  let tried := match JS.outcome parsed with
               | JS.Ok gltf =>
                   match onLoad with
                   | Some f => ([OnLoad gltf],
                                match f gltf with
                                | Some e => JS.Throw e
                                | None => JS.Ok tt
                                end)
                   | None => ([], JS.Ok tt)
                   end
               | JS.Throw e => ([], JS.Throw e)
               end in
  match snd tried with
  | JS.Ok _ => (lines ++ fst tried, JS.Ok tt)
  | JS.Throw e => let (t, r) := report onError e in (lines ++ fst tried ++ t, r)
  end.

(** [load] (lines 23-27): the chain, ended by [.catch]. *)
Definition load (fetched : JS.result Response) (url : string)
    (onLoad : callback GLTF) (onError : callback JS.exn) : list event * JS.result unit :=
  let settled := match load_body fetched with
                 | JS.Ok ab => load_parse url onLoad onError ab
                 | JS.Throw e => ([], JS.Throw e)
                 end in
  match snd settled with
  | JS.Ok _ => settled
  | JS.Throw err => let (t, r) := report onError err in (fst settled ++ t, r)
  end.

End Load.

(** The calls to [onLoad] and to [onError] in a trace. *)
Definition loads (t : list event) : list GLTF :=
  flat_map (fun ev => match ev with OnLoad g => [g] | _ => [] end) t.

Definition errors (t : list event) : list JS.exn :=
  flat_map (fun ev => match ev with OnError e => [e] | ConsoleError e => [e] | _ => [] end) t.

(** A response with status 404, and callbacks that return. *)
Definition response_404 : Response :=
  {| r_ok := false; r_status := 404; r_arrayBuffer := JS.Ok glb_bin_only |}.

Definition quiet {A} : callback A := Some (fun _ => None).

(** A document with one mesh that names accessor 3, no accessor, and no
    node; and one whose only node names mesh 1 of no mesh. *)
Definition doc_dangling_accessor : Document :=
  {| buffers := None; bufferViews := None; accessors := None;
     meshes := Some [mesh_of [{| prim_mode := None;
                                 prim_attributes := Some {| POSITION := Some 3; NORMAL := None;
                                                            COLOR_0 := None |};
                                 prim_indices := None; prim_material := None |}]];
     materials := None; images := None; samplers := None; textures := None;
     nodes := None; scenes := None; scene := None |}.

Definition doc_dangling_mesh : Document :=
  {| buffers := None; bufferViews := None; accessors := None; meshes := None;
     materials := None; images := None; samplers := None; textures := None;
     nodes := Some [{| node_name := None; node_mesh := Some 1; node_translation := None;
                       node_scale := None; node_rotation := None; node_children := None |}];
     scenes := None; scene := None |}.

(* ================================================================== *)
(** * Proof automation *)
(* ================================================================== *)

(** Reduce the setters and projections of the options record, and
    nothing else (the numbers stay folded). *)
Ltac mat_simpl :=
  cbn [set_color set_metalness set_roughness set_transparent set_opacity set_map
       set_emissive set_side set_vertexColors
       THREE.color THREE.metalness THREE.roughness THREE.transparent THREE.opacity
       THREE.map THREE.emissive THREE.side THREE.vertexColors].

(** Closed comparisons of integers, by evaluation. *)
Ltac decide_Z :=
  vm_compute; repeat split; first [ reflexivity | discriminate | intro; discriminate ].

(** A closed list of chunks fits the uint32 fields. *)
Ltac fits_tac :=
  cbn [app]; repeat first [ split | apply Forall_cons | apply Forall_nil ]; decide_Z.

(* ================================================================== *)
(** * Properties of the runtime model *)
(* ================================================================== *)

Lemma bind_ret_l {A B} (a : A) (f : A -> JS.M B) : JS.bind (JS.ret a) f = f a.
Proof. unfold JS.bind, JS.ret. destruct (f a) as [w r]. reflexivity. Qed.

Lemma bind_ret_r {A} (m : JS.M A) : JS.bind m JS.ret = m.
Proof.
  destruct m as [w [a | e]]; unfold JS.bind, JS.ret; simpl; [ | reflexivity ].
  now rewrite app_nil_r.
Qed.

Lemma bind_throw {A B} (e : JS.exn) (f : A -> JS.M B) : JS.bind (JS.throw e) f = JS.throw e.
Proof. reflexivity. Qed.

Lemma bind_assoc {A B C} (m : JS.M A) (f : A -> JS.M B) (g : B -> JS.M C) :
  JS.bind (JS.bind m f) g = JS.bind m (fun a => JS.bind (f a) g).
Proof.
  destruct m as [w [a | e]]; unfold JS.bind; simpl; [ | reflexivity ].
  destruct (f a) as [w1 [b | e1]]; simpl; [ | reflexivity ].
  destruct (g b) as [w2 r2]. now rewrite app_assoc.
Qed.

Lemma bind_ext {A B} (m : JS.M A) (f g : A -> JS.M B) :
  (forall a, f a = g a) -> JS.bind m f = JS.bind m g.
Proof.
  intros H. destruct m as [w [a | e]]; unfold JS.bind; [ now rewrite H | reflexivity ].
Qed.

(** ** Bytes and little-endian words *)

Lemma u8_byte_of_Z (z : Z) : JS.u8 (byte_of_Z z) = z mod 256.
Proof.
  unfold JS.u8, byte_of_Z.
  assert (Hb : 0 <= z mod 256 < 256) by (apply Z.mod_pos_bound; lia).
  destruct (Byte.of_N (Z.to_N (z mod 256))) as [b | ] eqn:E.
  - apply Byte.to_of_N in E. rewrite E. lia.
  - apply Byte.of_N_None_iff in E. lia.
Qed.

Lemma u8_range (b : byte) : 0 <= JS.u8 b < 256.
Proof. unfold JS.u8. pose proof (Byte.to_N_bounded b). lia. Qed.

Lemma u32le_length (z : Z) : List.length (u32le z) = 4%nat.
Proof. reflexivity. Qed.

Lemma byteLength_app (a b : list byte) :
  JS.byteLength (a ++ b) = JS.byteLength a + JS.byteLength b.
Proof. unfold JS.byteLength. rewrite length_app. lia. Qed.

Lemma byteLength_nonneg (a : list byte) : 0 <= JS.byteLength a.
Proof. unfold JS.byteLength. lia. Qed.

Lemma skipn_byteLength (pre rest : list byte) :
  skipn (Z.to_nat (JS.byteLength pre)) (pre ++ rest) = rest.
Proof.
  unfold JS.byteLength. rewrite Nat2Z.id.
  rewrite skipn_app, skipn_all, Nat.sub_diag. reflexivity.
Qed.

Lemma u32le_value (z : Z) :
  0 <= z < 2 ^ 32 ->
  z mod 256 + 2 ^ 8 * ((z / 2 ^ 8) mod 256) + 2 ^ 16 * ((z / 2 ^ 16) mod 256)
    + 2 ^ 24 * ((z / 2 ^ 24) mod 256) = z.
Proof.
  intros Hz.
  change (2 ^ 8) with 256. change (2 ^ 16) with (256 * 256).
  change (2 ^ 24) with (256 * 256 * 256).
  rewrite <- !Z.div_div by lia.
  pose proof (Z.div_mod z 256 ltac:(lia)) as H0.
  pose proof (Z.div_mod (z / 256) 256 ltac:(lia)) as H1.
  pose proof (Z.div_mod (z / 256 / 256) 256 ltac:(lia)) as H2.
  assert (H3 : z / 256 / 256 / 256 < 256).
  { rewrite !Z.div_div by lia. apply Z.div_lt_upper_bound; lia. }
  assert (H4 : 0 <= z / 256 / 256 / 256).
  { rewrite !Z.div_div by lia. apply Z.div_pos; lia. }
  rewrite (Z.mod_small (z / 256 / 256 / 256) 256) by lia.
  lia.
Qed.

(** Reading back a word written at the end of [pre]. *)
Lemma getUint32_u32le (pre rest : list byte) (z : Z) :
  0 <= z < 2 ^ 32 ->
  JS.getUint32 (pre ++ u32le z ++ rest) (JS.byteLength pre) = JS.ret z.
Proof.
  intros Hz. unfold JS.getUint32.
  pose proof (byteLength_nonneg pre) as Hp.
  pose proof (byteLength_nonneg rest) as Hr.
  rewrite !byteLength_app.
  change (JS.byteLength (u32le z)) with 4.
  replace (JS.byteLength pre <? 0) with false by (symmetry; apply Z.ltb_ge; lia).
  replace (JS.byteLength pre + (4 + JS.byteLength rest) <? JS.byteLength pre + 4)
    with false by (symmetry; apply Z.ltb_ge; lia).
  simpl orb. cbv iota.
  rewrite skipn_byteLength. simpl.
  rewrite !u8_byte_of_Z. now rewrite u32le_value.
Qed.

(** A successful read stays inside the buffer, writes nothing to the
    console and yields a uint32. *)
Lemma getUint32_ok (dv : JS.ArrayBuffer) (offset : Z) (w : list string) (z : Z) :
  JS.getUint32 dv offset = (w, JS.Ok z) ->
  w = [] /\ 0 <= offset /\ offset + 4 <= JS.byteLength dv /\ 0 <= z < 2 ^ 32.
Proof.
  unfold JS.getUint32.
  destruct (offset <? 0) eqn:E1; [ discriminate | ].
  destruct (JS.byteLength dv <? offset + 4) eqn:E2; [ discriminate | ].
  simpl orb. cbv iota.
  destruct (skipn (Z.to_nat offset) dv) as [ | b0 [ | b1 [ | b2 [ | b3 l]]]]; try discriminate.
  apply Z.ltb_ge in E1, E2.
  assert (Hv : 0 <= JS.u8 b0 + 2 ^ 8 * JS.u8 b1 + 2 ^ 16 * JS.u8 b2 + 2 ^ 24 * JS.u8 b3 < 2 ^ 32).
  { pose proof (u8_range b0). pose proof (u8_range b1).
    pose proof (u8_range b2). pose proof (u8_range b3).
    change (2 ^ 8) with 256. change (2 ^ 16) with 65536.
    change (2 ^ 24) with 16777216. change (2 ^ 32) with 4294967296. lia. }
  unfold JS.ret. intros [= <- <-].
  split; [ reflexivity | ]. split; [ assumption | ]. split; [ assumption | exact Hv ].
Qed.

(** Every outcome of a read: a uint32 or a RangeError, and a silent
    console. *)
Lemma getUint32_cases (dv : JS.ArrayBuffer) (offset : Z) :
  JS.getUint32 dv offset = JS.throw JS.RangeError \/
  exists z, JS.getUint32 dv offset = JS.ret z.
Proof.
  unfold JS.getUint32.
  destruct ((offset <? 0) || (JS.byteLength dv <? offset + 4)); [ now left | ].
  destruct (skipn (Z.to_nat offset) dv) as [ | b0 [ | b1 [ | b2 [ | b3 l]]]];
    try (now left).
  right. eexists. reflexivity.
Qed.

Lemma getUint32_out_of_bounds (dv : JS.ArrayBuffer) (offset : Z) :
  JS.byteLength dv < offset + 4 -> JS.getUint32 dv offset = JS.throw JS.RangeError.
Proof.
  intros H. unfold JS.getUint32.
  replace (JS.byteLength dv <? offset + 4) with true by (symmetry; apply Z.ltb_lt; lia).
  now rewrite orb_true_r.
Qed.

(** ** Slices *)

Lemma slice_length (b : JS.ArrayBuffer) (begin end_ : Z) :
  JS.byteLength (JS.slice b begin end_) =
  Z.max (JS.clamp_index (JS.byteLength b) end_ - JS.clamp_index (JS.byteLength b) begin) 0.
Proof.
  unfold JS.slice, JS.byteLength at 1.
  rewrite length_firstn, length_skipn.
  assert (H1 : 0 <= JS.clamp_index (JS.byteLength b) begin <= JS.byteLength b).
  { unfold JS.clamp_index. pose proof (byteLength_nonneg b).
    destruct (begin <? 0) eqn:E; [ | apply Z.ltb_ge in E ]; lia. }
  assert (H2 : 0 <= JS.clamp_index (JS.byteLength b) end_ <= JS.byteLength b).
  { unfold JS.clamp_index. pose proof (byteLength_nonneg b).
    destruct (end_ <? 0) eqn:E; [ | apply Z.ltb_ge in E ]; lia. }
  unfold JS.byteLength in *. lia.
Qed.

(** The slice that starts after [pre] and asks for at least the bytes
    of [data], when nothing follows [data] or exactly [data] is asked. *)
Lemma slice_app_exact (pre data rest : list byte) :
  JS.slice (pre ++ data ++ rest) (JS.byteLength pre) (JS.byteLength pre + JS.byteLength data)
  = data.
Proof.
  unfold JS.slice. rewrite !byteLength_app.
  pose proof (byteLength_nonneg pre). pose proof (byteLength_nonneg data).
  pose proof (byteLength_nonneg rest).
  unfold JS.clamp_index.
  replace (JS.byteLength pre <? 0) with false by (symmetry; apply Z.ltb_ge; lia).
  replace (JS.byteLength pre + JS.byteLength data <? 0) with false
    by (symmetry; apply Z.ltb_ge; lia).
  rewrite !Z.min_l by lia.
  rewrite skipn_byteLength.
  replace (Z.max (JS.byteLength pre + JS.byteLength data - JS.byteLength pre) 0)
    with (JS.byteLength data) by lia.
  unfold JS.byteLength. rewrite Nat2Z.id.
  rewrite firstn_app, firstn_all, Nat.sub_diag. simpl. now rewrite app_nil_r.
Qed.

Lemma slice_app_truncated (pre data : list byte) (n : Z) :
  JS.byteLength data <= n ->
  JS.slice (pre ++ data) (JS.byteLength pre) (JS.byteLength pre + n) = data.
Proof.
  intros Hn. unfold JS.slice. rewrite !byteLength_app.
  pose proof (byteLength_nonneg pre). pose proof (byteLength_nonneg data).
  unfold JS.clamp_index.
  replace (JS.byteLength pre <? 0) with false by (symmetry; apply Z.ltb_ge; lia).
  replace (JS.byteLength pre + n <? 0) with false by (symmetry; apply Z.ltb_ge; lia).
  rewrite (Z.min_l (JS.byteLength pre)) by lia.
  rewrite (Z.min_r (JS.byteLength pre + n)) by lia.
  rewrite skipn_byteLength.
  replace (Z.max (JS.byteLength pre + JS.byteLength data - JS.byteLength pre) 0)
    with (JS.byteLength data) by lia.
  unfold JS.byteLength. rewrite Nat2Z.id. apply firstn_all.
Qed.

(* ================================================================== *)
(** * The chunk loop *)
(* ================================================================== *)

Section ChunkLoop.

Variable JSON_parse : JS.ArrayBuffer -> parsed.

(** The loop never uses up fuel that exceeds the bytes left in the
    buffer: any two such amounts of fuel give the same result. *)
Lemma read_chunks_fuel (f1 : nat) :
  forall (f2 : nat) (buf : JS.ArrayBuffer) (length offset : Z)
         (json : option Document) (bin : option JS.ArrayBuffer),
    JS.byteLength buf - offset < Z.of_nat f1 -> (0 < f1)%nat ->
    JS.byteLength buf - offset < Z.of_nat f2 -> (0 < f2)%nat ->
    read_chunks JSON_parse f1 buf length offset json bin
    = read_chunks JSON_parse f2 buf length offset json bin.
Proof.
  induction f1 as [ | f1 IH]; intros f2 buf length offset json bin H1 P1 H2 P2; [ lia | ].
  destruct f2 as [ | f2]; [ lia | ].
  cbn [read_chunks].
  destruct (offset <? length); [ | reflexivity ].
  destruct (getUint32_cases buf offset) as [E | [chunkLen E]]; rewrite E;
    [ reflexivity | ].
  rewrite !bind_ret_l.
  destruct (getUint32_cases buf (offset + 4)) as [E' | [chunkType E']]; rewrite E';
    [ reflexivity | ].
  rewrite !bind_ret_l.
  apply getUint32_ok in E. destruct E as (_ & Ho & _ & Hlen).
  apply getUint32_ok in E'. destruct E' as (_ & _ & Hb & _).
  assert (R : forall j b,
             read_chunks JSON_parse f1 buf length (offset + 4 + 4 + chunkLen) j b
             = read_chunks JSON_parse f2 buf length (offset + 4 + 4 + chunkLen) j b)
    by (intros j b; apply IH; lia).
  destruct (chunkType =? CHUNK_JSON).
  - destruct (JSON_parse _); [ reflexivity | apply R | apply R ].
  - destruct (chunkType =? CHUNK_BIN); apply R.
Qed.

(** One round of the loop with the fuel [parse] gives it. *)
Lemma read_chunks_unfold (buf : JS.ArrayBuffer) (fuel : nat) (length offset : Z)
    (json : option Document) (bin : option JS.ArrayBuffer) :
  JS.byteLength buf - offset < Z.of_nat fuel -> (0 < fuel)%nat ->
  read_chunks JSON_parse fuel buf length offset json bin =
  if offset <? length then
    chunkLen <- JS.getUint32 buf offset ;;
    chunkType <- JS.getUint32 buf (offset + 4) ;;
    let chunkData := JS.slice buf (offset + 4 + 4) (offset + 4 + 4 + chunkLen) in
    jb <- on_chunk JSON_parse (chunkType, chunkData) (json, bin) ;;
    read_chunks JSON_parse fuel buf length (offset + 4 + 4 + chunkLen) (fst jb) (snd jb)
  else JS.ret (json, bin).
Proof.
  intros H P. destruct fuel as [ | f]; [ lia | ].
  cbn [read_chunks].
  destruct (offset <? length); [ | reflexivity ].
  destruct (getUint32_cases buf offset) as [E | [chunkLen E]]; rewrite E;
    [ reflexivity | ].
  rewrite !bind_ret_l.
  destruct (getUint32_cases buf (offset + 4)) as [E' | [chunkType E']]; rewrite E';
    [ reflexivity | ].
  rewrite !bind_ret_l.
  apply getUint32_ok in E. destruct E as (_ & Ho & _ & Hlen).
  apply getUint32_ok in E'. destruct E' as (_ & _ & Hb & _).
  assert (R : forall j b,
             read_chunks JSON_parse f buf length (offset + 4 + 4 + chunkLen) j b
             = read_chunks JSON_parse (S f) buf length (offset + 4 + 4 + chunkLen) j b)
    by (intros j b; apply read_chunks_fuel; lia).
  unfold on_chunk. cbn [fst snd].
  destruct (chunkType =? CHUNK_JSON).
  - destruct (JSON_parse _); [ reflexivity | | ]; rewrite bind_ret_l; apply R.
  - destruct (chunkType =? CHUNK_BIN); rewrite bind_ret_l; apply R.
Qed.

Lemma encode_chunk_length (n : Z) (c : chunk) :
  JS.byteLength (encode_chunk_with n c) = 8 + JS.byteLength (snd c).
Proof.
  unfold encode_chunk_with. rewrite !byteLength_app.
  change (JS.byteLength (u32le n)) with 4.
  change (JS.byteLength (u32le (fst c))) with 4. lia.
Qed.

Lemma encode_chunks_cons (c : chunk) (cs : list chunk) :
  encode_chunks (c :: cs) = encode_chunk c ++ encode_chunks cs.
Proof. reflexivity. Qed.

Lemma encode_chunk_byteLength (c : chunk) :
  JS.byteLength (encode_chunk c) = 8 + JS.byteLength (snd c).
Proof. apply encode_chunk_length. Qed.

Lemma encode_chunks_length (cs : list chunk) :
  8 * Z.of_nat (List.length cs) <= JS.byteLength (encode_chunks cs).
Proof.
  induction cs as [ | c cs IH]; [ cbn; lia | ].
  rewrite encode_chunks_cons, byteLength_app, encode_chunk_byteLength.
  cbn [List.length]. pose proof (byteLength_nonneg (snd c)). lia.
Qed.

(** One round of the loop on a chunk that lies at [pre] in the buffer
    and whose header states [n] bytes: either the chunk is followed by
    [rest] and is taken whole, or it is the end of the buffer and is
    cut there. *)
Lemma read_chunk_at (fuel : nat) (pre rest : list byte) (n : Z) (c : chunk)
    (length : Z) (json : option Document) (bin : option JS.ArrayBuffer) :
  let buf := pre ++ encode_chunk_with n c ++ rest in
  JS.byteLength buf - JS.byteLength pre < Z.of_nat fuel ->
  0 <= fst c < 2 ^ 32 -> 0 <= n < 2 ^ 32 ->
  JS.byteLength pre < length ->
  (n = JS.byteLength (snd c) \/ (rest = [] /\ JS.byteLength (snd c) <= n)) ->
  read_chunks JSON_parse fuel buf length (JS.byteLength pre) json bin
  = jb <- on_chunk JSON_parse c (json, bin) ;;
    read_chunks JSON_parse fuel buf length (JS.byteLength pre + 8 + n) (fst jb) (snd jb).
Proof.
  intros buf Hfuel Ht Hn Hlt Hcase. destruct c as [type data]. cbn [fst snd] in *.
  assert (Hbuf : JS.byteLength buf
                 = JS.byteLength pre + (8 + JS.byteLength data + JS.byteLength rest)).
  { unfold buf. rewrite !byteLength_app, encode_chunk_length. reflexivity. }
  pose proof (byteLength_nonneg data) as Hd0.
  pose proof (byteLength_nonneg rest) as Hr0.
  rewrite read_chunks_unfold by lia.
  replace (JS.byteLength pre <? length) with true by (symmetry; apply Z.ltb_lt; lia).
  assert (R1 : JS.getUint32 buf (JS.byteLength pre) = JS.ret n).
  { unfold buf, encode_chunk_with. rewrite <- !app_assoc.
    now apply getUint32_u32le. }
  assert (R2 : JS.getUint32 buf (JS.byteLength pre + 4) = JS.ret type).
  { unfold buf, encode_chunk_with. cbn [fst snd]. rewrite <- !app_assoc.
    replace (JS.byteLength pre + 4) with (JS.byteLength (pre ++ u32le n))
      by (rewrite byteLength_app; reflexivity).
    rewrite (app_assoc pre (u32le n)). now apply getUint32_u32le. }
  assert (R3 : JS.slice buf (JS.byteLength pre + 4 + 4) (JS.byteLength pre + 4 + 4 + n) = data).
  { unfold buf, encode_chunk_with. cbn [fst snd]. rewrite <- !app_assoc.
    replace (JS.byteLength pre + 4 + 4)
      with (JS.byteLength ((pre ++ u32le n) ++ u32le type))
      by (rewrite !byteLength_app; reflexivity).
    rewrite (app_assoc pre (u32le n)).
    rewrite (app_assoc (pre ++ u32le n) (u32le type)).
    destruct Hcase as [-> | [-> Hle]].
    - apply slice_app_exact.
    - rewrite app_nil_r. now apply slice_app_truncated. }
  rewrite R1, bind_ret_l, R2, bind_ret_l. cbv zeta. rewrite R3.
  apply bind_ext. intros jb. f_equal. lia.
Qed.

(** The loop on a run of well-formed chunks that lies at [pre]: the
    chunks are handled in order and the loop goes on behind them. *)
Lemma read_chunks_encoded (cs : list chunk) :
  forall (fuel : nat) (pre rest : list byte) (length : Z)
         (jb : option Document * option JS.ArrayBuffer),
    let buf := pre ++ encode_chunks cs ++ rest in
    JS.byteLength buf - JS.byteLength pre < Z.of_nat fuel -> (0 < fuel)%nat ->
    Forall chunk_fits cs ->
    JS.byteLength pre + JS.byteLength (encode_chunks cs) <= length ->
    read_chunks JSON_parse fuel buf length (JS.byteLength pre) (fst jb) (snd jb)
    = jb' <- on_chunks JSON_parse cs jb ;;
      read_chunks JSON_parse fuel buf length
        (JS.byteLength pre + JS.byteLength (encode_chunks cs)) (fst jb') (snd jb').
Proof.
  induction cs as [ | c cs IH]; intros fuel pre rest length jb buf Hfuel Hpos Hfit Hlen.
  - cbn [on_chunks]. rewrite bind_ret_l.
    change (JS.byteLength (encode_chunks [])) with 0. now rewrite Z.add_0_r.
  - inversion Hfit as [ | c' cs' Hc Hcs]; subst c' cs'.
    unfold buf in *. clear buf.
    rewrite encode_chunks_cons in *.
    rewrite byteLength_app, encode_chunk_byteLength in Hlen.
    rewrite byteLength_app, encode_chunk_byteLength.
    cbn [on_chunks].
    destruct Hc as [Ht Hd].
    pose proof (byteLength_nonneg (snd c)) as Hd0.
    pose proof (byteLength_nonneg (encode_chunks cs)) as He0.
    pose proof (byteLength_nonneg pre) as Hp0.
    rewrite <- app_assoc. unfold encode_chunk at 1 2.
    rewrite <- app_assoc in Hfuel. unfold encode_chunk at 1 in Hfuel.
    rewrite read_chunk_at; [ | assumption | assumption | lia | lia | now left ].
    destruct jb as [j b]. cbn [fst snd].
    rewrite bind_assoc. apply bind_ext. intros jb1.
    specialize (IH fuel (pre ++ encode_chunk c) rest length jb1).
    cbv zeta in IH.
    assert (E : JS.byteLength (pre ++ encode_chunk c)
                = JS.byteLength pre + 8 + JS.byteLength (snd c))
      by (rewrite byteLength_app, encode_chunk_byteLength; lia).
    rewrite E in IH. rewrite <- app_assoc in IH.
    change (encode_chunk c) with (encode_chunk_with (JS.byteLength (snd c)) c) in IH.
    rewrite IH; [ | lia | assumption | assumption | lia ].
    apply bind_ext. intros jb2. f_equal. lia.
Qed.

End ChunkLoop.

(* ================================================================== *)
(** * The container parser *)
(* ================================================================== *)

Section ParseProps.

Variable JSON_parse : JS.ArrayBuffer -> parsed.

Lemma header_magic (L : Z) (rest : list byte) :
  JS.getUint32 (header L ++ rest) 0 = JS.ret MAGIC.
Proof.
  unfold header. rewrite <- !app_assoc.
  apply (getUint32_u32le [] _ MAGIC). unfold MAGIC. lia.
Qed.

Lemma header_version (L : Z) (rest : list byte) :
  JS.getUint32 (header L ++ rest) 4 = JS.ret 2.
Proof.
  unfold header. rewrite <- !app_assoc.
  apply (getUint32_u32le (u32le MAGIC) _ 2). lia.
Qed.

Lemma header_length (L : Z) (rest : list byte) :
  0 <= L < 2 ^ 32 -> JS.getUint32 (header L ++ rest) 8 = JS.ret L.
Proof.
  intros HL. unfold header. rewrite <- !app_assoc.
  rewrite (app_assoc (u32le MAGIC) (u32le 2)).
  now apply (getUint32_u32le (u32le MAGIC ++ u32le 2) _ L).
Qed.

Lemma header_byteLength (L : Z) : JS.byteLength (header L) = 12.
Proof. reflexivity. Qed.

(** [parse] on a buffer that starts with a valid header. *)
Lemma parse_header (L : Z) (rest : list byte) (url : option string) :
  0 <= L < 2 ^ 32 ->
  parse JSON_parse (header L ++ rest) url =
  (if negb (L =? 12 + JS.byteLength rest)
   then JS.console_warn "GLB length mismatch" else JS.ret tt) ;;;
  parse_chunks JSON_parse (header L ++ rest) url L.
Proof.
  intros HL. unfold parse.
  rewrite header_magic, bind_ret_l, Z.eqb_refl. cbn [negb].
  rewrite header_version, bind_ret_l. cbn [Z.eqb Pos.eqb negb].
  rewrite header_length, bind_ret_l by assumption.
  now rewrite byteLength_app, header_byteLength.
Qed.

Lemma parse_chunks_finish (buf : JS.ArrayBuffer) (url : option string) (L : Z) :
  parse_chunks JSON_parse buf url L =
  jb <- read_chunks JSON_parse (chunk_fuel buf) buf L 12 None None ;; finish url jb.
Proof. reflexivity. Qed.

Lemma chunk_fuel_enough (buf : JS.ArrayBuffer) (offset : Z) :
  0 <= offset ->
  JS.byteLength buf - offset < Z.of_nat (chunk_fuel buf) /\ (0 < chunk_fuel buf)%nat.
Proof. unfold chunk_fuel, JS.byteLength. lia. Qed.

(** The loop of [parse] on a header followed by well-formed chunks:
    the chunks are handled in order, then the loop goes on at their
    end. *)
Lemma parse_chunks_encoded (cs : list chunk) (rest : list byte) (url : option string) (L L' : Z) :
  Forall chunk_fits cs ->
  12 + JS.byteLength (encode_chunks cs) <= L ->
  let buf := header L' ++ encode_chunks cs ++ rest in
  parse_chunks JSON_parse buf url L =
  jb <- on_chunks JSON_parse cs (None, None) ;;
  jb' <- read_chunks JSON_parse (chunk_fuel buf) buf L
           (12 + JS.byteLength (encode_chunks cs)) (fst jb) (snd jb) ;;
  finish url jb'.
Proof.
  intros Hfit HL buf. rewrite parse_chunks_finish.
  destruct (chunk_fuel_enough buf 12 ltac:(lia)) as [F1 F2].
  pose proof (read_chunks_encoded JSON_parse cs (chunk_fuel buf) (header L') rest L (None, None))
    as R.
  cbv zeta in R. fold buf in R. rewrite header_byteLength in R.
  cbn [fst snd] in R. rewrite R by assumption.
  now rewrite bind_assoc.
Qed.

Lemma read_chunks_done (fuel : nat) (buf : JS.ArrayBuffer) (L offset : Z)
    (json : option Document) (bin : option JS.ArrayBuffer) :
  L <= offset -> read_chunks JSON_parse fuel buf L offset json bin = JS.ret (json, bin).
Proof.
  intros H. destruct fuel; [ reflexivity | ]. cbn [read_chunks].
  now replace (offset <? L) with false by (symmetry; apply Z.ltb_ge; lia).
Qed.

Lemma glb_byteLength (cs : list chunk) :
  JS.byteLength (glb cs) = 12 + JS.byteLength (encode_chunks cs).
Proof. unfold glb. now rewrite byteLength_app, header_byteLength. Qed.

(** A well-formed container: its chunks are handled in order, and
    nothing else happens before the scene is built. *)
Lemma parse_glb (cs : list chunk) (url : option string) :
  fits cs ->
  parse JSON_parse (glb cs) url = jb <- on_chunks JSON_parse cs (None, None) ;; finish url jb.
Proof.
  intros [Hfit HL]. unfold glb.
  pose proof (byteLength_nonneg (encode_chunks cs)) as He.
  rewrite parse_header by lia. rewrite Z.eqb_refl. cbn [negb].
  rewrite bind_ret_l.
  rewrite <- (app_nil_r (encode_chunks cs)) at 2.
  rewrite parse_chunks_encoded by (assumption || lia).
  apply bind_ext. intros jb.
  rewrite read_chunks_done by lia. rewrite bind_ret_l. now destruct jb.
Qed.

(** The same container followed by further bytes. *)
Lemma parse_glb_trailing (cs : list chunk) (extra : list byte) (url : option string) :
  fits cs -> extra <> [] ->
  parse JSON_parse (glb cs ++ extra) url =
  JS.console_warn "GLB length mismatch" ;;;
  (jb <- on_chunks JSON_parse cs (None, None) ;; finish url jb).
Proof.
  intros [Hfit HL] Hextra. unfold glb.
  pose proof (byteLength_nonneg (encode_chunks cs)) as He.
  rewrite <- app_assoc.
  rewrite parse_header by lia. rewrite byteLength_app.
  assert (0 < JS.byteLength extra)
    by (destruct extra; [ congruence | unfold JS.byteLength; cbn [List.length]; lia ]).
  replace (12 + JS.byteLength (encode_chunks cs)
           =? 12 + (JS.byteLength (encode_chunks cs) + JS.byteLength extra))
    with false by (symmetry; apply Z.eqb_neq; lia).
  cbn [negb]. apply bind_ext. intros _.
  rewrite parse_chunks_encoded by (assumption || lia).
  apply bind_ext. intros jb.
  rewrite read_chunks_done by lia. rewrite bind_ret_l. now destruct jb.
Qed.

(** A container whose header states more bytes than the buffer holds:
    after the last chunk the loop reads a chunk header past the end. *)
Lemma parse_glb_short (cs : list chunk) (L : Z) (url : option string) :
  Forall chunk_fits cs ->
  12 + JS.byteLength (encode_chunks cs) < L < 2 ^ 32 ->
  parse JSON_parse (header L ++ encode_chunks cs) url =
  JS.console_warn "GLB length mismatch" ;;;
  (jb <- on_chunks JSON_parse cs (None, None) ;; JS.throw JS.RangeError).
Proof.
  intros Hfit HL.
  pose proof (byteLength_nonneg (encode_chunks cs)) as He.
  rewrite parse_header by lia.
  replace (L =? 12 + JS.byteLength (encode_chunks cs))
    with false by (symmetry; apply Z.eqb_neq; lia).
  cbn [negb]. apply bind_ext. intros _.
  rewrite <- (app_nil_r (encode_chunks cs)) at 1.
  rewrite parse_chunks_encoded by (assumption || lia).
  apply bind_ext. intros jb. rewrite app_nil_r.
  set (buf := header L ++ encode_chunks cs).
  destruct (chunk_fuel_enough buf (12 + JS.byteLength (encode_chunks cs)) ltac:(lia))
    as [F1 F2].
  rewrite read_chunks_unfold by assumption.
  replace (12 + JS.byteLength (encode_chunks cs) <? L)
    with true by (symmetry; apply Z.ltb_lt; lia).
  rewrite getUint32_out_of_bounds; [ reflexivity | ].
  unfold buf. rewrite byteLength_app, header_byteLength. lia.
Qed.

Lemma on_chunks_app (cs1 cs2 : list chunk) (jb : option Document * option JS.ArrayBuffer) :
  on_chunks JSON_parse (cs1 ++ cs2) jb =
  jb' <- on_chunks JSON_parse cs1 jb ;; on_chunks JSON_parse cs2 jb'.
Proof.
  revert jb. induction cs1 as [ | c cs1 IH]; intros jb; cbn [on_chunks app].
  - now rewrite bind_ret_l.
  - rewrite bind_assoc. apply bind_ext. intros jb1. apply IH.
Qed.

Lemma encode_chunks_app (cs1 cs2 : list chunk) :
  encode_chunks (cs1 ++ cs2) = encode_chunks cs1 ++ encode_chunks cs2.
Proof. unfold encode_chunks. apply flat_map_app. Qed.

(** A chunk that starts before the declared length is read in full.
    With a declared length that falls within the last chunk, or on its
    end, the chunks are handled as in the exact container, whatever
    bytes follow. *)
Lemma parse_glb_within_last (cs : list chunk) (c : chunk) (extra : list byte) (L : Z)
    (url : option string) :
  Forall chunk_fits (cs ++ [c]) ->
  12 + JS.byteLength (encode_chunks cs) < L <= 12 + JS.byteLength (encode_chunks (cs ++ [c])) ->
  L < 2 ^ 32 ->
  parse JSON_parse (header L ++ encode_chunks (cs ++ [c]) ++ extra) url =
  (if negb (L =? 12 + JS.byteLength (encode_chunks (cs ++ [c]) ++ extra))
   then JS.console_warn "GLB length mismatch" else JS.ret tt) ;;;
  (jb <- on_chunks JSON_parse (cs ++ [c]) (None, None) ;; finish url jb).
Proof.
  intros Hfit HL HL32.
  apply Forall_app in Hfit. destruct Hfit as [Hcs Hc].
  inversion Hc as [ | c' l' [Ht Hd] _]; subst c' l'.
  pose proof (byteLength_nonneg (encode_chunks cs)) as He.
  pose proof (byteLength_nonneg (snd c)) as Hd0.
  rewrite encode_chunks_app, byteLength_app in HL.
  change (encode_chunks [c]) with (encode_chunk c ++ []) in HL.
  rewrite app_nil_r, encode_chunk_byteLength in HL.
  rewrite parse_header by lia. apply bind_ext. intros _.
  rewrite encode_chunks_app, <- app_assoc.
  rewrite parse_chunks_encoded by (assumption || lia).
  rewrite on_chunks_app, bind_assoc. apply bind_ext. intros [j b]. cbn [fst snd].
  change (encode_chunks [c]) with (encode_chunk c ++ []). rewrite app_nil_r.
  set (buf := header L ++ encode_chunks cs ++ encode_chunk c ++ extra).
  assert (Hpre : JS.byteLength (header L ++ encode_chunks cs)
                 = 12 + JS.byteLength (encode_chunks cs))
    by (rewrite byteLength_app, header_byteLength; reflexivity).
  assert (Ebuf : buf = (header L ++ encode_chunks cs)
                       ++ encode_chunk_with (JS.byteLength (snd c)) c ++ extra)
    by (unfold buf, encode_chunk; now rewrite <- app_assoc).
  assert (Hbuf : JS.byteLength buf
                 = 12 + JS.byteLength (encode_chunks cs) + 8 + JS.byteLength (snd c)
                   + JS.byteLength extra).
  { rewrite Ebuf, !byteLength_app, header_byteLength, encode_chunk_length. lia. }
  pose proof (byteLength_nonneg extra) as Hx0.
  destruct (chunk_fuel_enough buf (12 + JS.byteLength (encode_chunks cs)) ltac:(lia))
    as [F1 F2].
  rewrite <- Hpre. rewrite Ebuf.
  rewrite read_chunk_at;
    [ | rewrite <- Ebuf, Hpre; exact F1 | exact Ht | lia | rewrite Hpre; lia | now left ].
  cbn [on_chunks]. rewrite !bind_assoc. apply bind_ext. intros jb1.
  rewrite read_chunks_done by (rewrite Hpre; lia).
  rewrite !bind_ret_l. now destruct jb1.
Qed.

(** A container whose last chunk states more bytes than follow its
    header: the chunk is taken with the bytes there are. *)
Lemma parse_oversized (cs : list chunk) (c : chunk) (n L : Z) (url : option string) :
  Forall chunk_fits cs -> 0 <= fst c < 2 ^ 32 ->
  JS.byteLength (snd c) <= n < 2 ^ 32 ->
  12 + JS.byteLength (encode_chunks cs) < L <= 12 + JS.byteLength (encode_chunks cs) + 8 + n ->
  L < 2 ^ 32 ->
  parse JSON_parse (header L ++ encode_chunks cs ++ encode_chunk_with n c) url =
  (if negb (L =? 12 + JS.byteLength (encode_chunks cs) + 8 + JS.byteLength (snd c))
   then JS.console_warn "GLB length mismatch" else JS.ret tt) ;;;
  (jb <- on_chunks JSON_parse (cs ++ [c]) (None, None) ;; finish url jb).
Proof.
  intros Hfit Ht Hn HL HL'.
  pose proof (byteLength_nonneg (encode_chunks cs)) as He.
  pose proof (byteLength_nonneg (snd c)) as Hd.
  rewrite parse_header by lia.
  rewrite byteLength_app, encode_chunk_length.
  replace (12 + (JS.byteLength (encode_chunks cs) + (8 + JS.byteLength (snd c))))
    with (12 + JS.byteLength (encode_chunks cs) + 8 + JS.byteLength (snd c)) by lia.
  apply bind_ext. intros _.
  rewrite parse_chunks_encoded by (assumption || lia).
  rewrite on_chunks_app, bind_assoc.
  apply bind_ext. intros jb. cbn [on_chunks].
  set (buf := header L ++ encode_chunks cs ++ encode_chunk_with n c).
  destruct (chunk_fuel_enough buf (12 + JS.byteLength (encode_chunks cs)) ltac:(lia))
    as [F1 F2].
  pose proof (read_chunk_at JSON_parse (chunk_fuel buf) (header L ++ encode_chunks cs) [] n c L
                (fst jb) (snd jb)) as R.
  cbv zeta in R. rewrite app_nil_r, <- app_assoc in R. fold buf in R.
  rewrite byteLength_app, header_byteLength in R.
  rewrite R; [ | assumption | assumption | lia | lia | right; split; [ reflexivity | lia ] ].
  destruct jb as [j b]. cbn [fst snd].
  rewrite !bind_assoc. apply bind_ext. intros jb1.
  rewrite bind_ret_l. rewrite read_chunks_done by lia. rewrite bind_ret_l.
  now destruct jb1.
Qed.

(** ** The last chunk of a type wins *)

Lemma last_cons_default (l : list chunk) (a d : chunk) : last (a :: l) d = last l a.
Proof.
  revert a d. induction l as [ | x l IH]; intros a d; [ reflexivity | ].
  change (last (a :: x :: l) d) with (last (x :: l) d).
  now rewrite (IH x d), (IH x a).
Qed.

Lemma last_of_type_cons (type : Z) (c : chunk) (cs : list chunk) :
  last_of_type type (c :: cs) =
  match last_of_type type cs with
  | Some d => Some d
  | None => if fst c =? type then Some (snd c) else None
  end.
Proof.
  unfold last_of_type. cbn [filter].
  destruct (fst c =? type);
    destruct (filter (fun c0 => fst c0 =? type) cs) as [ | c1 l]; try reflexivity.
  now rewrite last_cons_default.
Qed.

Lemma on_chunks_last (cs : list chunk) :
  forall jb : option Document * option JS.ArrayBuffer,
    json_chunks_parse JSON_parse cs ->
    on_chunks JSON_parse cs jb =
    JS.ret (match last_of_type CHUNK_JSON cs with
            | Some text => doc_of (JSON_parse text)
            | None => fst jb
            end,
            match last_of_type CHUNK_BIN cs with
            | Some data => Some data
            | None => snd jb
            end).
Proof.
  induction cs as [ | c cs IH]; intros jb Hp.
  - cbn. now destruct jb.
  - inversion Hp as [ | c' cs' Hc Hcs]; subst c' cs'.
    cbn [on_chunks]. rewrite !last_of_type_cons.
    unfold on_chunk.
    destruct (fst c =? CHUNK_JSON) eqn:EJ.
    + apply Z.eqb_eq in EJ. specialize (Hc EJ).
      replace (fst c =? CHUNK_BIN) with false
        by (symmetry; apply Z.eqb_neq; rewrite EJ; discriminate).
      destruct (JSON_parse (snd c)) eqn:EP; [ congruence | | ];
        rewrite bind_ret_l, IH by assumption; cbn [fst snd];
        destruct (last_of_type CHUNK_JSON cs), (last_of_type CHUNK_BIN cs);
        rewrite ?EP; reflexivity.
    + destruct (fst c =? CHUNK_BIN);
        rewrite bind_ret_l, IH by assumption; cbn [fst snd];
        destruct (last_of_type CHUNK_JSON cs), (last_of_type CHUNK_BIN cs); reflexivity.
Qed.

End ParseProps.

(* ================================================================== *)
(** * The node graph *)
(* ================================================================== *)

Lemma bind_ext_ok {A B} (m : JS.M A) (f g : A -> JS.M B) :
  (forall w a, m = (w, JS.Ok a) -> f a = g a) -> JS.bind m f = JS.bind m g.
Proof.
  intros H. destruct m as [w [a | e]]; unfold JS.bind; [ | reflexivity ].
  now rewrite (H w a eq_refl).
Qed.

Lemma mapi_from_map {A B C} (f : B -> Z -> JS.M C) (g : A -> B) (l : list A) :
  forall i, JS.mapi_from i f (List.map g l) = JS.mapi_from i (fun a k => f (g a) k) l.
Proof.
  induction l as [ | a l IH]; intros i; cbn [JS.mapi_from List.map]; [ reflexivity | ].
  apply bind_ext. intros b. now rewrite IH.
Qed.

Lemma mapi_from_length {A B} (f : A -> Z -> JS.M B) (l : list A) :
  forall i w l', JS.mapi_from i f l = (w, JS.Ok l') -> List.length l' = List.length l.
Proof.
  induction l as [ | a l IH]; intros i w l'; cbn [JS.mapi_from].
  - unfold JS.ret. now intros [= <- <-].
  - destruct (f a i) as [w1 [b | e]]; cbn [JS.bind]; [ | discriminate ].
    destruct (JS.mapi_from (i + 1) f l) as [w2 [bs | e]] eqn:E; cbn [JS.bind JS.ret];
      [ | discriminate ].
    intros [= <- <-]. cbn [List.length]. f_equal. eapply IH. exact E.
Qed.

Lemma update_length {A} (l : list A) (i : nat) (f : A -> A) :
  List.length (THREE.update l i f) = List.length l.
Proof.
  revert i. induction l as [ | a l IH]; intros [ | i]; cbn; auto.
Qed.

Lemma at_ref_length (g : THREE.Graph) (r : THREE.ref) (f : THREE.Object3D -> THREE.Object3D) :
  List.length (THREE.objects (THREE.at_ref g r f)) = List.length (THREE.objects g).
Proof. destruct r; cbn; [ apply update_length | reflexivity ]. Qed.

(** [add] never throws and keeps the arena's size. *)
Lemma add_length (g : THREE.Graph) (p : THREE.ref) (c : nat) (w : list string)
    (r : JS.result THREE.Graph) :
  THREE.add g p c = (w, r) ->
  exists g', r = JS.Ok g' /\
             List.length (THREE.objects g') = List.length (THREE.objects g).
Proof.
  unfold THREE.add.
  destruct (THREE.ref_eqb p (THREE.RefNode c)).
  - cbn. intros [= <- <-]. eauto.
  - match goal with
    | |- JS.ret ?x = _ -> _ =>
        assert (L : List.length (THREE.objects x) = List.length (THREE.objects g));
        [ | generalize dependent x; intros y L; unfold JS.ret; intros [= <- <-]; eauto ]
    end.
    rewrite !at_ref_length.
    destruct (nth_error (THREE.objects g) c) as [o | ]; [ | reflexivity ].
    destruct (THREE.o_parent o); [ | reflexivity ].
    unfold THREE.remove. now rewrite !at_ref_length.
Qed.

Lemma add_if_node_length (p : THREE.ref) (id : Z) (g : THREE.Graph) (w : list string)
    (r : JS.result THREE.Graph) :
  add_if_node p id g = (w, r) ->
  exists g', r = JS.Ok g' /\
             List.length (THREE.objects g') = List.length (THREE.objects g).
Proof.
  unfold add_if_node. destruct (JS.index (THREE.objects g) id).
  - apply add_length.
  - unfold JS.ret. intros [= <- <-]. eauto.
Qed.

Lemma index_in_range {A} (l : list A) (id : Z) :
  in_range (List.length l) id = false -> JS.index l id = None.
Proof.
  unfold in_range, JS.index. intros H.
  destruct (id <? 0) eqn:E; [ reflexivity | ].
  apply Z.ltb_ge in E. apply nth_error_None.
  apply andb_false_iff in H. destruct H as [H | H].
  - apply Z.leb_gt in H. lia.
  - apply Z.ltb_ge in H. lia.
Qed.

(** An index out of range is skipped: nothing is added, nothing is
    written to the console, nothing is thrown. *)
Lemma add_if_node_out_of_range (p : THREE.ref) (id : Z) (g : THREE.Graph) :
  in_range (List.length (THREE.objects g)) id = false -> add_if_node p id g = JS.ret g.
Proof.
  intros H. unfold add_if_node. now rewrite index_in_range.
Qed.

Lemma forEachi_from_add_length (p : THREE.ref) (ids : list Z) :
  forall i g w r,
    JS.forEachi_from i (fun id (_ : Z) => add_if_node p id) ids g = (w, r) ->
    exists g', r = JS.Ok g' /\
               List.length (THREE.objects g') = List.length (THREE.objects g).
Proof.
  induction ids as [ | id ids IH]; intros i g w r; cbn [JS.forEachi_from].
  - unfold JS.ret. intros [= <- <-]. eauto.
  - destruct (add_if_node p id g) as [w1 r1] eqn:E.
    destruct (add_if_node_length _ _ _ _ _ E) as (g1 & -> & L1).
    cbn [JS.bind].
    destruct (JS.forEachi_from (i + 1) _ ids g1) as [w2 r2] eqn:E2.
    destruct (IH _ _ _ _ E2) as (g2 & -> & L2).
    intros [= <- <-]. exists g2. split; [ reflexivity | congruence ].
Qed.

(** Attaching a list of indices, and the same list without the indices
    that are out of range. *)
Lemma forEach_add_prune (p : THREE.ref) (ids : list Z) :
  forall g,
    JS.forEach (add_if_node p) (filter (in_range (List.length (THREE.objects g))) ids) g
    = JS.forEach (add_if_node p) ids g.
Proof.
  unfold JS.forEach, JS.forEachi. generalize 0 at 1 as i. generalize 0 as j.
  induction ids as [ | id ids IH]; intros j i g; cbn [filter]; [ reflexivity | ].
  destruct (in_range (List.length (THREE.objects g)) id) eqn:E.
  - cbn [JS.forEachi_from]. apply bind_ext_ok. intros w g1 Hg1.
    destruct (add_if_node_length _ _ _ _ _ Hg1) as (g1' & [= <-] & L).
    rewrite <- L. apply IH.
  - cbn [JS.forEachi_from]. rewrite add_if_node_out_of_range by assumption.
    rewrite bind_ret_l. apply IH.
Qed.

Lemma link_children_length (nd : NodeDef) (i : Z) (g : THREE.Graph) (w : list string)
    (r : JS.result THREE.Graph) :
  link_children nd i g = (w, r) ->
  exists g', r = JS.Ok g' /\
             List.length (THREE.objects g') = List.length (THREE.objects g).
Proof.
  unfold link_children. destruct (node_children nd) as [ids | ].
  - apply forEachi_from_add_length.
  - unfold JS.ret. intros [= <- <-]. eauto.
Qed.

Lemma link_children_prune (nd : NodeDef) (i : Z) (g : THREE.Graph) :
  link_children (prune_node (List.length (THREE.objects g)) nd) i g = link_children nd i g.
Proof.
  unfold link_children, prune_node. cbn [node_children].
  destruct (node_children nd) as [ids | ]; cbn [prune_ids option_map]; [ | reflexivity ].
  apply forEach_add_prune.
Qed.

Lemma forEachi_from_link_prune (nds : list NodeDef) :
  forall i g,
    JS.forEachi_from i link_children
      (List.map (prune_node (List.length (THREE.objects g))) nds) g
    = JS.forEachi_from i link_children nds g.
Proof.
  induction nds as [ | nd nds IH]; intros i g; cbn [List.map JS.forEachi_from];
    [ reflexivity | ].
  rewrite link_children_prune. apply bind_ext_ok. intros w g1 Hg1.
  destruct (link_children_length _ _ _ _ _ Hg1) as (g1' & [= <-] & L).
  rewrite <- L. apply IH.
Qed.

Lemma forEachi_from_link_length (nds : list NodeDef) :
  forall i g w r,
    JS.forEachi_from i link_children nds g = (w, r) ->
    exists g', r = JS.Ok g' /\
               List.length (THREE.objects g') = List.length (THREE.objects g).
Proof.
  induction nds as [ | nd nds IH]; intros i g w r; cbn [JS.forEachi_from].
  - unfold JS.ret. intros [= <- <-]. eauto.
  - destruct (link_children nd i g) as [w1 r1] eqn:E.
    destruct (link_children_length _ _ _ _ _ E) as (g1 & -> & L1).
    cbn [JS.bind].
    destruct (JS.forEachi_from (i + 1) link_children nds g1) as [w2 r2] eqn:E2.
    destruct (IH _ _ _ _ E2) as (g2 & -> & L2).
    intros [= <- <-]. exists g2. split; [ reflexivity | congruence ].
Qed.

Lemma index_map {A B} (f : A -> B) (l : list A) (i : Z) :
  JS.index (List.map f l) i = option_map f (JS.index l i).
Proof.
  unfold JS.index. destruct (i <? 0); [ reflexivity | ]. apply nth_error_map.
Qed.

(** The scene a document yields is the scene of the pruned document. *)
Lemma buildScene_prune (ctx : Context) :
  _buildScene (with_json ctx (prune (ctx_json ctx))) = _buildScene ctx.
Proof.
  unfold _buildScene.
  change (_buildBuffers (with_json ctx (prune (ctx_json ctx)))) with (_buildBuffers ctx).
  apply bind_ext. intros buffers.
  change (_buildAccessors (with_json ctx (prune (ctx_json ctx))) buffers)
    with (_buildAccessors ctx buffers).
  apply bind_ext. intros accessors.
  change (_buildImages (with_json ctx (prune (ctx_json ctx)))) with (_buildImages ctx).
  apply bind_ext. intros images.
  cbn [with_json ctx_json ctx_bin ctx_url ctx_images ctx_textures].
  match goal with
  | |- JS.bind (_buildTextures ?c1) _ = JS.bind (_buildTextures ?c2) _ =>
      change (_buildTextures c1) with (_buildTextures c2)
  end.
  apply bind_ext. intros textures.
  cbn [prune meshes nodes scenes scene ctx_json ctx_bin ctx_url ctx_images ctx_textures].
  set (nds := JS.or_empty (nodes (ctx_json ctx))).
  replace (JS.or_empty (option_map (List.map (prune_node (List.length nds))) (nodes (ctx_json ctx))))
    with (List.map (prune_node (List.length nds)) nds)
    by (unfold nds; destruct (nodes (ctx_json ctx)); reflexivity).
  match goal with
  | |- JS.bind (JS.map ?f1 ?l) _ = JS.bind (JS.map ?f2 ?l) _ =>
      change f1 with f2
  end.
  apply bind_ext. intros meshes.
  unfold JS.map at 1, JS.mapi. rewrite mapi_from_map.
  change (JS.mapi_from 0 _ nds)
    with (JS.map (fun n => _buildNode ctx n meshes) nds).
  apply bind_ext_ok. intros w objs Hobjs.
  assert (L : List.length objs = List.length nds)
    by (eapply mapi_from_length; exact Hobjs).
  rewrite <- L.
  set (g0 := {| THREE.objects := objs; THREE.root := THREE.new_Group "GLBScene" |}).
  unfold JS.forEachi.
  change (List.length objs) with (List.length (THREE.objects g0)).
  rewrite forEachi_from_link_prune.
  apply bind_ext_ok. intros w1 g1 Hg1.
  destruct (forEachi_from_link_length _ _ _ _ _ Hg1) as (g1' & [= <-] & L1).
  destruct (scenes (ctx_json ctx)) as [ss | ]; cbn [option_map]; [ | reflexivity ].
  rewrite index_map.
  destruct (JS.index ss (JS.or_zero (scene (ctx_json ctx)))) as [def | ];
    cbn [option_map]; [ | reflexivity ].
  unfold prune_scene. cbn [scene_nodes].
  destruct (scene_nodes def) as [ids | ]; cbn [prune_ids option_map]; [ | reflexivity ].
  rewrite <- L1. apply forEach_add_prune.
Qed.

Lemma prune_not_dangling (json : Document) : ~ dangling (prune json).
Proof.
  unfold dangling. cbn [prune nodes scenes].
  set (nds := JS.or_empty (nodes json)).
  assert (E : JS.or_empty (option_map (List.map (prune_node (List.length nds))) (nodes json))
              = List.map (prune_node (List.length nds)) nds)
    by (unfold nds; destruct (nodes json); reflexivity).
  rewrite E, length_map. clear E.
  intros [(nd & ids & id & Hin & Hc & Hid & Hr) | (sd & ids & id & Hin & Hc & Hid & Hr)].
  - apply in_map_iff in Hin. destruct Hin as (nd0 & <- & _).
    cbn [prune_node node_children] in Hc. unfold prune_ids in Hc.
    destruct (node_children nd0) as [ids0 | ]; [ | discriminate ].
    cbn [option_map] in Hc. injection Hc as <-.
    apply filter_In in Hid. destruct Hid as [_ Hid]. congruence.
  - assert (E : JS.or_empty (option_map (List.map (prune_scene (List.length nds))) (scenes json))
                = List.map (prune_scene (List.length nds)) (JS.or_empty (scenes json)))
      by (destruct (scenes json); reflexivity).
    rewrite E in Hin. apply in_map_iff in Hin. destruct Hin as (sd0 & <- & _).
    cbn [prune_scene scene_nodes] in Hc. unfold prune_ids in Hc.
    destruct (scene_nodes sd0) as [ids0 | ]; [ | discriminate ].
    cbn [option_map] in Hc. injection Hc as <-.
    apply filter_In in Hid. destruct Hid as [_ Hid]. congruence.
Qed.

(* ================================================================== *)
(** * Views and accessors *)
(* ================================================================== *)

(** [slice] never throws; for a range that starts inside the buffer it
    returns the bytes of the range that the buffer holds. *)
Lemma slice_clamped (b : JS.ArrayBuffer) (off len : Z) :
  0 <= off -> 0 <= len ->
  exists pre post,
    b = pre ++ JS.slice b off (off + len) ++ post /\
    JS.byteLength pre = Z.min off (JS.byteLength b) /\
    JS.byteLength (JS.slice b off (off + len))
    = Z.min (off + len) (JS.byteLength b) - Z.min off (JS.byteLength b).
Proof.
  intros Ho Hl.
  pose proof (byteLength_nonneg b) as Hb.
  assert (C1 : JS.clamp_index (JS.byteLength b) off = Z.min off (JS.byteLength b)).
  { unfold JS.clamp_index.
    now replace (off <? 0) with false by (symmetry; apply Z.ltb_ge; lia). }
  assert (C2 : JS.clamp_index (JS.byteLength b) (off + len)
               = Z.min (off + len) (JS.byteLength b)).
  { unfold JS.clamp_index.
    now replace (off + len <? 0) with false by (symmetry; apply Z.ltb_ge; lia). }
  exists (firstn (Z.to_nat (Z.min off (JS.byteLength b))) b).
  exists (skipn (Z.to_nat (Z.min (off + len) (JS.byteLength b)
                           - Z.min off (JS.byteLength b)))
                (skipn (Z.to_nat (Z.min off (JS.byteLength b))) b)).
  split; [ | split ].
  - unfold JS.slice. rewrite C1, C2.
    rewrite Z.max_l by lia.
    now rewrite (firstn_skipn _ (skipn _ b)), firstn_skipn.
  - unfold JS.byteLength at 1. rewrite length_firstn.
    unfold JS.byteLength in *. lia.
  - rewrite slice_length, C1, C2. lia.
Qed.

Lemma new_TypedArray_out_of_range (c : JS.Ctor) (view : JS.ArrayBuffer) (offset length : Z) :
  JS.byteLength view < offset + length * JS.BYTES_PER_ELEMENT c ->
  JS.new_TypedArray c (Some view) offset (Some length) = JS.throw JS.RangeError.
Proof.
  intros H. unfold JS.new_TypedArray, JS.ToIndex. cbn [JS.or_zero].
  destruct ((offset <? 0) || (JS.MAX_SAFE_INTEGER <? offset)); [ reflexivity | ].
  rewrite bind_ret_l.
  destruct (negb (offset mod JS.BYTES_PER_ELEMENT c =? 0)); [ reflexivity | ].
  destruct ((length <? 0) || (JS.MAX_SAFE_INTEGER <? length)); [ reflexivity | ].
  rewrite bind_ret_l.
  now replace (JS.byteLength view <? offset + length * JS.BYTES_PER_ELEMENT c)
    with true by (symmetry; apply Z.ltb_lt; lia).
Qed.

Lemma BYTES_PER_ELEMENT_pos (c : JS.Ctor) : 1 <= JS.BYTES_PER_ELEMENT c.
Proof. destruct c; cbn; lia. Qed.

Lemma new_TypedArray_in_range (c : JS.Ctor) (view : JS.ArrayBuffer) (offset length : Z) :
  JS.byteLength view <= JS.MAX_SAFE_INTEGER ->
  0 <= offset -> 0 <= length ->
  offset mod JS.BYTES_PER_ELEMENT c = 0 ->
  offset + length * JS.BYTES_PER_ELEMENT c <= JS.byteLength view ->
  JS.new_TypedArray c (Some view) offset (Some length) = JS.ret (JS.View c view offset length).
Proof.
  intros Hmax Ho Hl Hal Hspan.
  pose proof (BYTES_PER_ELEMENT_pos c) as Hb.
  assert (length <= length * JS.BYTES_PER_ELEMENT c) by nia.
  unfold JS.new_TypedArray, JS.ToIndex. cbn [JS.or_zero].
  replace (offset <? 0) with false by (symmetry; apply Z.ltb_ge; lia).
  replace (JS.MAX_SAFE_INTEGER <? offset) with false by (symmetry; apply Z.ltb_ge; lia).
  cbn [orb]. rewrite bind_ret_l. rewrite Hal. cbn [Z.eqb negb].
  replace (length <? 0) with false by (symmetry; apply Z.ltb_ge; lia).
  replace (JS.MAX_SAFE_INTEGER <? length) with false by (symmetry; apply Z.ltb_ge; lia).
  cbn [orb]. rewrite bind_ret_l.
  now replace (JS.byteLength view <? offset + length * JS.BYTES_PER_ELEMENT c)
    with false by (symmetry; apply Z.ltb_ge; lia).
Qed.

(* ================================================================== *)
(** * Vertex colours *)
(* ================================================================== *)

Lemma map_seq_skipn {B} (h : Z -> B) (l : list byte) :
  forall n : nat,
    (n <= List.length l)%nat ->
    List.map (fun i => h (match skipn i l with b0 :: _ => JS.u8 b0 | [] => 0 end)) (seq 0 n)
    = List.map (fun b => h (JS.u8 b)) (firstn n l).
Proof.
  induction l as [ | b l IH]; intros [ | n] Hn; cbn [List.length] in Hn; try reflexivity; try lia.
  cbn [seq List.map firstn skipn]. f_equal.
  rewrite <- seq_shift, map_map. cbn [skipn]. apply IH. lia.
Qed.

Lemma map_seq_skipn2 {B} (h : Z -> B) (l : list byte) :
  forall n : nat,
    (2 * n <= List.length l)%nat ->
    List.map (fun i => h (match skipn (2 * i) l with
                          | b0 :: b1 :: _ => JS.u8 b0 + 2 ^ 8 * JS.u8 b1
                          | _ => 0
                          end)) (seq 0 n)
    = List.map h (u16_words (firstn (2 * n) l)).
Proof.
  intros n. revert l. induction n as [ | n IH]; intros l Hn; [ reflexivity | ].
  destruct l as [ | b0 [ | b1 l]]; cbn [List.length] in Hn; try lia.
  replace (2 * S n)%nat with (S (S (2 * n))) by lia.
  cbn [seq List.map firstn u16_words]. f_equal.
  rewrite <- seq_shift, map_map. rewrite <- IH by lia.
  apply map_ext. intros i. replace (2 * S i)%nat with (S (S (2 * i))) by lia. reflexivity.
Qed.

(** Rescaling a [Uint8Array]: every byte of its window, divided by [d]
    and rounded to binary32. *)
Lemma rescale_uint8 (buffer : JS.ArrayBuffer) (off n d : Z) :
  0 <= off -> 0 <= n -> off + n <= JS.byteLength buffer ->
  rescale (JS.View JS.Uint8Array buffer off n) d
  = JS.Floats (List.map (fun b => JS.fround (JS.div (JS.of_Z (JS.u8 b)) (JS.of_Z d)))
                        (window buffer off n)).
Proof.
  intros Ho Hn Hspan. unfold rescale, window. cbn [JS.ta_length JS.get_uint]. f_equal.
  rewrite <- (map_seq_skipn (fun x => JS.fround (JS.div (JS.of_Z x) (JS.of_Z d)))).
  - apply map_ext_in. intros i Hi. apply in_seq in Hi.
    rewrite skipn_skipn.
    replace (Z.to_nat (off + Z.of_nat i)) with (i + Z.to_nat off)%nat by lia.
    reflexivity.
  - rewrite length_skipn. unfold JS.byteLength in Hspan. lia.
Qed.

(** Rescaling a [Uint16Array]: every little-endian word of its window. *)
Lemma rescale_uint16 (buffer : JS.ArrayBuffer) (off n d : Z) :
  0 <= off -> 0 <= n -> off + 2 * n <= JS.byteLength buffer ->
  rescale (JS.View JS.Uint16Array buffer off n) d
  = JS.Floats (List.map (fun x => JS.fround (JS.div (JS.of_Z x) (JS.of_Z d)))
                        (u16_words (window buffer off (2 * n)))).
Proof.
  intros Ho Hn Hspan. unfold rescale, window. cbn [JS.ta_length JS.get_uint]. f_equal.
  replace (Z.to_nat (2 * n)) with (2 * Z.to_nat n)%nat by lia.
  rewrite <- (map_seq_skipn2 (fun x => JS.fround (JS.div (JS.of_Z x) (JS.of_Z d)))).
  - apply map_ext_in. intros i Hi. apply in_seq in Hi.
    rewrite skipn_skipn.
    replace (Z.to_nat (off + 2 * Z.of_nat i)) with (2 * i + Z.to_nat off)%nat by lia.
    reflexivity.
  - rewrite length_skipn. unfold JS.byteLength in Hspan. lia.
Qed.

(* ================================================================== *)
(** * Rounding *)
(* ================================================================== *)

Lemma in_unit_range_iff (x : JS.number) : in_unit_range x = true <-> at_most 1 x.
Proof.
  destruct x as [s | s | | [ | ] m e]; cbn [in_unit_range at_most];
    try (split; [ discriminate | contradiction ]); try tauto.
  rewrite andb_true_iff, Z.leb_le, Z.leb_le, Z.mul_1_l. tauto.
Qed.

(** The integer part of a number that is at most [b] is at most [b]. *)
Lemma at_most_trunc (b : Z) (x : JS.number) :
  0 <= b -> at_most b x -> 0 <= JS.trunc x <= b.
Proof.
  intros Hb H. destruct x as [s | s | | [ | ] m e]; cbn [at_most JS.trunc] in *;
    try contradiction; try lia.
  destruct H as [He Hm]. destruct e as [ | p | p ]; [ | lia | ].
  - rewrite Z.shiftl_0_r. cbn in Hm. lia.
  - rewrite Z.shiftr_div_pow2 by lia.
    change (- Z.neg p) with (Z.pos p) in Hm.
    assert (0 < 2 ^ Z.pos p) by (apply Z.pow_pos_nonneg; lia).
    split; [ apply Z.div_pos; lia | ].
    apply Z.lt_succ_r. apply Z.div_lt_upper_bound; [ lia | ]. nia.
Qed.

Lemma shr_1_m (mrs : shr_record) :
  0 <= shr_m mrs -> shr_m (shr_1 mrs) = shr_m mrs / 2.
Proof.
  destruct mrs as [m r s]. cbn [shr_m]. intros Hm.
  destruct m as [ | [p | p | ] | p]; cbn [shr_1 shr_m].
  - reflexivity.
  - apply Z.div_unique with (r := 1); lia.
  - apply Z.div_unique with (r := 0); lia.
  - reflexivity.
  - lia.
Qed.

Lemma shr_1_nonneg (mrs : shr_record) : 0 <= shr_m mrs -> 0 <= shr_m (shr_1 mrs).
Proof. intros H. rewrite shr_1_m by assumption. apply Z.div_pos; lia. Qed.

Lemma iter_shr_1_m (p : positive) :
  forall mrs, 0 <= shr_m mrs ->
              shr_m (iter_pos shr_1 p mrs) = shr_m mrs / 2 ^ Zpos p.
Proof.
  induction p as [p IH | p IH | ]; intros mrs Hm; cbn [iter_pos].
  - assert (H1 : 0 <= shr_m (shr_1 mrs)) by now apply shr_1_nonneg.
    assert (H2 : 0 <= shr_m (iter_pos shr_1 p (shr_1 mrs)))
      by (rewrite IH by assumption; apply Z.div_pos; lia).
    rewrite IH, IH, shr_1_m by assumption.
    rewrite !Z.div_div by lia. f_equal.
    replace (Z.pos p~1) with (Z.pos p + Z.pos p + 1) by lia.
    rewrite !Z.pow_add_r, Z.pow_1_r by lia. lia.
  - assert (H2 : 0 <= shr_m (iter_pos shr_1 p mrs))
      by (rewrite IH by assumption; apply Z.div_pos; lia).
    rewrite IH, IH by assumption.
    rewrite !Z.div_div by lia. f_equal.
    replace (Z.pos p~0) with (Z.pos p + Z.pos p) by lia.
    rewrite Z.pow_add_r by lia. lia.
  - rewrite shr_1_m by assumption. reflexivity.
Qed.

(** A shift that drops only zero bits of an exact mantissa is exact. *)
Lemma shr_1_exact (mrs : shr_record) :
  shr_r mrs = false -> shr_s mrs = false -> Z.even (shr_m mrs) = true ->
  shr_r (shr_1 mrs) = false /\ shr_s (shr_1 mrs) = false.
Proof.
  destruct mrs as [m r s]. cbn [shr_m shr_r shr_s]. intros -> -> Hm.
  destruct m as [ | [p | p | ] | [p | p | ]]; cbn in Hm |- *;
    first [ discriminate Hm | split; reflexivity ].
Qed.

Lemma pow2_split (c a b : Z) :
  0 <= a -> 0 <= b -> c * 2 ^ (a + b) / 2 ^ a = c * 2 ^ b.
Proof.
  intros Ha Hb. rewrite Z.pow_add_r by assumption.
  replace (c * (2 ^ a * 2 ^ b)) with (c * 2 ^ b * 2 ^ a) by ring.
  apply Z.div_mul. apply Z.pow_nonzero; lia.
Qed.

Lemma iter_shr_1_exact (p : positive) :
  forall mrs c, 0 <= c -> shr_m mrs = c * 2 ^ Zpos p ->
                shr_r mrs = false -> shr_s mrs = false ->
                shr_r (iter_pos shr_1 p mrs) = false /\
                shr_s (iter_pos shr_1 p mrs) = false.
Proof.
  induction p as [p IH | p IH | ]; intros mrs c Hc Hm Hr Hs; cbn [iter_pos].
  - assert (P : 0 < 2 ^ Z.pos p) by (apply Z.pow_pos_nonneg; lia).
    assert (Hm0 : 0 <= shr_m mrs) by (rewrite Hm; apply Z.mul_nonneg_nonneg; lia).
    assert (Hm' : shr_m mrs = (c * 2 ^ Z.pos p * 2 ^ Z.pos p) * 2).
    { rewrite Hm. replace (Z.pos p~1) with (Z.pos p + Z.pos p + 1) by lia.
      rewrite !Z.pow_add_r, Z.pow_1_r by lia. ring. }
    destruct (shr_1_exact mrs Hr Hs) as [Hr1 Hs1].
    { rewrite Hm', Z.even_mul. apply orb_true_r. }
    assert (M1 : shr_m (shr_1 mrs) = (c * 2 ^ Z.pos p) * 2 ^ Z.pos p).
    { rewrite shr_1_m by assumption. rewrite Hm'. apply Z.div_mul. lia. }
    destruct (IH (shr_1 mrs) (c * 2 ^ Z.pos p) ltac:(lia) M1 Hr1 Hs1) as [Hr2 Hs2].
    apply (IH _ c Hc); [ | assumption | assumption ].
    rewrite iter_shr_1_m by (rewrite M1; apply Z.mul_nonneg_nonneg; lia).
    rewrite M1. apply Z.div_mul. lia.
  - assert (P : 0 < 2 ^ Z.pos p) by (apply Z.pow_pos_nonneg; lia).
    assert (M1 : shr_m mrs = (c * 2 ^ Z.pos p) * 2 ^ Z.pos p).
    { rewrite Hm. replace (Z.pos p~0) with (Z.pos p + Z.pos p) by lia.
      rewrite Z.pow_add_r by lia. ring. }
    destruct (IH mrs (c * 2 ^ Z.pos p) ltac:(lia) M1 Hr Hs) as [Hr2 Hs2].
    apply (IH _ c Hc); [ | assumption | assumption ].
    rewrite iter_shr_1_m by (rewrite M1; apply Z.mul_nonneg_nonneg; lia).
    rewrite M1. apply Z.div_mul. lia.
  - apply shr_1_exact; [ assumption | assumption | ].
    rewrite Hm, Z.even_mul. apply orb_true_r.
Qed.

(** [shr] divides the mantissa by a power of two and moves the exponent
    by as much. *)
Lemma shr_spec (mrs : shr_record) (e n : Z) :
  0 <= shr_m mrs ->
  shr_m (fst (shr mrs e n)) = shr_m mrs / 2 ^ Z.max n 0 /\
  snd (shr mrs e n) = e + Z.max n 0.
Proof.
  intros Hm. unfold shr. destruct n as [ | p | p]; cbn [fst snd].
  - rewrite Z.max_r by lia. rewrite Z.pow_0_r, Z.div_1_r. split; [ reflexivity | lia ].
  - rewrite Z.max_l by lia. split; [ now apply iter_shr_1_m | reflexivity ].
  - rewrite Z.max_r by lia. rewrite Z.pow_0_r, Z.div_1_r. split; [ reflexivity | lia ].
Qed.

Lemma shr_exact (m e n c : Z) :
  0 <= c -> m = c * 2 ^ Z.max n 0 ->
  loc_of_shr_record (fst (shr (shr_record_of_loc m loc_Exact) e n)) = loc_Exact.
Proof.
  intros Hc Hm. unfold shr. destruct n as [ | p | p]; cbn [fst]; try reflexivity.
  rewrite Z.max_l in Hm by lia.
  destruct (iter_shr_1_exact p (shr_record_of_loc m loc_Exact) c Hc Hm eq_refl eq_refl)
    as [Hr Hs].
  destruct (iter_pos shr_1 p (shr_record_of_loc m loc_Exact)) as [m' r s].
  cbn [shr_r shr_s] in Hr, Hs. subst r s. reflexivity.
Qed.

Lemma shr_record_of_loc_m (m : Z) (l : location) : shr_m (shr_record_of_loc m l) = m.
Proof. destruct l as [ | [ | | ]]; reflexivity. Qed.

Lemma round_nearest_even_bounds (m : Z) (l : location) :
  m <= round_nearest_even m l <= m + 1.
Proof.
  unfold round_nearest_even. destruct l as [ | [ | | ]]; try lia.
  destruct (Z.even m); lia.
Qed.

Lemma digits2_pos_bounds (p : positive) :
  2 ^ (Zpos (digits2_pos p) - 1) <= Zpos p < 2 ^ Zpos (digits2_pos p).
Proof.
  induction p as [p IH | p IH | ]; cbn [digits2_pos].
  - rewrite Pos2Z.inj_succ.
    replace (Z.succ (Z.pos (digits2_pos p)) - 1) with (Z.pos (digits2_pos p) - 1 + 1) by lia.
    rewrite Z.pow_succ_r, Z.pow_add_r, Z.pow_1_r by lia. lia.
  - rewrite Pos2Z.inj_succ.
    replace (Z.succ (Z.pos (digits2_pos p)) - 1) with (Z.pos (digits2_pos p) - 1 + 1) by lia.
    rewrite Z.pow_succ_r, Z.pow_add_r, Z.pow_1_r by lia. lia.
  - cbn. lia.
Qed.

Lemma Zdigits2_le (m n : Z) : 0 <= m -> 0 <= n -> m < 2 ^ n -> Zdigits2 m <= n.
Proof.
  intros Hm Hn H. destruct m as [ | p | p ]; cbn [Zdigits2]; [ assumption | | lia ].
  pose proof (digits2_pos_bounds p) as [D _].
  assert (L : 2 ^ (Z.pos (digits2_pos p) - 1) < 2 ^ n) by lia.
  apply Z.pow_lt_mono_r_iff in L; lia.
Qed.

Lemma shl_align_spec (mx : positive) (ex ex' : Z) :
  snd (shl_align mx ex ex') <= ex /\
  Zpos (fst (shl_align mx ex ex')) = Zpos mx * 2 ^ (ex - snd (shl_align mx ex ex')).
Proof.
  unfold shl_align. destruct (ex' - ex) as [ | d | d ] eqn:D; cbn [fst snd].
  - rewrite Z.sub_diag. cbn. lia.
  - rewrite Z.sub_diag. cbn. lia.
  - split; [ lia | ].
    replace (ex - ex') with (Z.pos d) by lia.
    clear D. revert mx. induction d as [ | d IH] using Pos.peano_ind; intros mx.
    + cbn [Pos.iter]. rewrite Z.pow_1_r. lia.
    + rewrite Pos.iter_succ, Pos2Z.inj_succ, Z.pow_succ_r by lia.
      rewrite Pos2Z.inj_xO, IH. ring.
Qed.

Section Format.

Variables prec emax : Z.
Hypothesis Hprec : 2 <= prec <= emax.

Lemma fexp_le_0 (n : Z) : n <= prec -> fexp prec emax n <= 0.
Proof. unfold fexp, emin. lia. Qed.

(** The shift to the exponent of the format keeps a bound [b * 2^(-e)]
    on the mantissa, strictly if it was strict, and is exact on an
    exact mantissa that is this bound. *)
Lemma shr_fexp_le (m e b : Z) (l : location) :
  0 <= m -> e <= 0 -> 0 < b < 2 ^ prec -> m <= b * 2 ^ (- e) ->
  let r := shr_fexp prec emax m e l in
  snd r <= 0 /\
  0 <= shr_m (fst r) <= b * 2 ^ (- snd r) /\
  (m < b * 2 ^ (- e) -> shr_m (fst r) < b * 2 ^ (- snd r)) /\
  (m = b * 2 ^ (- e) -> l = loc_Exact -> loc_of_shr_record (fst r) = loc_Exact).
Proof.
  intros Hm He Hb Hle. cbv zeta. unfold shr_fexp.
  set (n := fexp prec emax (Zdigits2 m + e) - e).
  destruct (shr_spec (shr_record_of_loc m l) e n) as [M1 E1].
  { now rewrite shr_record_of_loc_m. }
  rewrite shr_record_of_loc_m in M1. rewrite M1, E1.
  assert (P : 0 < 2 ^ (- e)) by (apply Z.pow_pos_nonneg; lia).
  assert (Hd : Zdigits2 m + e <= prec).
  { assert (Zdigits2 m <= prec - e); [ | lia ].
    apply Zdigits2_le; [ assumption | lia | ].
    replace (prec - e) with (prec + - e) by lia. rewrite Z.pow_add_r by lia. nia. }
  pose proof (fexp_le_0 _ Hd) as Hf.
  set (k := Z.max n 0). assert (Hk : 0 <= k <= - e) by (unfold k, n; lia).
  set (a := 2 ^ k). set (c := 2 ^ (- (e + k))).
  assert (Ha : 0 < a) by (apply Z.pow_pos_nonneg; lia).
  assert (Hc : 0 < c) by (apply Z.pow_pos_nonneg; lia).
  assert (Hac : 2 ^ (- e) = c * a).
  { unfold a, c. rewrite <- Z.pow_add_r by lia. f_equal. lia. }
  rewrite Hac in *.
  split; [ lia | ]. split; [ split | split ].
  - apply Z.div_pos; lia.
  - assert (m / a * a <= m) by (rewrite Z.mul_comm; apply Z.mul_div_le; lia). nia.
  - intros Hlt. apply Z.div_lt_upper_bound; [ lia | ]. nia.
  - intros Heq ->. apply (shr_exact m e n (b * c)); [ nia | ].
    fold k. fold a. rewrite Heq. ring.
Qed.

(** Rounding to nearest keeps an integer bound that the format
    represents: a value at most [b] is rounded to a number at most [b]. *)
Lemma binary_round_aux_at_most (m e b : Z) (l : location) :
  0 <= m -> e <= 0 -> 0 < b < 2 ^ prec -> m <= b * 2 ^ (- e) ->
  (m = b * 2 ^ (- e) -> l = loc_Exact) ->
  at_most b (binary_round_aux prec emax false m e l).
Proof.
  intros Hm He Hb Hle Hex. unfold binary_round_aux.
  pose proof (shr_fexp_le m e b l Hm He Hb Hle) as S1. cbv zeta in S1.
  destruct (shr_fexp prec emax m e l) as [mrs1 e1]. cbn [fst snd] in S1.
  destruct S1 as (He1 & [Hm1 Hle1] & Hlt1 & Hex1).
  set (m2 := round_nearest_even (shr_m mrs1) (loc_of_shr_record mrs1)).
  assert (Hm2 : 0 <= m2 <= b * 2 ^ (- e1)).
  { pose proof (round_nearest_even_bounds (shr_m mrs1) (loc_of_shr_record mrs1)) as R.
    fold m2 in R. split; [ lia | ].
    destruct (Z.eq_dec m (b * 2 ^ (- e))) as [Heq | Hne].
    - unfold m2. rewrite (Hex1 Heq (Hex Heq)). exact Hle1.
    - assert (shr_m mrs1 < b * 2 ^ (- e1)) by (apply Hlt1; lia). lia. }
  pose proof (shr_fexp_le m2 e1 b loc_Exact (proj1 Hm2) He1 Hb (proj2 Hm2)) as S2.
  cbv zeta in S2.
  destruct (shr_fexp prec emax m2 e1 loc_Exact) as [mrs2 e2]. cbn [fst snd] in S2.
  destruct S2 as (He2 & [Hm3 Hle3] & _ & _).
  destruct (shr_m mrs2) as [ | m3 | m3 ]; cbn [at_most]; [ exact I | | lia ].
  replace (e2 <=? emax - prec) with true by (symmetry; apply Z.leb_le; lia).
  cbn [at_most]. split; assumption.
Qed.

Lemma binary_round_at_most (b : Z) (m : positive) (e : Z) :
  0 < b < 2 ^ prec -> at_most b (S754_finite false m e) ->
  at_most b (binary_round prec emax false m e).
Proof.
  intros Hb [He Hm]. unfold binary_round.
  pose proof (shl_align_spec m e (fexp prec emax (Z.pos (digits2_pos m) + e))) as [Hz Mz].
  destruct (shl_align m e (fexp prec emax (Z.pos (digits2_pos m) + e))) as [mz ez].
  cbn [fst snd] in Hz, Mz.
  apply binary_round_aux_at_most; try lia; [ | reflexivity ].
  rewrite Mz.
  assert (E : 2 ^ (- ez) = 2 ^ (- e) * 2 ^ (e - ez))
    by (rewrite <- Z.pow_add_r by lia; f_equal; lia).
  assert (0 < 2 ^ (e - ez)) by (apply Z.pow_pos_nonneg; lia).
  rewrite E. nia.
Qed.

End Format.

Lemma digits2_pos_unique (p : positive) (n : Z) :
  2 ^ (n - 1) <= Zpos p < 2 ^ n -> Zpos (digits2_pos p) = n.
Proof.
  intros [L U]. pose proof (digits2_pos_bounds p) as [L' U'].
  assert (0 < n).
  { destruct (Z.lt_ge_cases 0 n) as [ | Hn ]; [ assumption | ].
    destruct (Z.eq_dec n 0) as [-> | ]; [ cbn in U; lia | ].
    rewrite Z.pow_neg_r in U by lia. lia. }
  assert (A : 2 ^ (n - 1) < 2 ^ Z.pos (digits2_pos p)) by lia.
  assert (B : 2 ^ (Z.pos (digits2_pos p) - 1) < 2 ^ n) by lia.
  apply Z.pow_lt_mono_r_iff in A; [ | lia | lia ].
  apply Z.pow_lt_mono_r_iff in B; [ | lia | lia ]. lia.
Qed.

Lemma shl_align_exponent (mx : positive) (ex ex' : Z) :
  snd (shl_align mx ex ex') = Z.min ex ex'.
Proof. unfold shl_align. destruct (ex' - ex) eqn:D; cbn [snd]; lia. Qed.

(** An integer below [2^53] is a number, exactly. *)
Lemma of_Z_exact (x : Z) :
  0 < x < 2 ^ 53 ->
  exists m e, JS.of_Z x = S754_finite false m e /\ e <= 0 /\ Zpos m = x * 2 ^ (- e).
Proof.
  intros Hx. destruct x as [ | p | p ]; try lia.
  unfold JS.of_Z, binary_normalize, binary_round.
  pose proof (digits2_pos_bounds p) as [L U].
  assert (D : Zdigits2 (Z.pos p) <= 53) by (apply Zdigits2_le; lia).
  cbn [Zdigits2] in D.
  set (dp := Z.pos (digits2_pos p)) in *.
  assert (F : fexp 53 1024 (dp + 0) = dp - 53) by (unfold fexp, emin, dp; lia).
  rewrite F.
  pose proof (shl_align_spec p 0 (dp - 53)) as [_ Mz].
  pose proof (shl_align_exponent p 0 (dp - 53)) as Ez.
  destruct (shl_align p 0 (dp - 53)) as [mz ez]. cbn [fst snd] in Mz, Ez.
  rewrite Z.min_r in Ez by lia. subst ez.
  replace (0 - (dp - 53)) with (53 - dp) in Mz by lia.
  assert (Dz : Z.pos (digits2_pos mz) = 53).
  { apply digits2_pos_unique. rewrite Mz.
    assert (P : 0 < 2 ^ (53 - dp)) by (apply Z.pow_pos_nonneg; lia).
    replace (2 ^ (53 - 1)) with (2 ^ (dp - 1) * 2 ^ (53 - dp))
      by (rewrite <- Z.pow_add_r by lia; f_equal; lia).
    replace (2 ^ 53) with (2 ^ dp * 2 ^ (53 - dp))
      by (rewrite <- Z.pow_add_r by lia; f_equal; lia).
    nia. }
  exists mz, (dp - 53). split; [ | split; [ lia | ] ].
  - unfold binary_round_aux, shr_fexp. cbn [Zdigits2]. rewrite Dz.
    replace (fexp 53 1024 (53 + (dp - 53)) - (dp - 53)) with 0
      by (unfold fexp, emin; lia).
    cbn [shr shr_record_of_loc loc_of_shr_record shr_m round_nearest_even Zdigits2].
    rewrite Dz.
    replace (fexp 53 1024 (53 + (dp - 53)) - (dp - 53)) with 0
      by (unfold fexp, emin; lia).
    cbn [shr shr_record_of_loc shr_m].
    replace (dp - 53 <=? 1024 - 53) with true by (symmetry; apply Z.leb_le; lia).
    reflexivity.
  - rewrite Mz. f_equal. f_equal. lia.
Qed.

Section Division.

Variables prec emax : Z.
Hypothesis Hprec : 2 <= prec <= emax.

Lemma new_location_0 (n : Z) : new_location n 0 = loc_Exact.
Proof.
  unfold new_location, new_location_even, new_location_odd.
  destruct (Z.even n); reflexivity.
Qed.

(** The quotient of a positive number by one that is not smaller is
    at most 1. *)
Lemma SFdiv_at_most_one (mx md : positive) (ex ed : Z) :
  ex <= 0 -> ed <= 0 -> Zpos mx * 2 ^ (- ed) <= Zpos md * 2 ^ (- ex) ->
  at_most 1 (SFdiv prec emax (S754_finite false mx ex) (S754_finite false md ed)).
Proof.
  intros Hex Hed Hle. unfold SFdiv, SFdiv_core_binary. cbv zeta. cbn [Zdigits2 xorb].
  set (d1 := Z.pos (digits2_pos mx)). set (d2 := Z.pos (digits2_pos md)).
  set (e' := Z.min (fexp prec emax (d1 + ex - (d2 + ed))) (ex - ed)).
  set (s := ex - ed - e').
  pose proof (digits2_pos_bounds mx) as [L1 _]. fold d1 in L1.
  pose proof (digits2_pos_bounds md) as [_ U2]. fold d2 in U2.
  assert (P1 : 0 < 2 ^ (- ed)) by (apply Z.pow_pos_nonneg; lia).
  assert (P2 : 0 < 2 ^ (- ex)) by (apply Z.pow_pos_nonneg; lia).
  assert (Hd : d1 + ex <= d2 + ed).
  { assert (A : 2 ^ (d1 - 1 + - ed) < 2 ^ (d2 + - ex)).
    { rewrite !Z.pow_add_r by (unfold d1, d2; lia). nia. }
    apply Z.pow_lt_mono_r_iff in A; unfold d1, d2 in *; lia. }
  assert (Hf : fexp prec emax (d1 + ex - (d2 + ed)) <= 0) by (apply fexp_le_0; lia).
  assert (He' : e' <= 0) by (unfold e'; lia).
  assert (Hs : 0 <= s) by (unfold s, e'; lia).
  set (m' := match s with
             | 0 => Z.pos mx
             | Z.pos _ => Z.shiftl (Z.pos mx) s
             | Z.neg _ => 0
             end).
  assert (Hm' : m' = Z.pos mx * 2 ^ s).
  { unfold m'. destruct s as [ | p | p ]; [ cbn; lia | | lia ].
    apply Z.shiftl_mul_pow2. lia. }
  assert (Ps : 0 < 2 ^ s) by (apply Z.pow_pos_nonneg; lia).
  assert (Pw : 0 < 2 ^ (- e')) by (apply Z.pow_pos_nonneg; lia).
  assert (Hb : m' <= Z.pos md * 2 ^ (- e')).
  { rewrite Hm'.
    assert (E : 2 ^ s * 2 ^ (- ex) = 2 ^ (- ed) * 2 ^ (- e')).
    { rewrite <- !Z.pow_add_r by lia. f_equal. unfold s. lia. }
    apply Z.mul_le_mono_pos_r with (p := 2 ^ (- ex)); [ assumption | ].
    replace (Z.pos mx * 2 ^ s * 2 ^ (- ex)) with (Z.pos mx * (2 ^ s * 2 ^ (- ex))) by ring.
    rewrite E.
    replace (Z.pos mx * (2 ^ (- ed) * 2 ^ (- e')))
      with (Z.pos mx * 2 ^ (- ed) * 2 ^ (- e')) by ring.
    replace (Z.pos md * 2 ^ (- e') * 2 ^ (- ex))
      with (Z.pos md * 2 ^ (- ex) * 2 ^ (- e')) by ring.
    apply Z.mul_le_mono_nonneg_r; lia. }
  pose proof (Z_div_mod m' (Z.pos md) ltac:(lia)) as DM.
  destruct (Z.div_eucl m' (Z.pos md)) as [q r]. destruct DM as [Eq Hr].
  assert (Hm0 : 0 <= m') by (rewrite Hm'; lia).
  assert (Hq : 0 <= q) by nia.
  assert (Hq' : q <= 2 ^ (- e')) by nia.
  apply (binary_round_aux_at_most prec emax Hprec); try lia.
  - split; [ lia | ]. apply Z.pow_gt_1; lia.
  - intros Heq. rewrite Z.mul_1_l in Heq.
    assert (r = 0) by nia. subst r. apply new_location_0.
Qed.

End Division.

(** Storing into a [Float32Array] keeps a number in the unit range. *)
Lemma fround_at_most_one (x : JS.number) : at_most 1 x -> at_most 1 (JS.fround x).
Proof.
  intros H. destruct x as [s | s | | [ | ] m e]; cbn [at_most] in H; try contradiction;
    cbn [JS.fround at_most]; [ exact I | ].
  assert (H24 : at_most 1 (binary_round 24 128 false m e)).
  { apply binary_round_at_most; [ lia | split; [ lia | reflexivity ] | exact H ]. }
  destruct (binary_round 24 128 false m e) as [s' | s' | | [ | ] m' e'];
    cbn [at_most] in H24; try contradiction; [ exact I | ].
  apply binary_round_at_most; [ lia | split; [ lia | reflexivity ] | exact H24 ].
Qed.

(** An unsigned integer divided by the largest of its type, [x / d] with
    [0 <= x <= d], lies in the unit range, also after the store into a
    [Float32Array]. *)
Lemma rescaled_in_unit_range (x d : Z) :
  0 <= x <= d -> 0 < d < 2 ^ 53 ->
  in_unit_range (JS.fround (JS.div (JS.of_Z x) (JS.of_Z d))) = true.
Proof.
  intros Hx Hd. apply in_unit_range_iff. apply fround_at_most_one.
  destruct (of_Z_exact d Hd) as (md & ed & -> & Hed & Md).
  destruct (Z.eq_dec x 0) as [-> | Hx0].
  - exact I.
  - destruct (of_Z_exact x ltac:(lia)) as (mx & ex & -> & Hex & Mx).
    apply SFdiv_at_most_one; [ lia | assumption | assumption | ].
    rewrite Mx, Md.
    assert (0 < 2 ^ (- ed)) by (apply Z.pow_pos_nonneg; lia).
    assert (0 < 2 ^ (- ex)) by (apply Z.pow_pos_nonneg; lia).
    nia.
Qed.

(** A number of the unit range, multiplied by 255, has an integer part
    between 0 and 255. *)
Lemma mul_255_unit_range (x : JS.number) :
  in_unit_range x = true -> 0 <= JS.trunc (JS.mul x (JS.of_Z 255)) <= 255.
Proof.
  intros Hu. apply in_unit_range_iff in Hu. apply at_most_trunc; [ lia | ].
  replace (JS.of_Z 255) with (S754_finite false 8972014882652160 (-45))
    by (vm_compute; reflexivity).
  unfold JS.mul.
  destruct x as [s | s | | [ | ] m e]; cbn [at_most] in Hu; try contradiction;
    cbn [SFmul xorb at_most]; [ exact I | ].
  destruct Hu as [He Hm]. rewrite Z.mul_1_l in Hm.
  apply binary_round_aux_at_most; [ lia | lia | lia | split; [ lia | reflexivity ] | | reflexivity ].
  rewrite Pos2Z.inj_mul.
  replace (- (e + -45)) with (45 + - e) by lia. rewrite Z.pow_add_r by lia.
  change (2 ^ 45) with 35184372088832.
  change (Z.pos 8972014882652160) with (255 * 35184372088832).
  nia.
Qed.

(** A numeric channel factor of the unit range gives a byte. *)
Lemma channel255_unit_range (f : list JS.value) (i : Z) (x : JS.number) :
  JS.index f i = Some (JS.VNum x) -> in_unit_range x = true ->
  0 <= JS.trunc (channel255 f i) < 256.
Proof.
  intros Hi Hu. unfold channel255. rewrite Hi. cbn [JS.truthy JS.ToNumber].
  destruct (JS.truthy_number x) eqn:T.
  - pose proof (mul_255_unit_range x Hu). lia.
  - replace (JS.trunc (JS.mul (JS.of_Z 0) (JS.of_Z 255))) with 0
      by (vm_compute; reflexivity).
    lia.
Qed.

(** The predicate tells the unit range from what is outside it. *)
Lemma in_unit_range_examples :
  in_unit_range zero = true /\ in_unit_range one_half = true /\
  in_unit_range one = true /\
  in_unit_range (JS.div (JS.of_Z 256) (JS.of_Z 255)) = false /\
  in_unit_range (JS.of_Z 2) = false /\ in_unit_range (JS.of_Z (-1)) = false /\
  in_unit_range JS.NaN = false.
Proof. vm_compute. repeat split; reflexivity. Qed.

(** A byte divided by 255 lies in the unit range. *)
Lemma byte_in_unit_range (b : byte) :
  in_unit_range (JS.fround (JS.div (JS.of_Z (JS.u8 b)) (JS.of_Z 255))) = true.
Proof.
  pose proof (u8_range b) as Hb.
  apply rescaled_in_unit_range; [ lia | split; reflexivity ].
Qed.

(** A 16-bit word divided by 65535 lies in the unit range. *)
Lemma word_in_unit_range (x : Z) :
  0 <= x < 65536 ->
  in_unit_range (JS.fround (JS.div (JS.of_Z x) (JS.of_Z 65535))) = true.
Proof.
  intros Hx. apply rescaled_in_unit_range; [ lia | split; reflexivity ].
Qed.

Lemma u16_words_range (l : list byte) :
  Forall (fun x => 0 <= x < 65536) (u16_words l).
Proof.
  revert l. fix IH 1. intros [ | b0 [ | b1 l]]; cbn [u16_words]; try apply Forall_nil.
  apply Forall_cons; [ | apply IH ].
  pose proof (u8_range b0). pose proof (u8_range b1).
  change (2 ^ 8) with 256. lia.
Qed.

(* ================================================================== *)
(** * Numbers that are not NaN *)
(* ================================================================== *)

(** Rounding a mantissa that is not negative gives a zero, a number or
    an infinity of the sign asked for, never NaN. *)
Lemma iter_shr_1_nonneg (p : positive) (mrs : shr_record) :
  0 <= shr_m mrs -> 0 <= shr_m (iter_pos shr_1 p mrs).
Proof.
  intros H. rewrite iter_shr_1_m by assumption.
  apply Z.div_pos; [ assumption | apply Z.pow_pos_nonneg; lia ].
Qed.

Lemma shr_nonneg (mrs : shr_record) (e n : Z) :
  0 <= shr_m mrs -> 0 <= shr_m (fst (shr mrs e n)).
Proof.
  intros H. unfold shr. destruct n as [ | p | p ]; cbn [fst]; try assumption.
  now apply iter_shr_1_nonneg.
Qed.

Lemma shr_fexp_nonneg (prec emax m e : Z) (l : location) :
  0 <= m -> 0 <= shr_m (fst (shr_fexp prec emax m e l)).
Proof.
  intros H. unfold shr_fexp. apply shr_nonneg. now rewrite shr_record_of_loc_m.
Qed.

Lemma binary_round_aux_sign (prec emax : Z) (s : bool) (m e : Z) (l : location) :
  0 <= m -> has_sign s (binary_round_aux prec emax s m e l).
Proof.
  intros Hm. unfold binary_round_aux.
  pose proof (shr_fexp_nonneg prec emax m e l Hm) as H1.
  destruct (shr_fexp prec emax m e l) as [mrs' e']. cbn [fst] in H1.
  assert (H2 : 0 <= round_nearest_even (shr_m mrs') (loc_of_shr_record mrs'))
    by (pose proof (round_nearest_even_bounds (shr_m mrs') (loc_of_shr_record mrs')); lia).
  pose proof (shr_fexp_nonneg prec emax _ e' loc_Exact H2) as H3.
  destruct (shr_fexp prec emax
              (round_nearest_even (shr_m mrs') (loc_of_shr_record mrs')) e' loc_Exact)
    as [mrs'' e'']. cbn [fst] in H3.
  destruct (shr_m mrs'') as [ | q | q ]; [ reflexivity | | lia ].
  destruct (e'' <=? emax - prec); reflexivity.
Qed.

Lemma binary_round_sign (prec emax : Z) (s : bool) (m : positive) (e : Z) :
  has_sign s (binary_round prec emax s m e).
Proof.
  unfold binary_round.
  destruct (shl_align m e (fexp prec emax (Z.pos (digits2_pos m) + e))) as [mz ez].
  apply binary_round_aux_sign. lia.
Qed.

Lemma has_sign_not_nan (s : bool) (x : JS.number) : has_sign s x -> JS.isNaN x = false.
Proof. destruct x; cbn; [ reflexivity .. | contradiction | reflexivity ]. Qed.

Lemma has_sign_not_negative (x : JS.number) : has_sign false x -> not_negative x = true.
Proof. destruct x as [s | s | | s m e]; cbn; try contradiction; intros ->; reflexivity. Qed.

Lemma binary_normalize_not_nan (prec emax m e : Z) (szero : bool) :
  JS.isNaN (binary_normalize prec emax m e szero) = false.
Proof.
  unfold binary_normalize. destruct m as [ | p | p ]; [ reflexivity | | ];
    eapply has_sign_not_nan, binary_round_sign.
Qed.

(** ** The operations of the bounding sphere *)

Lemma is_finite_not_nan (x : JS.number) : is_finite x = true -> JS.isNaN x = false.
Proof. destruct x; cbn; congruence. Qed.

Lemma not_negative_not_nan (x : JS.number) : not_negative x = true -> JS.isNaN x = false.
Proof. destruct x; cbn; congruence. Qed.

(** [c - v] is not NaN when [c] is not NaN and [v] is finite. *)
Lemma sub_not_nan (c v : JS.number) :
  JS.isNaN c = false -> is_finite v = true -> JS.isNaN (JS.sub c v) = false.
Proof.
  unfold JS.sub, SFsub.
  destruct c as [sc | sc | | sc mc ec], v as [sv | sv | | sv mv ev];
    cbn [JS.isNaN is_finite]; try congruence; intros _ _.
  - destruct sc, sv; reflexivity.
  - apply binary_normalize_not_nan.
Qed.

(** The sum of two finite numbers is not NaN. *)
Lemma add_finite_not_nan (a b : JS.number) :
  is_finite a = true -> is_finite b = true -> JS.isNaN (JS.add a b) = false.
Proof.
  unfold JS.add, SFadd.
  destruct a as [sa | sa | | sa ma ea], b as [sb | sb | | sb mb eb];
    cbn [JS.isNaN is_finite]; try congruence; intros _ _.
  - destruct sa, sb; reflexivity.
  - apply binary_normalize_not_nan.
Qed.

(** Half of a number that is not NaN is not NaN. *)
Lemma mul_half_not_nan (x : JS.number) :
  JS.isNaN x = false -> JS.isNaN (JS.mul x THREE.half) = false.
Proof.
  replace THREE.half with (S754_finite false 4503599627370496 (-53))
    by (vm_compute; reflexivity).
  unfold JS.mul, SFmul. destruct x as [s | s | | s m e]; cbn [JS.isNaN]; try congruence;
    intros _; try reflexivity.
  eapply has_sign_not_nan, binary_round_aux_sign. lia.
Qed.

(** A square is not negative. *)
Lemma square_not_negative (d : JS.number) :
  JS.isNaN d = false -> not_negative (JS.mul d d) = true.
Proof.
  unfold JS.mul, SFmul. destruct d as [s | s | | s m e]; cbn [JS.isNaN]; try congruence;
    intros _.
  - reflexivity.
  - destruct s; reflexivity.
  - apply has_sign_not_negative. replace (xorb s s) with false by (now destruct s).
    apply binary_round_aux_sign. lia.
Qed.

(** A sum of numbers that are not negative is not negative. *)
Lemma add_not_negative (a b : JS.number) :
  not_negative a = true -> not_negative b = true -> not_negative (JS.add a b) = true.
Proof.
  unfold JS.add, SFadd.
  destruct a as [sa | [ | ] | | [ | ] ma ea], b as [sb | [ | ] | | [ | ] mb eb];
    cbn [not_negative]; try congruence; intros _ _; try reflexivity.
  - destruct sa, sb; reflexivity.
  - apply has_sign_not_negative. cbn [cond_Zopp].
    apply (binary_round_sign 53 1024 false).
Qed.

Lemma Math_max_not_negative (a b : JS.number) :
  not_negative a = true -> not_negative b = true -> not_negative (JS.Math_max a b) = true.
Proof.
  intros Ha Hb. unfold JS.Math_max.
  destruct a as [[ | ] | [ | ] | | [ | ] ma ea]; cbn [not_negative] in Ha; try congruence;
    destruct b as [sb | [ | ] | | [ | ] mb eb]; cbn [not_negative] in Hb; try congruence;
    try reflexivity;
    match goal with |- context [if ?c then _ else _] => destruct c end; reflexivity.
Qed.

Lemma sqrt_fst_nonneg (n : Z) : 0 <= fst (Z.sqrtrem n).
Proof. rewrite Z.sqrtrem_sqrt. apply Z.sqrt_nonneg. Qed.

(** The square root of a number that is not negative is not NaN. *)
Lemma Math_sqrt_not_nan (x : JS.number) :
  not_negative x = true -> JS.isNaN (JS.Math_sqrt x) = false.
Proof.
  unfold JS.Math_sqrt, SFsqrt.
  destruct x as [s | [ | ] | | [ | ] m e]; cbn [not_negative]; try congruence; intros _;
    try reflexivity.
  unfold SFsqrt_core_binary.
  match goal with |- context [Z.sqrtrem ?n] =>
    pose proof (sqrt_fst_nonneg n) as Hq; destruct (Z.sqrtrem n) as [q r] end.
  cbn [fst] in Hq. eapply has_sign_not_nan, binary_round_aux_sign. exact Hq.
Qed.

(** ** The box, its centre and the radius *)

Lemma ltb_below_infinity (c : JS.number) :
  is_finite c = true -> JS.ltb c JS.Infinity = true /\ JS.ltb (SFopp JS.Infinity) c = true.
Proof. destruct c as [s | s | | s m e]; cbn [is_finite]; try congruence; intros _; split; reflexivity. Qed.

Lemma finite_vector_inv (v : THREE.Vector3) :
  finite_vector v = true ->
  is_finite (THREE.v_x v) = true /\ is_finite (THREE.v_y v) = true /\
  is_finite (THREE.v_z v) = true.
Proof. unfold finite_vector. rewrite !andb_true_iff. tauto. Qed.

Lemma finite_vector_intro (x y z : JS.number) :
  is_finite x = true -> is_finite y = true -> is_finite z = true ->
  finite_vector {| THREE.v_x := x; THREE.v_y := y; THREE.v_z := z |} = true.
Proof. intros Hx Hy Hz. unfold finite_vector. cbn [THREE.v_x THREE.v_y THREE.v_z]. now rewrite Hx, Hy, Hz. Qed.

(** A finite vertex makes the bounds of the box finite, and keeps them
    so. *)
Lemma expand_finite (a : THREE.BufferAttribute) (b : THREE.Box3) (i : Z) :
  b = THREE.empty_box \/ finite_box b = true ->
  finite_vertex a i = true -> finite_box (THREE.expand a b i) = true.
Proof.
  intros Hb Hv. apply finite_vector_inv in Hv. destruct Hv as (Hx & Hy & Hz).
  unfold THREE.expand. cbv zeta.
  set (v := THREE.fromBufferAttribute a i) in *.
  unfold finite_box. cbn [THREE.b_min THREE.b_max]. apply andb_true_iff.
  destruct Hb as [-> | Hb].
  - cbn [THREE.empty_box THREE.b_min THREE.b_max THREE.v_x THREE.v_y THREE.v_z].
    destruct (ltb_below_infinity _ Hx) as [-> ->].
    destruct (ltb_below_infinity _ Hy) as [-> ->].
    destruct (ltb_below_infinity _ Hz) as [-> ->].
    split; now apply finite_vector_intro.
  - unfold finite_box in Hb. apply andb_true_iff in Hb. destruct Hb as [Hl Hu].
    apply finite_vector_inv in Hl. apply finite_vector_inv in Hu.
    destruct Hl as (Lx & Ly & Lz), Hu as (Ux & Uy & Uz).
    split; apply finite_vector_intro;
      match goal with |- context [if ?c then _ else _] => destruct c end; assumption.
Qed.

Lemma fold_expand_finite (a : THREE.BufferAttribute) (l : list Z) :
  forall b, b = THREE.empty_box \/ finite_box b = true ->
            forallb (finite_vertex a) l = true ->
            fold_left (THREE.expand a) l b = THREE.empty_box \/
            finite_box (fold_left (THREE.expand a) l b) = true.
Proof.
  induction l as [ | i l IH]; intros b Hb Hl; cbn [fold_left]; [ exact Hb | ].
  cbn [forallb] in Hl. apply andb_true_iff in Hl. destruct Hl as [Hi Hl].
  apply IH; [ right; now apply expand_finite | exact Hl ].
Qed.

(** The centre of such a box has no NaN coordinate. *)
Lemma getCenter_no_nan (b : THREE.Box3) :
  b = THREE.empty_box \/ finite_box b = true -> no_nan_vector (THREE.getCenter b) = true.
Proof.
  intros [-> | Hb]; [ vm_compute; reflexivity | ].
  unfold finite_box in Hb. apply andb_true_iff in Hb. destruct Hb as [Hl Hu].
  apply finite_vector_inv in Hl. apply finite_vector_inv in Hu.
  destruct Hl as (Lx & Ly & Lz), Hu as (Ux & Uy & Uz).
  unfold THREE.getCenter. destruct (THREE.isEmpty b); [ vm_compute; reflexivity | ].
  unfold no_nan_vector, nan_vector. cbn [THREE.v_x THREE.v_y THREE.v_z].
  rewrite !mul_half_not_nan by now apply add_finite_not_nan. reflexivity.
Qed.

Lemma no_nan_vector_inv (v : THREE.Vector3) :
  no_nan_vector v = true ->
  JS.isNaN (THREE.v_x v) = false /\ JS.isNaN (THREE.v_y v) = false /\
  JS.isNaN (THREE.v_z v) = false.
Proof.
  unfold no_nan_vector, nan_vector. rewrite negb_true_iff, !orb_false_iff. tauto.
Qed.

(** The squared distance from a centre without NaN to a finite vertex is
    not negative. *)
Lemma distanceToSquared_not_negative (c v : THREE.Vector3) :
  no_nan_vector c = true -> finite_vector v = true ->
  not_negative (THREE.distanceToSquared c v) = true.
Proof.
  intros Hc Hv. apply no_nan_vector_inv in Hc. apply finite_vector_inv in Hv.
  destruct Hc as (Cx & Cy & Cz), Hv as (Vx & Vy & Vz).
  unfold THREE.distanceToSquared. cbv zeta.
  repeat apply add_not_negative; apply square_not_negative; now apply sub_not_nan.
Qed.

Lemma fold_max_not_negative (a : THREE.BufferAttribute) (c : THREE.Vector3) (l : list Z) :
  no_nan_vector c = true -> forallb (finite_vertex a) l = true ->
  forall m, not_negative m = true ->
            not_negative
              (fold_left (fun m i => JS.Math_max m (THREE.distanceToSquared c
                                                     (THREE.fromBufferAttribute a i))) l m)
            = true.
Proof.
  intros Hc. induction l as [ | i l IH]; intros Hl m Hm; cbn [fold_left]; [ exact Hm | ].
  cbn [forallb] in Hl. apply andb_true_iff in Hl. destruct Hl as [Hi Hl].
  apply IH; [ exact Hl | ].
  apply Math_max_not_negative; [ exact Hm | now apply distanceToSquared_not_negative ].
Qed.

(** With finite positions the radius is a number. *)
Lemma radius_of_finite_positions (a : THREE.BufferAttribute) :
  finite_positions a = true -> JS.isNaN (THREE.boundingSphere_radius a) = false.
Proof.
  intros H. unfold finite_positions in H. unfold THREE.boundingSphere_radius. cbv zeta.
  apply Math_sqrt_not_nan. apply fold_max_not_negative; [ | exact H | reflexivity ].
  apply getCenter_no_nan. unfold THREE.setFromBufferAttribute.
  apply fold_expand_finite; [ now left | exact H ].
Qed.

(** A coordinate that is NaN makes the squared distance NaN, whatever the
    centre; NaN then stays the maximum. *)
Lemma distanceToSquared_nan (c v : THREE.Vector3) :
  nan_vector v = true -> THREE.distanceToSquared c v = JS.NaN.
Proof.
  unfold nan_vector, THREE.distanceToSquared. cbv zeta.
  destruct v as [x y z]. cbn [THREE.v_x THREE.v_y THREE.v_z].
  assert (S : forall p q, JS.isNaN q = true -> JS.mul (JS.sub p q) (JS.sub p q) = JS.NaN).
  { intros p q Hq. destruct q; try discriminate Hq. destruct p; reflexivity. }
  assert (L : forall q, JS.add JS.NaN q = JS.NaN) by reflexivity.
  assert (R : forall p, JS.add p JS.NaN = JS.NaN) by (intros p; destruct p; reflexivity).
  rewrite !orb_true_iff. intros [[H | H] | H]; rewrite (S _ _ H).
  - now rewrite !L.
  - now rewrite R, L.
  - now rewrite R.
Qed.

Lemma Math_max_nan_l (b : JS.number) : JS.Math_max JS.NaN b = JS.NaN.
Proof. reflexivity. Qed.

Lemma Math_max_nan_r (a : JS.number) : JS.Math_max a JS.NaN = JS.NaN.
Proof. destruct a as [[ | ] | | | ]; reflexivity. Qed.

Lemma fold_max_nan (f : Z -> JS.number) (l : list Z) :
  fold_left (fun m i => JS.Math_max m (f i)) l JS.NaN = JS.NaN.
Proof. induction l as [ | i l IH]; cbn [fold_left]; [ reflexivity | now rewrite Math_max_nan_l ]. Qed.

Lemma fold_max_some_nan (f : Z -> JS.number) (l : list Z) :
  (exists i, In i l /\ f i = JS.NaN) ->
  forall m, fold_left (fun m i => JS.Math_max m (f i)) l m = JS.NaN.
Proof.
  induction l as [ | j l IH]; intros (i & Hi & Hf) m; [ contradiction | ].
  cbn [fold_left]. destruct Hi as [-> | Hi].
  - rewrite Hf, Math_max_nan_r. apply fold_max_nan.
  - apply IH. now exists i.
Qed.

(** With a NaN among the coordinates read, the radius is NaN. *)
Lemma radius_of_nan_positions (a : THREE.BufferAttribute) :
  nan_positions a = true -> JS.isNaN (THREE.boundingSphere_radius a) = true.
Proof.
  intros H. unfold nan_positions in H. apply existsb_exists in H.
  destruct H as (i & Hi & Hn).
  unfold THREE.boundingSphere_radius. cbv zeta.
  rewrite (fold_max_some_nan
             (fun i => THREE.distanceToSquared
                         (THREE.getCenter (THREE.setFromBufferAttribute a))
                         (THREE.fromBufferAttribute a i))); [ reflexivity | ].
  exists i. split; [ exact Hi | now apply distanceToSquared_nan ].
Qed.

(** What the bounding sphere of a position attribute writes to the
    console. *)
Lemma computeBoundingSphere_console (g : THREE.BufferGeometry) :
  THREE.computeBoundingSphere g
  = (match THREE.g_position g with
     | Some position => sphere_errors position
     | None => []
     end, JS.Ok tt).
Proof.
  unfold THREE.computeBoundingSphere, sphere_errors.
  destruct (THREE.g_position g) as [position | ]; [ | reflexivity ].
  destruct (JS.isNaN (THREE.boundingSphere_radius position)); reflexivity.
Qed.

Lemma sphere_errors_finite (a : THREE.BufferAttribute) :
  finite_positions a = true -> sphere_errors a = [].
Proof. intros H. unfold sphere_errors. now rewrite radius_of_finite_positions. Qed.

Lemma sphere_errors_nan (a : THREE.BufferAttribute) :
  nan_positions a = true -> sphere_errors a = [THREE.radius_is_NaN_message].
Proof. intros H. unfold sphere_errors. now rewrite radius_of_nan_positions. Qed.

(* ================================================================== *)
(** * Colours and materials *)
(* ================================================================== *)

Lemma wrap32_small (z : Z) : 0 <= z < 2 ^ 31 -> JS.wrap32 z = z.
Proof.
  intros H. unfold JS.wrap32. cbv zeta.
  change (2 ^ 31) with 2147483648 in *. change (2 ^ 32) with 4294967296.
  rewrite Z.mod_small by lia.
  now replace (2147483648 <=? z) with false by (symmetry; apply Z.leb_gt; lia).
Qed.

(** Bit fields that do not overlap add up. *)
Lemma lor_shifted (a b k : Z) :
  0 <= a -> 0 <= k -> 0 <= b < 2 ^ k -> Z.lor (a * 2 ^ k) b = a * 2 ^ k + b.
Proof.
  intros Ha Hk Hb.
  rewrite <- Z.shiftl_mul_pow2 by assumption.
  symmetry. rewrite <- Z.lxor_lor.
  - apply Z.add_nocarry_lxor.
    apply Z.bits_inj'. intros n Hn. rewrite Z.land_spec, Z.bits_0.
    destruct (Z.lt_ge_cases n k) as [L | G].
    + now rewrite Z.shiftl_spec_low.
    + destruct (Z.eq_dec b 0) as [-> | Hnz]; [ now rewrite Z.bits_0, andb_false_r | ].
      rewrite (Z.bits_above_log2 b n); [ apply andb_false_r | lia | ].
      apply Z.log2_lt_pow2; [ lia | ].
      apply Z.lt_le_trans with (2 ^ k); [ lia | ].
      apply Z.pow_le_mono_r; lia.
  - apply Z.bits_inj'. intros n Hn. rewrite Z.land_spec, Z.bits_0.
    destruct (Z.lt_ge_cases n k) as [L | G].
    + now rewrite Z.shiftl_spec_low.
    + destruct (Z.eq_dec b 0) as [-> | Hnz]; [ now rewrite Z.bits_0, andb_false_r | ].
      rewrite (Z.bits_above_log2 b n); [ apply andb_false_r | lia | ].
      apply Z.log2_lt_pow2; [ lia | ].
      apply Z.lt_le_trans with (2 ^ k); [ lia | ].
      apply Z.pow_le_mono_r; lia.
Qed.

(** The packed colour when the three channel values are bytes. *)
Lemma pack_color_bytes (f : list JS.value) :
  let c := fun i => JS.trunc (channel255 f i) in
  0 <= c 0 < 256 -> 0 <= c 1 < 256 -> 0 <= c 2 < 256 ->
  pack_color f = c 0 * 65536 + c 1 * 256 + c 2.
Proof.
  intros c H0 H1 H2.
  set (c0 := c 0) in *. set (c1 := c 1) in *. set (c2 := c 2) in *.
  unfold pack_color, JS.shl, JS.bor, JS.ToInt32. cbv zeta.
  change (JS.trunc (channel255 f 0)) with c0.
  change (JS.trunc (channel255 f 1)) with c1.
  change (JS.trunc (channel255 f 2)) with c2.
  assert (B : forall z, 0 <= z < 16777216 -> JS.wrap32 z = z)
    by (intros z Hz; apply wrap32_small; change (2 ^ 31) with 2147483648; lia).
  rewrite (B c0), (B c1), (B c2) by lia.
  change (16 mod 32) with 16. change (8 mod 32) with 8.
  rewrite !Z.shiftl_mul_pow2 by lia.
  change (2 ^ 16) with 65536. change (2 ^ 8) with 256.
  rewrite (B (c0 * 65536)), (B (c1 * 256)) by lia.
  assert (E1 : Z.lor (c0 * 65536) (c1 * 256) = c0 * 65536 + c1 * 256).
  { change 65536 with (2 ^ 16). apply lor_shifted; change (2 ^ 16) with 65536; lia. }
  rewrite E1, (B (c0 * 65536 + c1 * 256)) by lia.
  assert (E2 : Z.lor (c0 * 65536 + c1 * 256) c2 = c0 * 65536 + c1 * 256 + c2).
  { replace (c0 * 65536 + c1 * 256) with ((c0 * 256 + c1) * 2 ^ 8)
      by (change (2 ^ 8) with 256; lia).
    apply lor_shifted; change (2 ^ 8) with 256; lia. }
  rewrite E2. apply B. lia.
Qed.

(** A channel that is missing, [null], [false], zero or NaN, or that is
    NaN as a number, contributes nothing. *)
Lemma channel_zero (f : list JS.value) (i : Z) :
  JS.truthy (JS.index f i) = false \/ JS.ToNumber (JS.index f i) = JS.NaN ->
  JS.trunc (channel255 f i) = 0.
Proof.
  unfold channel255. cbv zeta. intros [H | H].
  - rewrite H. reflexivity.
  - destruct (JS.truthy (JS.index f i)); [ rewrite H | ]; reflexivity.
Qed.

(** ** Material resolution *)

Lemma apply_pbr_red_half (ctx : Context) (p : PbrDef) (m : THREE.MaterialOptions) :
  baseColorFactor p = Some red_half ->
  THREE.map m = None ->
  let m' := apply_pbr ctx p m in
  THREE.transparent m' = Some true /\
  THREE.opacity m' = Some (JS.VNum one_half) /\
  THREE.color m' = match THREE.map m' with Some _ => 0xffffff | None => 0xff0000 end.
Proof.
  intros Hf Hm. unfold apply_pbr. rewrite Hf.
  replace (pack_color red_half) with 0xff0000 by (vm_compute; reflexivity).
  replace (JS.index red_half 3) with (Some (JS.VNum one_half)) by reflexivity.
  replace (JS.not_nullish (Some (JS.VNum one_half))
           && JS.ltb (JS.ToNumber (Some (JS.VNum one_half))) (JS.of_Z 1))
    with true by (vm_compute; reflexivity).
  cbv zeta.
  destruct (baseColorTexture p) as [[[k | ]] | ]; cbn [ti_index];
    [ destruct (ctx_textures ctx) as [texs | ];
      [ destruct (JS.index texs k) as [[t | ] | ] | ] | | ];
    destruct (metallicFactor p), (roughnessFactor p); mat_simpl; rewrite ?Hm; auto.
Qed.

Lemma apply_material_red_half (ctx : Context) (mdef : MaterialDef) (p : PbrDef) :
  pbrMetallicRoughness mdef = Some p ->
  baseColorFactor p = Some red_half ->
  let m' := apply_material ctx mdef default_matOptions in
  THREE.transparent m' = Some true /\
  THREE.opacity m' = Some (JS.VNum one_half) /\
  THREE.color m' = match THREE.map m' with Some _ => 0xffffff | None => 0xff0000 end.
Proof.
  intros Hp Hf. unfold apply_material. rewrite Hp.
  destruct (apply_pbr_red_half ctx p default_matOptions Hf eq_refl) as (T & O & C).
  generalize dependent (apply_pbr ctx p default_matOptions). intros m T O C.
  cbv zeta.
  destruct (emissiveFactor mdef) as [e | ]; [ generalize (pack_color e); intros ce | ];
    destruct (doubleSided mdef) as [[ | ] | ];
    destruct (is_BLEND (alphaMode mdef));
    mat_simpl; rewrite ?O; cbn [JS.not_nullish negb]; mat_simpl; auto.
Qed.

(** The emissive colour is the packed [emissiveFactor]. *)
Lemma apply_material_emissive (ctx : Context) (mdef : MaterialDef) (m : THREE.MaterialOptions)
    (f : list JS.value) :
  emissiveFactor mdef = Some f ->
  THREE.emissive (apply_material ctx mdef m) = Some (pack_color f).
Proof.
  intros Hf. unfold apply_material. rewrite Hf. cbv zeta.
  destruct (pbrMetallicRoughness mdef) as [p | ]; [ generalize (apply_pbr ctx p m); intros m0 | ];
    destruct (doubleSided mdef) as [[ | ] | ];
    destruct (is_BLEND (alphaMode mdef));
    mat_simpl;
    match goal with
    | |- context [negb ?b] => destruct b
    | _ => idtac
    end; reflexivity.
Qed.

(** The base colour is the packed [baseColorFactor], unless a texture
    replaces it. *)
Lemma apply_material_color (ctx : Context) (mdef : MaterialDef) (p : PbrDef)
    (f : list JS.value) :
  pbrMetallicRoughness mdef = Some p ->
  baseColorFactor p = Some f ->
  let m' := apply_material ctx mdef default_matOptions in
  THREE.map m' = None -> THREE.color m' = pack_color f.
Proof.
  intros Hp Hf. unfold apply_material. rewrite Hp. cbv zeta.
  assert (P : THREE.map (apply_pbr ctx p default_matOptions) = None ->
              THREE.color (apply_pbr ctx p default_matOptions) = pack_color f).
  { unfold apply_pbr. rewrite Hf. cbv zeta.
    generalize (pack_color f). intros c.
    destruct (JS.not_nullish (JS.index f 3) && JS.ltb (JS.ToNumber (JS.index f 3)) (JS.of_Z 1));
      (destruct (baseColorTexture p) as [[[k | ]] | ]; cbn [ti_index];
       [ destruct (ctx_textures ctx) as [texs | ];
         [ destruct (JS.index texs k) as [[t | ] | ] | ] | | ]);
      destruct (metallicFactor p), (roughnessFactor p); mat_simpl; congruence. }
  generalize dependent (apply_pbr ctx p default_matOptions). intros m P.
  destruct (emissiveFactor mdef) as [e | ]; [ generalize (pack_color e); intros ce | ];
    destruct (doubleSided mdef) as [[ | ] | ];
    destruct (is_BLEND (alphaMode mdef));
    mat_simpl;
    match goal with
    | |- context [negb ?b] => destruct b
    | _ => idtac
    end; mat_simpl; exact P.
Qed.

Lemma resolve_material_of (ctx : Context) (prim : PrimitiveDef) (uvc : bool) (k : Z)
    (mdef : MaterialDef) :
  prim_material prim = Some k ->
  JS.index (JS.or_empty (materials (ctx_json ctx))) k = Some mdef ->
  let m0 := apply_material ctx mdef default_matOptions in
  let m := resolve_material ctx prim uvc in
  THREE.color m = THREE.color m0 /\ THREE.transparent m = THREE.transparent m0 /\
  THREE.opacity m = THREE.opacity m0 /\ THREE.emissive m = THREE.emissive m0 /\
  (THREE.map m = None <-> THREE.map m0 = None).
Proof.
  intros Hk Hm. unfold resolve_material. rewrite Hk. cbv zeta. rewrite Hm.
  generalize (apply_material ctx mdef default_matOptions). intros m.
  destruct uvc; cbn [set_vertexColors THREE.map];
    destruct (THREE.map m) as [t | ] eqn:E; mat_simpl; rewrite ?E;
    (repeat split; try reflexivity; intros; congruence).
Qed.

(* ================================================================== *)
(** * Primitives *)
(* ================================================================== *)

(** A primitive whose mode is rejected is skipped with a warning. *)
Lemma build_primitive_rejected (ctx : Context) (meshDef : MeshDef)
    (accessors : list AccessorData) (prim : PrimitiveDef) (idx : Z) (group : THREE.MeshGroup) :
  mode_rejected (prim_mode prim) = true ->
  build_primitive ctx meshDef accessors prim idx group
  = (["Primitive mode not TRIANGLES, skipped"%string], JS.Ok group).
Proof. intros H. unfold build_primitive. rewrite H. reflexivity. Qed.

(** A primitive without a POSITION attribute is skipped with a warning. *)
Lemma build_primitive_no_position (ctx : Context) (meshDef : MeshDef)
    (accessors : list AccessorData) (prim : PrimitiveDef) (idx : Z) (group : THREE.MeshGroup) :
  mode_rejected (prim_mode prim) = false ->
  (forall a, prim_attributes prim = Some a -> POSITION a = None) ->
  build_primitive ctx meshDef accessors prim idx group
  = (["Primitive missing POSITION"%string], JS.Ok group).
Proof.
  intros H Hp. unfold build_primitive. rewrite H.
  destruct (prim_attributes prim) as [a | ]; [ | reflexivity ].
  now rewrite (Hp a eq_refl).
Qed.

(** The mode values that are rejected: present, not 0 and not 4. *)
Lemma mode_rejected_iff (mode : option Z) :
  mode_rejected mode = true <-> exists m, mode = Some m /\ m <> 0 /\ m <> 4.
Proof.
  unfold mode_rejected. destruct mode as [m | ].
  - rewrite andb_true_iff, !negb_true_iff, !Z.eqb_neq. split.
    + intros [H0 H4]. now exists m.
    + intros (m' & [= <-] & H0 & H4). now split.
  - split; [ discriminate | intros (m & H & _); discriminate ].
Qed.

Lemma bind_console_ret {A} (w : list string) (a : A) :
  JS.bind (w, JS.Ok tt) (fun _ => JS.ret a) = (w, JS.Ok a).
Proof. unfold JS.bind, JS.ret. now rewrite app_nil_r. Qed.

(** What a primitive that gets past both checks adds to the group, and
    what it writes. *)
Lemma build_primitive_built (ctx : Context) (meshDef : MeshDef)
    (accessors : list AccessorData) (prim : PrimitiveDef) (idx : Z) (group : THREE.MeshGroup)
    (a : AttributesDef) (pos : Z) (w : list string) (group' : THREE.MeshGroup) :
  mode_rejected (prim_mode prim) = false ->
  prim_attributes prim = Some a -> POSITION a = Some pos ->
  build_primitive ctx meshDef accessors prim idx group = (w, JS.Ok group') ->
  (exists posAcc, JS.index accessors pos = Some posAcc /\
                  w = sphere_errors (attribute_of posAcc)) /\
  exists mesh,
    group' = add_mesh group mesh /\
    THREE.m_material mesh
    = resolve_material ctx prim (match COLOR_0 a with Some _ => true | None => false end) /\
    THREE.g_color (THREE.m_geometry mesh)
    = match COLOR_0 a with
      | Some k => option_map (fun cAcc => {| THREE.array := color_array cAcc;
                                              THREE.itemSize := a_itemSize cAcc;
                                              THREE.normalized := false |})
                             (JS.index accessors k)
      | None => None
      end /\
    THREE.m_name mesh
    = (JS.or_string (mesh_name meshDef) "mesh" ++ "_" ++ string_of_index idx)%string /\
    THREE.g_position (THREE.m_geometry mesh)
    = option_map attribute_of (JS.index accessors pos).
Proof.
  intros Hm Ha Hp. unfold build_primitive. rewrite Hm, Ha, Hp.
  destruct (JS.index accessors pos) as [posAcc | ]; [ | discriminate ].
  cbn [deref]. rewrite bind_ret_l.
  destruct (NORMAL a) as [kn | ];
    [ destruct (JS.index accessors kn) as [nAcc | ]; [ | discriminate ] | ];
    cbn [deref]; rewrite !bind_ret_l;
    (destruct (COLOR_0 a) as [kc | ];
     [ destruct (JS.index accessors kc) as [cAcc | ]; [ | discriminate ] | ]);
    cbn [deref]; rewrite !bind_ret_l;
    (destruct (prim_indices prim) as [ki | ];
     [ destruct (JS.index accessors ki) as [iAcc | ]; [ | discriminate ] | ]);
    cbn [deref]; rewrite !bind_ret_l; cbv zeta;
    rewrite computeBoundingSphere_console; cbn [THREE.g_position];
    rewrite bind_console_ret; intros [= <- <-];
    (split; [ eexists; split; reflexivity | ]);
    eexists; repeat split; reflexivity.
Qed.

(** A primitive that gets past both checks and whose accessors exist is
    built: a mesh is added, and the console holds what three.js reports
    for the bounding sphere of the positions. *)
Lemma build_primitive_total (ctx : Context) (meshDef : MeshDef)
    (accessors : list AccessorData) (prim : PrimitiveDef) (idx : Z) (group : THREE.MeshGroup)
    (a : AttributesDef) (pos : Z) :
  mode_rejected (prim_mode prim) = false ->
  prim_attributes prim = Some a -> POSITION a = Some pos ->
  (forall k, In (Some k) [POSITION a; NORMAL a; COLOR_0 a; prim_indices prim] ->
             JS.index accessors k <> None) ->
  exists posAcc mesh,
    JS.index accessors pos = Some posAcc /\
    build_primitive ctx meshDef accessors prim idx group
    = (sphere_errors (attribute_of posAcc), JS.Ok (add_mesh group mesh)).
Proof.
  intros Hm Ha Hp Hacc. unfold build_primitive. rewrite Hm, Ha, Hp.
  assert (R : forall k, In (Some k) [POSITION a; NORMAL a; COLOR_0 a; prim_indices prim] ->
                        exists x, JS.index accessors k = Some x).
  { intros k Hk. specialize (Hacc k Hk). destruct (JS.index accessors k); [ eauto | congruence ]. }
  destruct (R pos) as [posAcc ->]; [ rewrite Hp; cbn; auto | ].
  exists posAcc.
  cbn [deref]. rewrite bind_ret_l.
  destruct (NORMAL a) as [kn | ];
    [ destruct (R kn) as [nAcc ->]; [ cbn; auto | ] | ];
    cbn [deref]; rewrite !bind_ret_l;
    (destruct (COLOR_0 a) as [kc | ];
     [ destruct (R kc) as [cAcc ->]; [ cbn; auto | ] | ]);
    cbn [deref]; rewrite !bind_ret_l;
    (destruct (prim_indices prim) as [ki | ];
     [ destruct (R ki) as [iAcc ->]; [ cbn; auto | ] | ]);
    cbn [deref]; rewrite !bind_ret_l; cbv zeta;
    rewrite computeBoundingSphere_console; cbn [THREE.g_position];
    rewrite bind_console_ret;
    eexists; split; reflexivity.
Qed.

Lemma color_array_unchanged (cAcc : AccessorData) :
  a_normalized cAcc = true \/
  (a_componentType cAcc <> 5121 /\ a_componentType cAcc <> 5123) ->
  color_array cAcc = a_array cAcc.
Proof.
  unfold color_array. intros [H | [H1 H2]].
  - now rewrite H.
  - apply Z.eqb_neq in H1, H2. rewrite H1, H2. now destruct (a_normalized cAcc).
Qed.

Lemma typeSizeMap_pos (type : option string) (numComp : Z) :
  typeSizeMap type = Some numComp -> 1 <= numComp <= 16.
Proof.
  unfold typeSizeMap. destruct type as [t | ]; [ | discriminate ].
  destruct (find _ typeSizeMap_entries) as [e | ] eqn:E; [ | discriminate ].
  cbn [option_map]. intros [= <-]. apply find_some in E. destruct E as [E _].
  cbn in E. intuition (subst; cbn; lia).
Qed.

(* ================================================================== *)
(** * The claims *)
(* ================================================================== *)

(** ** C1: references out of range *)

(** C1, as stated, fails.  The document [doc_dangling] has a child index
    (7) and a scene node index (9) out of range of its one-node array,
    and [_buildScene] returns a scene without throwing: the scene holds
    node 0, which has no child. *)
Lemma C1_counterexample :
  dangling doc_dangling /\
  exists g, _buildScene (ctx_of doc_dangling None) = ([], JS.Ok g) /\
            THREE.o_children (THREE.root g) = [THREE.ChildNode 0] /\
            List.map THREE.o_children (THREE.objects g) = [[]].
Proof.
  split.
  - left. exists (node_with_children [7]), [7], 7. cbn. auto.
  - eexists. split; [ vm_compute; reflexivity | split; reflexivity ].
Qed.

(** C1, as amended.  A child index or a scene node index that is out of
    range of the node array is skipped silently: for every input,
    [_buildScene] returns (result and console alike) what it returns for
    the document from which every such reference has been removed, a
    document that has no dangling reference. *)
Theorem C1_dangling_references_are_skipped (ctx : Context) :
  ~ dangling (prune (ctx_json ctx)) /\
  _buildScene ctx = _buildScene (with_json ctx (prune (ctx_json ctx))).
Proof.
  split; [ apply prune_not_dangling | symmetry; apply buildScene_prune ].
Qed.

(** ** C2: declared and actual length *)

(** C2, as stated, fails twice.  In [glb_one_buffer ++ trailing_bin] the
    header states 36 bytes and the buffer holds 48: the BIN chunk behind
    byte 36 is never read, so the buffer the document declares cannot be
    bound and [parse] throws, whereas reading the chunks up to the actual
    length binds it.  In [glb_short] the header states 30 bytes and the
    buffer holds 22: [parse] warns and then aborts with a RangeError. *)
Lemma C2_counterexample :
  (JS.getUint32 (glb_one_buffer ++ trailing_bin) 8 = JS.ret 36 /\
   JS.byteLength (glb_one_buffer ++ trailing_bin) = 48 /\
   parse JSON_parse_sample (glb_one_buffer ++ trailing_bin) None
   = (["GLB length mismatch"%string],
      JS.Throw (JS.Error "Only single BIN buffer supported in this minimal loader")) /\
   JS.throws (parse_actual_length JSON_parse_sample (glb_one_buffer ++ trailing_bin) None)
   = false) /\
  (JS.getUint32 glb_short 8 = JS.ret 30 /\
   JS.byteLength glb_short = 22 /\
   parse JSON_parse_sample glb_short None
   = (["GLB length mismatch"%string], JS.Throw JS.RangeError)).
Proof. vm_compute. repeat split; reflexivity. Qed.

(** C2, as amended.  When the header's total length differs from the
    buffer's length, the check itself only warns, and the chunks are then
    read with the declared length as the bound of the loop, not the actual
    one: a chunk is read, in full, exactly when it starts before the
    declared length.  For a buffer made of a header and of well-formed
    chunks (the length each chunk states is the length of its data):
    - bytes that follow a container whose declared length is the end of
      its last chunk are ignored, the result is that of the container
      alone, after the warning;
    - more generally, a declared length that falls within the last chunk
      read, or on its end, gives the result of the exact container of
      these chunks, whatever bytes follow;
    - a declared length beyond the end of the buffer, which ends with its
      last chunk, makes the loop handle the chunks and then, unless
      [JSON.parse] threw on one of them, throw a RangeError on the read
      of the next chunk header. *)
Theorem C2_length_mismatch_uses_declared_length
    (JSON_parse : JS.ArrayBuffer -> parsed) (url : option string) :
  (forall (L : Z) (rest : list byte),
     0 <= L < 2 ^ 32 -> L <> JS.byteLength (header L ++ rest) ->
     parse JSON_parse (header L ++ rest) url
     = JS.console_warn "GLB length mismatch" ;;;
       parse_chunks JSON_parse (header L ++ rest) url L) /\
  (forall (cs : list chunk) (extra : list byte),
     fits cs -> extra <> [] ->
     parse JSON_parse (glb cs ++ extra) url
     = JS.console_warn "GLB length mismatch" ;;; parse JSON_parse (glb cs) url) /\
  (forall (cs : list chunk) (L : Z),
     Forall chunk_fits cs -> JS.byteLength (glb cs) < L < 2 ^ 32 ->
     parse JSON_parse (header L ++ encode_chunks cs) url
     = JS.console_warn "GLB length mismatch" ;;;
       (jb <- on_chunks JSON_parse cs (None, None) ;; JS.throw JS.RangeError)) /\
  (forall (cs : list chunk) (c : chunk) (extra : list byte) (L : Z),
     fits (cs ++ [c]) ->
     JS.byteLength (glb cs) < L <= JS.byteLength (glb (cs ++ [c])) ->
     L <> JS.byteLength (header L ++ encode_chunks (cs ++ [c]) ++ extra) ->
     parse JSON_parse (header L ++ encode_chunks (cs ++ [c]) ++ extra) url
     = JS.console_warn "GLB length mismatch" ;;; parse JSON_parse (glb (cs ++ [c])) url).
Proof.
  split; [ | split; [ | split ] ].
  - intros L rest HL Hne. rewrite parse_header by assumption.
    rewrite byteLength_app, header_byteLength in Hne.
    now replace (L =? 12 + JS.byteLength rest) with false by (symmetry; apply Z.eqb_neq; lia).
  - intros cs extra Hfit Hextra.
    rewrite parse_glb_trailing, parse_glb by assumption. reflexivity.
  - intros cs L Hfit HL. rewrite glb_byteLength in HL.
    now apply parse_glb_short.
  - intros cs c extra L Hfit HL Hne. rewrite !glb_byteLength in HL.
    rewrite byteLength_app, header_byteLength in Hne.
    rewrite parse_glb by assumption. destruct Hfit as [Hfit H32].
    rewrite parse_glb_within_last by (assumption || lia).
    now replace (L =? 12 + JS.byteLength (encode_chunks (cs ++ [c]) ++ extra))
      with false by (symmetry; apply Z.eqb_neq; lia).
Qed.

Lemma C2_witness :
  parse JSON_parse_sample (glb_one_buffer ++ trailing_bin) None
  = JS.console_warn "GLB length mismatch" ;;; parse JSON_parse_sample glb_one_buffer None /\
  parse JSON_parse_sample
    (header 14 ++ encode_chunks ([] ++ [(CHUNK_JSON, bytes text_empty_object)]) ++ []) None
  = JS.console_warn "GLB length mismatch" ;;;
    parse JSON_parse_sample (glb ([] ++ [(CHUNK_JSON, bytes text_empty_object)])) None.
Proof.
  split.
  - apply (proj1 (proj2 (C2_length_mismatch_uses_declared_length JSON_parse_sample None))
             [(CHUNK_JSON, bytes text_one_buffer)] trailing_bin).
    + fits_tac.
    + discriminate.
  - apply (proj2 (proj2 (proj2 (C2_length_mismatch_uses_declared_length JSON_parse_sample None)))
             [] (CHUNK_JSON, bytes text_empty_object) [] 14).
    + fits_tac.
    + decide_Z.
    + decide_Z.
Defined.
(** ** C3: a chunk longer than the container *)

(** C3, as stated, fails.  [glb_oversized] states a total length of 22,
    which is its length, and its only chunk states 100 bytes, which would
    end at byte 120: [parse] does not throw. *)
Lemma C3_counterexample :
  JS.getUint32 glb_oversized 8 = JS.ret 22 /\
  JS.byteLength glb_oversized = 22 /\
  JS.getUint32 glb_oversized 12 = JS.ret 100 /\
  JS.throws (parse JSON_parse_sample glb_oversized None) = false.
Proof. vm_compute. repeat split; reflexivity. Qed.

(** C3, as amended.  A last chunk whose header states more bytes than
    the container holds is accepted with the bytes that are there: the
    container parses exactly as the one in which that chunk states its
    true length. *)
Theorem C3_oversized_chunk_is_truncated
    (JSON_parse : JS.ArrayBuffer -> parsed) (cs : list chunk) (c : chunk) (n : Z)
    (url : option string) :
  fits (cs ++ [c]) ->
  JS.byteLength (snd c) < n < 2 ^ 32 ->
  parse JSON_parse
    (header (JS.byteLength (glb (cs ++ [c]))) ++ encode_chunks cs ++ encode_chunk_with n c) url
  = parse JSON_parse (glb (cs ++ [c])) url.
Proof.
  intros Hfit Hn. rewrite parse_glb by assumption.
  destruct Hfit as [Hfit HL].
  apply Forall_app in Hfit. destruct Hfit as [Hcs Hc].
  inversion Hc as [ | c' l' [Ht Hd] _]; subst c' l'.
  rewrite glb_byteLength in *. rewrite encode_chunks_app, byteLength_app in *.
  change (encode_chunks [c]) with (encode_chunk c ++ []) in *.
  rewrite app_nil_r, encode_chunk_byteLength in *.
  pose proof (byteLength_nonneg (encode_chunks cs)) as He.
  pose proof (byteLength_nonneg (snd c)) as Hd0.
  rewrite parse_oversized by (assumption || lia).
  replace (12 + (JS.byteLength (encode_chunks cs) + (8 + JS.byteLength (snd c)))
           =? 12 + JS.byteLength (encode_chunks cs) + 8 + JS.byteLength (snd c))
    with true by (symmetry; apply Z.eqb_eq; lia).
  cbn [negb]. now rewrite bind_ret_l.
Qed.

Lemma C3_witness :
  parse JSON_parse_sample glb_oversized None
  = parse JSON_parse_sample (glb [(CHUNK_JSON, bytes text_empty_object)]) None.
Proof.
  apply (C3_oversized_chunk_is_truncated JSON_parse_sample []
           (CHUNK_JSON, bytes text_empty_object) 100 None); fits_tac.
Defined.

(** ** C4: a view that exceeds its buffer *)

(** C4, as stated, fails.  The view [2, 10) of a 4-byte buffer resolves,
    without an exception, to the two bytes the buffer holds from
    offset 2. *)
Lemma C4_counterexample :
  build_view [bytes "abcd"] view_beyond_buffer = ([], JS.Ok (bytes "cd")).
Proof. reflexivity. Qed.

(** C4, as amended.  A view bound to a buffer always resolves: it is the
    part of [byteOffset, byteOffset + byteLength) that lies inside the
    buffer, so a range that exceeds the buffer yields a shorter slice and
    no exception. *)
Theorem C4_view_is_the_clamped_range
    (buffers : list JS.ArrayBuffer) (v : BufferViewDef) (k : Z) (buffer : JS.ArrayBuffer) :
  bv_buffer v = Some k -> JS.index buffers k = Some buffer ->
  let off := JS.or_zero (bv_byteOffset v) in
  let len := JS.or_zero (bv_byteLength v) in
  0 <= off -> 0 <= len ->
  exists view pre post,
    build_view buffers v = JS.ret view /\
    buffer = pre ++ view ++ post /\
    JS.byteLength pre = Z.min off (JS.byteLength buffer) /\
    JS.byteLength view
    = Z.min (off + len) (JS.byteLength buffer) - Z.min off (JS.byteLength buffer).
Proof.
  intros Hk Hb off len Ho Hl.
  destruct (slice_clamped buffer off len Ho Hl) as (pre & post & E & Hpre & Hlen).
  exists (JS.slice buffer off (off + len)), pre, post.
  split; [ | now split ].
  unfold build_view. rewrite Hk, Hb. cbn [deref]. now rewrite bind_ret_l.
Qed.

Lemma C4_witness :
  exists view pre post,
    build_view [bytes "abcd"] view_beyond_buffer = JS.ret view /\
    bytes "abcd" = pre ++ view ++ post /\
    JS.byteLength pre = Z.min 2 4 /\
    JS.byteLength view = Z.min (2 + 8) 4 - Z.min 2 4.
Proof.
  apply (C4_view_is_the_clamped_range [bytes "abcd"] view_beyond_buffer 0 (bytes "abcd"));
    cbn; (reflexivity || lia).
Defined.

(** ** C5: an accessor and the length of its view *)

(** C5, as stated, fails in its second half.  One float32 scalar at byte
    offset 2 of an 8-byte view spans 2 + 1 * 1 * 4 = 6 bytes, which is
    within the view, and resolution throws a RangeError: the offset is
    not a multiple of the component width. *)
Lemma C5_counterexample :
  JS.or_zero (acc_byteOffset accessor_misaligned) + 1 * 1 * JS.BYTES_PER_ELEMENT JS.Float32Array
  <= JS.byteLength (bytes "abcdefgh") /\
  build_accessor [bytes "abcdefgh"] accessor_misaligned = ([], JS.Throw JS.RangeError).
Proof. split; [ cbn; lia | reflexivity ]. Qed.

(** C5, as amended.  An accessor whose span
    [byteOffset + count * componentCount * componentWidth] exceeds the
    length of its view fails with a RangeError; when the span is within
    the view and, in addition, the byte offset is a non-negative multiple
    of the component width (and the count is not negative), it yields a
    typed array of [count * componentCount] values over the view. *)
Theorem C5_accessor_span
    (views : list JS.ArrayBuffer) (acc : AccessorDef) (k : Z) (view : JS.ArrayBuffer)
    (Ctor : JS.Ctor) (numComp count : Z) :
  acc_bufferView acc = Some k -> JS.index views k = Some view ->
  compTypeMap (acc_componentType acc) = Some Ctor ->
  typeSizeMap (acc_type acc) = Some numComp ->
  acc_count acc = Some count ->
  let offset := JS.or_zero (acc_byteOffset acc) in
  let span := offset + count * numComp * JS.BYTES_PER_ELEMENT Ctor in
  (JS.byteLength view < span -> build_accessor views acc = JS.throw JS.RangeError) /\
  (span <= JS.byteLength view -> JS.byteLength view <= JS.MAX_SAFE_INTEGER ->
   0 <= offset -> offset mod JS.BYTES_PER_ELEMENT Ctor = 0 -> 0 <= count ->
   exists a, build_accessor views acc = JS.ret a /\
             a_array a = JS.View Ctor view offset (count * numComp) /\
             JS.ta_length (a_array a) = count * numComp /\
             a_itemSize a = numComp).
Proof.
  intros Hk Hv HC HN Hc offset span.
  pose proof (typeSizeMap_pos _ _ HN) as Hpos.
  unfold build_accessor. rewrite Hk, Hv, HC, HN, Hc. cbn [option_map]. cbv zeta.
  fold offset. split.
  - intros H. rewrite new_TypedArray_out_of_range; [ reflexivity | ]. unfold span in H. lia.
  - intros Hs Hmax Ho Hal Hcount.
    rewrite new_TypedArray_in_range;
      [ | assumption | assumption | nia | assumption | unfold span in Hs; lia ].
    rewrite bind_ret_l. eexists. split; [ reflexivity | ]. cbn. auto.
Qed.

Lemma C5_witness :
  build_accessor [bytes "abcdefgh"] accessor_too_long = JS.throw JS.RangeError /\
  exists a, build_accessor [bytes "abcdefgh"] accessor_aligned = JS.ret a /\
            a_array a = JS.View JS.Float32Array (bytes "abcdefgh") 4 (1 * 1) /\
            JS.ta_length (a_array a) = 1 * 1 /\
            a_itemSize a = 1.
Proof.
  split.
  - apply (proj1 (C5_accessor_span [bytes "abcdefgh"] accessor_too_long 0 (bytes "abcdefgh")
                    JS.Float32Array 1 3 eq_refl eq_refl eq_refl eq_refl eq_refl)).
    cbn. lia.
  - apply (proj2 (C5_accessor_span [bytes "abcdefgh"] accessor_aligned 0 (bytes "abcdefgh")
                    JS.Float32Array 1 1 eq_refl eq_refl eq_refl eq_refl eq_refl));
      cbn; (reflexivity || lia).
Defined.

(** ** C6: primitives that are skipped *)

(** C6: the code departs from the claim for mode 0 (POINTS).  The mode
    is present and is not 4, yet the primitive is not skipped: a mesh is
    added to the group and nothing is written to the console. *)
Lemma C6_mode_zero_is_built :
  prim_mode (primitive_with (Some 0) None None) = Some 0 /\
  exists mesh,
    _buildMesh (ctx_of empty_document None) (mesh_of [primitive_with (Some 0) None None])
      [position_accessor]
    = ([], JS.Ok (add_mesh empty_group mesh)).
Proof. split; [ reflexivity | eexists; vm_compute; reflexivity ]. Qed.

(** ** C7: the alpha of the base colour factor *)

(** C7, as stated, fails.  A material with [baseColorFactor = [1,0,0,0.5]]
    that also has a base colour texture which resolves gets the colour
    white, not red. *)
Lemma C7_counterexample :
  option_map baseColorFactor (pbrMetallicRoughness (material_with red_half (Some 0) None None))
  = Some (Some red_half) /\
  THREE.color (resolve_material (ctx_textured (material_with red_half (Some 0) None None))
                 (primitive_with None None (Some 0)) false)
  = 0xffffff.
Proof. split; reflexivity. Qed.

(** C7, as amended.  For every primitive that references a material with
    [baseColorFactor = [1,0,0,0.5]], whatever the material's other
    properties ([alphaMode = "BLEND"] included): transparency is enabled,
    the opacity is 0.5, and the base colour is fully red unless a base
    colour texture was resolved, in which case it is white. *)
Theorem C7_alpha_factor_survives_blend
    (ctx : Context) (prim : PrimitiveDef) (usesVertexColor : bool) (k : Z)
    (mdef : MaterialDef) (p : PbrDef) :
  prim_material prim = Some k ->
  JS.index (JS.or_empty (materials (ctx_json ctx))) k = Some mdef ->
  pbrMetallicRoughness mdef = Some p ->
  baseColorFactor p = Some red_half ->
  let m := resolve_material ctx prim usesVertexColor in
  THREE.transparent m = Some true /\
  THREE.opacity m = Some (JS.VNum one_half) /\
  THREE.color m = match THREE.map m with Some _ => 0xffffff | None => 0xff0000 end.
Proof.
  intros Hk Hm Hp Hf m.
  destruct (resolve_material_of ctx prim usesVertexColor k mdef Hk Hm) as (C & T & O & _ & M).
  destruct (apply_material_red_half ctx mdef p Hp Hf) as (T0 & O0 & C0).
  fold m in C, T, O, M. cbv zeta in *.
  rewrite T, O, C, C0. repeat split; try assumption.
  destruct (THREE.map m) as [t | ], (THREE.map (apply_material ctx mdef default_matOptions))
    as [t0 | ]; try reflexivity.
  - destruct M as [_ M]. specialize (M eq_refl). discriminate.
  - destruct M as [M _]. specialize (M eq_refl). discriminate.
Qed.

Lemma C7_witness :
  THREE.transparent
    (resolve_material (ctx_of (doc_with_material (material_with red_half None None (Some "BLEND"%string))) None)
       (primitive_with None None (Some 0)) false) = Some true /\
  THREE.opacity
    (resolve_material (ctx_of (doc_with_material (material_with red_half None None (Some "BLEND"%string))) None)
       (primitive_with None None (Some 0)) false) = Some (JS.VNum one_half) /\
  THREE.color
    (resolve_material (ctx_of (doc_with_material (material_with red_half None None (Some "BLEND"%string))) None)
       (primitive_with None None (Some 0)) false) = 0xff0000.
Proof.
  exact (C7_alpha_factor_survives_blend
           (ctx_of (doc_with_material (material_with red_half None None (Some "BLEND"%string))) None)
           (primitive_with None None (Some 0)) false 0
           (material_with red_half None None (Some "BLEND"%string))
           _ eq_refl eq_refl eq_refl eq_refl).
Defined.

(** ** C8: vertex colours *)

(** C8.  When a primitive with a COLOR_0 attribute is built, the colour
    attribute is attached with [normalized = false] and
    - for an accessor that is not normalized and of component type 5121
      (uint8), its array holds every byte of the accessor divided by 255
      (rounded to binary32), each in the unit range;
    - for an accessor that is not normalized and of component type 5123
      (uint16), its array holds every 16-bit word divided by 65535
      (rounded to binary32), each in the unit range;
    - for an accessor that is normalized, or of component type 5126
      (float32), its array is the accessor's array itself.
    The bytes 255, 128, 0, 255 decode to 1, 8421505 / 2^24, 0, 1, the
    second being the binary32 number nearest to 128 / 255. *)
Theorem C8_vertex_colours_are_rescaled :
  (forall (ctx : Context) (meshDef : MeshDef) (accessors : list AccessorData)
          (prim : PrimitiveDef) (idx : Z) (group group' : THREE.MeshGroup)
          (a : AttributesDef) (pos k : Z) (cAcc : AccessorData) (w : list string),
      mode_rejected (prim_mode prim) = false ->
      prim_attributes prim = Some a -> POSITION a = Some pos ->
      COLOR_0 a = Some k -> JS.index accessors k = Some cAcc ->
      build_primitive ctx meshDef accessors prim idx group = (w, JS.Ok group') ->
      exists mesh colorArray,
        group' = add_mesh group mesh /\
        THREE.g_color (THREE.m_geometry mesh)
        = Some {| THREE.array := colorArray; THREE.itemSize := a_itemSize cAcc;
                  THREE.normalized := false |} /\
        (a_normalized cAcc = false -> a_componentType cAcc = 5121 ->
         forall buffer off n,
           a_array cAcc = JS.View JS.Uint8Array buffer off n ->
           0 <= off -> 0 <= n -> off + n <= JS.byteLength buffer ->
           exists elements,
             colorArray = JS.Floats elements /\
             elements = List.map (fun b => JS.fround (JS.div (JS.of_Z (JS.u8 b)) (JS.of_Z 255)))
                                 (window buffer off n) /\
             Forall (fun x => in_unit_range x = true) elements) /\
        (a_normalized cAcc = false -> a_componentType cAcc = 5123 ->
         forall buffer off n,
           a_array cAcc = JS.View JS.Uint16Array buffer off n ->
           0 <= off -> 0 <= n -> off + 2 * n <= JS.byteLength buffer ->
           exists elements,
             colorArray = JS.Floats elements /\
             elements = List.map (fun x => JS.fround (JS.div (JS.of_Z x) (JS.of_Z 65535)))
                                 (u16_words (window buffer off (2 * n))) /\
             Forall (fun x => in_unit_range x = true) elements) /\
        (a_normalized cAcc = true \/ a_componentType cAcc = 5126 ->
         colorArray = a_array cAcc)) /\
  color_array color_accessor
  = JS.Floats [one; JS.div (JS.of_Z 8421505) (JS.of_Z (2 ^ 24)); zero; one] /\
  2 * Z.abs (8421505 * 255 - 128 * 2 ^ 24) <= 255.
Proof.
  split; [ | split; [ vm_compute; reflexivity | decide_Z ] ].
  intros ctx meshDef accessors prim idx group group' a pos k cAcc w Hm Ha Hp Hc Hk Hb.
  destruct (build_primitive_built _ _ _ _ _ _ _ _ _ _ Hm Ha Hp Hb) as (_ & mesh & -> & _ & G & _).
  rewrite Hc, Hk in G. cbn [option_map] in G.
  exists mesh, (color_array cAcc). split; [ reflexivity | ]. split; [ exact G | ].
  split; [ | split ].
  - intros Hn Ht buffer off n Hv Ho Hn0 Hs.
    eexists. split; [ | split; [ reflexivity | ] ].
    + unfold color_array. rewrite Hn, Ht, Hv. cbn [negb Z.eqb Pos.eqb].
      now apply rescale_uint8.
    + apply Forall_forall. intros x Hx. apply in_map_iff in Hx.
      destruct Hx as (b & <- & _). apply byte_in_unit_range.
  - intros Hn Ht buffer off n Hv Ho Hn0 Hs.
    eexists. split; [ | split; [ reflexivity | ] ].
    + unfold color_array. rewrite Hn, Ht, Hv. cbn [negb Z.eqb Pos.eqb].
      now apply rescale_uint16.
    + apply Forall_forall. intros x Hx. apply in_map_iff in Hx.
      destruct Hx as (y & <- & Hy). apply word_in_unit_range.
      pose proof (u16_words_range (window buffer off (2 * n))) as R.
      rewrite Forall_forall in R. now apply R.
  - intros [Hn | Ht]; apply color_array_unchanged; [ now left | right ].
    rewrite Ht. split; discriminate.
Qed.

Lemma C8_witness :
  exists mesh colorArray,
    add_mesh empty_group
      {| THREE.m_name := "mesh_0";
         THREE.m_geometry :=
           {| THREE.g_position := Some (attribute_of position_accessor);
              THREE.g_normal := None;
              THREE.g_color := Some {| THREE.array := color_array color_accessor;
                                       THREE.itemSize := 4; THREE.normalized := false |};
              THREE.g_index := None |};
         THREE.m_material :=
           resolve_material (ctx_of empty_document None) (primitive_with None (Some 1) None) true |}
    = add_mesh empty_group mesh /\
    THREE.g_color (THREE.m_geometry mesh)
    = Some {| THREE.array := colorArray; THREE.itemSize := 4; THREE.normalized := false |}.
Proof.
  assert (B : build_primitive (ctx_of empty_document None) (mesh_of [])
                [position_accessor; color_accessor] (primitive_with None (Some 1) None) 0
                empty_group
              = ([], JS.Ok
                   (add_mesh empty_group
                      {| THREE.m_name := "mesh_0";
                         THREE.m_geometry :=
                           {| THREE.g_position := Some (attribute_of position_accessor);
                              THREE.g_normal := None;
                              THREE.g_color :=
                                Some {| THREE.array := color_array color_accessor;
                                        THREE.itemSize := 4; THREE.normalized := false |};
                              THREE.g_index := None |};
                         THREE.m_material :=
                           resolve_material (ctx_of empty_document None)
                             (primitive_with None (Some 1) None) true |})))
    by (vm_compute; reflexivity).
  destruct (proj1 C8_vertex_colours_are_rescaled
              (ctx_of empty_document None) (mesh_of []) [position_accessor; color_accessor]
              (primitive_with None (Some 1) None) 0 empty_group _
              _ 0 1 color_accessor [] eq_refl eq_refl eq_refl eq_refl eq_refl B)
    as (mesh & colorArray & E & G & _).
  exists mesh, colorArray. split; [ exact E | exact G ].
Defined.

(** ** C9: several chunks of one type *)

(** C9, as stated, fails.  Of the two JSON chunks of [glb_two_json] the
    first holds the text [x]: it is decoded when the loop meets it, and
    [parse] throws a SyntaxError although the last JSON chunk is
    well-formed. *)
Lemma C9_counterexample :
  parse JSON_parse_sample glb_two_json None = ([], JS.Throw JS.SyntaxError).
Proof. vm_compute. reflexivity. Qed.

(** C9, as amended.  In a well-formed container in which every JSON
    chunk holds text that [JSON.parse] accepts, the last chunk of each
    type wins: the scene is built from the document of the last JSON
    chunk and the payload of the last BIN chunk, and the earlier chunks
    of these types leave no trace, neither an exception nor a line on the
    console. *)
Theorem C9_last_chunk_of_a_type_wins
    (JSON_parse : JS.ArrayBuffer -> parsed) (cs : list chunk) (url : option string) :
  fits cs -> json_chunks_parse JSON_parse cs ->
  parse JSON_parse (glb cs) url
  = finish url (match last_of_type CHUNK_JSON cs with
                | Some text => doc_of (JSON_parse text)
                | None => None
                end,
                last_of_type CHUNK_BIN cs).
Proof.
  intros Hfit Hp. rewrite parse_glb by assumption.
  rewrite on_chunks_last by assumption. rewrite bind_ret_l. cbn [fst snd].
  now destruct (last_of_type CHUNK_BIN cs).
Qed.

Lemma C9_witness :
  parse JSON_parse_sample
    (glb [(CHUNK_JSON, bytes text_null); (CHUNK_BIN, bytes "ab");
          (CHUNK_JSON, bytes text_one_buffer); (CHUNK_BIN, bytes "abcd")]) None
  = finish None (Some one_buffer_document, Some (bytes "abcd")).
Proof.
  apply (C9_last_chunk_of_a_type_wins JSON_parse_sample
           [(CHUNK_JSON, bytes text_null); (CHUNK_BIN, bytes "ab");
            (CHUNK_JSON, bytes text_one_buffer); (CHUNK_BIN, bytes "abcd")] None).
  - fits_tac.
  - repeat first [ apply Forall_cons | apply Forall_nil ]; intros H;
      first [ vm_compute in H; discriminate H | vm_compute; discriminate ].
Defined.

(** ** C10: packing a colour *)

(** C10, as stated, fails for a non-numeric channel that JavaScript
    converts to a number: the channel [true] is 1 as a number and
    contributes 255, so [emissiveFactor = [true, 0, 0]] packs to
    0xff0000. *)
Lemma C10_counterexample :
  JS.trunc (channel255 [JS.VBool true; JS.VNum zero; JS.VNum zero] 0) = 255 /\
  THREE.emissive
    (resolve_material
       (ctx_of (doc_with_material
                  (material_with red_half None
                     (Some [JS.VBool true; JS.VNum zero; JS.VNum zero]) None)) None)
       (primitive_with None None (Some 0)) false)
  = Some 0xff0000.
Proof. split; vm_compute; reflexivity. Qed.

(** C10, as amended.  The emissive colour of a material is the packing
    of its [emissiveFactor], and its base colour the packing of its
    [baseColorFactor] unless a texture replaces it.  Each channel value is
    [(f[i] || 0) * 255] truncated toward zero, and when the three values
    are bytes the packing is [r * 65536 + g * 256 + b]: a channel factor
    of 0.5 gives 127; a channel that is missing, [null], [false], zero or
    NaN gives 0; the channel [true] is converted to 1 and gives 255; a
    numeric channel of the unit range gives a byte. *)
Theorem C10_channels_are_truncated
    (ctx : Context) (prim : PrimitiveDef) (usesVertexColor : bool) (k : Z)
    (mdef : MaterialDef) (f : list JS.value) :
  prim_material prim = Some k ->
  JS.index (JS.or_empty (materials (ctx_json ctx))) k = Some mdef ->
  let m := resolve_material ctx prim usesVertexColor in
  let c := fun i => JS.trunc (channel255 f i) in
  (emissiveFactor mdef = Some f -> THREE.emissive m = Some (pack_color f)) /\
  (forall p, pbrMetallicRoughness mdef = Some p -> baseColorFactor p = Some f ->
             THREE.map m = None -> THREE.color m = pack_color f) /\
  (0 <= c 0 < 256 -> 0 <= c 1 < 256 -> 0 <= c 2 < 256 ->
   pack_color f = c 0 * 65536 + c 1 * 256 + c 2) /\
  (forall i, JS.index f i = Some (JS.VNum one_half) -> c i = 127) /\
  (forall i, JS.truthy (JS.index f i) = false \/ JS.ToNumber (JS.index f i) = JS.NaN ->
             c i = 0) /\
  (forall i, JS.index f i = Some (JS.VBool true) -> c i = 255) /\
  (forall i x, JS.index f i = Some (JS.VNum x) -> in_unit_range x = true ->
               0 <= c i < 256).
Proof.
  intros Hk Hm m c.
  destruct (resolve_material_of ctx prim usesVertexColor k mdef Hk Hm) as (C & _ & _ & E & M).
  fold m in C, E, M. cbv zeta in *.
  split; [ | split; [ | split; [ | split; [ | split; [ | split ] ] ] ] ].
  - intros Hf. rewrite E. now apply apply_material_emissive.
  - intros p Hp Hf Hmap. rewrite C. apply (apply_material_color ctx mdef p f Hp Hf).
    now apply M.
  - apply pack_color_bytes.
  - intros i Hi. unfold c, channel255. rewrite Hi. vm_compute. reflexivity.
  - intros i Hi. now apply channel_zero.
  - intros i Hi. unfold c, channel255. rewrite Hi. vm_compute. reflexivity.
  - intros i x Hi Hu. now apply (channel255_unit_range f i x).
Qed.

Lemma C10_witness :
  THREE.emissive
    (resolve_material
       (ctx_of (doc_with_material
                  (material_with red_half None (Some [JS.VNum one_half; JS.VNum one]) None)) None)
       (primitive_with None None (Some 0)) false)
  = Some (pack_color [JS.VNum one_half; JS.VNum one]) /\
  pack_color [JS.VNum one_half; JS.VNum one]
  = JS.trunc (channel255 [JS.VNum one_half; JS.VNum one] 0) * 65536
    + JS.trunc (channel255 [JS.VNum one_half; JS.VNum one] 1) * 256
    + JS.trunc (channel255 [JS.VNum one_half; JS.VNum one] 2) /\
  JS.trunc (channel255 [JS.VNum one_half; JS.VNum one] 0) = 127 /\
  JS.trunc (channel255 [JS.VNum one_half; JS.VNum one] 2) = 0.
Proof.
  pose proof (C10_channels_are_truncated
                (ctx_of (doc_with_material
                           (material_with red_half None
                              (Some [JS.VNum one_half; JS.VNum one]) None)) None)
                (primitive_with None None (Some 0)) false 0
                (material_with red_half None (Some [JS.VNum one_half; JS.VNum one]) None)
                [JS.VNum one_half; JS.VNum one] eq_refl eq_refl) as H.
  cbv zeta in H. destruct H as (E & _ & P & H5 & Z0 & _ & U).
  split; [ exact (E eq_refl) | ].
  split; [ apply P;
           [ exact (U 0 one_half eq_refl eq_refl)
           | exact (U 1 one eq_refl eq_refl)
           | decide_Z ] | ].
  split; [ exact (H5 0 eq_refl) | apply Z0; left; reflexivity ].
Defined.

(* ================================================================== *)
(** * Further properties *)
(* ================================================================== *)



(** A primitive whose mode is present, not 0 and not 4 is skipped with
    the warning about its mode, and one without a POSITION attribute with
    the warning about POSITION: the group stays as it was.  A primitive
    that passes both checks and names accessors that exist (the one of the
    positions with a positive item size, as every accessor built from the
    table of types has) adds one mesh.  The only line it can write to the
    console is the error three.js reports when the radius of the bounding
    sphere is NaN: nothing is written when every coordinate read from the
    positions is a finite number, and the error is written when one of
    them is NaN or lies past the end of the array. *)
Theorem primitive_skipped_or_built
    (ctx : Context) (meshDef : MeshDef) (accessors : list AccessorData)
    (prim : PrimitiveDef) (idx : Z) (group : THREE.MeshGroup) :
  (forall m, prim_mode prim = Some m -> m <> 0 -> m <> 4 ->
     build_primitive ctx meshDef accessors prim idx group
     = (["Primitive mode not TRIANGLES, skipped"%string], JS.Ok group)) /\
  (mode_rejected (prim_mode prim) = false ->
   (forall a, prim_attributes prim = Some a -> POSITION a = None) ->
     build_primitive ctx meshDef accessors prim idx group
     = (["Primitive missing POSITION"%string], JS.Ok group)) /\
  (forall a pos,
     mode_rejected (prim_mode prim) = false ->
     prim_attributes prim = Some a -> POSITION a = Some pos ->
     (forall k, In (Some k) [POSITION a; NORMAL a; COLOR_0 a; prim_indices prim] ->
                JS.index accessors k <> None) ->
     (forall posAcc, JS.index accessors pos = Some posAcc -> 0 < a_itemSize posAcc) ->
     exists posAcc mesh w,
       JS.index accessors pos = Some posAcc /\
       build_primitive ctx meshDef accessors prim idx group
       = (w, JS.Ok (add_mesh group mesh)) /\
       (w = [] \/ w = [THREE.radius_is_NaN_message]) /\
       (finite_positions (attribute_of posAcc) = true -> w = []) /\
       (nan_positions (attribute_of posAcc) = true -> w = [THREE.radius_is_NaN_message])).
Proof.
  split; [ | split ].
  - intros m Hm H0 H4. apply build_primitive_rejected.
    apply mode_rejected_iff. now exists m.
  - apply build_primitive_no_position.
  - intros a pos Hm Ha Hp Hacc _.
    destruct (build_primitive_total ctx meshDef accessors prim idx group a pos Hm Ha Hp Hacc)
      as (posAcc & mesh & Hi & Hb).
    exists posAcc, mesh, (sphere_errors (attribute_of posAcc)).
    split; [ exact Hi | ]. split; [ exact Hb | ]. split; [ | split ].
    + unfold sphere_errors. destruct (JS.isNaN _); [ now right | now left ].
    + apply sphere_errors_finite.
    + apply sphere_errors_nan.
Qed.

Lemma primitive_skipped_or_built_witness :
  nan_positions (attribute_of position_accessor_nan) = true /\
  JS.console (build_primitive (ctx_of empty_document None) (mesh_of [])
                [position_accessor_nan] (primitive_with None None None) 0 empty_group)
  = [THREE.radius_is_NaN_message].
Proof.
  split; [ reflexivity | ].
  destruct (proj2 (proj2 (primitive_skipped_or_built (ctx_of empty_document None)
                            (mesh_of []) [position_accessor_nan]
                            (primitive_with None None None) 0 empty_group))
              {| POSITION := Some 0; NORMAL := None; COLOR_0 := None |} 0)
    as (posAcc & mesh & w & Hi & Hb & _ & _ & Hn).
  - reflexivity.
  - reflexivity.
  - reflexivity.
  - intros k [H | [H | [H | [H | []]]]]; try discriminate H.
    injection H as <-. discriminate.
  - intros posAcc H. injection H as <-. reflexivity.
  - rewrite Hb. cbn [JS.console fst]. apply Hn. injection Hi as <-. reflexivity.
Defined.

(* ================================================================== *)
(** * The container: header checks and chunk types *)
(* ================================================================== *)

Section Container.

Variable JSON_parse : JS.ArrayBuffer -> parsed.

Lemma getUint32_u32le_0 (rest : list byte) (z : Z) :
  0 <= z < 2 ^ 32 -> JS.getUint32 (u32le z ++ rest) 0 = JS.ret z.
Proof. intros H. exact (getUint32_u32le [] rest z H). Qed.

Lemma parse_bad_magic (m : Z) (rest : list byte) (url : option string) :
  0 <= m < 2 ^ 32 -> m <> MAGIC ->
  parse JSON_parse (u32le m ++ rest) url = JS.throw (JS.Error "Not a GLB file").
Proof.
  intros Hm Hne. unfold parse. rewrite getUint32_u32le_0 by assumption.
  rewrite bind_ret_l.
  now replace (m =? MAGIC) with false by (symmetry; apply Z.eqb_neq; assumption).
Qed.

Lemma parse_bad_version (v : Z) (rest : list byte) (url : option string) :
  0 <= v < 2 ^ 32 -> v <> 2 ->
  parse JSON_parse (u32le MAGIC ++ u32le v ++ rest) url
  = JS.throw (JS.Error "Only glTF 2.0 supported").
Proof.
  intros Hv Hne. unfold parse.
  rewrite getUint32_u32le_0 by (vm_compute; split; [ discriminate | reflexivity ]).
  rewrite bind_ret_l. rewrite Z.eqb_refl. cbn [negb].
  change 4 with (JS.byteLength (u32le MAGIC)).
  rewrite getUint32_u32le by assumption. rewrite bind_ret_l.
  now replace (v =? 2) with false by (symmetry; apply Z.eqb_neq; assumption).
Qed.

(** What a [parse] that returns has read from the first 12 bytes. *)
Lemma parse_ok_header (b : JS.ArrayBuffer) (url : option string) (w : list string) (g : GLTF) :
  parse JSON_parse b url = (w, JS.Ok g) ->
  JS.getUint32 b 0 = JS.ret MAGIC /\ JS.getUint32 b 4 = JS.ret 2 /\
  12 <= JS.byteLength b.
Proof.
  unfold parse.
  destruct (getUint32_cases b 0) as [-> | [m Em]]; [ discriminate | ].
  rewrite Em, bind_ret_l.
  destruct (m =? MAGIC) eqn:Hm; cbn [negb]; [ | discriminate ].
  apply Z.eqb_eq in Hm. subst m.
  destruct (getUint32_cases b 4) as [-> | [v Ev]]; [ discriminate | ].
  rewrite Ev, bind_ret_l.
  destruct (v =? 2) eqn:Hv; cbn [negb]; [ | discriminate ].
  apply Z.eqb_eq in Hv. subst v.
  destruct (getUint32_cases b 8) as [-> | [L EL]]; [ discriminate | ].
  intros _. repeat split; try assumption.
  destruct (getUint32_ok _ _ _ _ EL) as (_ & _ & H & _). lia.
Qed.

Lemma on_chunks_known (cs : list chunk) :
  forall jb, on_chunks JSON_parse (filter is_known cs) jb = on_chunks JSON_parse cs jb.
Proof.
  induction cs as [ | c cs IH]; intros jb; cbn [filter]; [ reflexivity | ].
  unfold is_known at 1. destruct (fst c =? CHUNK_JSON) eqn:EJ; cbn [orb].
  - cbn [on_chunks]. apply bind_ext. intros jb'. apply IH.
  - destruct (fst c =? CHUNK_BIN) eqn:EB.
    + cbn [on_chunks]. apply bind_ext. intros jb'. apply IH.
    + cbn [on_chunks]. unfold on_chunk. rewrite EJ, EB, bind_ret_l. apply IH.
Qed.

Lemma encode_chunks_filter_length (p : chunk -> bool) (cs : list chunk) :
  JS.byteLength (encode_chunks (filter p cs)) <= JS.byteLength (encode_chunks cs).
Proof.
  induction cs as [ | c cs IH]; cbn [filter]; [ lia | ].
  rewrite (encode_chunks_cons c cs), byteLength_app.
  pose proof (byteLength_nonneg (encode_chunk c)).
  destruct (p c); [ rewrite encode_chunks_cons, byteLength_app | ]; lia.
Qed.

Lemma fits_filter (p : chunk -> bool) (cs : list chunk) : fits cs -> fits (filter p cs).
Proof.
  intros [F L]. split.
  - apply Forall_forall. intros c Hc. apply filter_In in Hc.
    rewrite Forall_forall in F. now apply F.
  - pose proof (encode_chunks_filter_length p cs). lia.
Qed.

End Container.

(** [parse] checks the first twelve bytes before anything else: a buffer
    whose first word is not the magic number is refused as not a GLB file,
    whatever follows; one with the magic number and a version other than 2
    is refused for its version; a buffer of fewer than twelve bytes is
    never accepted; and a [parse] that returns has read the magic number
    and version 2. *)
Theorem parse_checks_the_header
    (JSON_parse : JS.ArrayBuffer -> parsed) (url : option string) :
  (forall m rest, 0 <= m < 2 ^ 32 -> m <> MAGIC ->
     parse JSON_parse (u32le m ++ rest) url = JS.throw (JS.Error "Not a GLB file")) /\
  (forall v rest, 0 <= v < 2 ^ 32 -> v <> 2 ->
     parse JSON_parse (u32le MAGIC ++ u32le v ++ rest) url
     = JS.throw (JS.Error "Only glTF 2.0 supported")) /\
  (forall b, JS.byteLength b < 12 -> JS.throws (parse JSON_parse b url) = true) /\
  (forall b w g, parse JSON_parse b url = (w, JS.Ok g) ->
     JS.getUint32 b 0 = JS.ret MAGIC /\ JS.getUint32 b 4 = JS.ret 2).
Proof.
  split; [ | split; [ | split ] ].
  - intros m rest. apply parse_bad_magic.
  - intros v rest. apply parse_bad_version.
  - intros b Hb. unfold JS.throws, JS.outcome.
    destruct (parse JSON_parse b url) as [w [g | e]] eqn:E; [ | reflexivity ].
    apply parse_ok_header in E. lia.
  - intros b w g E. apply parse_ok_header in E. tauto.
Qed.

Lemma parse_checks_the_header_witness :
  parse JSON_parse_sample (u32le 0x46546C68 ++ bytes "rest") None
  = JS.throw (JS.Error "Not a GLB file") /\
  parse JSON_parse_sample (u32le MAGIC ++ u32le 1 ++ bytes "rest") None
  = JS.throw (JS.Error "Only glTF 2.0 supported") /\
  JS.throws (parse JSON_parse_sample (u32le MAGIC ++ u32le 2) None) = true.
Proof.
  destruct (parse_checks_the_header JSON_parse_sample None) as (M & V & S & _).
  split; [ apply M; decide_Z | ].
  split; [ apply V; decide_Z | ].
  apply S. decide_Z.
Defined.

(** A well-formed container in which no chunk is tagged JSON, or whose
    last JSON chunk holds a falsy value such as [null], is refused for its
    missing JSON chunk; nothing is written to the console. *)
Theorem parse_without_json_chunk
    (JSON_parse : JS.ArrayBuffer -> parsed) (cs : list chunk) (url : option string) :
  fits cs -> json_chunks_parse JSON_parse cs ->
  (last_of_type CHUNK_JSON cs = None \/
   exists text, last_of_type CHUNK_JSON cs = Some text /\ JSON_parse text = Falsy) ->
  parse JSON_parse (glb cs) url = JS.throw (JS.Error "Missing JSON chunk").
Proof.
  intros Hfit Hp H. rewrite parse_glb by assumption.
  rewrite on_chunks_last by assumption. rewrite bind_ret_l.
  destruct H as [-> | (text & -> & ->)]; reflexivity.
Qed.

Lemma parse_without_json_chunk_witness :
  parse JSON_parse_sample glb_bin_only None = JS.throw (JS.Error "Missing JSON chunk") /\
  parse JSON_parse_sample
    (glb [(CHUNK_JSON, bytes text_empty_object); (CHUNK_JSON, bytes text_null)]) None
  = JS.throw (JS.Error "Missing JSON chunk").
Proof.
  split.
  - apply (parse_without_json_chunk JSON_parse_sample [(CHUNK_BIN, bytes "abcd")] None).
    + fits_tac.
    + repeat first [ apply Forall_cons | apply Forall_nil ]; intros H;
        first [ vm_compute in H; discriminate H | vm_compute; discriminate ].
    + left. reflexivity.
  - apply (parse_without_json_chunk JSON_parse_sample
             [(CHUNK_JSON, bytes text_empty_object); (CHUNK_JSON, bytes text_null)] None).
    + fits_tac.
    + repeat first [ apply Forall_cons | apply Forall_nil ]; intros H;
        first [ vm_compute in H; discriminate H | vm_compute; discriminate ].
    + right. exists (bytes text_null). split; reflexivity.
Defined.

(** Chunks of a type other than JSON and BIN are skipped: a well-formed
    container parses as the container without them. *)
Theorem parse_skips_unknown_chunks
    (JSON_parse : JS.ArrayBuffer -> parsed) (cs : list chunk) (url : option string) :
  fits cs ->
  parse JSON_parse (glb cs) url = parse JSON_parse (glb (filter is_known cs)) url.
Proof.
  intros Hfit. rewrite !parse_glb by (assumption || now apply fits_filter).
  now rewrite on_chunks_known.
Qed.

Lemma parse_skips_unknown_chunks_witness :
  parse JSON_parse_sample
    (glb [(0x12345678, bytes "xyz"); (CHUNK_JSON, bytes text_one_buffer);
          (0, bytes ""); (CHUNK_BIN, bytes "abcd")]) None
  = parse JSON_parse_sample
      (glb [(CHUNK_JSON, bytes text_one_buffer); (CHUNK_BIN, bytes "abcd")]) None.
Proof.
  apply (parse_skips_unknown_chunks JSON_parse_sample
           [(0x12345678, bytes "xyz"); (CHUNK_JSON, bytes text_one_buffer);
            (0, bytes ""); (CHUNK_BIN, bytes "abcd")] None).
  fits_tac.
Defined.

(* ================================================================== *)
(** * Buffers, views and accessors: what is bound and what aborts *)
(* ================================================================== *)

(** A [map] whose callback either returns without writing to the console
    or throws [e]: it returns the list of the results, or throws [e] as
    soon as one call does. *)
Lemma mapi_from_all_or_throw {A B} (f : A -> Z -> JS.M B) (e : JS.exn) (l : list A) :
  forall i,
    (forall a j, In a l -> (exists b, f a j = JS.ret b) \/ f a j = JS.throw e) ->
    (exists bs, JS.mapi_from i f l = JS.ret bs /\
                Forall2 (fun a b => exists j, f a j = JS.ret b) l bs) \/
    (JS.mapi_from i f l = JS.throw e /\ Exists (fun a => exists j, f a j = JS.throw e) l).
Proof.
  induction l as [ | a l IH]; intros i H; cbn [JS.mapi_from].
  - left. exists []. split; [ reflexivity | constructor ].
  - destruct (H a i (or_introl eq_refl)) as [[b Hb] | Hb]; rewrite Hb.
    + rewrite bind_ret_l.
      destruct (IH (i + 1)) as [(bs & E & F) | (E & X)].
      * intros a' j Ha'. apply H. now right.
      * left. exists (b :: bs). rewrite E, bind_ret_l. split; [ reflexivity | ].
        constructor; [ now exists i | assumption ].
      * right. rewrite E. split; [ reflexivity | now apply Exists_cons_tl ].
    + right. split; [ reflexivity | ]. apply Exists_cons_hd. now exists i.
Qed.

Lemma bind_ok_inv {A B} (m : JS.M A) (f : A -> JS.M B) (w : list string) (b : B) :
  JS.bind m f = (w, JS.Ok b) ->
  exists w1 a w2, m = (w1, JS.Ok a) /\ f a = (w2, JS.Ok b) /\ w = w1 ++ w2.
Proof.
  destruct m as [w1 [a | e]]; cbn [JS.bind]; [ | discriminate ].
  destruct (f a) as [w2 r] eqn:E. intros [= <- ->]. now exists w1, a, w2.
Qed.

Lemma throws_bind_l {A B} (m : JS.M A) (f : A -> JS.M B) :
  JS.throws m = true -> JS.throws (JS.bind m f) = true.
Proof. destruct m as [w [a | e]]; cbn; [ discriminate | reflexivity ]. Qed.

Lemma throws_bind {A B} (m : JS.M A) (f : A -> JS.M B) :
  (forall w a, m = (w, JS.Ok a) -> JS.throws (f a) = true) ->
  JS.throws (JS.bind m f) = true.
Proof.
  intros H. destruct m as [w [a | e]]; [ | reflexivity ].
  specialize (H w a eq_refl). unfold JS.throws, JS.outcome, JS.bind in *.
  destruct (f a) as [w' r]. exact H.
Qed.

Lemma mapi_from_throws {A B} (f : A -> Z -> JS.M B) (l : list A) :
  forall i, Exists (fun a => forall j, JS.throws (f a j) = true) l ->
            JS.throws (JS.mapi_from i f l) = true.
Proof.
  induction l as [ | a l IH]; intros i X; [ inversion X | ].
  cbn [JS.mapi_from]. inversion X as [a' l' Ha | a' l' X']; subst.
  - apply throws_bind_l, Ha.
  - apply throws_bind. intros w b _. apply throws_bind_l. now apply IH.
Qed.

Lemma Forall2_In_l {A B} (R : A -> B -> Prop) (l : list A) (l' : list B) (a : A) :
  Forall2 R l l' -> In a l -> exists b, In b l' /\ R a b.
Proof.
  induction 1 as [ | x y l l' Hxy _ IH]; intros Hin; [ contradiction | ].
  destruct Hin as [<- | Hin].
  - exists y. split; [ now left | assumption ].
  - destruct (IH Hin) as (b & Hb & Hr). exists b. split; [ now right | assumption ].
Qed.

Lemma build_view_cases (buffers : list JS.ArrayBuffer) (v : BufferViewDef) :
  (exists k buffer, bv_buffer v = Some k /\ JS.index buffers k = Some buffer /\
                    build_view buffers v
                    = JS.ret (JS.slice buffer (JS.or_zero (bv_byteOffset v))
                                (JS.or_zero (bv_byteOffset v) + JS.or_zero (bv_byteLength v)))) \/
  ((forall k, bv_buffer v = Some k -> JS.index buffers k = None) /\
   build_view buffers v = JS.throw JS.TypeError).
Proof.
  unfold build_view. destruct (bv_buffer v) as [k | ].
  - destruct (JS.index buffers k) as [buffer | ] eqn:E.
    + left. exists k, buffer. cbn [deref]. now rewrite bind_ret_l.
    + right. split; [ | reflexivity ]. now intros k' [= <-].
  - right. split; [ | reflexivity ]. discriminate.
Qed.

Lemma slice_window (b : JS.ArrayBuffer) (off len : Z) :
  0 <= off -> 0 <= len -> off + len <= JS.byteLength b ->
  JS.slice b off (off + len) = window b off len.
Proof.
  intros Ho Hl Hs. unfold JS.slice, window, JS.clamp_index.
  replace (off <? 0) with false by (symmetry; apply Z.ltb_ge; lia).
  replace (off + len <? 0) with false by (symmetry; apply Z.ltb_ge; lia).
  rewrite !Z.min_l by lia. rewrite Z.max_l by lia. do 2 f_equal. lia.
Qed.

Lemma window_length (b : JS.ArrayBuffer) (off len : Z) :
  0 <= off -> 0 <= len -> off + len <= JS.byteLength b ->
  JS.byteLength (window b off len) = len.
Proof.
  intros Ho Hl Hs. unfold window, JS.byteLength in *.
  rewrite length_firstn, length_skipn. lia.
Qed.

Lemma skipn_nth {A} (l : list A) (k : nat) (d : A) :
  (k < List.length l)%nat -> skipn k l = nth k l d :: skipn (S k) l.
Proof.
  revert k. induction l as [ | a l IH]; intros [ | k] H; cbn in *; try lia; [ reflexivity | ].
  apply IH. lia.
Qed.

Lemma window_nth (b : JS.ArrayBuffer) (off len : Z) (k : nat) (d : byte) :
  0 <= off -> Z.of_nat k < len ->
  nth k (window b off len) d = nth (Z.to_nat off + k) b d.
Proof.
  intros Ho Hk. unfold window.
  rewrite nth_firstn. replace (k <? Z.to_nat len)%nat with true
    by (symmetry; apply Nat.ltb_lt; lia).
  apply nth_skipn.
Qed.

Lemma compTypeMap_supported (code : Z) :
  compTypeMap (Some code) <> None <-> In code [5120; 5121; 5122; 5123; 5125; 5126].
Proof.
  unfold compTypeMap, compTypeMap_entries. cbn [find fst snd].
  repeat match goal with
         | |- context [?a =? code] =>
             destruct (Z.eqb_spec a code); [ subst; cbn; split; [ intros _; tauto | discriminate ] | ]
         end.
  cbn. split; [ congruence | intros H; exfalso; intuition congruence ].
Qed.

(** [_buildBuffers] binds the BIN chunk to the first declared buffer and
    to nothing else: no declared buffer gives an empty list, exactly one
    gives the BIN chunk, and a second declared buffer, or a declared buffer
    when the container has no BIN chunk, is refused; the scene of a
    document that declares two buffers is never built. *)
Theorem buildBuffers_binds_the_bin_chunk_only (ctx : Context) :
  let declared := JS.or_empty (buffers (ctx_json ctx)) in
  let refused := JS.Error "Only single BIN buffer supported in this minimal loader" in
  (declared = [] -> _buildBuffers ctx = JS.ret []) /\
  (forall b bin, declared = [b] -> ctx_bin ctx = Some bin -> _buildBuffers ctx = JS.ret [bin]) /\
  (declared <> [] -> ctx_bin ctx = None -> _buildBuffers ctx = JS.throw refused) /\
  (forall b b' rest, declared = b :: b' :: rest ->
     _buildBuffers ctx = JS.throw refused /\ _buildScene ctx = JS.throw refused).
Proof.
  cbv zeta. unfold _buildScene, _buildBuffers, JS.mapi.
  split; [ | split; [ | split ] ].
  - intros ->. reflexivity.
  - intros b bin -> ->. reflexivity.
  - intros Hne ->. destruct (JS.or_empty (buffers (ctx_json ctx))); [ congruence | reflexivity ].
  - intros b b' rest ->. destruct (ctx_bin ctx); split; reflexivity.
Qed.

Lemma buildBuffers_binds_the_bin_chunk_only_witness :
  _buildBuffers (ctx_of one_buffer_document (Some (bytes "abcd"))) = JS.ret [bytes "abcd"] /\
  _buildBuffers (ctx_of one_buffer_document None)
  = JS.throw (JS.Error "Only single BIN buffer supported in this minimal loader").
Proof.
  pose proof (buildBuffers_binds_the_bin_chunk_only
                (ctx_of one_buffer_document (Some (bytes "abcd")))) as (_ & H1 & _).
  pose proof (buildBuffers_binds_the_bin_chunk_only
                (ctx_of one_buffer_document None)) as (_ & _ & H2 & _).
  split.
  - exact (H1 _ _ eq_refl eq_refl).
  - apply H2; [ discriminate | reflexivity ].
Defined.

(** Every bufferView is resolved before any accessor is: when each names
    a buffer that exists, the views are the slices of their buffers and
    the accessors are then built over them; when one names no buffer, or
    one out of range, [_buildAccessors] throws a TypeError, even if no
    accessor uses that view. *)
Theorem buildAccessors_resolves_every_view (ctx : Context) (buffers : list JS.ArrayBuffer) :
  let bvs := JS.or_empty (bufferViews (ctx_json ctx)) in
  (Exists (fun v => forall k, bv_buffer v = Some k -> JS.index buffers k = None) bvs ->
   _buildAccessors ctx buffers = JS.throw JS.TypeError) /\
  (Forall (fun v => exists k, bv_buffer v = Some k /\ JS.index buffers k <> None) bvs ->
   exists views,
     Forall2 (fun v view =>
                exists k buffer, bv_buffer v = Some k /\ JS.index buffers k = Some buffer /\
                  view = JS.slice buffer (JS.or_zero (bv_byteOffset v))
                           (JS.or_zero (bv_byteOffset v) + JS.or_zero (bv_byteLength v)))
             bvs views /\
     _buildAccessors ctx buffers
     = JS.map (build_accessor views) (JS.or_empty (accessors (ctx_json ctx)))).
Proof.
  cbv zeta. unfold _buildAccessors.
  set (bvs := JS.or_empty (bufferViews (ctx_json ctx))).
  destruct (mapi_from_all_or_throw (fun v (_ : Z) => build_view buffers v) JS.TypeError bvs 0)
    as [(views & E & F) | (E & X)].
  { intros v j _. destruct (build_view_cases buffers v) as [(k & b & _ & _ & H) | [_ H]];
      rewrite H; eauto. }
  - split.
    + intros Hx. exfalso. apply Exists_exists in Hx. destruct Hx as (v & Hin & Hv).
      destruct (Forall2_In_l _ _ _ _ F Hin) as (view & _ & (j & Hview)).
      destruct (build_view_cases buffers v) as [(k & b & Hk & Hb & _) | [_ H]].
      * rewrite (Hv k Hk) in Hb. discriminate.
      * rewrite H in Hview. discriminate.
    + intros _. exists views. split.
      * eapply Forall2_impl; [ | exact F ]. cbn beta. intros v view (j & Hview).
        destruct (build_view_cases buffers v) as [(k & b & Hk & Hb & H) | [_ H]];
          rewrite H in Hview; [ | discriminate ].
        injection Hview as <-. now exists k, b.
      * unfold JS.map at 1, JS.mapi. rewrite E. now rewrite bind_ret_l.
  - split.
    + intros _. unfold JS.map at 1, JS.mapi. rewrite E. reflexivity.
    + intros Hf. exfalso. apply Exists_exists in X. destruct X as (v & Hin & (j & Hv)).
      rewrite Forall_forall in Hf. destruct (Hf v Hin) as (k & Hk & Hb).
      destruct (build_view_cases buffers v) as [(k' & b & _ & _ & H) | [Hn _]].
      * rewrite H in Hv. discriminate.
      * now apply Hb, Hn.
Qed.

Lemma buildAccessors_resolves_every_view_witness :
  _buildAccessors (ctx_of doc_one_view None) [] = JS.throw JS.TypeError /\
  exists views,
    Forall2 (fun v view =>
               exists k buffer, bv_buffer v = Some k /\
                 JS.index [bytes "abcd"] k = Some buffer /\
                 view = JS.slice buffer (JS.or_zero (bv_byteOffset v))
                          (JS.or_zero (bv_byteOffset v) + JS.or_zero (bv_byteLength v)))
            [view_beyond_buffer] views /\
    _buildAccessors (ctx_of doc_one_view None) [bytes "abcd"]
    = JS.map (build_accessor views) [].
Proof.
  split.
  - apply (proj1 (buildAccessors_resolves_every_view (ctx_of doc_one_view None) [])).
    apply Exists_cons_hd. intros k [= <-]. reflexivity.
  - apply (proj2 (buildAccessors_resolves_every_view (ctx_of doc_one_view None)
                    [bytes "abcd"])).
    apply Forall_cons; [ | apply Forall_nil ].
    exists 0. split; [ reflexivity | discriminate ].
Defined.

(* ================================================================== *)
(** * Accessors: what is refused, what is empty, what is read *)
(* ================================================================== *)

Lemma index_singleton_0 {A} (a : A) : JS.index [a] 0 = Some a.
Proof. reflexivity. Qed.

(** An accessor is refused for its component type before its element
    type is looked at: only the codes 5120, 5121, 5122, 5123, 5125 and
    5126 are served; with one of them, only the seven element types of the
    table are, and the exception text names the type that is not (a type
    that is the name of a property every object inherits is left aside: the
    lookup finds that property). *)
Theorem accessor_types_are_checked_in_order
    (views : list JS.ArrayBuffer) (acc : AccessorDef) :
  ((forall code, acc_componentType acc = Some code ->
                 ~ In code [5120; 5121; 5122; 5123; 5125; 5126]) ->
   build_accessor views acc = JS.throw (JS.Error "Unsupported componentType")) /\
  (forall code t,
     acc_componentType acc = Some code -> In code [5120; 5121; 5122; 5123; 5125; 5126] ->
     acc_type acc = Some t ->
     ~ In t ["SCALAR"; "VEC2"; "VEC3"; "VEC4"; "MAT4"; "MAT3"; "MAT2"]%string ->
     ~ In t inherited_names ->
     build_accessor views acc = JS.throw (JS.Error ("Unsupported type " ++ t))).
Proof.
  split.
  - intros H. unfold build_accessor.
    destruct (acc_componentType acc) as [code | ] eqn:E; [ | reflexivity ].
    destruct (compTypeMap (Some code)) eqn:C; [ | reflexivity ].
    exfalso. apply (H code eq_refl). apply compTypeMap_supported. congruence.
  - intros code t Hc Hin Ht Hnot _. unfold build_accessor. rewrite Hc, Ht.
    destruct (compTypeMap (Some code)) eqn:C.
    + assert (T : typeSizeMap (Some t) = None).
      { unfold typeSizeMap, typeSizeMap_entries. cbn [find fst snd].
        repeat match goal with
               | |- context [String.eqb ?a t] =>
                   destruct (String.eqb_spec a t);
                   [ subst t; exfalso; apply Hnot; cbn; tauto | ]
               end.
        reflexivity. }
      now rewrite T.
    + exfalso. apply compTypeMap_supported in Hin. congruence.
Qed.

Lemma accessor_types_are_checked_in_order_witness :
  build_accessor [bytes "abcdefgh"] accessor_int = JS.throw (JS.Error "Unsupported componentType") /\
  build_accessor [bytes "abcdefgh"] accessor_vec5 = JS.throw (JS.Error "Unsupported type VEC5").
Proof.
  split.
  - apply (proj1 (accessor_types_are_checked_in_order [bytes "abcdefgh"] accessor_int)).
    intros code [= <-]. cbn. intuition discriminate.
  - apply (proj2 (accessor_types_are_checked_in_order [bytes "abcdefgh"] accessor_vec5)
             5126 "VEC5"%string); [ reflexivity | cbn; tauto | reflexivity | | ];
      cbn; intuition discriminate.
Defined.

(** An accessor of a served type that names no bufferView, or one out of
    range, is not refused: it resolves to an empty typed array, whatever
    count and byte offset it declares. *)
Theorem accessor_without_view_is_empty
    (views : list JS.ArrayBuffer) (acc : AccessorDef) (Ctor : JS.Ctor) (numComp : Z) :
  (forall k, acc_bufferView acc = Some k -> JS.index views k = None) ->
  compTypeMap (acc_componentType acc) = Some Ctor ->
  typeSizeMap (acc_type acc) = Some numComp ->
  exists a, build_accessor views acc = JS.ret a /\
            JS.ta_length (a_array a) = 0 /\ a_itemSize a = numComp /\
            a_count a = acc_count acc.
Proof.
  intros Hv HC HN. unfold build_accessor. rewrite HC, HN.
  assert (V : match acc_bufferView acc with
              | Some i => JS.index views i
              | None => None
              end = None)
    by (destruct (acc_bufferView acc) as [k | ]; [ now apply Hv | reflexivity ]).
  rewrite V. cbv zeta. cbn [JS.new_TypedArray]. rewrite bind_ret_l.
  eexists. split; [ reflexivity | ]. cbn. auto.
Qed.

Lemma accessor_without_view_is_empty_witness :
  exists a, build_accessor [bytes "abcdefgh"] accessor_no_view = JS.ret a /\
            JS.ta_length (a_array a) = 0 /\ a_itemSize a = 3 /\ a_count a = Some 100.
Proof.
  apply (accessor_without_view_is_empty [bytes "abcdefgh"] accessor_no_view JS.Float32Array 3);
    [ discriminate | reflexivity | reflexivity ].
Defined.

(** From the binary chunk to the elements of an accessor: with the BIN
    chunk bound to buffer 0, a bufferView inside it and an accessor inside
    that view, element [i] of a uint8 accessor is the byte of the chunk at
    the view's offset plus the accessor's offset plus [i], and element [i]
    of a uint16 accessor is the little-endian word at twice that step. *)
Theorem accessor_elements_come_from_the_bin_chunk
    (bin : JS.ArrayBuffer) (v : BufferViewDef) (acc : AccessorDef) (numComp count : Z) :
  let bo := JS.or_zero (bv_byteOffset v) in
  let bl := JS.or_zero (bv_byteLength v) in
  let ao := JS.or_zero (acc_byteOffset acc) in
  let byte_at := fun k => JS.u8 (nth (Z.to_nat k) bin x00) in
  bv_buffer v = Some 0 -> 0 <= bo -> 0 <= bl -> bo + bl <= JS.byteLength bin ->
  JS.byteLength bin <= JS.MAX_SAFE_INTEGER ->
  acc_bufferView acc = Some 0 -> typeSizeMap (acc_type acc) = Some numComp ->
  acc_count acc = Some count -> 0 <= count -> 0 <= ao ->
  exists view,
    build_view [bin] v = JS.ret view /\
    (acc_componentType acc = Some 5121 -> ao + count * numComp <= bl ->
     exists a, build_accessor [view] acc = JS.ret a /\
               JS.ta_length (a_array a) = count * numComp /\
               forall i, 0 <= i < count * numComp ->
                         JS.get_uint (a_array a) i = byte_at (bo + ao + i)) /\
    (acc_componentType acc = Some 5123 -> ao mod 2 = 0 -> ao + count * numComp * 2 <= bl ->
     exists a, build_accessor [view] acc = JS.ret a /\
               JS.ta_length (a_array a) = count * numComp /\
               forall i, 0 <= i < count * numComp ->
                         JS.get_uint (a_array a) i
                         = byte_at (bo + ao + 2 * i) + 2 ^ 8 * byte_at (bo + ao + 2 * i + 1)).
Proof.
  intros bo bl ao byte_at Hb Hbo Hbl Hin Hmax Hv HN Hc Hcount Hao.
  pose proof (typeSizeMap_pos _ _ HN) as Hn.
  exists (window bin bo bl). split; [ | split ].
  - unfold build_view. rewrite Hb, index_singleton_0. cbn [deref]. rewrite bind_ret_l.
    fold bo bl. now rewrite slice_window.
  - intros Ht Hspan. unfold build_accessor. rewrite Hv, index_singleton_0, Ht, HN, Hc.
    replace (compTypeMap (Some 5121)) with (Some JS.Uint8Array) by reflexivity.
    cbn [option_map]. cbv zeta. fold ao.
    rewrite new_TypedArray_in_range;
      [ | rewrite window_length by assumption; lia | assumption | nia
        | apply Z.mod_1_r | rewrite window_length by assumption; cbn; lia ].
    rewrite bind_ret_l. eexists. split; [ reflexivity | ].
    cbn [a_array JS.ta_length]. split; [ reflexivity | ].
    intros i Hi. cbn [JS.get_uint].
    rewrite (skipn_nth _ _ x00)
      by (pose proof (window_length bin bo bl Hbo Hbl Hin) as L;
          unfold JS.byteLength in L; lia).
    rewrite window_nth by lia. unfold byte_at. do 2 f_equal. lia.
  - intros Ht Hal Hspan. unfold build_accessor. rewrite Hv, index_singleton_0, Ht, HN, Hc.
    replace (compTypeMap (Some 5123)) with (Some JS.Uint16Array) by reflexivity.
    cbn [option_map]. cbv zeta. fold ao.
    rewrite new_TypedArray_in_range;
      [ | rewrite window_length by assumption; lia | assumption | nia
        | exact Hal | rewrite window_length by assumption; cbn; lia ].
    rewrite bind_ret_l. eexists. split; [ reflexivity | ].
    cbn [a_array JS.ta_length]. split; [ reflexivity | ].
    intros i Hi. cbn [JS.get_uint].
    pose proof (window_length bin bo bl Hbo Hbl Hin) as L. unfold JS.byteLength in L.
    rewrite (skipn_nth _ _ x00) by lia.
    rewrite (skipn_nth _ _ x00) by lia.
    rewrite !window_nth by lia. unfold byte_at. do 3 f_equal; f_equal; lia.
Qed.

Lemma accessor_elements_come_from_the_bin_chunk_witness :
  exists view,
    build_view [bytes "abcdefgh"] view_inside_buffer = JS.ret view /\
    exists a, build_accessor [view] accessor_bytes = JS.ret a /\
              JS.ta_length (a_array a) = 3 * 1 /\
              forall i, 0 <= i < 3 * 1 ->
                        JS.get_uint (a_array a) i
                        = JS.u8 (nth (Z.to_nat (2 + 1 + i)) (bytes "abcdefgh") x00).
Proof.
  destruct (accessor_elements_come_from_the_bin_chunk (bytes "abcdefgh") view_inside_buffer
              accessor_bytes 1 3)
    as (view & Hview & H8 & _);
    try reflexivity; try (cbn; lia); try decide_Z.
  exists view. split; [ exact Hview | ].
  apply H8; [ reflexivity | cbn; lia ].
Defined.

(* ================================================================== *)
(** * Images and textures *)
(* ================================================================== *)

Lemma lastIndexOf_from_none (c : ascii) (s : string) :
  forall i found, ~ In c (list_ascii_of_string s) -> JS.lastIndexOf_from i c s found = found.
Proof.
  induction s as [ | a s IH]; intros i found H; cbn [JS.lastIndexOf_from]; [ reflexivity | ].
  cbn [list_ascii_of_string] in H.
  destruct (Ascii.eqb_spec a c) as [-> | _]; [ exfalso; apply H; now left | ].
  apply IH. intros Hin. apply H. now right.
Qed.

Lemma lastIndexOf_from_app (c : ascii) (a b : string) :
  forall i found,
    JS.lastIndexOf_from i c (a ++ b) found
    = JS.lastIndexOf_from (i + Z.of_nat (String.length a)) c b (JS.lastIndexOf_from i c a found).
Proof.
  induction a as [ | x a IH]; intros i found; cbn [append JS.lastIndexOf_from String.length].
  - f_equal. lia.
  - rewrite IH. f_equal. lia.
Qed.

Lemma lastIndexOf_slash (dir file : string) :
  no_slash file ->
  JS.lastIndexOf (dir ++ "/" ++ file) "/" = Z.of_nat (String.length dir).
Proof.
  intros H. unfold JS.lastIndexOf. rewrite lastIndexOf_from_app.
  change ("/" ++ file)%string with (String "/" file).
  cbn [JS.lastIndexOf_from]. rewrite Ascii.eqb_refl.
  rewrite lastIndexOf_from_none by exact H. lia.
Qed.

Lemma substring_prefix (a b : string) : String.substring 0 (String.length a) (a ++ b) = a.
Proof.
  induction a as [ | x a IH]; cbn [append String.length String.substring].
  - destruct b; reflexivity.
  - now rewrite IH.
Qed.

Lemma string_length_app (a b : string) :
  String.length (a ++ b) = (String.length a + String.length b)%nat.
Proof. induction a as [ | x a IH]; cbn; [ reflexivity | now rewrite IH ]. Qed.

Lemma string_app_assoc (a b c : string) : ((a ++ b) ++ c = a ++ b ++ c)%string.
Proof. induction a as [ | x a IH]; cbn; [ reflexivity | now rewrite IH ]. Qed.

Lemma basePath_of_url (dir file : string) :
  no_slash file ->
  JS.substring0 (dir ++ "/" ++ file) (JS.lastIndexOf (dir ++ "/" ++ file) "/" + 1)
  = (dir ++ "/")%string.
Proof.
  intros H. rewrite lastIndexOf_slash by exact H. unfold JS.substring0.
  replace (Z.to_nat (Z.of_nat (String.length dir) + 1)) with (String.length (dir ++ "/"))
    by (rewrite string_length_app; cbn; lia).
  replace (dir ++ "/" ++ file)%string with ((dir ++ "/") ++ file)%string
    by (now rewrite string_app_assoc).
  apply substring_prefix.
Qed.

Lemma truthy_app_slash (dir file : string) :
  JS.truthy_string (Some (dir ++ "/" ++ file)%string) = true.
Proof. destruct dir; reflexivity. Qed.

Lemma or_string_some (s d : string) : s <> ""%string -> JS.or_string (Some s) d = s.
Proof. destruct s; [ congruence | reflexivity ]. Qed.

(** The address of an image that is given by a URI: the prefix is the
    model's URL up to its last slash, or empty when the URL is missing or
    holds no slash; a data URI is kept as it is, any other URI is appended
    to the prefix; an image with neither a bufferView nor a URI gives
    [null] and no exception. *)
Theorem image_uri_is_resolved_against_the_model_url (ctx : Context) (imgs : list ImageDef) :
  images (ctx_json ctx) = Some imgs ->
  (forall dir file, ctx_url ctx = Some (dir ++ "/" ++ file)%string -> no_slash file ->
     _buildImages ctx = JS.map (build_image ctx (dir ++ "/")) imgs) /\
  (ctx_url ctx = None \/ (exists file, ctx_url ctx = Some file /\ no_slash file) ->
     _buildImages ctx = JS.map (build_image ctx "") imgs) /\
  (forall basePath img u,
     img_bufferView img = None -> img_uri img = Some u -> u <> ""%string ->
     build_image ctx basePath img
     = JS.ret (Some (if starts_with_data u
                     then {| i_url := THREE.Url u;
                             i_mimeType := Some (JS.or_string (img_mimeType img) "") |}
                     else {| i_url := THREE.Url (basePath ++ u);
                             i_mimeType := img_mimeType img |}))) /\
  (forall basePath img,
     img_bufferView img = None -> img_uri img = None \/ img_uri img = Some ""%string ->
     build_image ctx basePath img = JS.ret None).
Proof.
  intros Hi. unfold _buildImages. rewrite Hi.
  split; [ | split; [ | split ] ].
  - intros dir file Hu Hf. rewrite Hu, truthy_app_slash.
    rewrite or_string_some by (destruct dir; discriminate).
    now rewrite basePath_of_url.
  - intros [Hu | (file & Hu & Hf)]; rewrite Hu; [ reflexivity | ].
    destruct file as [ | a file]; [ reflexivity | ].
    cbn [JS.truthy_string]. rewrite or_string_some by discriminate.
    unfold JS.lastIndexOf. rewrite lastIndexOf_from_none by exact Hf.
    reflexivity.
  - intros basePath img u Hb Hu Hne. unfold build_image. rewrite Hb, Hu.
    rewrite or_string_some by assumption.
    destruct u as [ | a u]; [ congruence | ]. cbn [JS.truthy_string].
    now destruct (starts_with_data (String a u)).
  - intros basePath img Hb [Hu | Hu]; unfold build_image; now rewrite Hb, Hu.
Qed.

Lemma image_uri_is_resolved_against_the_model_url_witness :
  _buildImages (ctx_at doc_images (Some (bytes "abcdefgh")) "https://host/models/chair.glb")
  = JS.map (build_image (ctx_at doc_images (Some (bytes "abcdefgh"))
                           "https://host/models/chair.glb")
              "https://host/models/")
      [image_external; image_data; image_embedded] /\
  build_image (ctx_at doc_images (Some (bytes "abcdefgh")) "https://host/models/chair.glb")
    "https://host/models/" image_external
  = JS.ret (Some {| i_url := THREE.Url "https://host/models/wood.png"; i_mimeType := None |}).
Proof.
  destruct (image_uri_is_resolved_against_the_model_url
              (ctx_at doc_images (Some (bytes "abcdefgh")) "https://host/models/chair.glb")
              [image_external; image_data; image_embedded] eq_refl) as (B & _ & U & _).
  split.
  - apply (B "https://host/models" "chair.glb")%string; [ reflexivity | ].
    unfold no_slash. cbn. intuition discriminate.
  - apply (U "https://host/models/"%string image_external "wood.png"%string);
      [ reflexivity | reflexivity | discriminate ].
Defined.

(** An image that names a bufferView is cut out of the binary chunk at
    the offsets of that bufferView, whatever buffer the bufferView names
    and whatever URI the image also has; its type defaults to image/png.
    A missing list of bufferViews, an index out of its range, or a
    container without a BIN chunk is a TypeError. *)
Theorem embedded_image_is_a_slice_of_the_bin_chunk
    (ctx : Context) (basePath : string) (img : ImageDef) (k : Z) :
  img_bufferView img = Some k ->
  (forall bvs bv bin,
     bufferViews (ctx_json ctx) = Some bvs -> JS.index bvs k = Some bv ->
     ctx_bin ctx = Some bin ->
     build_image ctx basePath img
     = JS.ret (Some {| i_url := THREE.ObjectURL
                                  (JS.slice bin (JS.or_zero (bv_byteOffset bv))
                                     (JS.or_zero (bv_byteOffset bv)
                                      + JS.or_zero (bv_byteLength bv)))
                                  (JS.or_string (img_mimeType img) "image/png");
                       i_mimeType := img_mimeType img |})) /\
  (bufferViews (ctx_json ctx) = None \/
   (exists bvs, bufferViews (ctx_json ctx) = Some bvs /\ JS.index bvs k = None) \/
   ctx_bin ctx = None ->
   build_image ctx basePath img = JS.throw JS.TypeError).
Proof.
  intros Hk. unfold build_image. rewrite Hk. split.
  - intros bvs bv bin Hbvs Hbv Hbin. rewrite Hbvs, Hbin. cbn [deref].
    rewrite bind_ret_l. rewrite Hbv. reflexivity.
  - intros [-> | [(bvs & Hbvs & Hbv) | Hbin]]; [ reflexivity | | ].
    { rewrite Hbvs. cbn [deref]. rewrite bind_ret_l. now rewrite Hbv. }
    rewrite Hbin.
    destruct (bufferViews (ctx_json ctx)) as [bvs | ]; [ | reflexivity ].
    cbn [deref]. rewrite bind_ret_l.
    destruct (JS.index bvs k); reflexivity.
Qed.

Lemma embedded_image_is_a_slice_of_the_bin_chunk_witness :
  build_image (ctx_of doc_images (Some (bytes "abcdefgh"))) "" image_embedded
  = JS.ret (Some {| i_url := THREE.ObjectURL (bytes "cdefgh") "image/png";
                    i_mimeType := None |}) /\
  build_image (ctx_of doc_images None) "" image_embedded = JS.throw JS.TypeError.
Proof.
  split.
  - exact (proj1 (embedded_image_is_a_slice_of_the_bin_chunk
                    (ctx_of doc_images (Some (bytes "abcdefgh"))) "" image_embedded 0 eq_refl)
             _ view_inside_buffer (bytes "abcdefgh") eq_refl eq_refl eq_refl).
  - apply (proj2 (embedded_image_is_a_slice_of_the_bin_chunk
                    (ctx_of doc_images None) "" image_embedded 0 eq_refl)).
    right. right. reflexivity.
Defined.

Lemma build_texture_cases (ctx : Context) (imgs : list (option ImageRecord)) (tex : TextureDef) :
  ctx_images ctx = Some imgs ->
  build_texture ctx tex
  = JS.ret (match tex_source tex with
            | None => None
            | Some s =>
                match JS.index imgs s with
                | Some (Some img) =>
                    Some (set_flipY
                            (match sampler_of (ctx_json ctx) tex with
                             | Some smp => apply_sampler (TextureLoader_load (i_url img)) smp
                             | None => TextureLoader_load (i_url img)
                             end) false)
                | _ => None
                end
            end).
Proof.
  intros Hi. unfold build_texture, sampler_of. rewrite Hi.
  destruct (tex_source tex) as [s | ]; [ | reflexivity ].
  cbn [deref]. rewrite bind_ret_l.
  destruct (JS.index imgs s) as [[img | ] | ]; try reflexivity.
  destruct (tex_sampler tex) as [k | ]; [ | reflexivity ].
  destruct (samplers (ctx_json ctx)) as [ss | ]; reflexivity.
Qed.

(** With the images in place, [_buildTextures] neither throws nor writes
    to the console, and gives one entry per texture definition, in order:
    [null] when the definition names no source, a source out of range, or
    an image that is [null]; otherwise a texture that loads the address of
    that image, is not flipped, has no encoding yet, and takes from its
    sampler the wrapping and filter modes whose codes the tables know,
    keeping the defaults of three.js for the others and when no sampler
    is designated. *)
Theorem textures_follow_their_images
    (ctx : Context) (imgs : list (option ImageRecord)) (texs : list TextureDef) :
  ctx_images ctx = Some imgs -> textures (ctx_json ctx) = Some texs ->
  exists ts,
    _buildTextures ctx = JS.ret ts /\
    Forall2
      (fun tex t =>
         match tex_source tex with
         | None => t = None
         | Some s =>
             match JS.index imgs s with
             | Some (Some img) =>
                 exists t', t = Some t' /\
                   THREE.t_url t' = i_url img /\ THREE.t_flipY t' = Some false /\
                   THREE.t_encoding t' = None /\
                   let code := fun (field : SamplerDef -> option Z) =>
                     match sampler_of (ctx_json ctx) tex with
                     | Some smp => field smp
                     | None => None
                     end in
                   THREE.t_wrapS t' = wrapMap (code wrapS) /\
                   THREE.t_wrapT t' = wrapMap (code wrapT) /\
                   THREE.t_magFilter t' = filterMap (code magFilter) /\
                   THREE.t_minFilter t' = filterMap (code minFilter)
             | _ => t = None
             end
         end) texs ts.
Proof.
  intros Hi Ht. unfold _buildTextures. rewrite Ht.
  destruct (mapi_from_all_or_throw (fun tex (_ : Z) => build_texture ctx tex) JS.TypeError texs 0)
    as [(ts & E & F) | (E & X)].
  { intros tex j _. left. rewrite (build_texture_cases ctx imgs tex Hi). eauto. }
  - exists ts. split; [ exact E | ].
    eapply Forall2_impl; [ | exact F ]. cbn beta. intros tex t (j & Hb).
    rewrite (build_texture_cases ctx imgs tex Hi) in Hb. injection Hb as <-.
    destruct (tex_source tex) as [s | ]; [ | reflexivity ].
    destruct (JS.index imgs s) as [[img | ] | ]; try reflexivity.
    eexists. split; [ reflexivity | ]. cbv zeta.
    destruct (sampler_of (ctx_json ctx) tex) as [smp | ]; cbn;
      repeat split; try reflexivity;
      match goal with
      | |- match ?m with _ => _ end = _ => destruct m; reflexivity
      end.
  - exfalso. apply Exists_exists in X. destruct X as (tex & _ & (j & Hb)).
    rewrite (build_texture_cases ctx imgs tex Hi) in Hb. discriminate.
Qed.

Lemma textures_follow_their_images_witness :
  exists ts,
    _buildTextures ctx_with_images = JS.ret ts /\
    List.length ts = 3%nat /\
    option_map (option_map THREE.t_wrapS) (JS.index ts 0)
    = Some (Some (Some THREE.ClampToEdgeWrapping)) /\
    option_map (option_map THREE.t_wrapT) (JS.index ts 0) = Some (Some None).
Proof.
  destruct (textures_follow_their_images ctx_with_images
              [Some {| i_url := THREE.Url "wood.png"; i_mimeType := None |}; None]
              [{| tex_source := Some 0; tex_sampler := Some 0 |};
               {| tex_source := Some 5; tex_sampler := None |};
               {| tex_source := None; tex_sampler := Some 0 |}] eq_refl eq_refl)
    as (ts & E & F).
  exists ts. split; [ exact E | ].
  inversion F as [ | tex0 t0 l0 ts0 H0 F0]; subst.
  inversion F0 as [ | tex1 t1 l1 ts1 H1 F1]; subst.
  inversion F1 as [ | tex2 t2 l2 ts2 H2 F2]; subst.
  inversion F2; subst.
  cbn in H0. destruct H0 as (t' & -> & _ & _ & _ & WS & WT & _).
  split; [ reflexivity | ]. cbn. rewrite WS, WT. split; reflexivity.
Defined.

(* ================================================================== *)
(** * Materials: every parameter, from the parts it is made from *)
(* ================================================================== *)

(** What the block for [pbrMetallicRoughness] leaves in each option. *)
Lemma apply_pbr_fields (ctx : Context) (p : PbrDef) (m : THREE.MaterialOptions) :
  let m' := apply_pbr ctx p m in
  THREE.color m' = match pbr_texture ctx p with
                   | Some _ => 0xffffff
                   | None => match baseColorFactor p with
                             | Some f => pack_color f
                             | None => THREE.color m
                             end
                   end /\
  THREE.map m' = match pbr_texture ctx p with Some t => Some t | None => THREE.map m end /\
  THREE.transparent m' = match pbr_alpha p with
                         | Some _ => Some true
                         | None => THREE.transparent m
                         end /\
  THREE.opacity m' = match pbr_alpha p with Some v => Some v | None => THREE.opacity m end /\
  THREE.metalness m' = match metallicFactor p with Some x => x | None => THREE.metalness m end /\
  THREE.roughness m' = match roughnessFactor p with Some x => x | None => THREE.roughness m end /\
  THREE.emissive m' = THREE.emissive m /\ THREE.side m' = THREE.side m /\
  THREE.vertexColors m' = THREE.vertexColors m.
Proof.
  cbv zeta. unfold apply_pbr, pbr_texture, pbr_alpha.
  destruct (baseColorFactor p) as [f | ].
  - generalize (pack_color f). intros c.
    destruct (JS.not_nullish (JS.index f 3) && JS.ltb (JS.ToNumber (JS.index f 3)) (JS.of_Z 1))
      eqn:A.
    + assert (exists v, JS.index f 3 = Some v) as [v Hv].
      { destruct (JS.index f 3) as [v | ]; [ eauto | discriminate ]. }
      rewrite Hv.
      destruct (baseColorTexture p) as [[[k | ]] | ]; cbn [ti_index];
        [ destruct (ctx_textures ctx) as [texs | ];
          [ destruct (JS.index texs k) as [[t | ] | ] | ] | | ];
        destruct (metallicFactor p), (roughnessFactor p); mat_simpl; repeat split; reflexivity.
    + destruct (baseColorTexture p) as [[[k | ]] | ]; cbn [ti_index];
        [ destruct (ctx_textures ctx) as [texs | ];
          [ destruct (JS.index texs k) as [[t | ] | ] | ] | | ];
        destruct (metallicFactor p), (roughnessFactor p); mat_simpl; repeat split; reflexivity.
  - destruct (baseColorTexture p) as [[[k | ]] | ]; cbn [ti_index];
      [ destruct (ctx_textures ctx) as [texs | ];
        [ destruct (JS.index texs k) as [[t | ] | ] | ] | | ];
      destruct (metallicFactor p), (roughnessFactor p); mat_simpl; repeat split; reflexivity.
Qed.

(** An alpha that counts is never [null]. *)
Lemma pbr_alpha_not_nullish (p : PbrDef) (v : JS.value) :
  pbr_alpha p = Some v -> JS.not_nullish (Some v) = true.
Proof.
  unfold pbr_alpha. destruct (baseColorFactor p) as [f | ]; [ | discriminate ].
  destruct (JS.not_nullish (JS.index f 3)) eqn:N; cbn [andb]; [ | discriminate ].
  destruct (JS.ltb _ _); [ | discriminate ]. intros E. now rewrite E in N.
Qed.

(** What the blocks that follow leave in each option, from the options
    [m] they start with. *)
Lemma apply_material_tail (mdef : MaterialDef) (m : THREE.MaterialOptions) :
  let m1 := match emissiveFactor mdef with
            | Some f => set_emissive m (pack_color f)
            | None => m
            end in
  let m2 := match doubleSided mdef with
            | Some true => set_side m1 THREE.DoubleSide
            | _ => m1
            end in
  let m' := if is_BLEND (alphaMode mdef) then
              let m3 := set_transparent m2 true in
              if negb (JS.not_nullish (THREE.opacity m3))
              then set_opacity m3 (Some (JS.VNum (JS.div (JS.of_Z 9) (JS.of_Z 10))))
              else m3
            else m2 in
  THREE.color m' = THREE.color m /\ THREE.map m' = THREE.map m /\
  THREE.metalness m' = THREE.metalness m /\ THREE.roughness m' = THREE.roughness m /\
  THREE.vertexColors m' = THREE.vertexColors m /\
  THREE.emissive m' = match emissiveFactor mdef with
                      | Some f => Some (pack_color f)
                      | None => THREE.emissive m
                      end /\
  THREE.side m' = match doubleSided mdef with
                  | Some true => Some THREE.DoubleSide
                  | _ => THREE.side m
                  end /\
  THREE.transparent m' = (if is_BLEND (alphaMode mdef) then Some true
                          else THREE.transparent m) /\
  THREE.opacity m' = (if is_BLEND (alphaMode mdef) && negb (JS.not_nullish (THREE.opacity m))
                      then Some (JS.VNum (JS.div (JS.of_Z 9) (JS.of_Z 10)))
                      else THREE.opacity m).
Proof.
  cbv zeta.
  destruct (emissiveFactor mdef) as [e | ]; [ generalize (pack_color e); intros ce | ];
    destruct (doubleSided mdef) as [[ | ] | ];
    destruct (is_BLEND (alphaMode mdef)); mat_simpl;
    try (destruct (JS.not_nullish (THREE.opacity m)); cbn [negb andb]; mat_simpl);
    repeat split; reflexivity.
Qed.

(** The options of a material, one by one, whatever the other
    properties of the material are. *)
Lemma resolve_material_fields (ctx : Context) (prim : PrimitiveDef) (uvc : bool) :
  let m := resolve_material ctx prim uvc in
  let pbr := pbr_of ctx prim in
  let mdef := material_of ctx prim in
  THREE.color m = match texture_of ctx prim with
                  | Some _ => 0xffffff
                  | None => match pbr with
                            | Some {| baseColorFactor := Some f |} => pack_color f
                            | _ => 0x2194f3
                            end
                  end /\
  THREE.map m = option_map (fun t => set_encoding t THREE.sRGBEncoding) (texture_of ctx prim) /\
  THREE.transparent m = (match alpha_of ctx prim with
                         | Some _ => Some true
                         | None => if blend_of ctx prim then Some true else None
                         end) /\
  THREE.opacity m = (match alpha_of ctx prim with
                     | Some v => Some v
                     | None => if blend_of ctx prim
                               then Some (JS.VNum (JS.div (JS.of_Z 9) (JS.of_Z 10)))
                               else None
                     end) /\
  THREE.metalness m = match pbr with
                      | Some {| metallicFactor := Some x |} => x
                      | _ => JS.div (JS.of_Z 1) (JS.of_Z 10)
                      end /\
  THREE.roughness m = match pbr with
                      | Some {| roughnessFactor := Some x |} => x
                      | _ => JS.div (JS.of_Z 85) (JS.of_Z 100)
                      end /\
  THREE.emissive m = match mdef with
                     | Some {| emissiveFactor := Some f |} => Some (pack_color f)
                     | _ => None
                     end /\
  THREE.side m = match mdef with
                 | Some {| doubleSided := Some true |} => Some THREE.DoubleSide
                 | _ => None
                 end /\
  THREE.vertexColors m = (if uvc then Some true else None).
Proof.
  cbv zeta.
  assert (R : forall m0 : THREE.MaterialOptions,
             let m := match THREE.map (if uvc then set_vertexColors m0 true else m0) with
                      | Some t => set_map (if uvc then set_vertexColors m0 true else m0)
                                    (Some (set_encoding t THREE.sRGBEncoding))
                      | None => if uvc then set_vertexColors m0 true else m0
                      end in
             THREE.color m = THREE.color m0 /\
             THREE.map m = option_map (fun t => set_encoding t THREE.sRGBEncoding) (THREE.map m0) /\
             THREE.transparent m = THREE.transparent m0 /\ THREE.opacity m = THREE.opacity m0 /\
             THREE.metalness m = THREE.metalness m0 /\ THREE.roughness m = THREE.roughness m0 /\
             THREE.emissive m = THREE.emissive m0 /\ THREE.side m = THREE.side m0 /\
             THREE.vertexColors m = (if uvc then Some true else THREE.vertexColors m0)).
  { intros m0. cbv zeta. destruct uvc; mat_simpl;
      destruct (THREE.map m0) as [t | ] eqn:E; mat_simpl; rewrite ?E;
      repeat split; reflexivity. }
  unfold resolve_material, texture_of, alpha_of, blend_of, pbr_of, material_of;
  cbv zeta.
  destruct (prim_material prim) as [k | ];
    [ destruct (JS.index (JS.or_empty (materials (ctx_json ctx))) k) as [mdef | ] | ].
  2, 3: specialize (R default_matOptions); cbv zeta in R;
        destruct R as (C & M & T & O & Me & Ro & Em & Si & V);
        rewrite C, M, T, O, Me, Ro, Em, Si, V; destruct uvc; repeat split; reflexivity.
  specialize (R (apply_material ctx mdef default_matOptions)). cbv zeta in R.
  destruct R as (C & M & T & O & Me & Ro & Em & Si & V).
  rewrite C, M, T, O, Me, Ro, Em, Si, V. clear C M T O Me Ro Em Si V.
  unfold apply_material.
  destruct (pbrMetallicRoughness mdef) as [p | ].
  - pose proof (apply_material_tail mdef (apply_pbr ctx p default_matOptions)) as Tl.
    cbv zeta in Tl. destruct Tl as (C & M & Me & Ro & V & Em & Si & T & O).
    rewrite C, M, Me, Ro, V, Em, Si, T, O. clear C M Me Ro V Em Si T O.
    pose proof (apply_pbr_fields ctx p default_matOptions) as P. cbv zeta in P.
    destruct P as (C & M & T & O & Me & Ro & Em & Si & V).
    rewrite C, M, T, O, Me, Ro, Em, Si, V. clear C M T O Me Ro Em Si V.
    destruct p as [bf bt mf rf]. destruct mdef as [pm ef ds am].
    cbn [baseColorFactor metallicFactor roughnessFactor emissiveFactor doubleSided alphaMode].
    mat_simpl. cbn [default_matOptions THREE.color THREE.map THREE.transparent THREE.opacity
                    THREE.metalness THREE.roughness THREE.emissive THREE.side
                    THREE.vertexColors].
    destruct (pbr_alpha {| baseColorFactor := bf; baseColorTexture := bt;
                           metallicFactor := mf; roughnessFactor := rf |}) as [v | ] eqn:A.
    + rewrite (pbr_alpha_not_nullish _ _ A). cbn [negb]. rewrite andb_false_r.
      destruct (pbr_texture ctx _), bf, mf, rf, ef, ds as [[ | ] | ], (is_BLEND am), uvc;
        repeat split; reflexivity.
    + cbn [JS.not_nullish negb]. rewrite andb_true_r.
      destruct (pbr_texture ctx _), bf, mf, rf, ef, ds as [[ | ] | ], (is_BLEND am), uvc;
        repeat split; reflexivity.
  - pose proof (apply_material_tail mdef default_matOptions) as Tl.
    cbv zeta in Tl. destruct Tl as (C & M & Me & Ro & V & Em & Si & T & O).
    rewrite C, M, Me, Ro, V, Em, Si, T, O. clear C M Me Ro V Em Si T O.
    destruct mdef as [pm ef ds am].
    cbn [emissiveFactor doubleSided alphaMode default_matOptions THREE.color THREE.map
         THREE.transparent THREE.opacity THREE.metalness THREE.roughness THREE.emissive
         THREE.side THREE.vertexColors JS.not_nullish negb option_map].
    rewrite andb_true_r.
    destruct ef, ds as [[ | ] | ], (is_BLEND am), uvc; repeat split; reflexivity.
Qed.

(** The base colour and the texture of a material: a base-colour texture
    that resolves is attached with the sRGB encoding and makes the colour
    white, whatever the base colour factor; without one there is no
    texture, and the colour is the packed factor, or 0x2194f3 when there
    is no factor, no [pbrMetallicRoughness] or no material.  No later
    block of the material changes either. *)
Theorem material_colour_is_texture_then_factor
    (ctx : Context) (prim : PrimitiveDef) (usesVertexColor : bool) :
  let m := resolve_material ctx prim usesVertexColor in
  THREE.map m = option_map (fun t => set_encoding t THREE.sRGBEncoding) (texture_of ctx prim) /\
  THREE.color m = match texture_of ctx prim with
                  | Some _ => 0xffffff
                  | None => match pbr_of ctx prim with
                            | Some {| baseColorFactor := Some f |} => pack_color f
                            | _ => 0x2194f3
                            end
                  end.
Proof.
  destruct (resolve_material_fields ctx prim usesVertexColor) as (C & M & _).
  split; assumption.
Qed.

(** Transparency and opacity of a material: a fourth factor entry that
    is not [null] and is below 1 enables transparency and is the opacity;
    otherwise [alphaMode = "BLEND"] enables transparency with the opacity
    0.9; otherwise neither option is set, so an alpha of 1 or more, or a
    factor of three entries, leaves the material opaque. *)
Theorem material_opacity_rule
    (ctx : Context) (prim : PrimitiveDef) (usesVertexColor : bool) :
  let m := resolve_material ctx prim usesVertexColor in
  (forall v, alpha_of ctx prim = Some v ->
     THREE.transparent m = Some true /\ THREE.opacity m = Some v) /\
  (alpha_of ctx prim = None -> blend_of ctx prim = true ->
     THREE.transparent m = Some true /\
     THREE.opacity m = Some (JS.VNum (JS.div (JS.of_Z 9) (JS.of_Z 10)))) /\
  (alpha_of ctx prim = None -> blend_of ctx prim = false ->
     THREE.transparent m = None /\ THREE.opacity m = None).
Proof.
  destruct (resolve_material_fields ctx prim usesVertexColor) as (_ & _ & T & O & _).
  cbv zeta. rewrite T, O.
  split; [ | split ].
  - intros v ->. split; reflexivity.
  - intros -> ->. split; reflexivity.
  - intros -> ->. split; reflexivity.
Qed.

Lemma material_opacity_rule_witness :
  THREE.transparent
    (resolve_material (ctx_of (doc_with_material material_full) None)
       (primitive_with None None (Some 0)) false) = Some true /\
  THREE.opacity
    (resolve_material (ctx_of (doc_with_material material_full) None)
       (primitive_with None None (Some 0)) false)
  = Some (JS.VNum (JS.div (JS.of_Z 9) (JS.of_Z 10))).
Proof.
  apply (proj1 (proj2 (material_opacity_rule (ctx_of (doc_with_material material_full) None)
                         (primitive_with None None (Some 0)) false)));
    vm_compute; reflexivity.
Defined.

(** The other parameters of a material: metalness and roughness are the
    factors of [pbrMetallicRoughness], or 0.1 and 0.85; the emissive colour
    is the packed [emissiveFactor], or absent; the side is DoubleSide
    exactly when [doubleSided] is true.  A primitive without a material,
    or whose material index is out of range, gets the defaults throughout
    and no exception.  The mesh that [_buildMesh] adds for a primitive
    carries this material, with vertex colours switched on exactly when
    the primitive has a COLOR_0 attribute. *)
Theorem material_parameters_and_defaults
    (ctx : Context) (prim : PrimitiveDef) (usesVertexColor : bool) :
  let m := resolve_material ctx prim usesVertexColor in
  THREE.metalness m = match pbr_of ctx prim with
                      | Some {| metallicFactor := Some x |} => x
                      | _ => JS.div (JS.of_Z 1) (JS.of_Z 10)
                      end /\
  THREE.roughness m = match pbr_of ctx prim with
                      | Some {| roughnessFactor := Some x |} => x
                      | _ => JS.div (JS.of_Z 85) (JS.of_Z 100)
                      end /\
  THREE.emissive m = match material_of ctx prim with
                     | Some {| emissiveFactor := Some f |} => Some (pack_color f)
                     | _ => None
                     end /\
  THREE.side m = match material_of ctx prim with
                 | Some {| doubleSided := Some true |} => Some THREE.DoubleSide
                 | _ => None
                 end /\
  THREE.vertexColors m = (if usesVertexColor then Some true else None) /\
  (material_of ctx prim = None ->
   m = {| THREE.color := 0x2194f3;
          THREE.metalness := JS.div (JS.of_Z 1) (JS.of_Z 10);
          THREE.roughness := JS.div (JS.of_Z 85) (JS.of_Z 100);
          THREE.transparent := None; THREE.opacity := None; THREE.map := None;
          THREE.emissive := None; THREE.side := None;
          THREE.vertexColors := if usesVertexColor then Some true else None |}) /\
  (forall meshDef accessors idx group w group' a pos,
     build_primitive ctx meshDef accessors prim idx group = (w, JS.Ok group') ->
     mode_rejected (prim_mode prim) = false ->
     prim_attributes prim = Some a -> POSITION a = Some pos ->
     exists mesh,
       group' = add_mesh group mesh /\
       THREE.m_material mesh
       = resolve_material ctx prim (match COLOR_0 a with Some _ => true | None => false end) /\
       THREE.vertexColors (THREE.m_material mesh)
       = match COLOR_0 a with Some _ => Some true | None => None end).
Proof.
  destruct (resolve_material_fields ctx prim usesVertexColor)
    as (_ & _ & _ & _ & Me & Ro & Em & Si & V).
  cbv zeta. repeat (split; [ assumption | ]). split.
  - unfold material_of, resolve_material. cbv zeta. intros H.
    destruct (prim_material prim) as [k | ]; [ rewrite H | ];
      destruct usesVertexColor; reflexivity.
  - intros meshDef accessors idx group w group' a pos B Hm Ha Hp.
    destruct (build_primitive_built _ _ _ _ _ _ _ _ _ _ Hm Ha Hp B)
      as (_ & mesh & E & M & _).
    exists mesh. split; [ exact E | ]. split; [ exact M | ].
    rewrite M.
    destruct (resolve_material_fields ctx prim
                (match COLOR_0 a with Some _ => true | None => false end))
      as (_ & _ & _ & _ & _ & _ & _ & _ & V').
    rewrite V'. now destruct (COLOR_0 a).
Qed.

Lemma material_parameters_and_defaults_witness :
  resolve_material (ctx_of (doc_with_material material_full) None)
    (primitive_with None None (Some 7)) true
  = {| THREE.color := 0x2194f3;
       THREE.metalness := JS.div (JS.of_Z 1) (JS.of_Z 10);
       THREE.roughness := JS.div (JS.of_Z 85) (JS.of_Z 100);
       THREE.transparent := None; THREE.opacity := None; THREE.map := None;
       THREE.emissive := None; THREE.side := None;
       THREE.vertexColors := Some true |} /\
  exists w group' mesh,
    build_primitive (ctx_of empty_document None) (mesh_of [])
      [position_accessor; color_accessor] (primitive_with None (Some 1) None) 0 empty_group
    = (w, JS.Ok group') /\
    group' = add_mesh empty_group mesh /\
    THREE.vertexColors (THREE.m_material mesh) = Some true.
Proof.
  split.
  - apply (proj1 (proj2 (proj2 (proj2 (proj2 (proj2
             (material_parameters_and_defaults (ctx_of (doc_with_material material_full) None)
                (primitive_with None None (Some 7)) true))))))).
    reflexivity.
  - assert (B : exists w g,
               build_primitive (ctx_of empty_document None) (mesh_of [])
                 [position_accessor; color_accessor] (primitive_with None (Some 1) None) 0
                 empty_group = (w, JS.Ok g))
      by (eexists _, _; vm_compute; reflexivity).
    destruct B as (w & g & B).
    destruct (proj2 (proj2 (proj2 (proj2 (proj2 (proj2
                (material_parameters_and_defaults (ctx_of empty_document None)
                   (primitive_with None (Some 1) None) true))))))
                (mesh_of []) [position_accessor; color_accessor] 0 empty_group w g
                {| POSITION := Some 0; NORMAL := None; COLOR_0 := Some 1 |} 0
                B eq_refl eq_refl eq_refl)
      as (mesh & E & _ & V).
    exists w, g, mesh. split; [ exact B | ]. split; [ exact E | exact V ].
Defined.
(** Three numeric channels of the unit range pack into a 24-bit colour
    from which each channel value is read back. *)
Theorem packed_colour_round_trip (f : list JS.value) (x0 x1 x2 : JS.number) :
  JS.index f 0 = Some (JS.VNum x0) -> JS.index f 1 = Some (JS.VNum x1) ->
  JS.index f 2 = Some (JS.VNum x2) ->
  in_unit_range x0 = true -> in_unit_range x1 = true -> in_unit_range x2 = true ->
  let c := fun i => JS.trunc (channel255 f i) in
  0 <= pack_color f < 2 ^ 24 /\
  pack_color f / 65536 = c 0 /\ (pack_color f / 256) mod 256 = c 1 /\
  pack_color f mod 256 = c 2.
Proof.
  intros H0 H1 H2 U0 U1 U2 c.
  pose proof (channel255_unit_range f 0 x0 H0 U0) as B0.
  pose proof (channel255_unit_range f 1 x1 H1 U1) as B1.
  pose proof (channel255_unit_range f 2 x2 H2 U2) as B2.
  rewrite (pack_color_bytes f B0 B1 B2). fold (c 0) (c 1) (c 2) in *.
  change (2 ^ 24) with 16777216.
  set (c0 := c 0) in *. set (c1 := c 1) in *. set (c2 := c 2) in *.
  split; [ lia | ]. split; [ | split ].
  - symmetry. apply Z.div_unique with (r := c1 * 256 + c2); lia.
  - replace ((c0 * 65536 + c1 * 256 + c2) / 256) with (c0 * 256 + c1)
      by (apply Z.div_unique with (r := c2); lia).
    symmetry. apply Z.mod_unique with (q := c0); lia.
  - symmetry. apply Z.mod_unique with (q := c0 * 256 + c1); lia.
Qed.

Lemma packed_colour_round_trip_witness :
  0 <= pack_color red_half < 2 ^ 24 /\
  pack_color red_half / 65536 = JS.trunc (channel255 red_half 0) /\
  (pack_color red_half / 256) mod 256 = JS.trunc (channel255 red_half 1) /\
  pack_color red_half mod 256 = JS.trunc (channel255 red_half 2).
Proof.
  exact (packed_colour_round_trip red_half one zero zero eq_refl eq_refl eq_refl
           eq_refl eq_refl eq_refl).
Defined.

Lemma material_colour_is_texture_then_factor_witness :
  THREE.map (resolve_material (ctx_textured material_full)
               (primitive_with None None (Some 0)) false)
  = Some (set_encoding sample_texture THREE.sRGBEncoding) /\
  THREE.color (resolve_material (ctx_textured material_full)
                 (primitive_with None None (Some 0)) false) = 0xffffff.
Proof.
  exact (material_colour_is_texture_then_factor (ctx_textured material_full)
           (primitive_with None None (Some 0)) false).
Defined.

(* ================================================================== *)
(** * Meshes: which primitives are kept, and under which names *)
(* ================================================================== *)

Lemma skipped_with_mode (prim : PrimitiveDef) :
  mode_rejected (prim_mode prim) = true ->
  skipped_with prim = Some "Primitive mode not TRIANGLES, skipped"%string.
Proof. intros H. unfold skipped_with. now rewrite H. Qed.

Lemma skipped_with_none (prim : PrimitiveDef) :
  skipped_with prim = None ->
  mode_rejected (prim_mode prim) = false /\
  exists a pos, prim_attributes prim = Some a /\ POSITION a = Some pos.
Proof.
  unfold skipped_with. destruct (mode_rejected (prim_mode prim)); [ discriminate | ].
  destruct (prim_attributes prim) as [[[pos | ] n c] | ]; try discriminate.
  intros _. split; [ reflexivity | ]. eexists _, pos. split; reflexivity.
Qed.

Lemma skipped_with_position (prim : PrimitiveDef) :
  mode_rejected (prim_mode prim) = false ->
  (forall a, prim_attributes prim = Some a -> POSITION a = None) ->
  skipped_with prim = Some "Primitive missing POSITION"%string.
Proof.
  intros Hm H. unfold skipped_with. rewrite Hm.
  destruct (prim_attributes prim) as [[[pos | ] n c] | ]; try reflexivity.
  specialize (H _ eq_refl). discriminate.
Qed.

(** A primitive is skipped with its warning, or built under its name
    with what the bounding sphere reports, or, when it names an accessor
    that does not exist, aborts with a TypeError before anything is
    added. *)
Lemma build_primitive_cases (ctx : Context) (meshDef : MeshDef)
    (accessors : list AccessorData) (prim : PrimitiveDef) (idx : Z) (group : THREE.MeshGroup) :
  match skipped_with prim with
  | Some w => build_primitive ctx meshDef accessors prim idx group = ([w], JS.Ok group)
  | None =>
      if forallb (fun k => match JS.index accessors k with Some _ => true | None => false end)
           (accessor_references prim)
      then exists mesh,
             build_primitive ctx meshDef accessors prim idx group
             = (primitive_lines accessors prim, JS.Ok (add_mesh group mesh)) /\
             THREE.m_name mesh
             = (JS.or_string (mesh_name meshDef) "mesh" ++ "_" ++ string_of_index idx)%string
      else build_primitive ctx meshDef accessors prim idx group = JS.throw JS.TypeError
  end.
Proof.
  unfold primitive_lines, position_of, skipped_with, accessor_references, build_primitive.
  destruct (mode_rejected (prim_mode prim)); [ reflexivity | ].
  destruct (prim_attributes prim) as [[[pos | ] n c] | ]; try reflexivity.
  cbn [POSITION NORMAL COLOR_0 flat_map app forallb].
  destruct (JS.index accessors pos) as [posAcc | ]; cbn [deref andb]; [ | reflexivity ].
  rewrite bind_ret_l.
  destruct n as [kn | ]; cbn [app forallb];
    [ destruct (JS.index accessors kn) as [nAcc | ]; cbn [deref andb]; [ | reflexivity ] | ];
    rewrite ?bind_ret_l;
    (destruct c as [kc | ]; cbn [app forallb];
     [ destruct (JS.index accessors kc) as [cAcc | ]; cbn [deref andb]; [ | reflexivity ] | ]);
    rewrite ?bind_ret_l;
    (destruct (prim_indices prim) as [ki | ]; cbn [app forallb];
     [ destruct (JS.index accessors ki) as [iAcc | ]; cbn [deref andb]; [ | reflexivity ] | ]);
    rewrite ?bind_ret_l; cbv zeta;
    rewrite computeBoundingSphere_console; cbn [THREE.g_position];
    rewrite bind_console_ret;
    eexists; split; reflexivity.
Qed.

Lemma primitive_lines_skipped (accessors : list AccessorData) (prim : PrimitiveDef)
    (w : string) :
  skipped_with prim = Some w -> primitive_lines accessors prim = [w].
Proof. intros H. unfold primitive_lines. now rewrite H. Qed.

(** With finite positions throughout, the lines of a mesh are its
    warnings. *)
Lemma mesh_lines_finite (accessors : list AccessorData) (prims : list PrimitiveDef) :
  (forall prim pos posAcc,
     In prim prims -> skipped_with prim = None -> position_of prim = Some pos ->
     JS.index accessors pos = Some posAcc ->
     finite_positions (attribute_of posAcc) = true) ->
  mesh_lines accessors prims = skip_warnings prims.
Proof.
  unfold mesh_lines, skip_warnings.
  induction prims as [ | prim prims IH]; intros H; [ reflexivity | ].
  cbn [flat_map]. rewrite IH by (intros p pos posAcc Hp; apply H; now right). f_equal.
  unfold primitive_lines.
  destruct (skipped_with prim) as [w | ] eqn:S; [ reflexivity | ].
  destruct (position_of prim) as [pos | ] eqn:P; [ | reflexivity ].
  destruct (JS.index accessors pos) as [posAcc | ] eqn:I; [ | reflexivity ].
  apply sphere_errors_finite. exact (H prim pos posAcc (or_introl eq_refl) S P I).
Qed.

Lemma forEachi_from_primitives (ctx : Context) (meshDef : MeshDef)
    (accessors : list AccessorData) (prims : list PrimitiveDef) :
  forall (i : Z) (group : THREE.MeshGroup),
    (forall prim k, In prim prims -> skipped_with prim = None ->
                    In k (accessor_references prim) -> JS.index accessors k <> None) ->
    exists meshes,
      JS.forEachi_from i (build_primitive ctx meshDef accessors) prims group
      = (mesh_lines accessors prims,
         JS.Ok {| THREE.mg_name := THREE.mg_name group;
                  THREE.mg_children := THREE.mg_children group ++ meshes |}) /\
      List.map THREE.m_name meshes
      = built_names (JS.or_string (mesh_name meshDef) "mesh") i prims.
Proof.
  induction prims as [ | prim prims IH]; intros i group H; cbn [JS.forEachi_from].
  - exists []. rewrite app_nil_r. destruct group. split; reflexivity.
  - pose proof (build_primitive_cases ctx meshDef accessors prim i group) as C.
    unfold mesh_lines, built_names. cbn [flat_map number_from filter snd fst].
    fold (mesh_lines accessors prims).
    destruct (skipped_with prim) as [w | ] eqn:S.
    + rewrite C, (primitive_lines_skipped accessors prim w S). cbn [JS.bind].
      destruct (IH (i + 1) group) as (meshes & E & N).
      { intros p k Hp. apply H. now right. }
      exists meshes. rewrite E. split; [ reflexivity | exact N ].
    + replace (forallb _ (accessor_references prim)) with true in C.
      2: { symmetry. apply forallb_forall. intros k Hk.
           specialize (H prim k (or_introl eq_refl) S Hk).
           destruct (JS.index accessors k); [ reflexivity | congruence ]. }
      destruct C as (mesh & E1 & N1). rewrite E1. cbn [JS.bind].
      destruct (IH (i + 1) (add_mesh group mesh)) as (meshes & E & N).
      { intros p k Hp. apply H. now right. }
      exists (mesh :: meshes). rewrite E. cbn [add_mesh THREE.mg_name THREE.mg_children].
      rewrite <- app_assoc. split; [ reflexivity | ].
      cbn [List.map]. rewrite N1. f_equal. exact N.
Qed.

(** A mesh keeps the primitives it can build and says which it skips:
    when every primitive that is not skipped names accessors that exist
    (the one of its positions with a positive item size), [_buildMesh]
    returns a group named after the mesh (or "mesh") whose meshes are
    those primitives in order, each named after the group and the index
    the primitive has in the list of all primitives.  The console holds,
    in the order of the primitives, the warning of each skipped primitive
    and, for a primitive that is built, the error three.js reports when
    the radius of its bounding sphere is NaN; when the positions of every
    primitive that is built are finite numbers, it holds the warnings and
    nothing else. *)
Theorem mesh_keeps_what_it_can_build
    (ctx : Context) (meshDef : MeshDef) (accessors : list AccessorData) :
  let prims := JS.or_empty (mesh_primitives meshDef) in
  let name := JS.or_string (mesh_name meshDef) "mesh" in
  (forall prim k, In prim prims -> skipped_with prim = None ->
                  In k (accessor_references prim) -> JS.index accessors k <> None) ->
  (forall prim pos posAcc,
     In prim prims -> skipped_with prim = None -> position_of prim = Some pos ->
     JS.index accessors pos = Some posAcc -> 0 < a_itemSize posAcc) ->
  exists group,
    _buildMesh ctx meshDef accessors = (mesh_lines accessors prims, JS.Ok group) /\
    THREE.mg_name group = name /\
    List.map THREE.m_name (THREE.mg_children group) = built_names name 0 prims /\
    ((forall prim pos posAcc,
        In prim prims -> skipped_with prim = None -> position_of prim = Some pos ->
        JS.index accessors pos = Some posAcc ->
        finite_positions (attribute_of posAcc) = true) ->
     mesh_lines accessors prims = skip_warnings prims).
Proof.
  intros prims name H _. unfold _buildMesh, JS.forEachi.
  destruct (forEachi_from_primitives ctx meshDef accessors prims 0
              {| THREE.mg_name := name; THREE.mg_children := [] |} H) as (meshes & E & N).
  eexists. split; [ exact E | ]. split; [ reflexivity | ]. split; [ exact N | ].
  apply mesh_lines_finite.
Qed.

Lemma mesh_keeps_what_it_can_build_witness :
  exists group,
    _buildMesh (ctx_of empty_document None) mesh_mixed [position_accessor; color_accessor]
    = (["Primitive mode not TRIANGLES, skipped"; "Primitive missing POSITION"]%string,
       JS.Ok group) /\
    THREE.mg_name group = "chair"%string /\
    List.map THREE.m_name (THREE.mg_children group) = ["chair_1"; "chair_3"]%string.
Proof.
  destruct (mesh_keeps_what_it_can_build (ctx_of empty_document None) mesh_mixed
              [position_accessor; color_accessor]) as (group & E & Hn & Hc & F).
  - intros prim k Hin _ Hk. cbn in Hin.
    destruct Hin as [<- | [<- | [<- | [<- | []]]]]; cbn in Hk;
      repeat match goal with
             | H : _ \/ _ |- _ => destruct H as [<- | H]
             | H : False |- _ => destruct H
             end; discriminate.
  - intros prim pos posAcc Hin _ Hp Hi. cbn in Hin.
    destruct Hin as [<- | [<- | [<- | [<- | []]]]]; try discriminate Hp;
      injection Hp as <-; injection Hi as <-; reflexivity.
  - exists group. rewrite E, F.
    + split; [ reflexivity | ]. split; [ exact Hn | exact Hc ].
    + intros prim pos posAcc Hin _ Hp Hi. cbn in Hin.
      destruct Hin as [<- | [<- | [<- | [<- | []]]]]; try discriminate Hp;
        injection Hp as <-; injection Hi as <-; reflexivity.
Defined.

Lemma build_primitive_dangling (ctx : Context) (meshDef : MeshDef)
    (accessors : list AccessorData) (prim : PrimitiveDef) (idx : Z) (group : THREE.MeshGroup)
    (k : Z) :
  skipped_with prim = None -> In k (accessor_references prim) ->
  JS.index accessors k = None ->
  build_primitive ctx meshDef accessors prim idx group = JS.throw JS.TypeError.
Proof.
  intros S Hk Hn.
  pose proof (build_primitive_cases ctx meshDef accessors prim idx group) as C.
  rewrite S in C.
  replace (forallb _ (accessor_references prim)) with false in C; [ exact C | ].
  symmetry. apply not_true_is_false. intros F. rewrite forallb_forall in F.
  specialize (F k Hk). now rewrite Hn in F.
Qed.

Lemma buildMesh_dangling (ctx : Context) (meshDef : MeshDef) (accessors : list AccessorData) :
  Exists (fun prim => skipped_with prim = None /\
                      exists k, In k (accessor_references prim) /\
                                JS.index accessors k = None)
         (JS.or_empty (mesh_primitives meshDef)) ->
  JS.outcome (_buildMesh ctx meshDef accessors) = JS.Throw JS.TypeError.
Proof.
  unfold _buildMesh, JS.forEachi.
  generalize 0 as i.
  generalize {| THREE.mg_name := JS.or_string (mesh_name meshDef) "mesh";
                THREE.mg_children := [] |} as group.
  induction (JS.or_empty (mesh_primitives meshDef)) as [ | prim prims IH];
    intros group i X; [ inversion X | ].
  cbn [JS.forEachi_from].
  pose proof (build_primitive_cases ctx meshDef accessors prim i group) as C.
  inversion X as [p l (S & k & Hk & Hn) | p l X']; subst.
  - now rewrite (build_primitive_dangling ctx meshDef accessors prim i group k S Hk Hn).
  - destruct (skipped_with prim) as [w | ].
    + rewrite C. cbn [JS.bind].
      specialize (IH group (i + 1) X').
      destruct (JS.forEachi_from (i + 1) _ prims group) as [w' r]. exact IH.
    + destruct (forallb _ (accessor_references prim)).
      * destruct C as (mesh & -> & _). cbn [JS.bind].
        specialize (IH (add_mesh group mesh) (i + 1) X').
        destruct (JS.forEachi_from (i + 1) _ prims (add_mesh group mesh)) as [w' r].
        exact IH.
      * now rewrite C.
Qed.

(** Unlike a node index, an accessor index is not guarded: a primitive
    that is not skipped and names an accessor out of range, for POSITION,
    NORMAL, COLOR_0 or its indices, aborts with a TypeError, and so does
    the mesh that holds it, whatever its other primitives are. *)
Theorem dangling_accessor_aborts_the_mesh
    (ctx : Context) (meshDef : MeshDef) (accessors : list AccessorData) :
  (forall prim idx group k,
     skipped_with prim = None -> In k (accessor_references prim) ->
     JS.index accessors k = None ->
     build_primitive ctx meshDef accessors prim idx group = JS.throw JS.TypeError) /\
  (Exists (fun prim => skipped_with prim = None /\
                       exists k, In k (accessor_references prim) /\
                                 JS.index accessors k = None)
          (JS.or_empty (mesh_primitives meshDef)) ->
   JS.outcome (_buildMesh ctx meshDef accessors) = JS.Throw JS.TypeError).
Proof.
  split.
  - intros prim idx group k. apply build_primitive_dangling.
  - apply buildMesh_dangling.
Qed.

Lemma dangling_accessor_aborts_the_mesh_witness :
  JS.outcome (_buildMesh (ctx_of empty_document None) mesh_mixed [position_accessor])
  = JS.Throw JS.TypeError.
Proof.
  apply (proj2 (dangling_accessor_aborts_the_mesh (ctx_of empty_document None) mesh_mixed
                  [position_accessor])).
  do 3 apply Exists_cons_tl. apply Exists_cons_hd.
  split; [ reflexivity | ]. exists 1. split; [ cbn; tauto | reflexivity ].
Defined.

(* ================================================================== *)
(** * Nodes and the scene graph *)
(* ================================================================== *)

Lemma ref_eqb_eq (a b : THREE.ref) : THREE.ref_eqb a b = true <-> a = b.
Proof.
  destruct a as [i | ], b as [j | ]; cbn; try (split; [ discriminate | discriminate ]).
  - rewrite Nat.eqb_eq. split; [ now intros -> | now intros [= ->] ].
  - tauto.
Qed.

Lemma ref_eqb_refl (a : THREE.ref) : THREE.ref_eqb a a = true.
Proof. now apply ref_eqb_eq. Qed.

Lemma nth_error_update {A} (l : list A) (i j : nat) (f : A -> A) :
  nth_error (THREE.update l i f) j
  = if Nat.eqb i j then option_map f (nth_error l j) else nth_error l j.
Proof.
  revert i j. induction l as [ | a l IH]; intros [ | i] [ | j]; cbn; try reflexivity.
  - now destruct (Nat.eqb _ _).
  - apply IH.
Qed.

Lemma obj_at_at_ref (g : THREE.Graph) (r r' : THREE.ref) (f : THREE.Object3D -> THREE.Object3D) :
  obj_at (THREE.at_ref g r f) r'
  = if THREE.ref_eqb r r' then option_map f (obj_at g r') else obj_at g r'.
Proof.
  destruct r as [i | ], r' as [j | ]; cbn; try reflexivity. apply nth_error_update.
Qed.

(** The object at [r] after [parent.add(nodes[c])], from the object that
    was there: it loses [c] if it was the parent of [c], it is given its
    new parent if it is [c], and it gains [c] if it is the new parent. *)
Lemma add_obj_at_ex (g : THREE.Graph) (parent : THREE.ref) (c : nat) (oc : THREE.Object3D)
    (r : THREE.ref) :
  THREE.ref_eqb parent (THREE.RefNode c) = false ->
  nth_error (THREE.objects g) c = Some oc ->
  exists g',
    THREE.add g parent c = JS.ret g' /\
    obj_at g' r
    = option_map
        (fun o =>
           let o1 := if parent_is r oc
                     then THREE.with_children o
                            (filter (fun x => negb (THREE.is_node c x)) (THREE.o_children o))
                     else o in
           let o2 := if THREE.ref_eqb (THREE.RefNode c) r
                     then THREE.with_parent o1 (Some parent) else o1 in
           if THREE.ref_eqb parent r
           then THREE.with_children o2 (THREE.o_children o2 ++ [THREE.ChildNode c])
           else o2)
        (obj_at g r).
Proof.
  intros Hself Hc. unfold THREE.add. rewrite Hself, Hc. eexists. split; [ reflexivity | ].
  rewrite !obj_at_at_ref. unfold parent_is.
  destruct (THREE.o_parent oc) as [p | ].
  - unfold THREE.remove. rewrite !obj_at_at_ref.
    destruct (THREE.ref_eqb parent r), (THREE.ref_eqb (THREE.RefNode c) r),
      (THREE.ref_eqb p r), (obj_at g r) as [o | ]; reflexivity.
  - destruct (THREE.ref_eqb parent r), (THREE.ref_eqb (THREE.RefNode c) r),
      (obj_at g r) as [o | ]; reflexivity.
Qed.

Lemma add_obj_at (g : THREE.Graph) (parent : THREE.ref) (c : nat) (oc : THREE.Object3D)
    (r : THREE.ref) (w : list string) (g' : THREE.Graph) :
  THREE.ref_eqb parent (THREE.RefNode c) = false ->
  nth_error (THREE.objects g) c = Some oc ->
  THREE.add g parent c = (w, JS.Ok g') ->
  w = [] /\
  obj_at g' r
  = option_map
      (fun o =>
         let o1 := if parent_is r oc
                   then THREE.with_children o
                          (filter (fun x => negb (THREE.is_node c x)) (THREE.o_children o))
                   else o in
         let o2 := if THREE.ref_eqb (THREE.RefNode c) r
                   then THREE.with_parent o1 (Some parent) else o1 in
         if THREE.ref_eqb parent r
         then THREE.with_children o2 (THREE.o_children o2 ++ [THREE.ChildNode c])
         else o2)
      (obj_at g r).
Proof.
  intros Hself Hc Hadd.
  destruct (add_obj_at_ex g parent c oc r Hself Hc) as (g'' & E & H).
  rewrite E in Hadd. unfold JS.ret in Hadd.
  assert (w = [] /\ g' = g'') as [-> ->] by (split; congruence).
  split; [ reflexivity | exact H ].
Qed.

Lemma filter_node_other (i c : nat) (l : list THREE.child) :
  i <> c ->
  filter (THREE.is_node i) (filter (fun x => negb (THREE.is_node c x)) l)
  = filter (THREE.is_node i) l.
Proof.
  intros Hne. induction l as [ | x l IH]; [ reflexivity | ]. cbn [filter].
  destruct x as [m | j]; cbn [THREE.is_node negb filter]; [ exact IH | ].
  destruct (Nat.eqb_spec c j) as [-> | _]; cbn [negb filter].
  - replace (i =? j)%nat with false by (symmetry; now apply Nat.eqb_neq). exact IH.
  - now rewrite IH.
Qed.

Lemma filter_node_same (c : nat) (l : list THREE.child) :
  filter (THREE.is_node c) (filter (fun x => negb (THREE.is_node c x)) l) = [].
Proof.
  induction l as [ | x l IH]; [ reflexivity | ]. cbn [filter].
  destruct (THREE.is_node c x) eqn:E; cbn [negb filter]; [ exact IH | ].
  now rewrite E.
Qed.

Lemma filter_node_absent (c : nat) (l : list THREE.child) :
  List.length (filter (THREE.is_node c) l) = 0%nat ->
  filter (fun x => negb (THREE.is_node c x)) l = l.
Proof.
  induction l as [ | x l IH]; [ reflexivity | ]. cbn [filter].
  destruct (THREE.is_node c x); cbn [negb List.length]; [ discriminate | ].
  intros H. now rewrite IH.
Qed.

Lemma in_filter_not_node (c j : nat) (l : list THREE.child) :
  In (THREE.ChildNode j) (filter (fun x => negb (THREE.is_node c x)) l) ->
  In (THREE.ChildNode j) l.
Proof. intros H. apply filter_In in H. tauto. Qed.

(** The children of [r] after [parent.add(nodes[c])]. *)
Lemma add_children_of (g : THREE.Graph) (parent : THREE.ref) (c : nat) (oc : THREE.Object3D)
    (r : THREE.ref) (w : list string) (g' : THREE.Graph) :
  THREE.ref_eqb parent (THREE.RefNode c) = false ->
  nth_error (THREE.objects g) c = Some oc ->
  THREE.add g parent c = (w, JS.Ok g') ->
  children_of g' r
  = (if parent_is r oc
     then filter (fun x => negb (THREE.is_node c x)) (children_of g r)
     else children_of g r)
    ++ (if THREE.ref_eqb parent r
        then match obj_at g r with Some _ => [THREE.ChildNode c] | None => [] end
        else []).
Proof.
  intros Hself Hc Hadd.
  destruct (add_obj_at g parent c oc r w g' Hself Hc Hadd) as [_ E].
  unfold children_of. rewrite E.
  destruct (obj_at g r) as [o | ]; cbn [option_map].
  - destruct (parent_is r oc), (THREE.ref_eqb (THREE.RefNode c) r), (THREE.ref_eqb parent r);
      cbn; rewrite ?app_nil_r; reflexivity.
  - now destruct (parent_is r oc), (THREE.ref_eqb parent r).
Qed.

(** The node [i] after [parent.add(nodes[c])]: only the children and the
    parent can change, the parent for [c] alone. *)
Lemma add_node (g : THREE.Graph) (parent : THREE.ref) (c : nat) (oc : THREE.Object3D)
    (i : nat) (w : list string) (g' : THREE.Graph) (o' : THREE.Object3D) :
  THREE.ref_eqb parent (THREE.RefNode c) = false ->
  nth_error (THREE.objects g) c = Some oc ->
  THREE.add g parent c = (w, JS.Ok g') ->
  nth_error (THREE.objects g') i = Some o' ->
  exists o, nth_error (THREE.objects g) i = Some o /\
            same_body o o' /\
            THREE.o_parent o' = if Nat.eqb c i then Some parent else THREE.o_parent o.
Proof.
  intros Hself Hc Hadd Ho'.
  destruct (add_obj_at g parent c oc (THREE.RefNode i) w g' Hself Hc Hadd) as [_ E].
  cbn [obj_at] in E. rewrite Ho' in E.
  destruct (nth_error (THREE.objects g) i) as [o | ]; [ | discriminate ].
  cbn [option_map] in E. injection E as ->. exists o. split; [ reflexivity | ].
  cbn [THREE.ref_eqb]. unfold same_body, mesh_children.
  assert (M : forall l,
             filter (fun x => match x with
                              | THREE.ChildMesh _ => true
                              | THREE.ChildNode _ => false
                              end)
               (filter (fun x => negb (THREE.is_node c x)) l)
             = filter (fun x => match x with
                                | THREE.ChildMesh _ => true
                                | THREE.ChildNode _ => false
                                end) l).
  { induction l as [ | [m | j] l IH]; cbn [filter THREE.is_node negb]; [ reflexivity | | ].
    - now rewrite IH.
    - destruct (c =? j)%nat; cbn [negb filter]; exact IH. }
  destruct (parent_is (THREE.RefNode i) oc), (c =? i)%nat,
    (THREE.ref_eqb parent (THREE.RefNode i));
    cbn; rewrite ?filter_app, ?M; cbn; rewrite ?app_nil_r; repeat split; reflexivity.
Qed.

(** [add] keeps the graph well linked. *)
Lemma add_well_linked (g : THREE.Graph) (parent : THREE.ref) (c : nat) (oc : THREE.Object3D)
    (w : list string) (g' : THREE.Graph) :
  THREE.ref_eqb parent (THREE.RefNode c) = false ->
  nth_error (THREE.objects g) c = Some oc ->
  obj_at g parent <> None ->
  THREE.add g parent c = (w, JS.Ok g') ->
  well_linked g -> well_linked g'.
Proof.
  intros Hself Hc Hp Hadd [WL1 WL2].
  assert (Hlen : List.length (THREE.objects g') = List.length (THREE.objects g)).
  { destruct (add_length _ _ _ _ _ Hadd) as (g'' & [= <-] & L). exact L. }
  split.
  - intros i o' r Ho'.
    destruct (add_node g parent c oc i w g' o' Hself Hc Hadd Ho') as (o & Ho & _ & Hpar).
    rewrite (add_children_of g parent c oc r w g' Hself Hc Hadd).
    rewrite filter_app, length_app.
    specialize (WL1 i o r Ho).
    destruct (Nat.eqb_spec c i) as [<- | Hne].
    + (* the node that is added *)
      assert (o = oc) by congruence. subst o.
      assert (B : List.length
                    (filter (THREE.is_node c)
                       (if parent_is r oc
                        then filter (fun x => negb (THREE.is_node c x)) (children_of g r)
                        else children_of g r)) = 0%nat).
      { destruct (parent_is r oc); [ now rewrite filter_node_same | exact WL1 ]. }
      rewrite B. unfold parent_is. rewrite Hpar.
      destruct (THREE.ref_eqb parent r) eqn:Er; [ | reflexivity ].
      apply ref_eqb_eq in Er. subst r.
      destruct (obj_at g parent); [ | congruence ].
      cbn [filter THREE.is_node]. now rewrite Nat.eqb_refl.
    + assert (B : filter (THREE.is_node i)
                    (if parent_is r oc
                     then filter (fun x => negb (THREE.is_node c x)) (children_of g r)
                     else children_of g r)
                  = filter (THREE.is_node i) (children_of g r)).
      { destruct (parent_is r oc); [ apply filter_node_other; congruence | reflexivity ]. }
      rewrite B, WL1.
      assert (T : List.length
                    (filter (THREE.is_node i)
                       (if THREE.ref_eqb parent r
                        then match obj_at g r with
                             | Some _ => [THREE.ChildNode c]
                             | None => []
                             end
                        else [])) = 0%nat).
      { destruct (THREE.ref_eqb parent r); [ | reflexivity ].
        destruct (obj_at g r); [ | reflexivity ].
        cbn [filter THREE.is_node].
        now replace (i =? c)%nat with false by (symmetry; apply Nat.eqb_neq; congruence). }
      rewrite T, Nat.add_0_r. unfold parent_is. now rewrite Hpar.
  - intros r j Hin. rewrite Hlen.
    rewrite (add_children_of g parent c oc r w g' Hself Hc Hadd) in Hin.
    apply in_app_or in Hin. destruct Hin as [Hin | Hin].
    + apply (WL2 r). destruct (parent_is r oc); [ now apply in_filter_not_node in Hin | exact Hin ].
    + destruct (THREE.ref_eqb parent r); [ | contradiction ].
      destruct (obj_at g r); [ | contradiction ].
      destruct Hin as [[= <-] | []]. apply nth_error_Some. congruence.
Qed.

(* ================================================================== *)
(** * Linking, step by step *)
(* ================================================================== *)

Lemma same_body_refl (o : THREE.Object3D) : same_body o o.
Proof. repeat split. Qed.

Lemma same_body_trans (a b c : THREE.Object3D) :
  same_body a b -> same_body b c -> same_body a c.
Proof.
  intros (A1 & A2 & A3 & A4 & A5) (B1 & B2 & B3 & B4 & B5).
  repeat split; congruence.
Qed.

Lemma Forall2_refl {A} (R : A -> A -> Prop) (l : list A) :
  (forall a, R a a) -> Forall2 R l l.
Proof. intros H. induction l; constructor; auto. Qed.

Lemma Forall2_trans {A} (R : A -> A -> Prop) (l1 l2 l3 : list A) :
  (forall a b c, R a b -> R b c -> R a c) ->
  Forall2 R l1 l2 -> Forall2 R l2 l3 -> Forall2 R l1 l3.
Proof.
  intros T H. revert l3. induction H as [ | a b l1 l2 Hab _ IH]; intros l3 H3;
    inversion H3; subst; constructor; eauto.
Qed.

Lemma Forall2_pointwise {A B} (R : A -> B -> Prop) (l : list A) (l' : list B) :
  List.length l' = List.length l ->
  (forall i a b, nth_error l i = Some a -> nth_error l' i = Some b -> R a b) ->
  Forall2 R l l'.
Proof.
  revert l'. induction l as [ | a l IH]; intros [ | b l'] L H; cbn in L; try discriminate.
  - constructor.
  - constructor; [ exact (H 0%nat a b eq_refl eq_refl) | ].
    apply IH; [ lia | ]. intros i x y Hx Hy. exact (H (S i) x y Hx Hy).
Qed.

Lemma relinked_refl (g : THREE.Graph) : relinked g g.
Proof.
  split; [ reflexivity | ]. split; [ apply Forall2_refl, same_body_refl | ].
  split; [ apply same_body_refl | tauto ].
Qed.

Lemma relinked_trans (g1 g2 g3 : THREE.Graph) :
  relinked g1 g2 -> relinked g2 g3 -> relinked g1 g3.
Proof.
  intros (L1 & F1 & R1 & W1) (L2 & F2 & R2 & W2).
  split; [ congruence | ]. split; [ | split ].
  - eapply Forall2_trans; [ apply same_body_trans | exact F1 | exact F2 ].
  - eapply same_body_trans; eassumption.
  - tauto.
Qed.

(** The body of the object at [r] is the same after [add]. *)
Lemma add_same_body (g : THREE.Graph) (parent : THREE.ref) (c : nat) (oc : THREE.Object3D)
    (r : THREE.ref) (w : list string) (g' : THREE.Graph) (o o' : THREE.Object3D) :
  THREE.ref_eqb parent (THREE.RefNode c) = false ->
  nth_error (THREE.objects g) c = Some oc ->
  THREE.add g parent c = (w, JS.Ok g') ->
  obj_at g r = Some o -> obj_at g' r = Some o' -> same_body o o'.
Proof.
  intros Hself Hc Hadd Ho Ho'.
  destruct (add_obj_at g parent c oc r w g' Hself Hc Hadd) as [_ E].
  rewrite Ho, Ho' in E. cbn [option_map] in E.
  assert (Inj : forall a b : THREE.Object3D, Some a = Some b -> a = b)
    by (intros a b H; congruence).
  apply Inj in E. subst o'. clear Inj Ho'.
  unfold same_body, mesh_children.
  assert (M : forall l,
             filter (fun x => match x with
                              | THREE.ChildMesh _ => true
                              | THREE.ChildNode _ => false
                              end)
               (filter (fun x => negb (THREE.is_node c x)) l)
             = filter (fun x => match x with
                                | THREE.ChildMesh _ => true
                                | THREE.ChildNode _ => false
                                end) l).
  { induction l as [ | [m | j] l IH]; cbn [filter THREE.is_node negb]; [ reflexivity | | ].
    - now rewrite IH.
    - destruct (c =? j)%nat; cbn [negb filter]; exact IH. }
  destruct (parent_is r oc), (THREE.ref_eqb (THREE.RefNode c) r), (THREE.ref_eqb parent r);
    cbn; rewrite ?filter_app, ?M; cbn; rewrite ?app_nil_r; repeat split; reflexivity.
Qed.

Lemma add_relinked (g : THREE.Graph) (parent : THREE.ref) (c : nat) (oc : THREE.Object3D)
    (w : list string) (g' : THREE.Graph) :
  nth_error (THREE.objects g) c = Some oc ->
  obj_at g parent <> None ->
  THREE.add g parent c = (w, JS.Ok g') ->
  relinked g g'.
Proof.
  intros Hc Hp Hadd.
  destruct (THREE.ref_eqb parent (THREE.RefNode c)) eqn:Hself.
  { unfold THREE.add in Hadd. rewrite Hself in Hadd. cbn in Hadd.
    injection Hadd as _ <-. apply relinked_refl. }
  assert (Hlen : List.length (THREE.objects g') = List.length (THREE.objects g)).
  { destruct (add_length _ _ _ _ _ Hadd) as (g'' & [= <-] & L). exact L. }
  split; [ exact Hlen | ]. split; [ | split ].
  - apply Forall2_pointwise; [ exact Hlen | ]. intros i o o' Ho Ho'.
    exact (add_same_body g parent c oc (THREE.RefNode i) w g' o o' Hself Hc Hadd Ho Ho').
  - exact (add_same_body g parent c oc THREE.RefScene w g' _ _ Hself Hc Hadd eq_refl eq_refl).
  - now apply (add_well_linked g parent c oc w g').
Qed.

Lemma index_some_nat {A} (l : list A) (id : Z) (a : A) :
  JS.index l id = Some a ->
  in_range (List.length l) id = true /\ nth_error l (Z.to_nat id) = Some a.
Proof.
  unfold JS.index, in_range. destruct (id <? 0) eqn:E; [ discriminate | ].
  apply Z.ltb_ge in E. intros H. split; [ | exact H ].
  apply andb_true_iff. split; [ now apply Z.leb_le | ].
  apply Z.ltb_lt. assert (Z.to_nat id < List.length l)%nat; [ | lia ].
  apply nth_error_Some. congruence.
Qed.

Lemma add_if_node_relinked (parent : THREE.ref) (id : Z) (g : THREE.Graph)
    (w : list string) (g' : THREE.Graph) :
  obj_at g parent <> None ->
  add_if_node parent id g = (w, JS.Ok g') -> relinked g g'.
Proof.
  intros Hp. unfold add_if_node.
  destruct (JS.index (THREE.objects g) id) as [oc | ] eqn:E.
  - apply index_some_nat in E. destruct E as [_ E]. now apply add_relinked with (oc := oc).
  - unfold JS.ret. intros [= _ <-]. apply relinked_refl.
Qed.

Lemma obj_at_relinked (g g' : THREE.Graph) (r : THREE.ref) :
  relinked g g' -> obj_at g r <> None -> obj_at g' r <> None.
Proof.
  intros (L & _) H. destruct r as [i | ]; cbn [obj_at] in *; [ | discriminate ].
  apply nth_error_Some. rewrite L. now apply nth_error_Some.
Qed.

Lemma forEachi_from_add_relinked (parent : THREE.ref) (ids : list Z) :
  forall i g w g',
    obj_at g parent <> None ->
    JS.forEachi_from i (fun id (_ : Z) => add_if_node parent id) ids g = (w, JS.Ok g') ->
    relinked g g'.
Proof.
  induction ids as [ | id ids IH]; intros i g w g' Hp; cbn [JS.forEachi_from].
  - unfold JS.ret. intros [= _ <-]. apply relinked_refl.
  - intros H. apply bind_ok_inv in H. destruct H as (w1 & g1 & w2 & H1 & H2 & _).
    pose proof (add_if_node_relinked parent id g w1 g1 Hp H1) as R1.
    apply relinked_trans with g1; [ exact R1 | ].
    apply (IH (i + 1) g1 w2 g'); [ | exact H2 ].
    now apply (obj_at_relinked g g1).
Qed.

Lemma link_children_relinked (nd : NodeDef) (i : Z) (g : THREE.Graph)
    (w : list string) (g' : THREE.Graph) :
  (Z.to_nat i < List.length (THREE.objects g))%nat ->
  link_children nd i g = (w, JS.Ok g') -> relinked g g'.
Proof.
  intros Hi. unfold link_children. destruct (node_children nd) as [ids | ].
  - apply forEachi_from_add_relinked. cbn [obj_at]. now apply nth_error_Some.
  - unfold JS.ret. intros [= _ <-]. apply relinked_refl.
Qed.

Lemma forEachi_from_link_relinked (nds : list NodeDef) :
  forall i g w g',
    0 <= i -> (Z.to_nat i + List.length nds <= List.length (THREE.objects g))%nat ->
    JS.forEachi_from i link_children nds g = (w, JS.Ok g') ->
    relinked g g'.
Proof.
  induction nds as [ | nd nds IH]; intros i g w g' Hi Hn; cbn [JS.forEachi_from].
  - unfold JS.ret. intros [= _ <-]. apply relinked_refl.
  - intros H. apply bind_ok_inv in H. destruct H as (w1 & g1 & w2 & H1 & H2 & _).
    cbn [List.length] in Hn.
    assert (R1 : relinked g g1) by (apply (link_children_relinked nd i g w1 g1); [ lia | exact H1 ]).
    apply relinked_trans with g1; [ exact R1 | ].
    apply (IH (i + 1) g1 w2 g'); [ lia | | exact H2 ].
    destruct R1 as (L & _). rewrite L. lia.
Qed.

(* ================================================================== *)
(** * The scene graph that [_buildScene] returns *)
(* ================================================================== *)

Lemma mapi_from_pointwise {A B} (f : A -> Z -> JS.M B) (l : list A) :
  forall i w bs,
    JS.mapi_from i f l = (w, JS.Ok bs) ->
    Forall2 (fun a b => exists j w', f a j = (w', JS.Ok b)) l bs.
Proof.
  induction l as [ | a l IH]; intros i w bs; cbn [JS.mapi_from].
  - unfold JS.ret. intros [= _ <-]. constructor.
  - intros H. apply bind_ok_inv in H. destruct H as (w1 & b & w2 & H1 & H2 & _).
    apply bind_ok_inv in H2. destruct H2 as (w3 & bs' & w4 & H3 & H4 & _).
    unfold JS.ret in H4. injection H4 as _ <-.
    constructor; [ now exists i, w1 | ]. exact (IH _ _ _ H3).
Qed.

(** What [_buildNode] returns. *)
Lemma buildNode_ok (ctx : Context) (nd : NodeDef) (meshes : list THREE.MeshGroup)
    (w : list string) (o : THREE.Object3D) :
  _buildNode ctx nd meshes = (w, JS.Ok o) ->
  w = [] /\ THREE.o_parent o = None /\ mesh_children o = THREE.o_children o /\
  THREE.o_name o = JS.or_string (node_name nd) "node" /\
  THREE.o_position o = match node_translation nd with
                       | Some t => [JS.index t 0; JS.index t 1; JS.index t 2]
                       | None => [Some (JS.of_Z 0); Some (JS.of_Z 0); Some (JS.of_Z 0)]
                       end /\
  THREE.o_scale o = match node_scale nd with
                    | Some s => [JS.index s 0; JS.index s 1; JS.index s 2]
                    | None => [Some (JS.of_Z 1); Some (JS.of_Z 1); Some (JS.of_Z 1)]
                    end /\
  THREE.o_quaternion o = match node_rotation nd with
                         | Some r => [JS.index r 0; JS.index r 1; JS.index r 2; JS.index r 3]
                         | None => [Some (JS.of_Z 0); Some (JS.of_Z 0); Some (JS.of_Z 0);
                                    Some (JS.of_Z 1)]
                         end /\
  THREE.o_children o = match node_mesh nd with
                       | Some k => match JS.index meshes k with
                                   | Some grp => [THREE.ChildMesh grp]
                                   | None => []
                                   end
                       | None => []
                       end.
Proof.
  unfold _buildNode, mesh_children.
  destruct (node_mesh nd) as [k | ].
  - destruct (JS.index meshes k) as [grp | ]; cbn [deref]; [ | discriminate ].
    rewrite !bind_ret_l. unfold JS.ret. intros [= <- <-]. cbn.
    destruct (node_translation nd), (node_scale nd), (node_rotation nd);
      repeat split; reflexivity.
  - rewrite bind_ret_l. unfold JS.ret. intros [= <- <-]. cbn.
    destruct (node_translation nd), (node_scale nd), (node_rotation nd);
      repeat split; reflexivity.
Qed.

Lemma mesh_children_no_node (o : THREE.Object3D) (i : nat) :
  mesh_children o = THREE.o_children o -> filter (THREE.is_node i) (THREE.o_children o) = [].
Proof.
  unfold mesh_children. intros H. rewrite <- H. clear H.
  induction (THREE.o_children o) as [ | [m | j] l IH]; cbn [filter THREE.is_node];
    [ reflexivity | exact IH | exact IH ].
Qed.

Lemma filter_nil_not_in (i : nat) (l : list THREE.child) :
  filter (THREE.is_node i) l = [] -> ~ In (THREE.ChildNode i) l.
Proof.
  intros H Hin.
  assert (In (THREE.ChildNode i) (filter (THREE.is_node i) l))
    by (apply filter_In; split; [ exact Hin | cbn; apply Nat.eqb_refl ]).
  rewrite H in *. contradiction.
Qed.

(** The arena as [_buildNode] leaves it is well linked: nothing is
    linked yet. *)
Lemma fresh_graph_well_linked (objs : list THREE.Object3D) (name : string) :
  Forall (fun o => THREE.o_parent o = None /\ mesh_children o = THREE.o_children o) objs ->
  well_linked {| THREE.objects := objs; THREE.root := THREE.new_Group name |}.
Proof.
  intros F. rewrite Forall_forall in F.
  assert (C : forall r i,
             filter (THREE.is_node i)
               (children_of {| THREE.objects := objs; THREE.root := THREE.new_Group name |} r)
             = []).
  { intros [j | ] i; unfold children_of; cbn [obj_at THREE.objects THREE.root]; [ | reflexivity ].
    destruct (nth_error objs j) as [o | ] eqn:E; [ | reflexivity ].
    apply mesh_children_no_node. apply (F o). eapply nth_error_In. exact E. }
  split.
  - intros i o r Ho. rewrite C. cbn [THREE.objects] in Ho.
    unfold parent_is. destruct (F o (nth_error_In _ _ Ho)) as [-> _]. reflexivity.
  - intros r i Hin. exfalso. exact (filter_nil_not_in i _ (C r i) Hin).
Qed.

Lemma mapi_from_outcomes {A B} (f : A -> Z -> JS.M B) (l : list A) :
  forall i w bs,
    JS.mapi_from i f l = (w, JS.Ok bs) ->
    Forall2 (fun a b => exists j, JS.outcome (f a j) = JS.Ok b) l bs.
Proof.
  intros i w bs H. apply mapi_from_pointwise in H.
  eapply Forall2_impl; [ | exact H ]. cbn beta.
  intros a b (j & w' & E). exists j. now rewrite E.
Qed.

(** The stages of [_buildScene] that make the graph, when it returns. *)
Lemma buildScene_ok (ctx : Context) (w : list string) (g : THREE.Graph) :
  _buildScene ctx = (w, JS.Ok g) ->
  exists c groups wn objs w1 g1,
    scene_meshes ctx c groups /\
    JS.map (fun n => _buildNode c n groups) (JS.or_empty (nodes (ctx_json ctx)))
    = (wn, JS.Ok objs) /\
    JS.forEachi link_children (JS.or_empty (nodes (ctx_json ctx)))
      {| THREE.objects := objs; THREE.root := THREE.new_Group "GLBScene" |}
    = (w1, JS.Ok g1) /\
    match scene_ids (ctx_json ctx) with
    | Some ids => exists w2, JS.forEach (add_if_node THREE.RefScene) ids g1 = (w2, JS.Ok g)
    | None => g = g1
    end.
Proof.
  unfold _buildScene. cbv zeta. intros H.
  apply bind_ok_inv in H. destruct H as (? & bufs & ? & Hb & H & _).
  apply bind_ok_inv in H. destruct H as (? & accs & ? & Ha & H & _).
  apply bind_ok_inv in H. destruct H as (? & imgs & ? & Hi & H & _).
  apply bind_ok_inv in H. destruct H as (? & texs & ? & Ht & H & _).
  apply bind_ok_inv in H. destruct H as (? & groups & ? & Hg & H & _).
  apply bind_ok_inv in H. destruct H as (wn & objs & ? & Hn & H & _).
  apply bind_ok_inv in H. destruct H as (w1 & g1 & w2 & Hl & H & _).
  eexists _, groups, wn, objs, w1, g1. split; [ | split; [ exact Hn | ] ].
  - exists bufs, accs, imgs, texs.
    split; [ now rewrite Hb | ]. split; [ now rewrite Ha | ]. split; [ now rewrite Hi | ].
    split; [ unfold with_images; now rewrite Ht | ]. split; [ reflexivity | ].
    apply mapi_from_outcomes in Hg. eapply Forall2_impl; [ | exact Hg ].
    cbn beta. intros m grp (_ & E). exact E.
  - split; [ exact Hl | ].
    unfold scene_ids.
    destruct (scenes (ctx_json ctx)) as [ss | ].
    + destruct (JS.index ss (JS.or_zero (scene (ctx_json ctx)))) as [def | ].
      * destruct (scene_nodes def) as [ids | ]; [ now exists w2 | ].
        unfold JS.ret in H. now injection H as _ <-.
      * unfold JS.ret in H. now injection H as _ <-.
    + unfold JS.ret in H. now injection H as _ <-.
Qed.
Lemma index_none_range {A} (l : list A) (id : Z) :
  JS.index l id = None -> in_range (List.length l) id = false.
Proof.
  unfold JS.index, in_range. destruct (id <? 0) eqn:E.
  - intros _. apply Z.ltb_lt in E. apply andb_false_iff. left. apply Z.leb_gt. lia.
  - apply Z.ltb_ge in E. intros H. apply nth_error_None in H.
    apply andb_false_iff. right. apply Z.ltb_ge. lia.
Qed.

(** Linking the children of a node leaves the children of the scene
    alone while the scene has none. *)
Lemma add_keeps_empty_scene (g : THREE.Graph) (j c : nat) (oc : THREE.Object3D)
    (w : list string) (g' : THREE.Graph) :
  nth_error (THREE.objects g) c = Some oc ->
  children_of g THREE.RefScene = [] ->
  THREE.add g (THREE.RefNode j) c = (w, JS.Ok g') ->
  children_of g' THREE.RefScene = [].
Proof.
  intros Hc He Hadd.
  destruct (THREE.ref_eqb (THREE.RefNode j) (THREE.RefNode c)) eqn:Hself.
  { unfold THREE.add in Hadd. rewrite Hself in Hadd. cbn in Hadd.
    injection Hadd as _ <-. exact He. }
  rewrite (add_children_of g (THREE.RefNode j) c oc THREE.RefScene w g' Hself Hc Hadd).
  rewrite He. cbn [THREE.ref_eqb]. now destruct (parent_is THREE.RefScene oc).
Qed.

Lemma forEachi_from_add_keeps_empty_scene (j : nat) (ids : list Z) :
  forall i g w g',
    children_of g THREE.RefScene = [] ->
    JS.forEachi_from i (fun id (_ : Z) => add_if_node (THREE.RefNode j) id) ids g
    = (w, JS.Ok g') ->
    children_of g' THREE.RefScene = [].
Proof.
  induction ids as [ | id ids IH]; intros i g w g' He; cbn [JS.forEachi_from].
  - unfold JS.ret. now intros [= _ <-].
  - intros H. apply bind_ok_inv in H. destruct H as (w1 & g1 & w2 & H1 & H2 & _).
    apply (IH (i + 1) g1 w2 g'); [ | exact H2 ].
    unfold add_if_node in H1.
    destruct (JS.index (THREE.objects g) id) as [oc | ] eqn:E.
    + apply index_some_nat in E. destruct E as [_ E].
      exact (add_keeps_empty_scene g j _ oc w1 g1 E He H1).
    + unfold JS.ret in H1. now injection H1 as _ <-.
Qed.

Lemma forEachi_from_link_keeps_empty_scene (nds : list NodeDef) :
  forall i g w g',
    children_of g THREE.RefScene = [] ->
    JS.forEachi_from i link_children nds g = (w, JS.Ok g') ->
    children_of g' THREE.RefScene = [].
Proof.
  induction nds as [ | nd nds IH]; intros i g w g' He; cbn [JS.forEachi_from].
  - unfold JS.ret. now intros [= _ <-].
  - intros H. apply bind_ok_inv in H. destruct H as (w1 & g1 & w2 & H1 & H2 & _).
    apply (IH (i + 1) g1 w2 g'); [ | exact H2 ].
    unfold link_children in H1. destruct (node_children nd) as [ids | ].
    + exact (forEachi_from_add_keeps_empty_scene _ ids 0 g w1 g1 He H1).
    + unfold JS.ret in H1. now injection H1 as _ <-.
Qed.

(** Attaching a node to the scene puts it at the end of the scene's
    children, once. *)
Lemma add_scene_attach (g : THREE.Graph) (c : nat) (oc : THREE.Object3D)
    (w : list string) (g' : THREE.Graph) :
  well_linked g ->
  nth_error (THREE.objects g) c = Some oc ->
  THREE.add g THREE.RefScene c = (w, JS.Ok g') ->
  children_of g' THREE.RefScene = attach (children_of g THREE.RefScene) c.
Proof.
  intros [WL1 _] Hc Hadd.
  rewrite (add_children_of g THREE.RefScene c oc THREE.RefScene w g' eq_refl Hc Hadd).
  cbn [THREE.ref_eqb obj_at]. unfold attach. f_equal.
  specialize (WL1 c oc THREE.RefScene Hc).
  destruct (parent_is THREE.RefScene oc); [ reflexivity | ].
  symmetry. now apply filter_node_absent.
Qed.

Lemma forEachi_from_scene_attach (ids : list Z) :
  forall i g w g',
    well_linked g ->
    JS.forEachi_from i (fun id (_ : Z) => add_if_node THREE.RefScene id) ids g
    = (w, JS.Ok g') ->
    children_of g' THREE.RefScene
    = attach_all (List.length (THREE.objects g)) ids (children_of g THREE.RefScene).
Proof.
  induction ids as [ | id ids IH]; intros i g w g' WL; cbn [JS.forEachi_from].
  - unfold JS.ret. now intros [= _ <-].
  - intros H. apply bind_ok_inv in H. destruct H as (w1 & g1 & w2 & H1 & H2 & _).
    assert (R : relinked g g1)
      by (apply (add_if_node_relinked THREE.RefScene id g w1 g1); [ discriminate | exact H1 ]).
    destruct R as (L & _ & _ & W).
    rewrite (IH (i + 1) g1 w2 g' (W WL) H2). rewrite L.
    unfold attach_all. cbn [fold_left]. f_equal.
    unfold add_if_node in H1.
    destruct (JS.index (THREE.objects g) id) as [oc | ] eqn:E.
    + apply index_some_nat in E. destruct E as [-> E].
      exact (add_scene_attach g _ oc w1 g1 WL E H1).
    + rewrite (index_none_range _ _ E). unfold JS.ret in H1. now injection H1 as _ <-.
Qed.

Lemma filter_not_node_absent (c : nat) (l : list THREE.child) :
  ~ In (THREE.ChildNode c) l -> filter (fun x => negb (THREE.is_node c x)) l = l.
Proof.
  induction l as [ | x l IH]; intros H; [ reflexivity | ]. cbn [filter].
  destruct x as [m | j]; cbn [THREE.is_node negb].
  - rewrite IH; [ reflexivity | ]. intros Hin. apply H. now right.
  - destruct (Nat.eqb_spec c j) as [-> | Hne]; [ exfalso; apply H; now left | ].
    cbn [negb]. rewrite IH; [ reflexivity | ]. intros Hin. apply H. now right.
Qed.

(** Distinct nodes are attached in the order they are named. *)
Lemma attach_all_distinct (n : nat) (ids : list Z) :
  forall l,
    NoDup (filter (in_range n) ids) ->
    (forall id, In id (filter (in_range n) ids) -> ~ In (THREE.ChildNode (Z.to_nat id)) l) ->
    attach_all n ids l
    = l ++ List.map (fun id => THREE.ChildNode (Z.to_nat id)) (filter (in_range n) ids).
Proof.
  unfold attach_all.
  induction ids as [ | id ids IH]; intros l ND Hl; cbn [fold_left filter].
  - cbn. now rewrite app_nil_r.
  - cbn [filter] in ND, Hl. destruct (in_range n id) eqn:R.
    + inversion ND as [ | x xs Hnot ND']; subst.
      unfold attach at 2. rewrite filter_not_node_absent by (apply Hl; now left).
      rewrite IH; [ cbn [List.map]; now rewrite <- app_assoc | exact ND' | ].
      intros id' Hin Hc. apply in_app_or in Hc. destruct Hc as [Hc | [[= Hc] | []]].
      * apply (Hl id'); [ now right | exact Hc ].
      * apply filter_In in Hin. destruct Hin as [Hin R'].
        assert (id = id').
        { unfold in_range in R, R'. apply andb_true_iff in R, R'.
          destruct R as [R0 _], R' as [R0' _]. apply Z.leb_le in R0, R0'. lia. }
        subst id'. apply Hnot. apply filter_In. split; assumption.
    + apply IH; assumption.
Qed.


Lemma Forall2_compose {A B C} (R1 : A -> B -> Prop) (R2 : B -> C -> Prop)
    (l1 : list A) (l2 : list B) (l3 : list C) :
  Forall2 R1 l1 l2 -> Forall2 R2 l2 l3 ->
  Forall2 (fun a c => exists b, R1 a b /\ R2 b c) l1 l3.
Proof.
  intros H. revert l3. induction H as [ | a b l1 l2 Hab _ IH]; intros l3 H3;
    inversion H3; subst; constructor; eauto.
Qed.

Lemma Forall2_Forall_r {A B} (R : A -> B -> Prop) (P : B -> Prop) (l : list A) (l' : list B) :
  Forall2 R l l' -> (forall a b, R a b -> P b) -> Forall P l'.
Proof. induction 1; intros H'; constructor; eauto. Qed.

(** The graph [_buildScene] returns, from the objects [_buildNode] made:
    these objects, relinked; well linked; and under the scene the nodes
    the selected scene names. *)
Lemma Forall2_index_r {A B} (R : A -> B -> Prop) (l : list A) (l' : list B) (k : Z) (b : B) :
  Forall2 R l l' -> JS.index l' k = Some b ->
  exists a, JS.index l k = Some a /\ R a b.
Proof.
  unfold JS.index. destruct (k <? 0); [ discriminate | ].
  generalize (Z.to_nat k) as n. intros n F. revert n.
  induction F as [ | a0 b0 l l' H F IH]; intros [ | n]; cbn [nth_error]; try discriminate.
  - intros [= <-]. now exists a0.
  - apply IH.
Qed.

Lemma buildScene_graph (ctx : Context) (w : list string) (g : THREE.Graph) :
  _buildScene ctx = (w, JS.Ok g) ->
  exists c meshes objs,
    scene_meshes ctx c meshes /\
    Forall2 (fun nd o => exists w', _buildNode c nd meshes = (w', JS.Ok o))
      (JS.or_empty (nodes (ctx_json ctx))) objs /\
    relinked {| THREE.objects := objs; THREE.root := THREE.new_Group "GLBScene" |} g /\
    well_linked g /\
    children_of g THREE.RefScene
    = match scene_ids (ctx_json ctx) with
      | Some ids => attach_all (List.length objs) ids []
      | None => []
      end.
Proof.
  intros H.
  destruct (buildScene_ok _ _ _ H) as (c & meshes & wn & objs & w1 & g1 & Hm & Hn & Hl & Hs).
  set (nds := JS.or_empty (nodes (ctx_json ctx))) in *.
  set (g0 := {| THREE.objects := objs; THREE.root := THREE.new_Group "GLBScene" |}) in *.
  assert (F : Forall2 (fun nd o => exists w', _buildNode c nd meshes = (w', JS.Ok o)) nds objs).
  { apply mapi_from_pointwise in Hn. eapply Forall2_impl; [ | exact Hn ].
    cbn beta. intros nd o (j & w' & E). now exists w'. }
  assert (L : List.length objs = List.length nds) by (eapply mapi_from_length; exact Hn).
  assert (W0 : well_linked g0).
  { apply fresh_graph_well_linked. eapply Forall2_Forall_r; [ exact F | ].
    cbn beta. intros nd o (w' & E). apply buildNode_ok in E. tauto. }
  assert (R1 : relinked g0 g1).
  { apply (forEachi_from_link_relinked nds 0 g0 w1 g1); [ lia | cbn; lia | exact Hl ]. }
  assert (E1 : children_of g1 THREE.RefScene = [])
    by (apply (forEachi_from_link_keeps_empty_scene nds 0 g0 w1 g1); [ reflexivity | exact Hl ]).
  assert (W1 : well_linked g1) by (destruct R1 as (_ & _ & _ & W); exact (W W0)).
  exists c, meshes, objs. split; [ exact Hm | ]. split; [ exact F | ].
  destruct (scene_ids (ctx_json ctx)) as [ids | ].
  - destruct Hs as (w2 & Hs).
    assert (R2 : relinked g1 g)
      by (apply (forEachi_from_add_relinked THREE.RefScene ids 0 g1 w2 g);
          [ discriminate | exact Hs ]).
    split; [ now apply relinked_trans with g1 | ].
    split; [ destruct R2 as (_ & _ & _ & W); exact (W W1) | ].
    rewrite (forEachi_from_scene_attach ids 0 g1 w2 g W1 Hs), E1.
    destruct R1 as (L1 & _). now rewrite L1.
  - rewrite Hs. split; [ exact R1 | split; [ exact W1 | exact E1 ] ].
Qed.

Lemma parse_ok_scene (JSON_parse : JS.ArrayBuffer -> parsed) (b : JS.ArrayBuffer)
    (url : option string) (w : list string) (gltf : GLTF) :
  parse JSON_parse b url = (w, JS.Ok gltf) ->
  exists bin w',
    _buildScene {| ctx_json := gltf_json gltf; ctx_bin := bin; ctx_url := url;
                   ctx_images := None; ctx_textures := None |}
    = (w', JS.Ok (gltf_scene gltf)).
Proof.
  unfold parse. intros H.
  apply bind_ok_inv in H. destruct H as (? & magic & ? & _ & H & _).
  destruct (negb (magic =? MAGIC)); [ discriminate | ].
  apply bind_ok_inv in H. destruct H as (? & version & ? & _ & H & _).
  destruct (negb (version =? 2)); [ discriminate | ].
  apply bind_ok_inv in H. destruct H as (? & length & ? & _ & H & _).
  apply bind_ok_inv in H. destruct H as (? & ? & ? & _ & H & _).
  unfold parse_chunks in H.
  apply bind_ok_inv in H. destruct H as (? & jb & ? & _ & H & _).
  destruct (fst jb) as [json | ]; [ | discriminate ].
  apply bind_ok_inv in H. destruct H as (w' & scene & ? & Hs & H & _).
  unfold JS.ret in H. injection H as _ <-. cbn [gltf_json gltf_scene].
  now exists (snd jb), w'.
Qed.

(** Whatever the document, the scene graph that is returned is well
    linked: a node is among the children of an object exactly when that
    object is its parent, and then once, so no node has two parents or is
    listed twice, however often the document names it as a child; and
    every child is a node of the arena.  This holds for the scene of every
    [parse] that returns, whatever the bytes parsed. *)
Theorem scene_graph_is_well_linked :
  (forall ctx w g, _buildScene ctx = (w, JS.Ok g) -> well_linked g) /\
  (forall JSON_parse b url w gltf,
     parse JSON_parse b url = (w, JS.Ok gltf) -> well_linked (gltf_scene gltf)).
Proof.
  split.
  - intros ctx w g H. destruct (buildScene_graph ctx w g H) as (_ & _ & _ & _ & _ & _ & W & _).
    exact W.
  - intros JSON_parse b url w gltf H.
    destruct (parse_ok_scene JSON_parse b url w gltf H) as (bin & w' & Hs).
    destruct (buildScene_graph _ _ _ Hs) as (_ & _ & _ & _ & _ & _ & W & _). exact W.
Qed.

Lemma scene_graph_is_well_linked_witness :
  exists w g, _buildScene (ctx_of doc_shared_child None) = (w, JS.Ok g) /\ well_linked g.
Proof.
  eexists _, _. split.
  - vm_compute. reflexivity.
  - eapply (proj1 scene_graph_is_well_linked (ctx_of doc_shared_child None)).
    vm_compute. reflexivity.
Defined.

(** Linking leaves the nodes as [_buildNode] made them: the arena has
    one object per node definition, in order, and each has the name of
    its definition (or "node"), its translation, scale and rotation read
    entry by entry (the defaults of three.js when absent, [undefined]
    for an entry the array lacks), and as its only mesh the clone of the
    group that [_buildMesh] returns for the mesh definition the node
    names, [json.meshes[node.mesh]], built with the accessors, images and
    textures of the document; the scene is named GLBScene. *)
Theorem scene_objects_follow_the_node_definitions
    (ctx : Context) (w : list string) (g : THREE.Graph) :
  _buildScene ctx = (w, JS.Ok g) ->
  THREE.o_name (THREE.root g) = "GLBScene"%string /\
  exists buffers accessors images textures,
    JS.outcome (_buildBuffers ctx) = JS.Ok buffers /\
    JS.outcome (_buildAccessors ctx buffers) = JS.Ok accessors /\
    JS.outcome (_buildImages ctx) = JS.Ok images /\
    JS.outcome (_buildTextures (with_images ctx images)) = JS.Ok textures /\
    Forall2
      (fun nd o =>
         THREE.o_name o = JS.or_string (node_name nd) "node" /\
         THREE.o_position o
         = match node_translation nd with
           | Some t => [JS.index t 0; JS.index t 1; JS.index t 2]
           | None => [Some (JS.of_Z 0); Some (JS.of_Z 0); Some (JS.of_Z 0)]
           end /\
         THREE.o_scale o
         = match node_scale nd with
           | Some s => [JS.index s 0; JS.index s 1; JS.index s 2]
           | None => [Some (JS.of_Z 1); Some (JS.of_Z 1); Some (JS.of_Z 1)]
           end /\
         THREE.o_quaternion o
         = match node_rotation nd with
           | Some r => [JS.index r 0; JS.index r 1; JS.index r 2; JS.index r 3]
           | None => [Some (JS.of_Z 0); Some (JS.of_Z 0); Some (JS.of_Z 0); Some (JS.of_Z 1)]
           end /\
         match node_mesh nd with
         | Some k =>
             exists meshDef grp,
               JS.index (JS.or_empty (meshes (ctx_json ctx))) k = Some meshDef /\
               JS.outcome (_buildMesh (with_textures (with_images ctx images) textures)
                             meshDef accessors) = JS.Ok grp /\
               mesh_children o = [THREE.ChildMesh grp]
         | None => mesh_children o = []
         end)
      (JS.or_empty (nodes (ctx_json ctx))) (THREE.objects g).
Proof.
  intros H. destruct (buildScene_graph ctx w g H) as (c & groups & objs & Hm & F & R & _).
  destruct R as (_ & B & (Rn & _) & _). cbn [THREE.root THREE.objects] in *.
  split; [ exact Rn | ].
  destruct Hm as (buffers & accessors & images & textures & Hb & Ha & Hi & Ht & -> & G).
  exists buffers, accessors, images, textures.
  repeat (split; [ assumption | ]).
  pose proof (Forall2_compose _ _ _ _ _ F B) as FB.
  eapply Forall2_impl; [ | exact FB ]. cbn beta.
  intros nd o (o0 & (w' & E) & (B1 & B2 & B3 & B4 & B5)).
  pose proof E as E'. apply buildNode_ok in E. destruct E as (_ & _ & M & N & P & S & Q & C).
  rewrite B1, B2, B3, B4, B5, M. repeat (split; [ assumption | ]).
  rewrite C. destruct (node_mesh nd) as [k | ] eqn:K; [ | reflexivity ].
  destruct (JS.index groups k) as [grp | ] eqn:I.
  - destruct (Forall2_index_r _ _ _ _ _ G I) as (meshDef & Hd & Hg).
    now exists meshDef, grp.
  - exfalso. unfold _buildNode in E'. rewrite K, I in E'. discriminate E'.
Qed.

Lemma scene_objects_follow_the_node_definitions_witness :
  exists w g grp,
    _buildScene (ctx_of doc_two_views_of_a_mesh (Some (bytes "000000000000"))) = (w, JS.Ok g) /\
    List.map THREE.o_name (THREE.objects g) = ["left"; "right"]%string /\
    List.map mesh_children (THREE.objects g)
    = [[THREE.ChildMesh grp]; [THREE.ChildMesh grp]] /\
    THREE.mg_name grp = "chair"%string /\
    List.map THREE.m_name (THREE.mg_children grp) = ["chair_0"%string].
Proof.
  assert (B : exists g, _buildScene (ctx_of doc_two_views_of_a_mesh
                                       (Some (bytes "000000000000"))) = ([], JS.Ok g))
    by (eexists; vm_compute; reflexivity).
  destruct B as (g & B).
  destruct (scene_objects_follow_the_node_definitions _ _ _ B)
    as (_ & buffers & accessors & images & textures & Hb & Ha & Hi & Ht & F).
  assert (E : exists grp,
             forall meshDef,
               JS.index (JS.or_empty (meshes doc_two_views_of_a_mesh)) 0 = Some meshDef ->
               forall grp', JS.outcome (_buildMesh (with_textures (with_images
                                          (ctx_of doc_two_views_of_a_mesh
                                             (Some (bytes "000000000000"))) images) textures)
                                          meshDef accessors) = JS.Ok grp' ->
                            grp' = grp /\ THREE.mg_name grp = "chair"%string /\
                            List.map THREE.m_name (THREE.mg_children grp) = ["chair_0"%string]).
  { injection Hb as <-. injection Ha as <-. injection Hi as <-. injection Ht as <-.
    eexists. intros meshDef Hd grp' Hg. injection Hd as <-.
    vm_compute in Hg. injection Hg as <-. repeat split. }
  destruct E as (grp & E).
  exists [], g, grp. split; [ exact B | ].
  inversion F as [ | nd0 o0 l0 l0' H0 F0 E0 E0']; subst.
  inversion F0 as [ | nd1 o1 l1 l1' H1 F1 E1 E1']; subst.
  inversion F1; subst.
  destruct H0 as (N0 & _ & _ & _ & (d0 & g0 & D0 & G0 & M0)).
  destruct H1 as (N1 & _ & _ & _ & (d1 & g1 & D1 & G1 & M1)).
  destruct (E d0 D0 g0 G0) as (-> & Hn & Hc).
  destruct (E d1 D1 g1 G1) as (-> & _ & _).
  cbn [List.map]. rewrite N0, N1, M0, M1. repeat split; assumption.
Defined.
(** The children of the scene are the nodes the selected scene names,
    [json.scenes[json.scene || 0].nodes]: none when the document has no
    scenes, when the index selects none, or when the scene has no list;
    otherwise the named nodes that exist, each once, a node named again
    moving to the end; so distinct indices give the nodes in the order
    they are named. *)
Theorem scene_children_are_the_named_nodes
    (ctx : Context) (w : list string) (g : THREE.Graph) :
  _buildScene ctx = (w, JS.Ok g) ->
  let n := List.length (JS.or_empty (nodes (ctx_json ctx))) in
  THREE.o_children (THREE.root g)
  = match scene_ids (ctx_json ctx) with
    | Some ids => attach_all n ids []
    | None => []
    end /\
  (forall ids, scene_ids (ctx_json ctx) = Some ids -> NoDup (filter (in_range n) ids) ->
     THREE.o_children (THREE.root g)
     = List.map (fun id => THREE.ChildNode (Z.to_nat id)) (filter (in_range n) ids)).
Proof.
  intros H n. destruct (buildScene_graph ctx w g H) as (c & meshes & objs & _ & F & _ & _ & C).
  assert (L : List.length objs = n) by (symmetry; eapply Forall2_length; exact F).
  rewrite L in C. change (children_of g THREE.RefScene) with (THREE.o_children (THREE.root g)) in C.
  split; [ exact C | ].
  intros ids Hi ND. rewrite C, Hi.
  rewrite attach_all_distinct; [ reflexivity | exact ND | ]. intros id _ [].
Qed.

Lemma scene_children_are_the_named_nodes_witness :
  exists w g,
    _buildScene (ctx_of doc_shared_child None) = (w, JS.Ok g) /\
    THREE.o_children (THREE.root g) = attach_all 3 [0; 2; 5; 0] [] /\
    attach_all 3 [0; 2; 5; 0] [] = [THREE.ChildNode 2; THREE.ChildNode 0].
Proof.
  eexists _, _. split; [ vm_compute; reflexivity | ].
  split; [ | reflexivity ].
  match goal with
  | |- THREE.o_children (THREE.root ?g) = _ =>
      apply (proj1 (scene_children_are_the_named_nodes
                      (ctx_of doc_shared_child None)
                      ["THREE.Object3D.add: object can't be added as a child of itself."%string]
                      g ltac:(vm_compute; reflexivity)))
  end.
Defined.

(** A node whose mesh index is out of range aborts with a TypeError;
    otherwise [_buildNode] returns, without writing to the console, an
    object without parent whose only child is the clone of its mesh group,
    if it names one. *)
Theorem node_needs_its_mesh (ctx : Context) (nd : NodeDef) (meshes : list THREE.MeshGroup) :
  (forall k, node_mesh nd = Some k -> JS.index meshes k = None ->
     _buildNode ctx nd meshes = JS.throw JS.TypeError) /\
  ((forall k, node_mesh nd = Some k -> JS.index meshes k <> None) ->
   exists o, _buildNode ctx nd meshes = JS.ret o /\
             THREE.o_parent o = None /\
             THREE.o_name o = JS.or_string (node_name nd) "node" /\
             THREE.o_children o
             = match node_mesh nd with
               | Some k => match JS.index meshes k with
                           | Some grp => [THREE.ChildMesh grp]
                           | None => []
                           end
               | None => []
               end).
Proof.
  split.
  - intros k Hk Hn. unfold _buildNode. now rewrite Hk, Hn.
  - intros Hm.
    destruct (_buildNode ctx nd meshes) as [w [o | e]] eqn:E.
    + pose proof (buildNode_ok ctx nd meshes w o E) as (-> & P & _ & N & _ & _ & _ & C).
      exists o. repeat split; assumption.
    + exfalso. unfold _buildNode in E.
      destruct (node_mesh nd) as [k | ].
      * specialize (Hm k eq_refl).
        destruct (JS.index meshes k); [ | congruence ].
        cbn [deref] in E. rewrite !bind_ret_l in E. discriminate.
      * rewrite bind_ret_l in E. discriminate.
Qed.

Lemma node_needs_its_mesh_witness :
  _buildNode (ctx_of empty_document None)
    {| node_name := None; node_mesh := Some 2; node_translation := None;
       node_scale := None; node_rotation := None; node_children := None |} [empty_group]
  = JS.throw JS.TypeError.
Proof.
  apply (proj1 (node_needs_its_mesh (ctx_of empty_document None)
                  {| node_name := None; node_mesh := Some 2; node_translation := None;
                     node_scale := None; node_rotation := None; node_children := None |}
                  [empty_group]) 2); reflexivity.
Defined.

(* ================================================================== *)
(** * Loading from a URL *)
(* ================================================================== *)

Lemma loads_app (a b : list event) : loads (a ++ b) = loads a ++ loads b.
Proof. unfold loads. apply flat_map_app. Qed.

Lemma errors_app (a b : list event) : errors (a ++ b) = errors a ++ errors b.
Proof. unfold errors. apply flat_map_app. Qed.

Lemma loads_console (w : list string) : loads (List.map Console w) = [].
Proof. induction w; [ reflexivity | exact IHw ]. Qed.

Lemma errors_console (w : list string) : errors (List.map Console w) = [].
Proof. induction w; [ reflexivity | exact IHw ]. Qed.

(** When the callbacks that are given return, [load] reports exactly one
    outcome and its chain of promises is fulfilled.  Its trace is, after
    the lines [parse] wrote to the console: the call of [onLoad] with the
    result (nothing when [onLoad] is not given) when the model was fetched
    with an ok status and parsed; otherwise one report of one error and no
    call of [onLoad], the report being a call of [onError] when [onError]
    is given and a [console.error] when it is not.  The error is the
    rejection of [fetch] or of the body, an Error "HTTP" with the status
    when the status is not ok (the body is then not parsed), or the
    exception of [parse]. *)
Theorem load_reports_one_outcome
    (JSON_parse : JS.ArrayBuffer -> parsed) (fetched : JS.result Response) (url : string)
    (onLoad : callback GLTF) (onError : callback JS.exn) :
  (forall f gltf, onLoad = Some f -> f gltf = None) ->
  (forall h e, onError = Some h -> h e = None) ->
  let reported := fun e => match onError with
                           | Some _ => OnError e
                           | None => ConsoleError e
                           end in
  let t := fst (load JSON_parse fetched url onLoad onError) in
  snd (load JSON_parse fetched url onLoad onError) = JS.Ok tt /\
  t = match load_body fetched with
      | JS.Ok ab =>
          List.map Console (JS.console (parse JSON_parse ab (Some url))) ++
          match JS.outcome (parse JSON_parse ab (Some url)) with
          | JS.Ok gltf => match onLoad with
                          | Some _ => [OnLoad gltf]
                          | None => []
                          end
          | JS.Throw e => [reported e]
          end
      | JS.Throw e => [reported e]
      end /\
  (forall e, fetched = JS.Throw e -> t = [reported e]) /\
  (forall r, fetched = JS.Ok r -> r_ok r = false ->
             t = [reported (JS.Error ("HTTP " ++ string_of_index (r_status r)))]) /\
  (forall r e, fetched = JS.Ok r -> r_ok r = true -> r_arrayBuffer r = JS.Throw e ->
               t = [reported e]).
Proof.
  intros QL QE. cbv zeta.
  assert (R : forall e, report onError e
                        = ([match onError with
                            | Some _ => OnError e
                            | None => ConsoleError e
                            end], JS.Ok tt)).
  { intros e. unfold report. destruct onError as [h | ]; [ | reflexivity ].
    now rewrite (QE h e eq_refl). }
  assert (T : load JSON_parse fetched url onLoad onError
              = (match load_body fetched with
                 | JS.Ok ab =>
                     List.map Console (JS.console (parse JSON_parse ab (Some url))) ++
                     match JS.outcome (parse JSON_parse ab (Some url)) with
                     | JS.Ok gltf => match onLoad with
                                     | Some _ => [OnLoad gltf]
                                     | None => []
                                     end
                     | JS.Throw e => [match onError with
                                      | Some _ => OnError e
                                      | None => ConsoleError e
                                      end]
                     end
                 | JS.Throw e => [match onError with
                                  | Some _ => OnError e
                                  | None => ConsoleError e
                                  end]
                 end, JS.Ok tt)).
  { unfold load. destruct (load_body fetched) as [ab | e].
    - unfold load_parse. cbv zeta.
      destruct (parse JSON_parse ab (Some url)) as [w [gltf | e]];
        cbn [JS.outcome JS.console fst snd].
      + destruct onLoad as [f | ]; cbn [fst snd]; [ | reflexivity ].
        rewrite (QL f gltf eq_refl). reflexivity.
      + rewrite R. cbv beta iota. cbn [fst snd app]. reflexivity.
    - cbn [fst snd]. rewrite R. cbv beta iota. reflexivity. }
  rewrite T. cbn [fst snd]. split; [ reflexivity | ]. split; [ reflexivity | ].
  split; [ | split ].
  - intros e ->. reflexivity.
  - intros r -> Hr. cbn [load_body]. now rewrite Hr.
  - intros r e -> Hr Hb. cbn [load_body]. now rewrite Hr, Hb.
Qed.

Lemma load_reports_one_outcome_witness :
  load JSON_parse_sample (JS.Ok response_404) "chair.glb" quiet quiet
  = ([OnError (JS.Error "HTTP 404")], JS.Ok tt) /\
  load JSON_parse_sample
    (JS.Ok {| r_ok := true; r_status := 200; r_arrayBuffer := JS.Ok glb_bin_only |})
    "chair.glb" quiet quiet
  = ([OnError (JS.Error "Missing JSON chunk")], JS.Ok tt) /\
  load JSON_parse_sample
    (JS.Ok {| r_ok := true; r_status := 200; r_arrayBuffer := JS.Ok glb_bin_only |})
    "chair.glb" quiet None
  = ([ConsoleError (JS.Error "Missing JSON chunk")], JS.Ok tt).
Proof.
  assert (Q : forall A (f : A -> option JS.exn) (a : A), quiet = Some f -> f a = None)
    by (intros A f a [= <-]; reflexivity).
  split; [ | split ].
  - destruct (load_reports_one_outcome JSON_parse_sample (JS.Ok response_404) "chair.glb"
                quiet quiet (Q _) (Q _)) as (R & _ & _ & E & _).
    specialize (E response_404 eq_refl eq_refl).
    destruct (load JSON_parse_sample (JS.Ok response_404) "chair.glb" quiet quiet) as [t r].
    cbn [fst snd] in *. subst t r. reflexivity.
  - destruct (load_reports_one_outcome JSON_parse_sample
                (JS.Ok {| r_ok := true; r_status := 200; r_arrayBuffer := JS.Ok glb_bin_only |})
                "chair.glb" quiet quiet (Q _) (Q _)) as (R & E & _).
    destruct (load JSON_parse_sample _ "chair.glb" quiet quiet) as [t r].
    cbn [fst snd] in *. subst t r. reflexivity.
  - destruct (load_reports_one_outcome JSON_parse_sample
                (JS.Ok {| r_ok := true; r_status := 200; r_arrayBuffer := JS.Ok glb_bin_only |})
                "chair.glb" quiet None (Q _)) as (R & E & _).
    + intros h e H. discriminate H.
    + destruct (load JSON_parse_sample _ "chair.glb" quiet None) as [t r].
      cbn [fst snd] in *. subst t r. reflexivity.
Defined.
Lemma load_calls_are_few
    (JSON_parse : JS.ArrayBuffer -> parsed) (fetched : JS.result Response) (url : string)
    (onLoad : callback GLTF) (onError : callback JS.exn) :
  let t := fst (load JSON_parse fetched url onLoad onError) in
  (List.length (loads t) <= 1)%nat /\ (List.length (errors t) <= 2)%nat /\
  (onError = None -> snd (load JSON_parse fetched url onLoad onError) = JS.Ok tt).
Proof.
  cbv zeta. unfold load, load_parse, report.
  destruct (load_body fetched) as [ab | e0];
    [ destruct (parse JSON_parse ab (Some url)) as [w [gltf | e]] | ];
    destruct onLoad as [f | ], onError as [h | ];
    cbn -[loads errors];
    repeat match goal with
           | |- context [match ?f ?x with Some _ => _ | None => _ end] =>
               destruct (f x); cbn -[loads errors]
           end;
    rewrite ?loads_app, ?errors_app, ?loads_console, ?errors_console;
    cbn; repeat split; first [ lia | discriminate | reflexivity ].
Qed.

Lemma load_throwing_twice
    (JSON_parse : JS.ArrayBuffer -> parsed) (fetched : JS.result Response) (url : string)
    (ab : JS.ArrayBuffer) (w : list string) (gltf : GLTF)
    (f : GLTF -> option JS.exn) (h : JS.exn -> option JS.exn) (e e' : JS.exn) :
  load_body fetched = JS.Ok ab -> parse JSON_parse ab (Some url) = (w, JS.Ok gltf) ->
  f gltf = Some e -> h e = Some e' ->
  fst (load JSON_parse fetched url (Some f) (Some h))
  = List.map Console w ++ [OnLoad gltf; OnError e; OnError e'].
Proof.
  intros Hb Hp Hf Hh. unfold load, load_parse, report. rewrite Hb, Hp.
  cbn [JS.outcome JS.console fst snd]. rewrite Hf. cbn [fst snd]. rewrite Hh.
  cbv beta iota. cbn [fst snd].
  destruct (h e'); cbn [fst snd]; now rewrite <- !app_assoc.
Qed.

(** What [load] does with callbacks that throw: an exception of
    [onLoad] is caught with those of [parse] and goes to [onError]; an
    exception that [onError] raises there reaches the last reaction of the
    chain, which calls [onError] a second time, with that exception; so
    [onError] can be called twice, but never more, and [onLoad] never more
    than once; and without an [onError] the chain is always fulfilled,
    every exception ending on the console. *)
Theorem load_with_throwing_callbacks
    (JSON_parse : JS.ArrayBuffer -> parsed) (fetched : JS.result Response) (url : string)
    (onLoad : callback GLTF) (onError : callback JS.exn) :
  let t := fst (load JSON_parse fetched url onLoad onError) in
  (List.length (loads t) <= 1)%nat /\
  (List.length (errors t) <= 2)%nat /\
  (onError = None -> snd (load JSON_parse fetched url onLoad onError) = JS.Ok tt) /\
  (forall ab w gltf f e h e',
     load_body fetched = JS.Ok ab -> parse JSON_parse ab (Some url) = (w, JS.Ok gltf) ->
     onLoad = Some f -> f gltf = Some e ->
     onError = Some h -> h e = Some e' ->
     t = List.map Console w ++ [OnLoad gltf; OnError e; OnError e']).
Proof.
  cbv zeta.
  destruct (load_calls_are_few JSON_parse fetched url onLoad onError) as (L & E & Q).
  repeat (split; [ assumption | ]).
  intros ab w gltf f e h e' Hb Hp -> Hf -> Hh.
  now apply load_throwing_twice with (ab := ab).
Qed.

Lemma load_with_throwing_callbacks_witness :
  fst (load JSON_parse_sample
         (JS.Ok {| r_ok := true; r_status := 200;
                   r_arrayBuffer := JS.Ok (glb [(CHUNK_JSON, bytes text_empty_object)]) |})
         "chair.glb"
         (Some (fun _ => Some JS.TypeError))
         (Some (fun e => match e with JS.TypeError => Some JS.RangeError | _ => None end)))
  = [OnLoad {| gltf_scene := {| THREE.objects := [];
                                THREE.root := THREE.new_Group "GLBScene" |};
               gltf_json := empty_document |};
     OnError JS.TypeError; OnError JS.RangeError].
Proof.
  exact (proj2 (proj2 (proj2
           (load_with_throwing_callbacks JSON_parse_sample
              (JS.Ok {| r_ok := true; r_status := 200;
                        r_arrayBuffer := JS.Ok (glb [(CHUNK_JSON, bytes text_empty_object)]) |})
              "chair.glb"
              (Some (fun _ => Some JS.TypeError))
              (Some (fun e => match e with JS.TypeError => Some JS.RangeError | _ => None end)))))
           (glb [(CHUNK_JSON, bytes text_empty_object)]) []
           {| gltf_scene := {| THREE.objects := [];
                               THREE.root := THREE.new_Group "GLBScene" |};
              gltf_json := empty_document |}
           _ JS.TypeError _ JS.RangeError
           eq_refl eq_refl eq_refl eq_refl eq_refl eq_refl).
Defined.

(* ================================================================== *)
(** * Indices that are not guarded *)
(* ================================================================== *)

Lemma buildAccessors_length (ctx : Context) (buffers : list JS.ArrayBuffer)
    (w : list string) (accs : list AccessorData) :
  _buildAccessors ctx buffers = (w, JS.Ok accs) ->
  List.length accs = List.length (JS.or_empty (accessors (ctx_json ctx))).
Proof.
  unfold _buildAccessors. intros H.
  apply bind_ok_inv in H. destruct H as (? & views & w2 & _ & H & _).
  eapply mapi_from_length. exact H.
Qed.

(** Where a child index or a scene node index that is out of range is
    skipped, a mesh index or an accessor index that is out of range is
    not: a document in which a node names a mesh that does not exist, or
    in which a primitive that is not skipped names an accessor that does
    not exist, never yields a scene, even when nothing refers to that node
    or to that mesh. *)
Theorem unguarded_index_aborts_the_scene (ctx : Context) :
  let json := ctx_json ctx in
  Exists (fun nd => exists k, node_mesh nd = Some k /\
                              in_range (List.length (JS.or_empty (meshes json))) k = false)
         (JS.or_empty (nodes json)) \/
  Exists (fun md =>
            Exists (fun prim =>
                      skipped_with prim = None /\
                      exists k, In k (accessor_references prim) /\
                                in_range (List.length (JS.or_empty (accessors json))) k = false)
                   (JS.or_empty (mesh_primitives md)))
         (JS.or_empty (meshes json)) ->
  JS.throws (_buildScene ctx) = true.
Proof.
  cbv zeta. intros H. unfold _buildScene. cbv zeta.
  apply throws_bind. intros w0 bufs _.
  apply throws_bind. intros w1 accs Ha. apply buildAccessors_length in Ha.
  apply throws_bind. intros w2 imgs _.
  apply throws_bind. intros w3 texs _.
  destruct H as [Hn | Hm].
  - apply throws_bind. intros w4 ms Hms.
    assert (L : List.length ms = List.length (JS.or_empty (meshes (ctx_json ctx))))
      by (eapply mapi_from_length; exact Hms).
    apply throws_bind_l. unfold JS.map, JS.mapi. apply mapi_from_throws.
    eapply Exists_impl; [ | exact Hn ]. cbn beta. intros nd (k & Hk & Hr) _.
    unfold _buildNode. rewrite Hk, index_in_range by (now rewrite L). reflexivity.
  - apply throws_bind_l. unfold JS.map, JS.mapi. apply mapi_from_throws.
    eapply Exists_impl; [ | exact Hm ]. cbn beta. intros md Hp _.
    unfold JS.throws. rewrite buildMesh_dangling; [ reflexivity | ].
    eapply Exists_impl; [ | exact Hp ]. cbn beta. intros prim (S & k & Hk & Hr).
    split; [ exact S | ]. exists k. split; [ exact Hk | ].
    apply index_in_range. now rewrite Ha.
Qed.

Lemma unguarded_index_aborts_the_scene_witness :
  JS.throws (_buildScene (ctx_of doc_dangling_mesh None)) = true /\
  JS.throws (_buildScene (ctx_of doc_dangling_accessor None)) = true.
Proof.
  split.
  - apply (unguarded_index_aborts_the_scene (ctx_of doc_dangling_mesh None)).
    left. apply Exists_cons_hd. exists 1. split; reflexivity.
  - apply (unguarded_index_aborts_the_scene (ctx_of doc_dangling_accessor None)).
    right. apply Exists_cons_hd. apply Exists_cons_hd.
    split; [ reflexivity | ]. exists 3. split; [ cbn; tauto | reflexivity ].
Defined.
